(** * Rappterbook front end: router, fetch cache, discussions gateway,
      markdown renderer and comment threading.

    A shallow embedding of [src/js/markdown.js], [src/js/discussions.js],
    [src/js/state.js], [src/js/router.js], [src/js/render.js] and the
    authentication module, with the properties the specification states
    about them. *)

From Stdlib Require Import List NArith ZArith Lia Bool String Ascii.
From Stdlib Require Import DecimalString.
From stdpp Require Import gmap.
Import ListNotations.

Set Default Proof Using "Type".
Set Warnings "-register-all".

(* ================================================================== *)
(** ** JavaScript strings *)
(* ================================================================== *)

(** A JavaScript string is a sequence of UTF-16 code units. *)
Module JsString.

Abbreviation t := (list N).

(** Literals of the source are written with [str]; every character of
    the literals used here is ASCII, except the em dash of the reply
    byline, which is written as its code unit [emdash]. *)
Definition str (s : string) : t :=
  List.map N_of_ascii (list_ascii_of_string s).
Arguments str s%_string.

Definition emdash : N := 8212.

(** [String(n)] for a non-negative integer. *)
Definition of_nat (n : nat) : t :=
  str (NilZero.string_of_uint (Nat.to_uint n)).

Definition eqb (a b : t) : bool := bool_decide (a = b).

Fixpoint is_prefix (p s : t) : bool :=
  match p, s with
  | [], _ => true
  | a :: p', b :: s' => N.eqb a b && is_prefix p' s'
  | _ :: _, [] => false
  end.

(** LineTerminator code points. *)
Definition is_line_terminator (c : N) : bool :=
  N.eqb c 10 || N.eqb c 13 || N.eqb c 8232 || N.eqb c 8233.

(** WhiteSpace and LineTerminator code points: what [\s] matches and
    what [trim] removes. *)
Definition is_space (c : N) : bool :=
  (N.leb 9 c && N.leb c 13) || N.eqb c 32 || N.eqb c 160
  || N.eqb c 5760 || (N.leb 8192 c && N.leb c 8202)
  || N.eqb c 8232 || N.eqb c 8233 || N.eqb c 8239 || N.eqb c 8287
  || N.eqb c 12288 || N.eqb c 65279.

(** [\w] is [A-Za-z0-9_]. *)
Definition is_word (c : N) : bool :=
  (N.leb 65 c && N.leb c 90) || (N.leb 97 c && N.leb c 122)
  || (N.leb 48 c && N.leb c 57) || N.eqb c 95.

Fixpoint drop_while (p : N -> bool) (s : t) : t :=
  match s with
  | [] => []
  | c :: s' => if p c then drop_while p s' else s
  end.

Fixpoint take_while (p : N -> bool) (s : t) : t :=
  match s with
  | [] => []
  | c :: s' => if p c then c :: take_while p s' else []
  end.

(** [s.trim()] *)
Definition trim (s : t) : t :=
  rev (drop_while is_space (rev (drop_while is_space s))).

(** [parts.join(sep)] *)
Fixpoint join (sep : t) (parts : list t) : t :=
  match parts with
  | [] => []
  | [p] => p
  | p :: ps => p ++ sep ++ join sep ps
  end.

(** First occurrence of [pat] in [s]: the text before it and the text
    after it. *)
Fixpoint find_sub (pat s : t) : option (t * t) :=
  if is_prefix pat s then Some ([], skipn (length pat) s)
  else match s with
       | [] => None
       | c :: s' =>
           match find_sub pat s' with
           | Some (pre, post) => Some (c :: pre, post)
           | None => None
           end
       end.

Definition includes (s pat : t) : bool :=
  match find_sub pat s with Some _ => true | None => false end.

End JsString.

Import JsString.

(* ================================================================== *)
(** ** Regular expressions *)
(* ================================================================== *)

(** The subset of ECMAScript regular expressions the sources use, with
    the backtracking semantics of the language: alternatives are tried
    left to right, greedy quantifiers take the longest iteration count
    first, lazy ones the shortest, and the first success wins. *)
Module Regex.

(** Character classes. *)
Inductive cls :=
| CIs (c : N)                (* a literal character *)
| CNot (l : list N)          (* [^...] over literal characters *)
| CRange (lo hi : N)         (* [lo-hi] *)
| CAny                       (* [\s\S] *)
| CDot                       (* . : anything but a line terminator *)
| CWord                      (* \w *)
| CSpace.                    (* \s *)

Definition in_cls (k : cls) (x : N) : bool :=
  match k with
  | CIs c => N.eqb x c
  | CNot l => negb (existsb (N.eqb x) l)
  | CRange lo hi => N.leb lo x && N.leb x hi
  | CAny => true
  | CDot => negb (is_line_terminator x)
  | CWord => is_word x
  | CSpace => is_space x
  end.

Inductive re :=
| Eps
| Chr (k : cls)
| Seq (a b : re)
| Alt (a b : re)
| Star (greedy : bool) (a : re)
| Grp (i : nat) (a : re)     (* capturing group number i *)
| Bol                        (* ^ *)
| Eol                        (* $ *)
| NotBehind (k : cls)        (* (?<!k) *)
| NotAhead (k : cls).        (* (?!k) *)

(** [a+], [a+?] and [a?]. *)
Definition Plus (g : bool) (a : re) : re := Seq a (Star g a).
Definition Opt (a : re) : re := Alt a Eps.

(** A literal string. *)
Fixpoint Lit (s : JsString.t) : re :=
  match s with
  | [] => Eps
  | c :: s' => Seq (Chr (CIs c)) (Lit s')
  end.

Fixpoint seqs (l : list re) : re :=
  match l with
  | [] => Eps
  | [a] => a
  | a :: l' => Seq a (seqs l')
  end.

(** Number of capturing groups. *)
Fixpoint ngroups (r : re) : nat :=
  match r with
  | Seq a b | Alt a b => ngroups a + ngroups b
  | Star _ a => ngroups a
  | Grp _ a => S (ngroups a)
  | _ => 0
  end.

(** Captures: the most recent binding of a group comes first. *)
Definition captures := list (nat * JsString.t).

Fixpoint cap (i : nat) (cs : captures) : option JsString.t :=
  match cs with
  | [] => None
  | (j, s) :: cs' => if Nat.eqb i j then Some s else cap i cs'
  end.

(** A capture used as a string: an unmatched group gives the empty
    string. *)
Definition cap_str (i : nat) (cs : captures) : JsString.t :=
  match cap i cs with Some s => s | None => [] end.

(** The character before the position reached once [s] has been read
    from a position that [prev] comes before. *)
Definition last_of (prev : option N) (s : JsString.t) : option N :=
  fold_left (fun _ c => Some c) s prev.

Section Matcher.
(** The [m] flag. *)
Variable multiline : bool.
Context {R : Type}.

(** A continuation receives the character before the current
    position, the text matched so far by the enclosing term, the
    remaining input and the captures. *)
Definition cont := option N -> JsString.t -> JsString.t -> captures -> option R.

Definition at_bol (prev : option N) : bool :=
  match prev with
  | None => true
  | Some c => multiline && is_line_terminator c
  end.

Definition at_eol (inp : JsString.t) : bool :=
  match inp with
  | [] => true
  | c :: _ => multiline && is_line_terminator c
  end.

(** The iterations of a star.  [step] matches one iteration; an
    iteration that consumes nothing is rejected, as in the language, so
    the length of the input bounds the number of iterations ([n]).  A
    greedy star tries one more iteration before it tries what follows;
    a lazy one tries what follows first. *)
Definition star_loop
    (step : option N -> JsString.t -> captures -> cont -> option R)
    (g : bool) (k : cont)
  : nat -> option N -> JsString.t -> JsString.t -> captures -> option R :=
  fix loop (n : nat) (prev : option N) (acc inp : JsString.t)
      (cs : captures) {struct n} : option R :=
    match n with
    | O => k prev acc inp cs
    | S n' =>
        let more :=
          fun (_ : unit) =>
            step prev inp cs (fun p1 s1 i1 c1 =>
              match s1 with
              | [] => None
              | _ :: _ => loop n' p1 (acc ++ s1) i1 c1
              end) in
        if g then
          match more tt with
          | Some x => Some x
          | None => k prev acc inp cs
          end
        else
          match k prev acc inp cs with
          | Some x => Some x
          | None => more tt
          end
    end.

(** [m r prev inp cs k] matches [r] at the current position; [prev] is
    the character just before it. *)
Fixpoint m (r : re) (prev : option N) (inp : JsString.t) (cs : captures)
    (k : cont) {struct r} : option R :=
  match r with
  | Eps => k prev [] inp cs
  | Chr c =>
      match inp with
      | x :: inp' => if in_cls c x then k (Some x) [x] inp' cs else None
      | [] => None
      end
  | Seq a b =>
      m a prev inp cs (fun p1 s1 i1 c1 =>
        m b p1 i1 c1 (fun p2 s2 i2 c2 => k p2 (s1 ++ s2) i2 c2))
  | Alt a b =>
      match m a prev inp cs k with
      | Some x => Some x
      | None => m b prev inp cs k
      end
  | Star g a => star_loop (m a) g k (length inp) prev [] inp cs
  | Grp i a =>
      m a prev inp cs (fun p1 s1 i1 c1 => k p1 s1 i1 ((i, s1) :: c1))
  | Bol => if at_bol prev then k prev [] inp cs else None
  | Eol => if at_eol inp then k prev [] inp cs else None
  | NotBehind c =>
      match prev with
      | Some x => if in_cls c x then None else k prev [] inp cs
      | None => k prev [] inp cs
      end
  | NotAhead c =>
      match inp with
      | x :: _ => if in_cls c x then None else k prev [] inp cs
      | [] => k prev [] inp cs
      end
  end.
End Matcher.

Arguments star_loop : simpl never.

(** What a greedy star over a character class amounts to: the
    continuation is tried after the whole run of accepted characters,
    then after shorter and shorter prefixes of the run. *)
Fixpoint backtrack {R : Type} (k : cont (R := R)) (prev : option N)
    (acc run rest : JsString.t) (cs : captures) : option R :=
  match run with
  | [] => k prev acc rest cs
  | x :: run' =>
      match backtrack k (Some x) (acc ++ [x]) run' rest cs with
      | Some y => Some y
      | None => k prev acc (run ++ rest) cs
      end
  end.

(** A continuation that fails whenever the input starts with a
    character accepted by [p]. *)
Definition rejects {R : Type} (p : N -> bool) (k : cont (R := R)) : Prop :=
  forall prev acc x inp cs, p x = true -> k prev acc (x :: inp) cs = None.

(** A successful match: the text before it, the matched text, the text
    after it, the captures, and the last character at or before the end
    of the match. *)
Record found := Found {
  f_pre : JsString.t;
  f_text : JsString.t;
  f_post : JsString.t;
  f_caps : captures;
  f_prev : option N
}.

(** A match at exactly the current position. *)
Definition match_here (ml : bool) (r : re) (prev : option N) (inp : JsString.t)
  : option found :=
  m ml r prev inp [] (fun p s i c => Some (Found [] s i c p)).

Definition shift (c : N) (f : found) : found :=
  Found (c :: f_pre f) (f_text f) (f_post f) (f_caps f) (f_prev f).

(** The leftmost match at or after the current position
    ([RegExp.prototype.exec] from [lastIndex]). *)
Fixpoint search (ml : bool) (r : re) (prev : option N) (inp : JsString.t)
  : option found :=
  match match_here ml r prev inp with
  | Some f => Some f
  | None =>
      match inp with
      | [] => None
      | c :: inp' => option_map (shift c) (search ml r (Some c) inp')
      end
  end.

(** [s.match(r)] and [r.test(s)] for a regular expression without the
    [g] flag. *)
Definition exec (ml : bool) (r : re) (s : JsString.t) : option found :=
  search ml r None s.

Definition test (ml : bool) (r : re) (s : JsString.t) : bool :=
  match exec ml r s with Some _ => true | None => false end.

(** [s.replace(r, f)] without the [g] flag: only the leftmost match is
    replaced. *)
Definition replace1 (ml : bool) (r : re) (f : found -> JsString.t)
    (s : JsString.t) : JsString.t :=
  match exec ml r s with
  | Some x => f_pre x ++ f x ++ f_post x
  | None => s
  end.

(** [s.replace(r, f)] with the [g] flag.  The callback may update a
    state of its own (the markdown renderer pushes to an array from
    it).  After an empty match the search resumes one character
    further. *)
Fixpoint replace_from {St : Type} (fuel : nat) (ml : bool) (r : re)
    (f : St -> found -> JsString.t * St) (st : St) (prev : option N)
    (inp : JsString.t) : JsString.t * St :=
  match fuel with
  | O => (inp, st)
  | S fuel' =>
      match search ml r prev inp with
      | None => (inp, st)
      | Some x =>
          let '(out, st1) := f st x in
          let '(tail, st2) :=
            match f_text x with
            | _ :: _ => replace_from fuel' ml r f st1 (f_prev x) (f_post x)
            | [] =>
                match f_post x with
                | [] => ([], st1)
                | c :: post' =>
                    let '(t, st2) :=
                      replace_from fuel' ml r f st1 (Some c) post' in
                    (c :: t, st2)
                end
            end in
          (f_pre x ++ out ++ tail, st2)
      end
  end.

Definition replace_all_st {St : Type} (ml : bool) (r : re)
    (f : St -> found -> JsString.t * St) (st : St) (s : JsString.t)
  : JsString.t * St :=
  replace_from (S (length s)) ml r f st None s.

Definition replace_all (ml : bool) (r : re) (f : found -> JsString.t)
    (s : JsString.t) : JsString.t :=
  fst (replace_all_st ml r (fun (_ : unit) x => (f x, tt)) tt s).

(** [s.match(r)] with the [g] flag: every matched text, in order. *)
Fixpoint match_all_from (fuel : nat) (ml : bool) (r : re) (prev : option N)
    (inp : JsString.t) : list JsString.t :=
  match fuel with
  | O => []
  | S fuel' =>
      match search ml r prev inp with
      | None => []
      | Some x =>
          f_text x ::
          match f_text x with
          | _ :: _ => match_all_from fuel' ml r (f_prev x) (f_post x)
          | [] =>
              match f_post x with
              | [] => []
              | c :: post' => match_all_from fuel' ml r (Some c) post'
              end
          end
      end
  end.

Definition match_all (ml : bool) (r : re) (s : JsString.t) : list JsString.t :=
  match_all_from (S (length s)) ml r None s.

(** [s.split(r)] for a separator without capturing groups.  The
    separator is tried at every position before the end; a match that
    would end where the current piece starts is skipped. *)
Fixpoint split_from (fuel : nat) (ml : bool) (r : re) (prev : option N)
    (piece inp : JsString.t) : list JsString.t :=
  match fuel with
  | O => [piece ++ inp]
  | S fuel' =>
      match inp with
      | [] => [piece]
      | c :: inp' =>
          match match_here ml r prev inp with
          | Some x =>
              match piece, f_text x with
              | [], [] => split_from fuel' ml r (Some c) [c] inp'
              | _, _ => piece :: split_from fuel' ml r (f_prev x) [] (f_post x)
              end
          | None => split_from fuel' ml r (Some c) (piece ++ [c]) inp'
          end
      end
  end.

Definition split (ml : bool) (r : re) (s : JsString.t) : list JsString.t :=
  match s with
  | [] => match match_here ml r None [] with Some _ => [] | None => [[]] end
  | _ => split_from (S (length s)) ml r None [] s
  end.

(** GetSubstitution: the expansion of a replacement string.  [ncaps] is
    the number of capturing groups of the pattern (0 for a string
    pattern). *)
Definition digit (c : N) : option nat :=
  if N.leb 48 c && N.leb c 57 then Some (N.to_nat (c - 48)) else None.

Fixpoint get_substitution (ncaps : nat) (x : found) (tpl : JsString.t)
  : JsString.t :=
  match tpl with
  | [] => []
  | c :: tpl1 =>
      if negb (N.eqb c 36) then c :: get_substitution ncaps x tpl1
      else
        match tpl1 with
        | [] => [c]
        | d1 :: tpl2 =>
            if N.eqb d1 36 then 36%N :: get_substitution ncaps x tpl2
            else if N.eqb d1 38 then f_text x ++ get_substitution ncaps x tpl2
            else if N.eqb d1 96 then f_pre x ++ get_substitution ncaps x tpl2
            else if N.eqb d1 39 then f_post x ++ get_substitution ncaps x tpl2
            else
              match digit d1 with
              | None => c :: get_substitution ncaps x tpl1
              | Some n1 =>
                  let one :=
                    if (1 <=? n1)%nat && (n1 <=? ncaps)%nat
                    then cap_str n1 (f_caps x) ++ get_substitution ncaps x tpl2
                    else c :: get_substitution ncaps x tpl1 in
                  match tpl2 with
                  | [] => one
                  | d2 :: tpl3 =>
                      match digit d2 with
                      | None => one
                      | Some n2 =>
                          let nn := (10 * n1 + n2)%nat in
                          if (1 <=? nn)%nat && (nn <=? ncaps)%nat
                          then cap_str nn (f_caps x) ++ get_substitution ncaps x tpl3
                          else one
                      end
                  end
              end
        end
  end.

(** [s.replace(r, tpl)] with the [g] flag and a replacement string. *)
Definition replace_all_tpl (ml : bool) (r : re) (tpl : JsString.t)
    (s : JsString.t) : JsString.t :=
  replace_all ml r (fun x => get_substitution (ngroups r) x tpl) s.

(** [s.replace(pat, tpl)] with a string pattern: the first occurrence
    only, and the replacement string is still expanded. *)
Definition replace_str (pat tpl s : JsString.t) : JsString.t :=
  match find_sub pat s with
  | Some (pre, post) =>
      pre ++ get_substitution 0 (Found pre pat post [] None) tpl ++ post
  | None => s
  end.

End Regex.

Import Regex.

(* ================================================================== *)
(** ** Markdown renderer ([src/js/markdown.js]) *)
(* ================================================================== *)

Module RB_MARKDOWN.

Definition amp : N := 38.
Definition lt : N := 60.
Definition gt : N := 62.
Definition dquote : N := 34.
Definition squote : N := 39.
Definition backtick : N := 96.
Definition star : N := 42.
Definition newline : N := 10.

(** [escapeHtml(text)]: four global replacements, in this order. *)
Definition escapeHtml (text : JsString.t) : JsString.t :=
  let t1 := replace_all_tpl false (Chr (CIs amp)) (str "&amp;") text in
  let t2 := replace_all_tpl false (Chr (CIs lt)) (str "&lt;") t1 in
  let t3 := replace_all_tpl false (Chr (CIs gt)) (str "&gt;") t2 in
  replace_all_tpl false (Chr (CIs dquote)) (str "&quot;") t3.

(** The fence pattern, flag [g]: three backticks, group 1 = [\w*], a
    newline, group 2 = lazy [[\s\S]*?], three backticks. *)
Definition re_fence : re :=
  seqs [Lit (str "```"); Grp 1 (Star true (Chr CWord)); Chr (CIs newline);
        Grp 2 (Star false (Chr CAny)); Lit (str "```")].

(** The source pattern is "/\n$/". *)
Definition re_trailing_newline : re := Seq (Chr (CIs newline)) Eol.

Definition placeholder (i : nat) : JsString.t :=
  str "%%CODEBLOCK_" ++ of_nat i ++ str "%%".

(** The callback of the fenced-block replacement: it pushes the
    rendered block to [codeBlocks] and returns the placeholder. *)
(** The attribute of the code element: nothing for an empty language
    tag. *)
Definition class_attr (lang : JsString.t) : JsString.t :=
  match lang with
  | [] => []
  | _ :: _ => str " class=" ++ [dquote] ++ str "language-" ++ lang ++ [dquote]
  end.

Definition fence_callback (codeBlocks : list JsString.t) (x : found)
  : JsString.t * list JsString.t :=
  let lang := cap_str 1 (f_caps x) in
  let code := cap_str 2 (f_caps x) in
  let block :=
    str "<pre><code" ++ class_attr lang ++ str ">"
    ++ replace1 false re_trailing_newline (fun _ => []) code
    ++ str "</code></pre>" in
  (placeholder (length codeBlocks), codeBlocks ++ [block]).

Definition extract_code_blocks (html : JsString.t)
  : JsString.t * list JsString.t :=
  replace_all_st false re_fence fence_callback [] html.

(** The source pattern is "/`([^`\n]+)`/g". *)
Definition re_inline_code : re :=
  seqs [Chr (CIs backtick); Grp 1 (Plus true (Chr (CNot [backtick; newline])));
        Chr (CIs backtick)].

Definition inline_code (html : JsString.t) : JsString.t :=
  replace_all false re_inline_code
    (fun x => str "<code>" ++ cap_str 1 (f_caps x) ++ str "</code>") html.

(** The source patterns are "/^### (.+)$/gm", "/^## (.+)$/gm" and
    "/^# (.+)$/gm". *)
Definition re_header (marks : JsString.t) : re :=
  seqs [Bol; Lit marks; Grp 1 (Plus true (Chr CDot)); Eol].

Definition headers (html : JsString.t) : JsString.t :=
  let h3 := replace_all_tpl true (re_header (str "### ")) (str "<h3>$1</h3>") html in
  let h2 := replace_all_tpl true (re_header (str "## ")) (str "<h2>$1</h2>") h3 in
  replace_all_tpl true (re_header (str "# ")) (str "<h1>$1</h1>") h2.

(** The source pattern is "/\*\*([^\n*]+)\*\*/g". *)
Definition re_bold : re :=
  seqs [Lit (str "**"); Grp 1 (Plus true (Chr (CNot [newline; star])));
        Lit (str "**")].

Definition bold (html : JsString.t) : JsString.t :=
  replace_all_tpl false re_bold (str "<strong>$1</strong>") html.

(** The italic pattern, flag [g]: a star not preceded by a star, group
    1 = [[^\n*]+], a star not followed by a star. *)
Definition re_italic : re :=
  seqs [NotBehind (CIs star); Chr (CIs star);
        Grp 1 (Plus true (Chr (CNot [newline; star])));
        Chr (CIs star); NotAhead (CIs star)].

Definition italic (html : JsString.t) : JsString.t :=
  replace_all_tpl false re_italic (str "<em>$1</em>") html.

(** The source pattern is "/\[([^\]]+)\]\((https?:\/\/[^)]+)\)/g". *)
Definition re_link : re :=
  seqs [Chr (CIs 91); Grp 1 (Plus true (Chr (CNot [93%N])));
        Lit (str "](");
        Grp 2 (seqs [Lit (str "http"); Opt (Chr (CIs 115)); Lit (str "://");
                     Plus true (Chr (CNot [41%N]))]);
        Chr (CIs 41)].

Definition link_template : JsString.t :=
  str "<a href=" ++ [dquote] ++ str "$2" ++ [dquote]
  ++ str " target=" ++ [dquote] ++ str "_blank" ++ [dquote]
  ++ str " rel=" ++ [dquote] ++ str "noopener" ++ [dquote] ++ str ">$1</a>".

Definition links (html : JsString.t) : JsString.t :=
  replace_all_tpl false re_link link_template html.

(** The list pattern, flags [gm]: group 1 = a line "^- .+$" followed by
    any number of group 2 = "\n- .+$". *)
Definition re_list : re :=
  Grp 1 (seqs [Bol; Lit (str "- "); Plus true (Chr CDot); Eol;
               Star true (Grp 2 (seqs [Lit (newline :: str "- ");
                                       Plus true (Chr CDot); Eol]))]).

(** The source pattern is "/^- /". *)
Definition re_item_mark : re := Seq Bol (Lit (str "- ")).

(** [block.split('\n')] *)
Fixpoint split_lines_from (line s : JsString.t) : list JsString.t :=
  match s with
  | [] => [line]
  | c :: s' =>
      if N.eqb c newline then line :: split_lines_from [] s'
      else split_lines_from (line ++ [c]) s'
  end.

Definition split_lines (s : JsString.t) : list JsString.t :=
  split_lines_from [] s.

Definition list_callback (x : found) : JsString.t :=
  let items :=
    List.map (fun line =>
                str "<li>" ++ replace1 false re_item_mark (fun _ => []) line
                ++ str "</li>")
             (split_lines (f_text x)) in
  str "<ul>" ++ join [] items ++ str "</ul>".

Definition lists (html : JsString.t) : JsString.t :=
  replace_all true re_list list_callback html.

(** The source pattern is "/\n\n+/". *)
Definition re_blank_lines : re :=
  Seq (Chr (CIs newline)) (Plus true (Chr (CIs newline))).

(** The source pattern is "/^<(h[1-3]|ul|pre|%%CODEBLOCK)/". *)
Definition re_block_level : re :=
  seqs [Bol; Chr (CIs lt);
        Grp 1 (Alt (Seq (Chr (CIs 104)) (Chr (CRange 49 51)))
              (Alt (Lit (str "ul"))
              (Alt (Lit (str "pre")) (Lit (str "%%CODEBLOCK")))))].

Definition wrap_block (block : JsString.t) : JsString.t :=
  let trimmed := trim block in
  match trimmed with
  | [] => []
  | _ :: _ =>
      if test false re_block_level trimmed then trimmed
      else str "<p>" ++ trimmed ++ str "</p>"
  end.

Definition paragraphs (html : JsString.t) : JsString.t :=
  join [newline] (List.map wrap_block (split false re_blank_lines html)).

(** The paragraph pattern, flag [g]: "<p>", group 1 = lazy [[\s\S]*?],
    "</p>". *)
Definition re_paragraph : re :=
  seqs [Lit (str "<p>"); Grp 1 (Star false (Chr CAny)); Lit (str "</p>")].

Definition line_breaks (html : JsString.t) : JsString.t :=
  replace_all false re_paragraph
    (fun x => str "<p>"
              ++ replace_all_tpl false (Chr (CIs newline)) (str "<br>")
                   (cap_str 1 (f_caps x))
              ++ str "</p>") html.

(** [codeBlocks.forEach((block, i) => html = html.replace(placeholder, block))]:
    a string pattern, so only the first occurrence is replaced and the
    block is expanded as a replacement string. *)
Fixpoint restore_from (i : nat) (blocks : list JsString.t) (html : JsString.t)
  : JsString.t :=
  match blocks with
  | [] => html
  | block :: blocks' =>
      restore_from (S i) blocks' (replace_str (placeholder i) block html)
  end.

Definition restore_code_blocks (blocks : list JsString.t) (html : JsString.t)
  : JsString.t :=
  restore_from 0 blocks html.

(** The transforms between the extraction of the code blocks and their
    restoration. *)
Definition inline_and_blocks (html : JsString.t) : JsString.t :=
  line_breaks (paragraphs (lists (links (italic (bold (headers
    (inline_code html))))))).

(** Everything [render] does after the escaping. *)
Definition render_escaped (html : JsString.t) : JsString.t :=
  let '(html1, codeBlocks) := extract_code_blocks html in
  restore_code_blocks codeBlocks (inline_and_blocks html1).

(** [render(text)] *)
Definition render (text : JsString.t) : JsString.t :=
  match text with
  | [] => []
  | _ :: _ => render_escaped (escapeHtml text)
  end.

End RB_MARKDOWN.

(* ================================================================== *)
(** ** Fetch cache ([src/js/state.js]) *)
(* ================================================================== *)

(** What awaiting a promise yields: the value it resolved with, or the
    error it rejected with. *)
Inductive outcome (A : Type) :=
| Resolved (a : A)
| Rejected (message : JsString.t).
Arguments Resolved {A} a.
Arguments Rejected {A} message.

Module RB_STATE.
Section Cache.
(** The type of the cached data. *)
Context {V : Type}.

(** [{ data, timestamp }] *)
Record entry := Entry { data : V; timestamp : Z }.

(** [RB_STATE.cache] is an object used as a map from keys to entries;
    [calls] counts how many times a producer has been invoked.  (The
    object is a plain map for every key but ["__proto__"].) *)
Record state := State {
  cache : gmap JsString.t entry;
  calls : nat
}.

(** [cacheExpiry: 60000] *)
Definition cacheExpiry : Z := 60000.

(** [getCached(key, fetcher)], called when [Date.now()] is [now];
    [fetcher] is what awaiting the producer yields if it is invoked.
    A rejection propagates before anything is stored. *)
Definition getCached (key : JsString.t) (fetcher : outcome V) (now : Z)
    (st : state) : outcome V * state :=
  let miss :=
    match fetcher with
    | Resolved d =>
        (Resolved d,
         State (<[key := Entry d now]> (cache st)) (S (calls st)))
    | Rejected e => (Rejected e, State (cache st) (S (calls st)))
    end in
  match cache st !! key with
  | Some e =>
      if (now - timestamp e <? cacheExpiry)%Z then (Resolved (data e), st)
      else miss
  | None => miss
  end.

(** [RB_STATE.cache = {}], the poll tick of [src/js/app.js]. *)
Definition clear (st : state) : state := State ∅ (calls st).

(** The value stored under a key. *)
Definition stored (st : state) (key : JsString.t) : option V :=
  data <$> cache st !! key.

(** Whether the key has an entry younger than [cacheExpiry] at time
    [now]: the test of [getCached]. *)
Definition fresh (st : state) (key : JsString.t) (now : Z) : bool :=
  match cache st !! key with
  | Some e => (now - timestamp e <? cacheExpiry)%Z
  | None => false
  end.

(** [getCached] in the two steps the event loop runs it in.  Up to its
    [await] the call reads the clock, tests the cache and, on a miss,
    invokes the producer ([begin]: [None] is a call left waiting for its
    producer).  When the producer has settled the call stores the value
    under the time it read at the start, or rethrows ([finish]).
    Another call may run between the two steps. *)
Definition begin (key : JsString.t) (now : Z) (st : state)
  : option V * state :=
  match cache st !! key with
  | Some e =>
      if (now - timestamp e <? cacheExpiry)%Z then (Some (data e), st)
      else (None, State (cache st) (S (calls st)))
  | None => (None, State (cache st) (S (calls st)))
  end.

Definition finish (key : JsString.t) (fetcher : outcome V) (now : Z)
    (st : state) : outcome V * state :=
  match fetcher with
  | Resolved d =>
      (Resolved d, State (<[key := Entry d now]> (cache st)) (calls st))
  | Rejected e => (Rejected e, st)
  end.

(** Two calls that overlap: the second one starts while the first one
    waits for its producer, and the producers settle afterwards, in the
    order of the calls.  The state after all four steps. *)
Definition overlapped (key : JsString.t) (f1 f2 : outcome V)
    (now1 now2 : Z) (st : state) : state :=
  let '(hit1, sa) := begin key now1 st in
  let '(hit2, sb) := begin key now2 sa in
  let sc := match hit1 with
            | Some _ => sb
            | None => snd (finish key f1 now1 sb)
            end in
  match hit2 with
  | Some _ => sc
  | None => snd (finish key f2 now2 sc)
  end.
End Cache.
Arguments entry V : clear implicits.
Arguments state V : clear implicits.
End RB_STATE.

(* ================================================================== *)
(** ** JavaScript values, the network and the browser *)
(* ================================================================== *)

Module Js.

(** The values a JSON payload is made of, with [undefined] for what a
    property access gives on a missing property.  Numbers are the
    integers the payloads carry (identifiers and counters). *)
Inductive value :=
| VUndefined
| VNull
| VBool (b : bool)
| VNum (z : Z)
| VStr (s : JsString.t)
| VArr (items : list value)
| VObj (fields : list (JsString.t * value)).

Definition truthy (v : value) : bool :=
  match v with
  | VUndefined | VNull => false
  | VBool b => b
  | VNum z => negb (z =? 0)%Z
  | VStr s => match s with [] => false | _ :: _ => true end
  | VArr _ | VObj _ => true
  end.

(** [a || b] *)
Definition or_else (a b : value) : value := if truthy a then a else b.

Fixpoint lookup_field (k : JsString.t) (fields : list (JsString.t * value))
  : value :=
  match fields with
  | [] => VUndefined
  | (k', v) :: fields' =>
      if JsString.eqb k k' then v else lookup_field k fields'
  end.

(** [v.k]: a TypeError on [undefined] and [null] ([None]); [undefined]
    on a value without that property. *)
Definition get (v : value) (k : JsString.t) : option value :=
  match v with
  | VUndefined | VNull => None
  | VObj fields => Some (lookup_field k fields)
  | _ => Some VUndefined
  end.

(** [v ? v.k : dflt] *)
Definition get_if (v : value) (k : JsString.t) (dflt : value) : value :=
  if truthy v then
    match get v k with Some x => x | None => dflt end
  else dflt.

(** Whether an object has a property of its own under the key. *)
Definition has_field (k : JsString.t) (fields : list (JsString.t * value))
  : bool :=
  existsb (fun kv => JsString.eqb k (fst kv)) fields.

(** [String(z)] for an integer, in decimal notation (the integers below
    10^21 in size). *)
Definition of_Z (z : Z) : JsString.t :=
  if (z <? 0)%Z then 45%N :: of_nat (Z.to_nat (- z)) else of_nat (Z.to_nat z).

(** The conversion to a string of template literals, [join] and
    [new Error(v)]; [None] is a TypeError.  An array prints its
    elements joined by commas, [null] and [undefined] elements as
    nothing.  An object prints through [Object.prototype.toString]
    unless it has a property [toString] of its own: in a payload that
    property is no function, the conversion finds no method that gives
    a primitive value and throws. *)
Fixpoint to_string (v : value) : option JsString.t :=
  match v with
  | VUndefined => Some (str "undefined")
  | VNull => Some (str "null")
  | VBool b => Some (if b then str "true" else str "false")
  | VNum z => Some (of_Z z)
  | VStr s => Some s
  | VArr items =>
      match
        (fix texts (l : list value) : option (list JsString.t) :=
           match l with
           | [] => Some []
           | x :: l' =>
               match match x with
                     | VUndefined | VNull => Some []
                     | _ => to_string x
                     end, texts l' with
               | Some s, Some ss => Some (s :: ss)
               | _, _ => None
               end
           end) items
      with
      | Some parts => Some (join (str ",") parts)
      | None => None
      end
  | VObj fields =>
      if has_field (str "toString") fields then None
      else Some (str "[object Object]")
  end.

(** [items.join(sep)] on an array of values. *)
Definition element_text (v : value) : option JsString.t :=
  match v with
  | VUndefined | VNull => Some []
  | _ => to_string v
  end.

Fixpoint element_texts (items : list value) : option (list JsString.t) :=
  match items with
  | [] => Some []
  | x :: items' =>
      match element_text x, element_texts items' with
      | Some s, Some ss => Some (s :: ss)
      | _, _ => None
      end
  end.

Definition join_values (sep : JsString.t) (items : list value)
  : option JsString.t :=
  match element_texts items with
  | Some parts => Some (join sep parts)
  | None => None
  end.

End Js.

Module Net.

Inductive method := GET | POST.

(** The mutations and the query sent to the GraphQL endpoint; each
    stands for the query text of the source. *)
Inductive graphql_op :=
| QRepository
| MAddReaction
| MRemoveReaction
| MUpdateDiscussionComment
| MDeleteDiscussionComment
| MCreateDiscussion
| MAddDiscussionComment.

Inductive body :=
| NoBody
| JsonBody (v : Js.value)
| GraphqlBody (op : graphql_op) (variables : list (JsString.t * Js.value)).

Record request := Request {
  req_url : JsString.t;
  req_method : method;
  req_authorization : option JsString.t;
  req_body : body
}.

(** A response: its status and what [response.json()] yields ([None]
    when the body does not parse and the promise rejects). *)
Record response := Response {
  status : Z;
  json : option Js.value
}.

(** [response.ok]: the status is in the range 200-299. *)
Definition ok (r : response) : bool :=
  (200 <=? status r)%Z && (status r <=? 299)%Z.

(** What awaiting [fetch(...)] yields. *)
Inductive fetched :=
| NetworkError (message : JsString.t)
| Got (r : response).

End Net.

(** The normalized shapes of [src/js/discussions.js]. *)
Record post := Post {
  p_title : Js.value;
  p_author : Js.value;
  p_authorId : Js.value;
  p_channel : Js.value;
  p_timestamp : Js.value;
  p_upvotes : Js.value;
  p_commentCount : Js.value;
  p_url : Js.value;
  p_number : Js.value
}.

Record discussion := Discussion {
  d_title : Js.value;
  d_body : Js.value;
  d_author : Js.value;
  d_authorId : Js.value;
  d_githubAuthor : Js.value;
  d_channel : Js.value;
  d_timestamp : Js.value;
  d_upvotes : Js.value;
  d_commentCount : Js.value;
  d_url : Js.value;
  d_number : Js.value;
  d_nodeId : Js.value;
  d_reactions : Js.value
}.

Record comment := Comment {
  c_id : Js.value;
  c_parentId : Js.value;
  c_author : Js.value;
  c_authorId : Js.value;
  c_githubAuthor : Js.value;
  c_body : Js.value;
  c_timestamp : Js.value;
  c_nodeId : Js.value;
  c_reactions : Js.value;
  c_rawBody : Js.value
}.

(** What the [#app] element shows: the render function of
    [src/js/render.js] whose result was assigned to it, with its
    arguments.  [S] is the data of the home page's side panels. *)
Inductive view :=
| ViewLoading
| ViewError (message detail : JsString.t)
| ViewHome (posts : list post)
| ViewDiscussion (d : discussion) (comments : list comment).

(** [RB_STATE.OWNER], [RB_STATE.REPO], [RB_STATE.BRANCH] *)
Record config := Config {
  OWNER : JsString.t;
  REPO : JsString.t;
  BRANCH : JsString.t
}.

(** The part of the browser the modelled code reads and writes: the
    remote servers (an answer for every request), the requests issued so
    far (oldest first), the stored bearer credential
    ([localStorage.rb_access_token]), the address the window has been
    sent to, what the [#app] element shows, whether the "load more"
    button stands after the feed, the handlers attached to the page, the
    repository information cached by [fetchRepoId], the configuration,
    the clock, [_homePostsLoaded] and [_homeBatchSize] (20 in the
    source). *)
Record world := World {
  server : Net.request -> Net.fetched;
  requests : list Net.request;
  token : option JsString.t;
  location_href : option JsString.t;
  app : view;
  load_more : bool;
  handlers : list JsString.t;
  repoInfo : option (Js.value * Js.value);
  cfg : config;
  clock : Z;
  homePostsLoaded : nat;
  homeBatchSize : nat
}.

Definition with_requests (w : world) (x : list Net.request) : world :=
  World (server w) x (token w) (location_href w) (app w) (load_more w)
        (handlers w) (repoInfo w) (cfg w) (clock w) (homePostsLoaded w)
        (homeBatchSize w).
Definition with_location (w : world) (x : option JsString.t) : world :=
  World (server w) (requests w) (token w) x (app w) (load_more w)
        (handlers w) (repoInfo w) (cfg w) (clock w) (homePostsLoaded w)
        (homeBatchSize w).
Definition with_app (w : world) (x : view) : world :=
  World (server w) (requests w) (token w) (location_href w) x (load_more w)
        (handlers w) (repoInfo w) (cfg w) (clock w) (homePostsLoaded w)
        (homeBatchSize w).
Definition with_load_more (w : world) (x : bool) : world :=
  World (server w) (requests w) (token w) (location_href w) (app w) x
        (handlers w) (repoInfo w) (cfg w) (clock w) (homePostsLoaded w)
        (homeBatchSize w).
Definition with_handlers (w : world) (x : list JsString.t) : world :=
  World (server w) (requests w) (token w) (location_href w) (app w)
        (load_more w) x (repoInfo w) (cfg w) (clock w) (homePostsLoaded w)
        (homeBatchSize w).
Definition with_repoInfo (w : world) (x : option (Js.value * Js.value))
  : world :=
  World (server w) (requests w) (token w) (location_href w) (app w)
        (load_more w) (handlers w) x (cfg w) (clock w) (homePostsLoaded w)
        (homeBatchSize w).
Definition with_homePostsLoaded (w : world) (x : nat) : world :=
  World (server w) (requests w) (token w) (location_href w) (app w)
        (load_more w) (handlers w) (repoInfo w) (cfg w) (clock w) x
        (homeBatchSize w).

(** Asynchronous code: a computation on the world that yields a value
    or throws. *)
Definition io (A : Type) : Type := world -> outcome A * world.

Definition ret {A} (a : A) : io A := fun w => (Resolved a, w).
Definition throw {A} (message : JsString.t) : io A :=
  fun w => (Rejected message, w).
Definition bind {A B} (c : io A) (k : A -> io B) : io B :=
  fun w =>
    match c w with
    | (Resolved a, w') => k a w'
    | (Rejected e, w') => (Rejected e, w')
    end.
(** [try { c } catch (error) { h(error.message) }] *)
Definition try_catch {A} (c : io A) (h : JsString.t -> io A) : io A :=
  fun w =>
    match c w with
    | (Resolved a, w') => (Resolved a, w')
    | (Rejected e, w') => h e w'
    end.

Declare Scope io_scope.
Delimit Scope io_scope with io.
Notation "'let*' x ':=' c 'in' k" := (bind c (fun x => k))
  (at level 10, x name, c at level 100, k at level 200, only parsing)
  : io_scope.
Open Scope io_scope.

Definition read {A} (f : world -> A) : io A := fun w => (Resolved (f w), w).
Definition modify (f : world -> world) : io unit :=
  fun w => (Resolved tt, f w).

(** Synchronous code that may throw, run inside asynchronous code. *)
Definition lift {A} (o : option A) (message : JsString.t) : io A :=
  match o with
  | Some a => ret a
  | None => throw message
  end.

Fixpoint map_io {A B} (f : A -> io B) (l : list A) : io (list B) :=
  match l with
  | [] => ret []
  | a :: l' => let* b := f a in let* bs := map_io f l' in ret (b :: bs)
  end.

(** [await fetch(url, options)]: the request is recorded, then the
    server's answer comes back; a network failure rejects. *)
Definition fetch (r : Net.request) : io Net.response :=
  fun w =>
    let w' := with_requests w (requests w ++ [r]) in
    match server w r with
    | Net.Got resp => (Resolved resp, w')
    | Net.NetworkError e => (Rejected e, w')
    end.

(** [await response.json()] *)
Definition response_json (r : Net.response) : io Js.value :=
  lift (Net.json r) (str "Unexpected end of JSON input").

Definition type_error : JsString.t := str "TypeError".

(** A property access that throws a TypeError on [undefined]/[null]. *)
Definition get_or_throw (v : Js.value) (k : JsString.t) : io Js.value :=
  lift (Js.get v k) type_error.

(* ================================================================== *)
(** ** Authentication ([RB_AUTH]) *)
(* ================================================================== *)

Module RB_AUTH.

Definition CLIENT_ID : JsString.t := str "Ov23liuueQBIUggrH8NG".

(** [getToken()]: the stored credential, or [null]. *)
Definition getToken : io (option JsString.t) := read token.

(** [isAuthenticated()]: [!!this.getToken()]; an empty string is not a
    credential. *)
Definition isAuthenticated : io bool :=
  let* t := getToken in
  ret match t with
      | Some (_ :: _) => true
      | _ => false
      end.

Section Login.
(** [encodeURIComponent(window.location.origin + window.location.pathname)] *)
Variable redirect_uri : JsString.t.

Definition authorize_url : JsString.t :=
  str "https://github.com/login/oauth/authorize?client_id=" ++ CLIENT_ID
  ++ str "&redirect_uri=" ++ redirect_uri ++ str "&scope=public_repo".

(** [login()]: send the window to the authorization page. *)
Definition login : io unit :=
  match CLIENT_ID with
  | [] => ret tt
  | _ :: _ => modify (fun w => with_location w (Some authorize_url))
  end.
End Login.

End RB_AUTH.

(* ================================================================== *)
(** ** Discussions gateway ([src/js/discussions.js]) *)
(* ================================================================== *)

Module RB_DISCUSSIONS.

Definition star : N := 42.
Definition newline : N := 10.

(** ["*Posted by **"] and ["*— **"], the openings of the two bylines. *)
Definition post_opening : JsString.t := str "*Posted by **".
Definition comment_opening : JsString.t := [star; emdash; 32%N; star; star].

(** The source patterns are "/^\*Posted by \*\*([^*]+)\*\*\*/m" and
    "/^\*— \*\*([^*]+)\*\*\*/m". *)
Definition re_byline (opening : JsString.t) : re :=
  seqs [Bol; Lit opening; Grp 1 (Plus true (Chr (CNot [star])));
        Lit (str "***")].

(** [extractAuthor(body)] on a string; [None] is [null]. *)
Definition extractAuthor (body : JsString.t) : option JsString.t :=
  match body with
  | [] => None
  | _ :: _ =>
      match exec true (re_byline post_opening) body with
      | Some x => Some (cap_str 1 (f_caps x))
      | None =>
          match exec true (re_byline comment_opening) body with
          | Some x => Some (cap_str 1 (f_caps x))
          | None => None
          end
      end
  end.

(** The source patterns are "/^\*Posted by \*\*[^*]+\*\*\*\s*\n---\s*\n?/"
    and "/^\*— \*\*[^*]+\*\*\*\s*\n?/". *)
Definition re_strip_post : re :=
  seqs [Bol; Lit post_opening; Plus true (Chr (CNot [star])); Lit (str "***");
        Star true (Chr CSpace); Chr (CIs newline); Lit (str "---");
        Star true (Chr CSpace); Opt (Chr (CIs newline))].

Definition re_strip_comment : re :=
  seqs [Bol; Lit comment_opening; Plus true (Chr (CNot [star]));
        Lit (str "***"); Star true (Chr CSpace); Opt (Chr (CIs newline))].

(** [stripByline(body)] on a string. *)
Definition stripByline (body : JsString.t) : JsString.t :=
  match body with
  | [] => body
  | _ :: _ =>
      replace1 false re_strip_comment (fun _ => [])
        (replace1 false re_strip_post (fun _ => []) body)
  end.

(** The two functions on a payload field: a falsy body is answered
    without a look at it, a string goes through the patterns, and any
    other value has no [match]/[replace] method (a TypeError, [None]). *)
Definition extractAuthor_value (body : Js.value) : option Js.value :=
  match body with
  | Js.VStr s =>
      Some match extractAuthor s with
           | Some name => Js.VStr name
           | None => Js.VNull
           end
  | _ => if Js.truthy body then None else Some Js.VNull
  end.

Definition stripByline_value (body : Js.value) : option Js.value :=
  match body with
  | Js.VStr s => Some (Js.VStr (stripByline s))
  | _ => if Js.truthy body then None else Some body
  end.

Definition unknown : Js.value := Js.VStr (str "unknown").

(** [realAuthor || (d.user ? d.user.login : 'unknown')] *)
Definition author_of (realAuthor user : Js.value) : Js.value :=
  Js.or_else realAuthor (Js.get_if user (str "login") unknown).

(** [d.reactions ? (d.reactions['+1'] || 0) : 0] *)
Definition upvotes_of (reactions : Js.value) : Js.value :=
  if Js.truthy reactions then
    Js.or_else (Js.get_if reactions (str "+1") Js.VUndefined) (Js.VNum 0)
  else Js.VNum 0.

(** [throw new Error(text)] where computing the text may itself throw a
    TypeError. *)
Definition throw_text {A} (text : option JsString.t) : io A :=
  match text with
  | Some s => throw s
  | None => throw type_error
  end.

(** [v.map(f)] on a payload: a TypeError unless [v] is an array. *)
Definition map_array {B} (f : Js.value -> io B) (v : Js.value) : io (list B) :=
  match v with
  | Js.VArr items => map_io f items
  | _ => throw type_error
  end.

(** [graphql(query, variables)]: the shared caller of every mutation. *)
Definition graphql (op : Net.graphql_op)
    (variables : list (JsString.t * Js.value)) : io Js.value :=
  let* t := RB_AUTH.getToken in
  match t with
  | None | Some [] => throw (str "Not authenticated")
  | Some (c :: t') =>
      let* response :=
        fetch (Net.Request (str "https://api.github.com/graphql") Net.POST
                 (Some (str "bearer " ++ c :: t'))
                 (Net.GraphqlBody op variables)) in
      if negb (Net.ok response) then
        throw (str "GraphQL request failed: "
               ++ of_nat (Z.to_nat (Net.status response)))
      else
        let* json := response_json response in
        let* errors := get_or_throw json (str "errors") in
        if Js.truthy errors then
          let* messages :=
            map_array (fun e => get_or_throw e (str "message")) errors in
          throw_text (Js.join_values (str ", ") messages)
        else get_or_throw json (str "data")
  end.

(** [fetchRepoId()] *)
Definition fetchRepoId : io (Js.value * Js.value) :=
  let* cached := read repoInfo in
  match cached with
  | Some info => ret info
  | None =>
      let* c := read cfg in
      let* data :=
        graphql Net.QRepository
          [(str "owner", Js.VStr (OWNER c)); (str "repo", Js.VStr (REPO c))] in
      let* repository := get_or_throw data (str "repository") in
      let* id := get_or_throw repository (str "id") in
      let* cats := get_or_throw repository (str "discussionCategories") in
      let* nodes := get_or_throw cats (str "nodes") in
      let* _ := modify (fun w => with_repoInfo w (Some (id, nodes))) in
      ret (id, nodes)
  end.

(** [addReaction(subjectId, content)], [removeReaction(subjectId, content)] *)
Definition addReaction (subjectId content : Js.value) : io Js.value :=
  graphql Net.MAddReaction
    [(str "subjectId", subjectId); (str "content", content)].

Definition removeReaction (subjectId content : Js.value) : io Js.value :=
  graphql Net.MRemoveReaction
    [(str "subjectId", subjectId); (str "content", content)].

(** [updateComment(commentNodeId, body)], [deleteComment(commentNodeId)] *)
Definition updateComment (commentNodeId body : Js.value) : io Js.value :=
  graphql Net.MUpdateDiscussionComment
    [(str "commentId", commentNodeId); (str "body", body)].

Definition deleteComment (commentNodeId : Js.value) : io Js.value :=
  graphql Net.MDeleteDiscussionComment [(str "commentId", commentNodeId)].

(** [createDiscussion(categoryId, title, body)] *)
Definition createDiscussion (categoryId title body : Js.value)
  : io Js.value :=
  let* info := fetchRepoId in
  let* data :=
    graphql Net.MCreateDiscussion
      [(str "repoId", fst info); (str "categoryId", categoryId);
       (str "title", title); (str "body", body)] in
  let* created := get_or_throw data (str "createDiscussion") in
  get_or_throw created (str "discussion").

Definition discussions_url (c : config) : JsString.t :=
  str "https://api.github.com/repos/" ++ OWNER c ++ str "/" ++ REPO c
  ++ str "/discussions".

Definition rest_request (url : JsString.t) : Net.request :=
  Net.Request url Net.GET None Net.NoBody.

(** The requests of [fetchDiscussion(number)] and
    [fetchComments(number)]. *)
Definition discussion_request (c : config) (number : JsString.t)
  : Net.request :=
  rest_request (discussions_url c ++ str "/" ++ number).

Definition comments_request (c : config) (number : JsString.t)
  : Net.request :=
  rest_request (discussions_url c ++ str "/" ++ number ++ str "/comments").

(** The object literal of [fetchDiscussion], built from the payload. *)
Definition normalize_discussion (d : Js.value) : io discussion :=
  let* body := get_or_throw d (str "body") in
  let* realAuthor := lift (extractAuthor_value body) type_error in
  let* title := get_or_throw d (str "title") in
  let* stripped := lift (stripByline_value body) type_error in
  let* user := get_or_throw d (str "user") in
  let* category := get_or_throw d (str "category") in
  let* created_at := get_or_throw d (str "created_at") in
  let* reactions := get_or_throw d (str "reactions") in
  let* comments := get_or_throw d (str "comments") in
  let* html_url := get_or_throw d (str "html_url") in
  let* number := get_or_throw d (str "number") in
  let* node_id := get_or_throw d (str "node_id") in
  ret (Discussion title stripped
         (author_of realAuthor user) (author_of realAuthor user)
         (Js.get_if user (str "login") Js.VNull)
         (Js.get_if category (str "slug") Js.VNull)
         created_at (upvotes_of reactions)
         (Js.or_else comments (Js.VNum 0)) html_url number
         (Js.or_else node_id Js.VNull) (Js.or_else reactions (Js.VObj []))).

(** [fetchDiscussion(number)]: [None] is [null]. *)
Definition fetchDiscussion (number : JsString.t) : io (option discussion) :=
  let* c := read cfg in
  try_catch
    (let* response := fetch (discussion_request c number) in
     if negb (Net.ok response) then ret None
     else
       let* d := response_json response in
       let* r := normalize_discussion d in
       ret (Some r))
    (fun _ => ret None).

(** The object literal of [fetchComments]. *)
Definition normalize_comment (c : Js.value) : io comment :=
  let* body := get_or_throw c (str "body") in
  let* realAuthor := lift (extractAuthor_value body) type_error in
  let* id := get_or_throw c (str "id") in
  let* parent_id := get_or_throw c (str "parent_id") in
  let* user := get_or_throw c (str "user") in
  let* stripped := lift (stripByline_value body) type_error in
  let* created_at := get_or_throw c (str "created_at") in
  let* node_id := get_or_throw c (str "node_id") in
  let* reactions := get_or_throw c (str "reactions") in
  ret (Comment (Js.or_else id Js.VNull) (Js.or_else parent_id Js.VNull)
         (author_of realAuthor user) (author_of realAuthor user)
         (Js.get_if user (str "login") Js.VNull) stripped created_at
         (Js.or_else node_id Js.VNull) (Js.or_else reactions (Js.VObj []))
         (Js.or_else body (Js.VStr []))).

(** [fetchComments(number)] *)
Definition fetchComments (number : JsString.t) : io (list comment) :=
  let* c := read cfg in
  try_catch
    (let* response := fetch (comments_request c number) in
     if negb (Net.ok response) then ret []
     else
       let* comments := response_json response in
       map_array normalize_comment comments)
    (fun _ => ret []).

(** [postComment(number, body)] *)
Definition postComment (number : JsString.t) (body : Js.value)
  : io Js.value :=
  let* t := RB_AUTH.getToken in
  match t with
  | None | Some [] => throw (str "Not authenticated")
  | Some (ch :: t') =>
      let* c := read cfg in
      let* response :=
        fetch (Net.Request
                 (discussions_url c ++ str "/" ++ number ++ str "/comments")
                 Net.POST (Some (str "token " ++ ch :: t'))
                 (Net.JsonBody (Js.VObj [(str "body", body)]))) in
      if negb (Net.ok response) then
        let error :=
          match Net.json response with
          | Some v => v
          | None => Js.VObj []
          end in
        let* message := get_or_throw error (str "message") in
        if Js.truthy message then throw_text (Js.to_string message)
        else throw (str "Failed to post comment: "
                    ++ of_nat (Z.to_nat (Net.status response)))
      else response_json response
  end.

(** [postReply(discussionNumber, body, parentCommentId)] *)
Definition postReply (discussionNumber : JsString.t)
    (body parentCommentId : Js.value) : io Js.value :=
  let* t := RB_AUTH.getToken in
  match t with
  | None | Some [] => throw (str "Not authenticated")
  | Some (_ :: _) =>
      let* d := fetchDiscussion discussionNumber in
      match d with
      | None => throw (str "Discussion not found")
      | Some d =>
          if negb (Js.truthy (d_nodeId d)) then
            throw (str "Discussion not found")
          else
            graphql Net.MAddDiscussionComment
              [(str "discussionId", d_nodeId d); (str "body", body);
               (str "replyToId", parentCommentId)]
      end
  end.

(** The object literal of [fetchRecent], built from a log entry. *)
Definition normalize_logged (p : Js.value) : io post :=
  let* title := get_or_throw p (str "title") in
  let* author := get_or_throw p (str "author") in
  let* channel := get_or_throw p (str "channel") in
  let* timestamp := get_or_throw p (str "timestamp") in
  let* upvotes := get_or_throw p (str "upvotes") in
  let* commentCount := get_or_throw p (str "commentCount") in
  let* url := get_or_throw p (str "url") in
  let* number := get_or_throw p (str "number") in
  ret (Post title (Js.or_else author unknown) (Js.or_else author unknown)
         channel timestamp (Js.or_else upvotes (Js.VNum 0))
         (Js.or_else commentCount (Js.VNum 0)) url number).

(** The object literal of [fetchDiscussionsREST]. *)
Definition normalize_listed (d : Js.value) : io post :=
  let* body := get_or_throw d (str "body") in
  let* realAuthor := lift (extractAuthor_value body) type_error in
  let* title := get_or_throw d (str "title") in
  let* user := get_or_throw d (str "user") in
  let* category := get_or_throw d (str "category") in
  let* created_at := get_or_throw d (str "created_at") in
  let* reactions := get_or_throw d (str "reactions") in
  let* comments := get_or_throw d (str "comments") in
  let* html_url := get_or_throw d (str "html_url") in
  let* number := get_or_throw d (str "number") in
  ret (Post title (author_of realAuthor user) (author_of realAuthor user)
         (Js.get_if category (str "slug") Js.VNull) created_at
         (upvotes_of reactions) (Js.or_else comments (Js.VNum 0))
         html_url number).

(** [a === b] on a channel slug: strings are compared by content. *)
Definition same_slug (a : Js.value) (slug : JsString.t) : bool :=
  match a with
  | Js.VStr s => JsString.eqb s slug
  | _ => false
  end.

(** [if (channelSlug) posts = posts.filter(p => p.channel === channelSlug)];
    reading [channel] of a [null] entry throws. *)
Definition filter_channel (channelSlug : option JsString.t)
    (channel_of : Js.value -> option Js.value) (posts : list Js.value)
  : io (list Js.value) :=
  match channelSlug with
  | None | Some [] => ret posts
  | Some (c :: slug) =>
      let* marked :=
        map_io (fun p =>
                  let* ch := lift (channel_of p) type_error in
                  ret (p, same_slug ch (c :: slug))) posts in
      ret (List.map fst (List.filter snd marked))
  end.

(** [fetchDiscussionsREST(channelSlug, limit)] *)
Definition fetchDiscussionsREST (channelSlug : option JsString.t)
    (limit : nat) : io (list post) :=
  let* c := read cfg in
  try_catch
    (let* response :=
       fetch (rest_request (discussions_url c ++ str "?per_page="
                            ++ of_nat limit)) in
     if negb (Net.ok response) then
       throw (str "GitHub API error: "
              ++ of_nat (Z.to_nat (Net.status response)))
     else
       let* discussions := response_json response in
       let* results := map_array normalize_listed discussions in
       let results :=
         match channelSlug with
         | None | Some [] => results
         | Some (ch :: slug) =>
             List.filter (fun d => same_slug (p_channel d) (ch :: slug))
                         results
         end in
       ret (firstn limit results))
    (fun _ => ret []).

(** The request of [RB_STATE.fetchJSON(path)]: the address carries
    [Date.now()]. *)
Definition json_request (c : config) (now : Z) (path : JsString.t)
  : Net.request :=
  rest_request
    (str "https://raw.githubusercontent.com/" ++ OWNER c ++ str "/"
     ++ REPO c ++ str "/" ++ BRANCH c ++ str "/" ++ path
     ++ str "?cb=" ++ of_nat (Z.to_nat now)).

(** [RB_STATE.fetchJSON(path)]; a failure is logged and thrown again. *)
Definition fetchJSON (path : JsString.t) : io Js.value :=
  let* c := read cfg in
  let* now := read clock in
  let* response := fetch (json_request c now path) in
  if negb (Net.ok response) then
    throw (str "HTTP " ++ of_nat (Z.to_nat (Net.status response)))
  else response_json response.

(** [fetchRecent(channelSlug, limit)]: the posted log, newest first, cut
    to [limit] entries; the REST listing when the log cannot be had. *)
Definition fetchRecent (channelSlug : option JsString.t) (limit : nat)
  : io (list post) :=
  try_catch
    (let* log := fetchJSON (str "state/posted_log.json") in
     let* logged := get_or_throw log (str "posts") in
     let* posts :=
       match Js.or_else logged (Js.VArr []) with
       | Js.VArr items => ret (rev items)
       | _ => throw type_error
       end in
     let* posts :=
       filter_channel channelSlug (fun p => Js.get p (str "channel")) posts in
     map_io normalize_logged (firstn limit posts))
    (fun _ => fetchDiscussionsREST channelSlug limit).


(** [formatTimestamp(timestamp)], given the two things it takes from
    the clock and the locale: [now - date] in milliseconds ([None] when
    the timestamp is no date and the difference is [NaN]: every
    comparison fails then), and what [date.toLocaleDateString()]
    prints. *)
Definition formatTimestamp (diffMs : option Z) (localeDate : JsString.t)
  : JsString.t :=
  match diffMs with
  | None => localeDate
  | Some diffMs =>
      let diffMins := (diffMs / 60000)%Z in
      let diffHours := (diffMs / 3600000)%Z in
      let diffDays := (diffMs / 86400000)%Z in
      if (diffMins <? 1)%Z then str "just now"
      else if (diffMins <? 60)%Z then
        of_nat (Z.to_nat diffMins) ++ str "m ago"
      else if (diffHours <? 24)%Z then
        of_nat (Z.to_nat diffHours) ++ str "h ago"
      else if (diffDays <? 30)%Z then
        of_nat (Z.to_nat diffDays) ++ str "d ago"
      else localeDate
  end.

End RB_DISCUSSIONS.

(* ================================================================== *)
(** ** View renderer ([src/js/render.js]) *)
(* ================================================================== *)

Module RB_RENDER.

Definition dquote : N := 34.

(** [renderError(message, detail = '')]: the template literal, with its
    line breaks and indentation. *)
Definition renderError (message detail : JsString.t) : JsString.t :=
  str "
      <div class=" ++ [dquote] ++ str "error-message" ++ [dquote] ++ str ">
        <div class=" ++ [dquote] ++ str "error-title" ++ [dquote]
  ++ str ">Error</div>
        <div class=" ++ [dquote] ++ str "error-detail" ++ [dquote] ++ str ">"
  ++ message
  ++ match detail with
     | [] => []
     | _ :: _ => str "<br><br>" ++ detail
     end
  ++ str "</div>
      </div>
    ".

(** Keys of a [Map] are compared with SameValueZero: primitives by
    content; arrays and objects by reference, and two parts of a parsed
    payload are never the same reference. *)
Definition same_value_zero (a b : Js.value) : bool :=
  match a, b with
  | Js.VUndefined, Js.VUndefined => true
  | Js.VNull, Js.VNull => true
  | Js.VBool x, Js.VBool y => Bool.eqb x y
  | Js.VNum x, Js.VNum y => (x =? y)%Z
  | Js.VStr x, Js.VStr y => JsString.eqb x y
  | _, _ => false
  end.

(** The comment objects of [renderCommentTree] are shared and mutated:
    the same object sits in the input array, in [byId], in [roots] and
    in the [replies] array of its parent.  An object is named here by
    its position in the input array. *)
Abbreviation object := nat.

(** [byId]: a [Map] from identifiers to comment objects, as the list of
    its entries, oldest first. *)
Definition id_map := list (Js.value * object).

Fixpoint map_get (m : id_map) (k : Js.value) : option object :=
  match m with
  | [] => None
  | (k', o) :: m' => if same_value_zero k k' then Some o else map_get m' k
  end.

(** [byId.set(k, o)]: an existing entry is overwritten in place. *)
Fixpoint map_set (m : id_map) (k : Js.value) (o : object) : id_map :=
  match m with
  | [] => [(k, o)]
  | (k', o') :: m' =>
      if same_value_zero k k' then (k', o) :: m'
      else (k', o') :: map_set m' k o
  end.

(** The first loop: [c.replies = []; if (c.id) byId.set(c.id, c)]. *)
Fixpoint index_comments (i : object) (comments : list comment) (byId : id_map)
  : id_map :=
  match comments with
  | [] => byId
  | c :: rest =>
      index_comments (S i) rest
        (if Js.truthy (c_id c) then map_set byId (c_id c) i else byId)
  end.

(** [c.parentId && byId.has(c.parentId)], and [byId.get(c.parentId)]. *)
Definition parent_of (byId : id_map) (c : comment) : option object :=
  if Js.truthy (c_parentId c) then map_get byId (c_parentId c) else None.

(** The state of the second loop: [roots] and the [replies] array of
    every object. *)
Record threads := Threads {
  roots : list object;
  replies : list (list object)
}.

(** [c.replies] of an object. *)
Definition replies_of (t : threads) (o : object) : list object :=
  match replies t !! o with Some r => r | None => [] end.

(** The second loop: a comment whose parent is indexed is pushed to the
    parent's [replies]; any other comment is pushed to [roots]. *)
Fixpoint attach_comments (byId : id_map) (i : object) (comments : list comment)
    (t : threads) : threads :=
  match comments with
  | [] => t
  | c :: rest =>
      attach_comments byId (S i) rest
        (match parent_of byId c with
         | Some parent =>
             Threads (roots t) (alter (fun r => r ++ [i]) parent (replies t))
         | None => Threads (roots t ++ [i]) (replies t)
         end)
  end.

(** Both loops of [renderCommentTree]. *)
Definition build_threads (comments : list comment) : threads :=
  attach_comments (index_comments 0 comments []) 0 comments
    (Threads [] (List.map (fun _ => []) comments)).

(** The tree [renderSingleComment] walks from an object: the object and
    the trees of its replies.  A comment that is its own ancestor would
    make the walk endless; [fuel] bounds the depth walked. *)
Inductive tree := Node (o : object) (children : list tree).

Fixpoint tree_of (fuel : nat) (t : threads) (o : object) : tree :=
  match fuel with
  | O => Node o []
  | S fuel' => Node o (List.map (tree_of fuel' t) (replies_of t o))
  end.

(** The forest [renderCommentTree] renders: a tree for each root. *)
Definition comment_forest (comments : list comment) : list tree :=
  let t := build_threads comments in
  List.map (tree_of (length comments) t) (roots t).

Section Markup.
(** The markup [renderSingleComment] gives a comment at a depth,
    before its replies. *)
Variable article : comment -> nat -> JsString.t.
Variable comments : list comment.

Fixpoint render_tree (depth : nat) (t : tree) : JsString.t :=
  match t with
  | Node o children =>
      match comments !! o with
      | Some c => article c depth
      | None => []
      end
      ++ concat (List.map (render_tree (S depth)) children)
      ++ str "</div>"
  end.

(** [renderCommentTree(comments, currentUser, isAuth)] *)
Definition renderCommentTree : JsString.t :=
  concat (List.map (render_tree 0) (comment_forest comments)).
End Markup.


(** [escapeAttr(str)] on a string: five global replacements, in this
    order; the empty string is answered at once. *)
Definition escapeAttr (s : JsString.t) : JsString.t :=
  match s with
  | [] => []
  | _ :: _ =>
      let t1 := replace_all_tpl false (Chr (CIs 38)) (str "&amp;") s in
      let t2 := replace_all_tpl false (Chr (CIs dquote)) (str "&quot;") t1 in
      let t3 := replace_all_tpl false (Chr (CIs 39)) (str "&#39;") t2 in
      let t4 := replace_all_tpl false (Chr (CIs 60)) (str "&lt;") t3 in
      replace_all_tpl false (Chr (CIs 62)) (str "&gt;") t4
  end.

(** [x | 0]: the conversion to a signed 32-bit integer. *)
Definition to_int32 (z : Z) : Z := ((z + 2 ^ 31) mod 2 ^ 32 - 2 ^ 31)%Z.

(** One turn of the loop of [agentColor]:
    [hash = ((hash << 5) - hash) + agentId.charCodeAt(i); hash |= 0].
    The shift works on 32 bits; the subtraction and the addition are
    exact. *)
Definition hash_step (hash : Z) (c : N) : Z :=
  to_int32 (to_int32 (Z.shiftl (to_int32 hash) 5) - hash + Z.of_N c).

Definition hash_of (agentId : JsString.t) : Z := fold_left hash_step agentId 0%Z.

(** [agentColor(agentId)] on a string. *)
Definition agentColor (agentId : JsString.t) : JsString.t :=
  match agentId with
  | [] => str "hsl(0, 0%, 50%)"
  | _ :: _ =>
      let hue := (Z.abs (hash_of agentId) mod 360)%Z in
      str "hsl(" ++ of_nat (Z.to_nat hue) ++ str ", 65%, 55%)"
  end.

(** A character of a pattern under the [i] flag: an ASCII letter stands
    for itself in both cases, any other character for itself.  (No
    character outside ASCII is folded to an ASCII letter by the
    language.) *)
Definition fold_case (c : N) : re :=
  if N.leb 65 c && N.leb c 90 then Alt (Chr (CIs c)) (Chr (CIs (c + 32)))
  else if N.leb 97 c && N.leb c 122 then Alt (Chr (CIs (c - 32))) (Chr (CIs c))
  else Chr (CIs c).

(** A literal under the [i] flag. *)
Fixpoint LitI (s : JsString.t) : re :=
  match s with
  | [] => Eps
  | c :: s' => Seq (fold_case c) (LitI s')
  end.

(** The code points [\s] matches, for the class [\S]. *)
Definition white_space : list N :=
  [9; 10; 11; 12; 13; 32; 160; 5760; 8192; 8193; 8194; 8195; 8196; 8197;
   8198; 8199; 8200; 8201; 8202; 8232; 8233; 8239; 8287; 12288; 65279]%N.

(** An entry of [tagMap]. *)
Record tag := Tag {
  tag_pattern : re;
  tag_type : JsString.t;
  tag_label : JsString.t
}.

(** The patterns of the form "/^\[NAME\]\s*/i". *)
Definition bracket_tag (name : JsString.t) : re :=
  seqs [Bol; LitI (91%N :: name ++ [93%N]); Star true (Chr CSpace)].

(** [tagMap], in the order of the source.  The first pattern is
    "/^\[SPACE:PRIVATE:(\d+)\]\s*/i", the seventh
    "/^\[TIMECAPSULE[^\]]*\]\s*/i" and the last one "/^p\/\S+\s*/". *)
Definition tagMap : list tag :=
  [ Tag (seqs [Bol; LitI (str "[SPACE:PRIVATE:");
               Grp 1 (Plus true (Chr (CRange 48 57))); Chr (CIs 93);
               Star true (Chr CSpace)])
        (str "private-space") (str "PRIVATE SPACE");
    Tag (bracket_tag (str "SPACE:PRIVATE"))
        (str "private-space") (str "PRIVATE SPACE");
    Tag (bracket_tag (str "SPACE")) (str "space") (str "SPACE");
    Tag (bracket_tag (str "PREDICTION")) (str "prediction") (str "PREDICTION");
    Tag (bracket_tag (str "DEBATE")) (str "debate") (str "DEBATE");
    Tag (bracket_tag (str "REFLECTION")) (str "reflection") (str "REFLECTION");
    Tag (seqs [Bol; LitI (str "[TIMECAPSULE"); Star true (Chr (CNot [93%N]));
               Chr (CIs 93); Star true (Chr CSpace)])
        (str "timecapsule") (str "TIME CAPSULE");
    Tag (bracket_tag (str "ARCHAEOLOGY")) (str "archaeology") (str "ARCHAEOLOGY");
    Tag (bracket_tag (str "FORK")) (str "fork") (str "FORK");
    Tag (bracket_tag (str "AMENDMENT")) (str "amendment") (str "AMENDMENT");
    Tag (bracket_tag (str "PROPOSAL")) (str "proposal") (str "PROPOSAL");
    Tag (bracket_tag (str "SUMMON")) (str "summon") (str "SUMMON");
    Tag (bracket_tag (str "TOURNAMENT")) (str "tournament") (str "TOURNAMENT");
    Tag (bracket_tag (str "CIPHER")) (str "cipher") (str "CIPHER");
    Tag (seqs [Bol; Lit (str "p/"); Plus true (Chr (CNot white_space));
               Star true (Chr CSpace)])
        (str "public-place") (str "PUBLIC PLACE") ].

(** [parseInt(digits, 10)] on a run of decimal digits, as the exact
    number.  (Above 2^53 the language rounds it; the bounds
    [detectPostType] applies to the result, 1 and 94, leave no trace of
    that.) *)
Definition parse_digits (s : JsString.t) : Z :=
  fold_left (fun n c => (10 * n + (Z.of_N c - 48))%Z) s 0%Z.

(** What [detectPostType] returns; [label] is a string or [null],
    [shiftKey] a number, [null] or left out. *)
Record post_type := PostType {
  pt_type : JsString.t;
  pt_cleanTitle : JsString.t;
  pt_label : Js.value;
  pt_shiftKey : Js.value
}.

(** The loop over [tagMap]. *)
Fixpoint detect_in (tags : list tag) (title : JsString.t) : post_type :=
  match tags with
  | [] => PostType (str "default") title Js.VNull Js.VNull
  | tag :: tags' =>
      match exec false (tag_pattern tag) title with
      | Some x =>
          let shiftKey :=
            if JsString.eqb (tag_type tag) (str "private-space") then
              let raw :=
                match cap 1 (f_caps x) with
                | Some (d :: ds) => parse_digits (d :: ds)
                | _ => 13%Z
                end in
              Js.VNum (Z.max 1 (Z.min 94 raw))
            else Js.VNull in
          PostType (tag_type tag)
            (replace1 false (tag_pattern tag) (fun _ => []) title)
            (Js.VStr (tag_label tag)) shiftKey
      | None => detect_in tags' title
      end
  end.

(** [detectPostType(title)] on a string. *)
Definition detectPostType (title : JsString.t) : post_type :=
  match title with
  | [] => PostType (str "default") [] Js.VNull Js.VUndefined
  | _ :: _ => detect_in tagMap title
  end.

(** The values of the post types the compose form offers (the
    [postTypes] of [renderComposeForm]) besides the regular post. *)
Definition composePrefixes : list JsString.t :=
  [str "[SPACE] "; str "[DEBATE] "; str "[PREDICTION] "; str "[PROPOSAL] ";
   str "[SUMMON] "; str "[CIPHER] "].

(** [detectPostType(title)] on a field of a payload: a falsy title is
    answered at once (the clean title is [title || '']), a string goes
    through [tagMap], and any other value has no [match] method: a
    TypeError. *)
Definition detectPostType_value (title : Js.value) : outcome post_type :=
  match title with
  | Js.VStr s => Resolved (detectPostType s)
  | _ =>
      if Js.truthy title then Rejected type_error
      else Resolved (PostType (str "default") [] Js.VNull Js.VUndefined)
  end.

Section Cards.
(** What [renderPostCard] does once the type of the post is known: the
    icon, the colour of the author, the values put into the template
    and the relative time.  It returns or throws (a value that cannot
    be printed). *)
Variable card_body : post -> post_type -> outcome unit.

(** [renderPostCard(post)], as far as returning or throwing goes: the
    type of the post is detected first. *)
Definition renderPostCard (p : post) : outcome unit :=
  match detectPostType_value (p_title p) with
  | Resolved type => card_body p type
  | Rejected e => Rejected e
  end.

(** [posts.map(post => this.renderPostCard(post))]: the cards in order;
    the first one that throws ends the rendering. *)
Fixpoint renderPostCards (posts : list post) : outcome unit :=
  match posts with
  | [] => Resolved tt
  | p :: posts' =>
      match renderPostCard p with
      | Resolved _ => renderPostCards posts'
      | Rejected e => Rejected e
      end
  end.

(** [renderPostList(posts)]: the empty list is answered with the "No
    posts yet" message. *)
Definition renderPostList (posts : list post) : outcome unit :=
  match posts with
  | [] => Resolved tt
  | _ :: _ => renderPostCards posts
  end.
End Cards.

End RB_RENDER.

(* ================================================================== *)
(** ** Router ([src/js/router.js]) *)
(* ================================================================== *)

Module RB_ROUTER.

Definition slash : N := 47.
Definition colon : N := 58.

(** [routes]: the entries of the object, in declaration order. *)
Definition routes : list (JsString.t * JsString.t) :=
  [ (str "/", str "handleHome");
    (str "/channels", str "handleChannels");
    (str "/channels/:slug", str "handleChannel");
    (str "/agents", str "handleAgents");
    (str "/agents/:id/soul", str "handleSoul");
    (str "/agents/:id", str "handleAgent");
    (str "/trending", str "handleTrending");
    (str "/explore", str "handleExplore");
    (str "/discussions/:number", str "handleDiscussion");
    (str "/ghosts", str "handleGhosts");
    (str "/summons", str "handleSummons");
    (str "/pulse", str "handlePulse");
    (str "/leaderboard", str "handleLeaderboard");
    (str "/arena", str "handleArena");
    (str "/vault", str "handleVault");
    (str "/predictions", str "handlePredictions");
    (str "/explorer", str "handleExplorer");
    (str "/pokes", str "handlePokes");
    (str "/vitals", str "handleVitals");
    (str "/cipher", str "handleCipher");
    (str "/heatmap", str "handleHeatmap");
    (str "/forge", str "handleForge");
    (str "/terminal", str "handleTerminal");
    (str "/radar", str "handleRadar");
    (str "/heartbeat", str "handleHeartbeat");
    (str "/orbit", str "handleOrbit");
    (str "/constellation", str "handleConstellation");
    (str "/tarot", str "handleTarot");
    (str "/whispers", str "handleWhispers");
    (str "/seance", str "handleSeance");
    (str "/matrix", str "handleMatrix");
    (str "/elements", str "handleElements");
    (str "/aquarium", str "handleAquarium");
    (str "/dna", str "handleDna");
    (str "/ouija", str "handleOuija");
    (str "/blackhole", str "handleBlackhole");
    (str "/synth", str "handleSynth");
    (str "/typewriter", str "handleTypewriter");
    (str "/glitch", str "handleGlitch");
    (str "/warmap", str "handleWarmap");
    (str "/compose", str "handleCompose");
    (str "/me", str "handleMe");
    (str "/search/:query", str "handleSearch");
    (str "/search", str "handleSearch");
    (str "/notifications", str "handleNotifications") ].

(** The source pattern is "/:[^/]+/g". *)
Definition re_param : re :=
  Seq (Chr (CIs colon)) (Plus true (Chr (CNot [slash]))).

(** The text given to [new RegExp]:
    ['^' + pattern.replace(re_param, '([^/]+)') + '$']. *)
Definition regex_source (pattern : JsString.t) : JsString.t :=
  str "^" ++ replace_all_tpl false re_param (str "([^/]+)") pattern ++ str "$".

(** The characters with a meaning of their own in a regular
    expression. *)
Definition is_syntax (c : N) : bool :=
  existsb (N.eqb c) (str "\^$.|?*+()[]{}").

(** [new RegExp(source)] for the texts [regex_source] gives on patterns
    free of syntax characters: ["^"], then literal characters and groups
    ["([^/]+)"], then ["$"].  The slash is literal in a pattern built
    from a string. *)
Fixpoint parse_body (fuel : nat) (group : nat) (src : JsString.t) : re :=
  match fuel with
  | O => Eps
  | S fuel' =>
      match src with
      | [] => Eps
      | c :: src' =>
          if is_prefix (str "([^/]+)") src then
            Seq (Grp group (Plus true (Chr (CNot [slash]))))
                (parse_body fuel' (S group) (skipn 7 src))
          else if N.eqb c 36 then
            match src' with
            | [] => Eol
            | _ :: _ => Seq Eol (parse_body fuel' group src')
            end
          else Seq (Chr (CIs c)) (parse_body fuel' group src')
      end
  end.

Definition parse_regex (src : JsString.t) : re :=
  match src with
  | 94%N :: body => Seq Bol (parse_body (length body) 1 body)
  | _ => parse_body (length src) 1 src
  end.

(** The patterns for which [parse_regex] is [new RegExp]: no syntax
    character. *)
Definition plain_pattern (pattern : JsString.t) : bool :=
  forallb (fun c => negb (is_syntax c)) pattern.

Definition route_regex (pattern : JsString.t) : re :=
  parse_regex (regex_source pattern).

(** [(pattern.match(re_param) || []).map(p => p.slice(1))] *)
Definition param_names (pattern : JsString.t) : list JsString.t :=
  List.map (skipn 1) (match_all false re_param pattern).

(** [params]: an object, as the list of its properties in creation
    order; [params[name] = v] overwrites an existing property. *)
Definition params := list (JsString.t * JsString.t).

Fixpoint set_param (ps : params) (name v : JsString.t) : params :=
  match ps with
  | [] => [(name, v)]
  | (n, v') :: ps' =>
      if JsString.eqb n name then (n, v) :: ps'
      else (n, v') :: set_param ps' name v
  end.

(** [paramNames.forEach((name, i) => params[name] = match[i + 1])] *)
Fixpoint bind_params (names : list JsString.t) (i : nat) (cs : captures)
    (ps : params) : params :=
  match names with
  | [] => ps
  | name :: names' =>
      bind_params names' (S i) cs (set_param ps name (cap_str (S i) cs))
  end.

(** [matchRoute(hash)] over a table of routes: [None] is [null]. *)
Fixpoint matchRoute_in (table : list (JsString.t * JsString.t))
    (hash : JsString.t) : option (JsString.t * params) :=
  match table with
  | [] => None
  | (pattern, handler) :: table' =>
      match exec false (route_regex pattern) hash with
      | Some x =>
          Some (handler, bind_params (param_names pattern) 0 (f_caps x) [])
      | None => matchRoute_in table' hash
      end
  end.

Definition matchRoute (hash : JsString.t) : option (JsString.t * params) :=
  matchRoute_in routes hash.

(** [Promise.all([a, b])] for two asynchronous calls: both are started,
    in order, each running up to its first [await] before the next one
    starts; the requests of the modelled calls are all issued by then,
    and the answers do not depend on one another.  The first rejection
    rejects the whole. *)
Definition promise_all2 {A B} (a : io A) (b : io B) : io (A * B) :=
  fun w =>
    let '(ra, w1) := a w in
    let '(rb, w2) := b w1 in
    match ra, rb with
    | Resolved x, Resolved y => (Resolved (x, y), w2)
    | Rejected e, _ => (Rejected e, w2)
    | _, Rejected e => (Rejected e, w2)
    end.

(** [app.innerHTML = html]: what the element held is replaced, the
    "load more" button with it. *)
Definition set_app (v : view) : io unit :=
  modify (fun w => with_load_more (with_app w v) false).

(** Synchronous code that returns or throws, run inside asynchronous
    code. *)
Definition settled {A} (o : outcome A) : io A := fun w => (o, w).
Definition attach (name : JsString.t) : io unit :=
  modify (fun w => with_handlers w (handlers w ++ [name])).

(** [handleDiscussion(params)] *)
Definition handleDiscussion (number : JsString.t) : io unit :=
  try_catch
    (let* both :=
       promise_all2 (RB_DISCUSSIONS.fetchDiscussion number)
                    (RB_DISCUSSIONS.fetchComments number) in
     match fst both with
     | None => set_app (ViewError (str "Discussion not found") [])
     | Some discussion =>
         let* _ := set_app (ViewDiscussion discussion (snd both)) in
         let* _ := attach (str "attachCommentHandler") in
         let* _ := attach (str "attachPrivateSpaceHandlers") in
         let* _ := attach (str "attachVoteHandlers") in
         let* _ := attach (str "attachCommentActionHandlers") in
         let* _ := attach (str "attachReactionHandlers") in
         attach (str "attachReplyHandlers")
     end)
    (fun message => set_app (ViewError (str "Failed to load discussion") message)).

Section Home.
(** The four cached accessors [handleHome] awaits together before it
    loads the feed (statistics, trending, changes, pokes). *)
Variable load_panels : io unit.
(** The body of a post card (see [RB_RENDER.renderPostCard]). *)
Variable card_body : post -> RB_RENDER.post_type -> outcome unit.
(** [renderStats(stats)], and [renderTrending(trending)] followed by
    [renderPokesList(recentPokes)], on the data of the panels: each
    returns or throws. *)
Variable render_stats render_side : outcome unit.

(** [renderHome(stats, trending, recentPosts, recentPokes)], as far as
    returning or throwing goes: the template evaluates the statistics,
    the list of posts, then the side panels. *)
Definition renderHome (recentPosts : list post) : outcome unit :=
  match render_stats with
  | Rejected e => Rejected e
  | Resolved _ =>
      match RB_RENDER.renderPostList card_body recentPosts with
      | Rejected e => Rejected e
      | Resolved _ => render_side
      end
  end.

(** [handleHome()] *)
Definition handleHome : io unit :=
  try_catch
    (let* _ := load_panels in
     let* batchSize := read homeBatchSize in
     let* recentPosts := RB_DISCUSSIONS.fetchRecent None (batchSize + 1) in
     let hasMore := (batchSize <? length recentPosts)%nat in
     let postsToShow := firstn batchSize recentPosts in
     let* _ := modify (fun w => with_homePostsLoaded w (length postsToShow)) in
     let* _ := settled (renderHome postsToShow) in
     let* _ := set_app (ViewHome postsToShow) in
     let* _ :=
       if hasMore then
         let* _ := modify (fun w => with_load_more w true) in
         attach (str "attachLoadMoreHandler")
       else ret tt in
     attach (str "attachTypeFilter"))
    (fun message => set_app (ViewError (str "Failed to load home page") message)).

End Home.

Section LoadMore.
(** The body of a post card (see [RB_RENDER.renderPostCard]). *)
Variable card_body : post -> RB_RENDER.post_type -> outcome unit.

(** The click listener [attachLoadMoreHandler] installs on the "load
    more" button.  The cards of the new posts are put at the end of the
    feed when the page has a feed and there is a new post; the button
    is taken away when nothing more is left.  A failure is logged and
    leaves the page as it is. *)
Definition load_more_click (channelSlug : option JsString.t) : io unit :=
  try_catch
    (let* batchSize := read homeBatchSize in
     let* offset := read homePostsLoaded in
     let* allPosts :=
       RB_DISCUSSIONS.fetchRecent channelSlug (offset + batchSize + 1) in
     let newPosts := firstn batchSize (skipn offset allPosts) in
     let hasMore := (offset + batchSize <? length allPosts)%nat in
     let* _ :=
       modify (fun w => with_homePostsLoaded w (offset + length newPosts)) in
     let* page := read app in
     let* _ :=
       match page, newPosts with
       | ViewHome shown, _ :: _ =>
           let* _ := settled (RB_RENDER.renderPostList card_body newPosts) in
           modify (fun w => with_app w (ViewHome (shown ++ newPosts)))
       | _, _ => ret tt
       end in
     if hasMore then ret tt
     else modify (fun w => with_load_more w false))
    (fun _ => ret tt).
End LoadMore.

(** A vote control of the page: [dataset.nodeId], whether it carries the
    class [vote-btn--voted], and the number its counter shows. *)
Record vote_button := VoteButton {
  nodeId : JsString.t;
  voted : bool;
  count : Z
}.

Section Vote.
Variable redirect_uri : JsString.t.

(** One run of the click listener [attachVoteHandlers] installs; [btn]
    is [e.target.closest('.vote-btn')].  It gives the state the run
    leaves the control in. *)
Definition vote_click (btn : option vote_button) : io (option vote_button) :=
  match btn with
  | None => ret None
  | Some b =>
      let* isAuth := RB_AUTH.isAuthenticated in
      if negb isAuth then
        let* _ := RB_AUTH.login redirect_uri in
        ret (Some b)
      else
        match nodeId b with
        | [] => ret (Some b)
        | _ :: _ =>
            try_catch
              (if voted b then
                 let* _ :=
                   RB_DISCUSSIONS.removeReaction (Js.VStr (nodeId b))
                     (Js.VStr (str "THUMBS_UP")) in
                 ret (Some (VoteButton (nodeId b) false
                              (Z.max 0 (count b - 1))))
               else
                 let* _ :=
                   RB_DISCUSSIONS.addReaction (Js.VStr (nodeId b))
                     (Js.VStr (str "THUMBS_UP")) in
                 ret (Some (VoteButton (nodeId b) true (count b + 1))))
              (fun _ => ret (Some b))
        end
  end.

(** Whether a run changed the control: a run that gets its answer
    flips the mark, every other run leaves the control alone. *)
Definition wrote (before after : option vote_button) : bool :=
  match before, after with
  | Some x, Some y => negb (Bool.eqb (voted x) (voted y))
  | _, _ => false
  end.

(** A click on a vote control.  [attachVoteHandlers] adds its listener
    to the [#app] element, which outlives the pages drawn in it, so
    every listener added so far runs, one run of [vote_click] each.
    All of them read the control ([btn]) before any of them changes
    it, each sends its request, and each one that gets its answer
    writes the control: [last] is the control as the runs so far have
    left it. *)
Fixpoint vote_click_runs (n : nat) (btn last : option vote_button)
  : io (option vote_button) :=
  match n with
  | O => ret last
  | S n' =>
      let* r := vote_click btn in
      vote_click_runs n' btn (if wrote btn r then r else last)
  end.

Definition vote_listeners (w : world) : nat :=
  length (List.filter (JsString.eqb (str "attachVoteHandlers")) (handlers w)).

Definition vote_click_event (btn : option vote_button)
  : io (option vote_button) :=
  fun w => vote_click_runs (vote_listeners w) btn btn w.
End Vote.


End RB_ROUTER.

(* ================================================================== *)
(** ** Vocabulary of the statements *)
(* ================================================================== *)

Module Vocabulary.
Import RB_RENDER.

(** A parent reference that is absent, or names no comment of the
    list. *)
Definition absent_or_dangling (comments : list comment) (v : Js.value)
  : Prop :=
  Js.truthy v = false \/
  forall j X, comments !! j = Some X -> Js.truthy (c_id X) = true ->
              same_value_zero v (c_id X) = false.

(** A comment with the given identifier and parent reference. *)
Definition plain_comment (id parent : Js.value) : comment :=
  Comment id parent (Js.VStr (str "agent")) (Js.VStr (str "agent")) Js.VNull
          (Js.VStr (str "text")) Js.VNull Js.VNull (Js.VObj []) (Js.VStr []).

(** A status outside the range 200-299. *)
Definition failure_status (r : Net.response) : Prop :=
  (Net.status r < 200 \/ 299 < Net.status r)%Z.

(** No bearer credential is stored. *)
Definition unauthenticated (w : world) : Prop :=
  token w = None \/ token w = Some [].

(** The post [fetchRecent] makes of a log entry that is an object. *)
Definition logged_post (fields : list (JsString.t * Js.value)) : post :=
  let f k := Js.lookup_field k fields in
  Post (f (str "title"))
       (Js.or_else (f (str "author")) RB_DISCUSSIONS.unknown)
       (Js.or_else (f (str "author")) RB_DISCUSSIONS.unknown)
       (f (str "channel")) (f (str "timestamp"))
       (Js.or_else (f (str "upvotes")) (Js.VNum 0))
       (Js.or_else (f (str "commentCount")) (Js.VNum 0))
       (f (str "url")) (f (str "number")).

(** *** Routes, as the specification words them *)

(** A pattern and a navigation token are paths: components separated by
    slashes. *)
Fixpoint components (s : JsString.t) : list JsString.t :=
  match s with
  | [] => [[]]
  | c :: s' =>
      if N.eqb c RB_ROUTER.slash then [] :: components s'
      else match components s' with
           | [] => [[c]]
           | h :: t => (c :: h) :: t
           end
  end.

(** A component of a pattern is static, or a named parameter
    [:name]. *)
Inductive segment :=
| Static (s : JsString.t)
| Param (name : JsString.t).

Definition segment_of (component : JsString.t) : segment :=
  match component with
  | c :: n :: name =>
      if N.eqb c RB_ROUTER.colon then Param (n :: name) else Static component
  | _ => Static component
  end.

Definition segments (pattern : JsString.t) : list segment :=
  List.map segment_of (components pattern).

Fixpoint names_of (segs : list segment) : list JsString.t :=
  match segs with
  | [] => []
  | Static _ :: segs' => names_of segs'
  | Param name :: segs' => name :: names_of segs'
  end.

(** A pattern matches a token when both have the same number of
    components, each static component is the token's component, and each
    parameter stands for one non-empty component of the token: the
    values of the parameters, in order. *)
Fixpoint match_components (segs : list segment) (comps : list JsString.t)
  : option (list JsString.t) :=
  match segs, comps with
  | [], [] => Some []
  | Static s :: segs', c :: comps' =>
      if JsString.eqb s c then match_components segs' comps' else None
  | Param _ :: segs', c :: comps' =>
      match c with
      | [] => None
      | _ :: _ =>
          match match_components segs' comps' with
          | Some vals => Some (c :: vals)
          | None => None
          end
      end
  | _, _ => None
  end.

(** The values bound under the names, in order. *)
Fixpoint bind_values (names vals : list JsString.t) (ps : RB_ROUTER.params)
  : RB_ROUTER.params :=
  match names, vals with
  | name :: names', v :: vals' =>
      bind_values names' vals' (RB_ROUTER.set_param ps name v)
  | _, _ => ps
  end.

Definition spec_match (pattern token : JsString.t)
  : option RB_ROUTER.params :=
  match match_components (segments pattern) (components token) with
  | Some vals => Some (bind_values (names_of (segments pattern)) vals [])
  | None => None
  end.

(** The regular expression of a list of segments: what [new RegExp]
    gives for a pattern whose components they are. *)
Fixpoint lit_then (s : JsString.t) (r : re) : re :=
  match s with
  | [] => r
  | c :: s' => Seq (Chr (CIs c)) (lit_then s' r)
  end.

Definition one_component : re := Plus true (Chr (CNot [RB_ROUTER.slash])).

Fixpoint regex_of_segments (group : nat) (segs : list segment) : re :=
  match segs with
  | [] => Eol
  | seg :: segs' =>
      let tail :=
        match segs' with
        | [] => Eol
        | _ :: _ =>
            Seq (Chr (CIs RB_ROUTER.slash))
                (regex_of_segments
                   (match seg with Static _ => group | Param _ => S group end)
                   segs')
        end in
      match seg with
      | Static s => lit_then s tail
      | Param _ => Seq (Grp group one_component) tail
      end
  end.

#[global] Instance cls_eq_dec : EqDecision cls.
Proof. solve_decision. Defined.
#[global] Instance re_eq_dec : EqDecision re.
Proof. solve_decision. Defined.

(** The patterns on which the code and the segments agree: the regular
    expression the code builds is the one of the segments, and the
    names the code finds are the names of the parameters.  (A pattern
    with a character that has a meaning in a regular expression, or
    with a colon inside a component, is not one of them.) *)
Definition compiles_to_segments (pattern : JsString.t) : bool :=
  RB_ROUTER.plain_pattern pattern
  && bool_decide (RB_ROUTER.route_regex pattern
                  = Seq Bol (regex_of_segments 1 (segments pattern)))
  && bool_decide (RB_ROUTER.param_names pattern = names_of (segments pattern)).

(** A component holds no slash. *)
Definition not_slash : N -> bool := in_cls (CNot [RB_ROUTER.slash]).

Definition static_ok (seg : segment) : bool :=
  match seg with
  | Static s => forallb not_slash s
  | Param _ => true
  end.

(** The first pattern of the table, in declaration order, that matches
    the token. *)
Fixpoint spec_resolve (table : list (JsString.t * JsString.t))
    (token : JsString.t) : option (JsString.t * RB_ROUTER.params) :=
  match table with
  | [] => None
  | (pattern, handler) :: table' =>
      match spec_match pattern token with
      | Some ps => Some (handler, ps)
      | None => spec_resolve table' token
      end
  end.

(** The captures after the groups [group], [group + 1], ... have taken
    the given values. *)
Fixpoint push_caps (group : nat) (vals : list JsString.t) (cs : captures)
  : captures :=
  match vals with
  | [] => cs
  | v :: vals' => push_caps (S group) vals' ((group, v) :: cs)
  end.

(** A text that carries a byline: the opening, a name without a star,
    three stars. *)
Definition not_star : N -> bool := in_cls (CNot [RB_DISCUSSIONS.star]).

Definition byline_at (opening s : JsString.t) : Prop :=
  exists name rest,
    name <> [] /\ forallb not_star name = true
    /\ s = opening ++ name ++ str "***" ++ rest.

(** A position at the start of a line: nothing comes before it, or a
    line terminator does. *)
Definition line_start (before : JsString.t) : bool :=
  match last_of None before with
  | None => true
  | Some c => is_line_terminator c
  end.

(** No line of the body starts with a byline of the given opening. *)
Definition no_byline_line (opening body : JsString.t) : Prop :=
  forall before line,
    body = before ++ line -> line_start before = true ->
    ~ byline_at opening line.

(** The byline of the specification's example, and the separator line
    that follows it. *)
Definition example_byline : JsString.t := str "*Posted by **Example Agent***".
Definition separator : JsString.t :=
  RB_DISCUSSIONS.newline :: str "---" ++ [RB_DISCUSSIONS.newline].

(** The two stripping patterns, with their openings set apart. *)
Definition strip_pattern (opening : JsString.t) (tail : re) : re :=
  seqs (Bol :: Lit opening :: Plus true (Chr (CNot [RB_DISCUSSIONS.star]))
        :: Lit (str "***") :: tail :: []).

Definition post_tail : re :=
  seqs [Star true (Chr CSpace); Chr (CIs RB_DISCUSSIONS.newline); Lit (str "---");
        Star true (Chr CSpace); Opt (Chr (CIs RB_DISCUSSIONS.newline))].

Definition comment_tail : re :=
  seqs [Star true (Chr CSpace); Opt (Chr (CIs RB_DISCUSSIONS.newline))].

(** A term that cannot start with a character accepted by [p]. *)
Definition starts_outside (p : N -> bool) (r : re) : Prop :=
  forall ml R prev x inp cs (k : cont (R := R)),
    p x = true -> m ml r prev (x :: inp) cs k = None.

(** Characters of a fenced block that is plain: no backtick, which
    could close the fence, and no dollar sign. *)
Definition plain_code_char (c : N) : bool :=
  negb (N.eqb c RB_MARKDOWN.backtick) && negb (N.eqb c 36).

(** An input that is one fenced block: the fence with its language
    tag, the lines of code, the closing fence. *)
Definition fenced (lang code : JsString.t) : JsString.t :=
  str "```" ++ lang ++ RB_MARKDOWN.newline :: code
  ++ RB_MARKDOWN.newline :: str "```".

(** What [escapeHtml] makes of one character. *)
Definition escape_char (c : N) : JsString.t :=
  if N.eqb c RB_MARKDOWN.amp then str "&amp;"
  else if N.eqb c RB_MARKDOWN.lt then str "&lt;"
  else if N.eqb c RB_MARKDOWN.gt then str "&gt;"
  else if N.eqb c RB_MARKDOWN.dquote then str "&quot;"
  else [c].

(** Code that leaves the world as it found it. *)
Definition keeps_world {A} (c : io A) : Prop := forall w, snd (c w) = w.

(** An entry of the posted log, for the examples. *)
Definition log_entry (n : Z) : list (JsString.t * Js.value) :=
  [(str "title", Js.VStr (str "post")); (str "number", Js.VNum n)].

(** A world for the examples: every request is answered with the
    given response. *)
Definition world_answering (r : Net.fetched) (t : option JsString.t)
    (batchSize : nat) : world :=
  World (fun _ => r) [] t None ViewLoading false [] None
        (Config (str "kody-w") (str "rappterbook-vm") (str "main")) 0 0
        batchSize.


(** *** The requests of the gateway *)

(** The request [graphql] sends with the credential [t]. *)
Definition graphql_request (t : JsString.t) (op : Net.graphql_op)
    (variables : list (JsString.t * Js.value)) : Net.request :=
  Net.Request (str "https://api.github.com/graphql") Net.POST
    (Some (str "bearer " ++ t)) (Net.GraphqlBody op variables).


(** The request a vote sends with the credential [t]: the mutation
    [op] on the node [id], for a thumbs-up. *)
Definition vote_request (t : JsString.t) (op : Net.graphql_op)
    (id : JsString.t) : Net.request :=
  graphql_request t op [(str "subjectId", Js.VStr id);
                        (str "content", Js.VStr (str "THUMBS_UP"))].

(** The request of the posted log, and the world once a request has
    been issued. *)
Definition log_request (w : world) : Net.request :=
  RB_DISCUSSIONS.json_request (cfg w) (clock w) (str "state/posted_log.json").

Definition after_request (w : world) (r : Net.request) : world :=
  with_requests w (requests w ++ [r]).

(** The request of [fetchDiscussionsREST]: the listing, with the number
    of items asked for in [per_page]. *)
Definition listing_request (c : config) (limit : nat) : Net.request :=
  RB_DISCUSSIONS.rest_request
    (RB_DISCUSSIONS.discussions_url c ++ str "?per_page=" ++ of_nat limit).

(** An answer of the GraphQL endpoint without an error list. *)
Definition graphql_answer (data : Js.value) : Net.response :=
  Net.Response 200 (Some (Js.VObj [(str "data", data)])).

(** A stored credential that is not the empty string. *)
Definition authenticated (w : world) (t : JsString.t) : Prop :=
  token w = Some t /\ t <> [].

(** *** Threads *)

(** The comment (by position) that the comment at position [i] replies
    to, as the second loop of [renderCommentTree] finds it: none when
    the parent reference is absent or names no comment of the list. *)
Definition parent_index (comments : list comment) (i : nat) : option nat :=
  match comments !! i with
  | Some c => parent_of (index_comments 0 comments []) c
  | None => None
  end.

(** The comments a tree shows, in the order of the page. *)
Fixpoint nodes (t : tree) : list object :=
  match t with
  | Node o children => o :: flat_map nodes children
  end.

(** The positions of a list, in order. *)
Definition positions {A} (l : list A) : list nat := seq 0 (length l).

(** The comment reached from position [i] by following parent
    references [k] times. *)
Fixpoint ancestor (comments : list comment) (k : nat) (i : nat) : option nat :=
  match k with
  | O => Some i
  | S k' =>
      match parent_index comments i with
      | Some p => ancestor comments k' p
      | None => None
      end
  end.

(** The comments of the page [renderCommentTree] builds, in order. *)
Definition shown (comments : list comment) : list object :=
  flat_map nodes (comment_forest comments).

(** *** Routes over the components of a token *)

(** [spec_resolve], given the components of the token. *)
Fixpoint resolve_components (table : list (JsString.t * JsString.t))
    (comps : list JsString.t) : option (JsString.t * RB_ROUTER.params) :=
  match table with
  | [] => None
  | (pattern, handler) :: table' =>
      match match_components (segments pattern) comps with
      | Some vals =>
          Some (handler, bind_values (names_of (segments pattern)) vals [])
      | None => resolve_components table' comps
      end
  end.

(** A value a parameter can take: one component, not empty. *)
Definition component_value (v : JsString.t) : Prop :=
  v <> [] /\ forallb not_slash v = true.

(** *** Escaping and colours *)

(** What [escapeAttr] makes of one character. *)
Definition attr_char (c : N) : JsString.t :=
  if N.eqb c 38 then str "&amp;"
  else if N.eqb c 34 then str "&quot;"
  else if N.eqb c 39 then str "&#39;"
  else if N.eqb c 60 then str "&lt;"
  else if N.eqb c 62 then str "&gt;"
  else [c].

(** The characters that end or open something in markup: the two
    quotes and the angle brackets. *)
Definition markup_char (c : N) : bool :=
  N.eqb c 34 || N.eqb c 39 || N.eqb c 60 || N.eqb c 62.

(** The polynomial of the code units of a text, in powers of 31. *)
Definition poly31 (s : JsString.t) : Z :=
  fold_left (fun h c => (31 * h + Z.of_N c)%Z) s 0%Z.

(** *** Markdown *)

(** A text without the newline it ends with, if it ends with one: what
    the pattern "/\n$/" removes. *)
Definition without_final_newline (s : JsString.t) : JsString.t :=
  match rev s with
  | c :: r => if N.eqb c RB_MARKDOWN.newline then rev r else s
  | [] => s
  end.

(** The characters no markdown construct starts with: no backtick, hash
    sign, star, opening bracket or hyphen. *)
Definition plain_text_char (c : N) : bool :=
  negb (existsb (N.eqb c) [96; 35; 42; 91; 45]%N).

(** The same, in escaped text: no angle bracket is left either. *)
Definition inert_char (c : N) : bool :=
  plain_text_char c && negb (N.eqb c RB_MARKDOWN.lt).

(** A text without a blank line: no newline is followed by a
    newline. *)
Fixpoint no_blank_line (s : JsString.t) : bool :=
  match s with
  | [] => true
  | _ :: s' =>
      negb (is_prefix [RB_MARKDOWN.newline; RB_MARKDOWN.newline] s)
      && no_blank_line s'
  end.

(** A text with its newlines turned into line breaks. *)
Definition with_line_breaks (s : JsString.t) : JsString.t :=
  flat_map (fun c => if N.eqb c RB_MARKDOWN.newline then str "<br>" else [c]) s.

(** A term that does not match the empty text. *)
Definition fails_on_empty (r : re) : Prop :=
  forall ml R prev cs (k : cont (R := R)), m ml r prev [] cs k = None.

(** *** Tags of titles *)

(** A character of the text against a character of a pattern under
    the [i] flag. *)
Definition ci_eq (c x : N) : bool :=
  N.eqb x c
  || (N.leb 65 c && N.leb c 90 && N.eqb x (c + 32))
  || (N.leb 97 c && N.leb c 122 && N.eqb x (c - 32)).

(** The text starts with the literal, letter case apart. *)
Fixpoint ci_prefix (p s : JsString.t) : bool :=
  match p, s with
  | [], _ => true
  | c :: p', x :: s' => ci_eq c x && ci_prefix p' s'
  | _ :: _, [] => false
  end.

(** The first character of a tag: an opening bracket or the letter p. *)
Definition tag_start (c : N) : bool := N.eqb c 91 || N.eqb c 112.


(** *** What a pattern matches *)

(** [matches ml r prev s rest cs cs']: at a position that [prev] comes
    before and [s ++ rest] follows, the pattern [r] can match the text
    [s], turning the captures [cs] into [cs'].  Every match the
    backtracking matcher finds is one of these. *)
Inductive matches (ml : bool)
  : re -> option N -> JsString.t -> JsString.t -> captures -> captures
    -> Prop :=
| matches_Eps prev rest cs : matches ml Eps prev [] rest cs cs
| matches_Chr k x prev rest cs :
    in_cls k x = true -> matches ml (Chr k) prev [x] rest cs cs
| matches_Seq a b prev s1 s2 rest cs c1 c2 :
    matches ml a prev s1 (s2 ++ rest) cs c1 ->
    matches ml b (last_of prev s1) s2 rest c1 c2 ->
    matches ml (Seq a b) prev (s1 ++ s2) rest cs c2
| matches_Alt_l a b prev s rest cs c :
    matches ml a prev s rest cs c -> matches ml (Alt a b) prev s rest cs c
| matches_Alt_r a b prev s rest cs c :
    matches ml b prev s rest cs c -> matches ml (Alt a b) prev s rest cs c
| matches_Star_end g a prev rest cs : matches ml (Star g a) prev [] rest cs cs
| matches_Star_more g a prev s1 s2 rest cs c1 c2 :
    s1 <> [] ->
    matches ml a prev s1 (s2 ++ rest) cs c1 ->
    matches ml (Star g a) (last_of prev s1) s2 rest c1 c2 ->
    matches ml (Star g a) prev (s1 ++ s2) rest cs c2
| matches_Grp i a prev s rest cs c :
    matches ml a prev s rest cs c ->
    matches ml (Grp i a) prev s rest cs ((i, s) :: c)
| matches_Bol prev rest cs :
    at_bol ml prev = true -> matches ml Bol prev [] rest cs cs
| matches_Eol prev rest cs :
    at_eol ml rest = true -> matches ml Eol prev [] rest cs cs
| matches_NotBehind k prev rest cs :
    match prev with Some x => in_cls k x = false | None => True end ->
    matches ml (NotBehind k) prev [] rest cs cs
| matches_NotAhead k prev rest cs :
    match rest with x :: _ => in_cls k x = false | [] => True end ->
    matches ml (NotAhead k) prev [] rest cs cs.

(** *** The markup of the output *)

(** The four characters [escapeHtml] replaces. *)
Definition html_char (c : N) : bool :=
  N.eqb c RB_MARKDOWN.amp || N.eqb c RB_MARKDOWN.lt
  || N.eqb c RB_MARKDOWN.gt || N.eqb c RB_MARKDOWN.dquote.

(** What the renderer itself writes with these characters: the
    entities of [escapeHtml], and the tags of the templates, a tag
    with an attribute in the pieces that go around the value.  The
    tags of a code block come in when the blocks are restored. *)
Definition entities : list JsString.t :=
  [str "&amp;"; str "&lt;"; str "&gt;"; str "&quot;"].

Definition inline_tags : list JsString.t :=
  [str "<code>"; str "</code>";
   str "<h1>"; str "</h1>"; str "<h2>"; str "</h2>"; str "<h3>"; str "</h3>";
   str "<strong>"; str "</strong>"; str "<em>"; str "</em>";
   str "<a href=" ++ [RB_MARKDOWN.dquote];
   RB_MARKDOWN.dquote :: str " target=" ++ RB_MARKDOWN.dquote :: str "_blank"
     ++ RB_MARKDOWN.dquote :: str " rel=" ++ RB_MARKDOWN.dquote
     :: str "noopener" ++ RB_MARKDOWN.dquote :: str ">";
   str "</a>";
   str "<ul>"; str "</ul>"; str "<li>"; str "</li>";
   str "<p>"; str "</p>"; str "<br>"].

Definition block_tags : list JsString.t :=
  [str "<pre>"; str "</pre>";
   str "<code class=" ++ RB_MARKDOWN.dquote :: str "language-";
   RB_MARKDOWN.dquote :: str ">"].

Definition written_inline : list JsString.t := entities ++ inline_tags.
Definition written : list JsString.t := written_inline ++ block_tags.

(** A text in which the four characters only occur in what the
    renderer writes: it is made of pieces of [pieces] and of other
    characters. *)
Inductive markup (pieces : list JsString.t) : JsString.t -> Prop :=
| markup_nil : markup pieces []
| markup_other c s :
    html_char c = false -> markup pieces s -> markup pieces (c :: s)
| markup_piece p s :
    In p pieces -> markup pieces s -> markup pieces (p ++ s).

(** The conditions on the pieces under which a text can be cut: a
    piece starts with one of the four characters; no piece starts
    another one; a character is inside a piece when it stands in it
    after the first place. *)
Definition starts_html (pieces : list JsString.t) : bool :=
  forallb (fun p => match p with [] => false | c :: _ => html_char c end)
          pieces.

Definition prefix_free (pieces : list JsString.t) : bool :=
  forallb (fun p =>
             forallb (fun q => negb (is_prefix p q) || JsString.eqb p q)
                     pieces)
          pieces.

Definition inside (pieces : list JsString.t) (c : N) : bool :=
  existsb (fun p => existsb (N.eqb c) (tl p)) pieces.

(** A character at which a text can be cut: none of the four, and
    inside no piece. *)
Definition separator_char (pieces : list JsString.t) (c : N) : bool :=
  negb (html_char c) && negb (inside pieces c).

(** No piece has a dollar sign, and what follows the ampersand of a
    piece has none of the four characters: the conditions under which
    the expansion of a replacement string keeps the pieces whole. *)
Definition dollar_free (pieces : list JsString.t) : bool :=
  forallb (fun p => negb (existsb (N.eqb 36) p)) pieces.

Definition entity_tails_plain (pieces : list JsString.t) : bool :=
  forallb (fun p => match p with
                    | [] => true
                    | c :: p' =>
                        negb (N.eqb c RB_MARKDOWN.amp)
                        || forallb (fun c => negb (html_char c)) p'
                    end)
          pieces.

End Vocabulary.

(* ================================================================== *)
(** * Properties *)
(* ================================================================== *)

(** ** The regular expression engine *)

Module RegexFacts.
Import Vocabulary.

Lemma last_of_cons prev c s : last_of prev (c :: s) = last_of (Some c) s.
Proof. reflexivity. Qed.

Lemma last_of_app prev s1 s2 :
  last_of prev (s1 ++ s2) = last_of (last_of prev s1) s2.
Proof. unfold last_of. apply fold_left_app. Qed.

Lemma is_prefix_app s rest : is_prefix s (s ++ rest) = true.
Proof. induction s as [|c s IH]; cbn; [done|]. by rewrite N.eqb_refl. Qed.

Lemma is_prefix_split s : forall inp,
  is_prefix s inp = true -> inp = s ++ skipn (length s) inp.
Proof.
  induction s as [|c s IH]; intros inp H; cbn in *; [done|].
  destruct inp as [|x inp]; [done|].
  apply andb_prop in H as [Hc Hs]. apply N.eqb_eq in Hc. subst x.
  f_equal. by apply IH.
Qed.

Lemma take_drop_while p s : take_while p s ++ drop_while p s = s.
Proof.
  induction s as [|c s IH]; cbn; [done|].
  destruct (p c); cbn; [by rewrite IH | done].
Qed.

Lemma take_while_all p s : forallb p (take_while p s) = true.
Proof.
  induction s as [|c s IH]; cbn; [done|].
  destruct (p c) eqn:Hc; cbn; [by rewrite Hc | done].
Qed.

Lemma drop_while_head p s c rest :
  drop_while p s = c :: rest -> p c = false.
Proof.
  induction s as [|x s IH]; cbn; [done|].
  destruct (p x) eqn:Hx; [done|]. by intros [= <- _].
Qed.

Lemma take_while_app p xs rest :
  forallb p xs = true ->
  match rest with [] => True | c :: _ => p c = false end ->
  take_while p (xs ++ rest) = xs /\ drop_while p (xs ++ rest) = rest.
Proof.
  intros Hxs Hrest. induction xs as [|x xs IH]; cbn in *.
  - destruct rest as [|c rest]; cbn; [done|]. by rewrite Hrest.
  - apply andb_prop in Hxs as [-> Hxs]. destruct (IH Hxs) as [-> ->]. done.
Qed.

Section Engine.
Variable ml : bool.
Context {R : Type}.
Implicit Types (k : cont (R := R)) (prev : option N) (cs : captures).

(** A literal in front of the input is read whole. *)
Lemma m_Lit_prefix s : forall prev rest cs k,
  m ml (Lit s) prev (s ++ rest) cs k = k (last_of prev s) s rest cs.
Proof.
  induction s as [|c s IH]; intros prev rest cs k; cbn; [done|].
  rewrite N.eqb_refl. by rewrite IH.
Qed.

(** A literal that is not in front of the input fails. *)
Lemma m_Lit_mismatch s : forall prev inp cs k,
  is_prefix s inp = false -> m ml (Lit s) prev inp cs k = None.
Proof.
  induction s as [|c s IH]; intros prev inp cs k H; cbn in *; [done|].
  destruct inp as [|x inp]; [done|].
  rewrite N.eqb_sym. destruct (N.eqb c x); cbn in *; [by apply IH | done].
Qed.

Lemma m_Lit s prev inp cs k :
  m ml (Lit s) prev inp cs k
  = if is_prefix s inp
    then k (last_of prev s) s (skipn (length s) inp) cs
    else None.
Proof.
  destruct (is_prefix s inp) eqn:H.
  - rewrite (is_prefix_split _ _ H) at 1. apply m_Lit_prefix.
  - by apply m_Lit_mismatch.
Qed.

Lemma star_loop_S step g k n prev acc inp cs :
  star_loop step g k (S n) prev acc inp cs
  = let more :=
      step prev inp cs (fun p1 s1 i1 c1 =>
        match s1 with
        | [] => None
        | _ :: _ => star_loop step g k n p1 (acc ++ s1) i1 c1
        end) in
    if g then
      match more with
      | Some x => Some x
      | None => k prev acc inp cs
      end
    else
      match k prev acc inp cs with
      | Some x => Some x
      | None => more
      end.
Proof. reflexivity. Qed.

Lemma m_Chr_cons c prev x inp cs k :
  m ml (Chr c) prev (x :: inp) cs k
  = if in_cls c x then k (Some x) [x] inp cs else None.
Proof. reflexivity. Qed.

Lemma m_Chr_nil c prev cs k : m ml (Chr c) prev [] cs k = None.
Proof. reflexivity. Qed.

(** A greedy star over a character class, before something that cannot
    start with a character of the class, reads the longest run. *)
Lemma star_greedy_rejects c k :
  rejects (in_cls c) k ->
  forall inp n prev acc cs,
    length inp <= n ->
    star_loop (m ml (Chr c)) true k n prev acc inp cs
    = k (last_of prev (take_while (in_cls c) inp))
        (acc ++ take_while (in_cls c) inp)
        (drop_while (in_cls c) inp) cs.
Proof.
  intros Hk inp.
  induction inp as [|x inp IH]; intros n prev acc cs Hn.
  - cbn [take_while drop_while last_of fold_left]. rewrite app_nil_r.
    destruct n; [done|].
    rewrite star_loop_S. cbv zeta. rewrite m_Chr_nil.
    by destruct (k prev acc [] cs).
  - destruct n as [|n]; [cbn in Hn; lia|]. cbn in Hn.
    rewrite star_loop_S. cbv zeta. rewrite m_Chr_cons.
    cbn [take_while drop_while].
    destruct (in_cls c x) eqn:Hx.
    + rewrite IH by lia. rewrite <- app_assoc, last_of_cons. cbn [app].
      rewrite (Hk prev acc x inp cs Hx).
      by destruct (k _ _ _ cs).
    + cbn [last_of fold_left]. by rewrite app_nil_r.
Qed.

(** A greedy star over a character class stops after the longest run
    when what follows succeeds there. *)
Lemma star_greedy_longest c k y :
  forall inp n prev acc cs,
    length inp <= n ->
    k (last_of prev (take_while (in_cls c) inp))
      (acc ++ take_while (in_cls c) inp)
      (drop_while (in_cls c) inp) cs = Some y ->
    star_loop (m ml (Chr c)) true k n prev acc inp cs = Some y.
Proof.
  intros inp.
  induction inp as [|x inp IH]; intros n prev acc cs Hn Hy.
  - cbn [take_while drop_while last_of fold_left] in Hy.
    rewrite app_nil_r in Hy. destruct n; [done|].
    rewrite star_loop_S. cbv zeta. rewrite m_Chr_nil. by rewrite Hy.
  - destruct n as [|n]; [cbn in Hn; lia|]. cbn in Hn.
    cbn [take_while drop_while] in Hy.
    rewrite star_loop_S. cbv zeta. rewrite m_Chr_cons.
    destruct (in_cls c x) eqn:Hx.
    + rewrite (IH n (Some x) (acc ++ [x]) cs); [done | lia |].
      by rewrite <- app_assoc.
    + cbn [last_of fold_left] in Hy. rewrite app_nil_r in Hy.
      by rewrite Hy.
Qed.

(** A lazy star stops where what follows succeeds. *)
Lemma star_lazy_here step k n prev acc inp cs y :
  k prev acc inp cs = Some y ->
  star_loop step false k n prev acc inp cs = Some y.
Proof.
  intros H. destruct n; [done|]. rewrite star_loop_S. cbv zeta.
  by rewrite H.
Qed.

(** A lazy star over a character class walks over the characters at
    which what follows fails. *)
Lemma star_lazy_skip c k (q : N -> bool) :
  rejects q k ->
  forall xs rest n prev acc cs,
    length (xs ++ rest) <= n ->
    forallb q xs = true ->
    forallb (in_cls c) xs = true ->
    star_loop (m ml (Chr c)) false k n prev acc (xs ++ rest) cs
    = star_loop (m ml (Chr c)) false k (n - length xs) (last_of prev xs)
        (acc ++ xs) rest cs.
Proof.
  intros Hk xs.
  induction xs as [|x xs IH]; intros rest n prev acc cs Hn Hq Hc.
  - cbn [app length last_of fold_left]. by rewrite Nat.sub_0_r, app_nil_r.
  - cbn in Hn, Hq, Hc.
    apply andb_prop in Hq as [Hqx Hq]. apply andb_prop in Hc as [Hcx Hc].
    destruct n as [|n]; [lia|]. rewrite star_loop_S. cbv zeta.
    rewrite <- app_comm_cons, m_Chr_cons.
    rewrite (Hk prev acc x (xs ++ rest) cs Hqx), Hcx.
    rewrite IH by (done || lia). rewrite <- app_assoc, last_of_cons.
    by replace (S n - length (x :: xs)) with (n - length xs) by (cbn; lia).
Qed.

Lemma m_Seq a b prev inp cs k :
  m ml (Seq a b) prev inp cs k
  = m ml a prev inp cs (fun p1 s1 i1 c1 =>
      m ml b p1 i1 c1 (fun p2 s2 i2 c2 => k p2 (s1 ++ s2) i2 c2)).
Proof. reflexivity. Qed.

Lemma m_Grp i a prev inp cs k :
  m ml (Grp i a) prev inp cs k
  = m ml a prev inp cs (fun p1 s1 i1 c1 => k p1 s1 i1 ((i, s1) :: c1)).
Proof. reflexivity. Qed.

Lemma m_Star g a prev inp cs k :
  m ml (Star g a) prev inp cs k
  = star_loop (m ml a) g k (length inp) prev [] inp cs.
Proof. reflexivity. Qed.

Lemma m_Alt a b prev inp cs k :
  m ml (Alt a b) prev inp cs k
  = match m ml a prev inp cs k with
    | Some x => Some x
    | None => m ml b prev inp cs k
    end.
Proof. reflexivity. Qed.

Lemma m_Bol prev inp cs k :
  m ml Bol prev inp cs k = if at_bol ml prev then k prev [] inp cs else None.
Proof. reflexivity. Qed.

Lemma m_Eol prev inp cs k :
  m ml Eol prev inp cs k = if at_eol ml inp then k prev [] inp cs else None.
Proof. reflexivity. Qed.

Lemma m_Eps prev inp cs k : m ml Eps prev inp cs k = k prev [] inp cs.
Proof. reflexivity. Qed.

(** A greedy star over a character class tries what follows after the
    longest run first, then after shorter and shorter ones. *)
Lemma star_greedy_backtrack c k :
  forall inp n prev acc cs,
    length inp <= n ->
    star_loop (m ml (Chr c)) true k n prev acc inp cs
    = backtrack k prev acc (take_while (in_cls c) inp)
        (drop_while (in_cls c) inp) cs.
Proof.
  intros inp.
  induction inp as [|x inp IH]; intros n prev acc cs Hn.
  - cbn [take_while drop_while backtrack]. destruct n; [done|].
    rewrite star_loop_S. cbv zeta. by rewrite m_Chr_nil.
  - destruct n as [|n]; [cbn in Hn; lia|]. cbn in Hn.
    rewrite star_loop_S. cbv zeta. rewrite m_Chr_cons.
    cbn [take_while drop_while].
    destruct (in_cls c x) eqn:Hx.
    + rewrite IH by lia. cbn [backtrack].
      by rewrite <- app_comm_cons, take_drop_while.
    + done.
Qed.

(** One or more characters of a class, before something that cannot
    start with a character of the class: the longest run is read. *)
Lemma m_plus_rejects c k prev inp cs :
  rejects (in_cls c) k ->
  m ml (Plus true (Chr c)) prev inp cs k
  = match inp with
    | [] => None
    | x :: rest =>
        if in_cls c x then
          k (last_of (Some x) (take_while (in_cls c) rest))
            (x :: take_while (in_cls c) rest)
            (drop_while (in_cls c) rest) cs
        else None
    end.
Proof.
  intros Hk. unfold Plus. rewrite m_Seq.
  destruct inp as [|x rest]; [done|]. rewrite m_Chr_cons.
  destruct (in_cls c x); [|done].
  rewrite m_Star, star_greedy_rejects; [done | | done].
  intros p a y i c0 Hy. by apply Hk.
Qed.

(** What follows a term is only ever tried on a split of the input:
    the text the term has read, then what remains. *)
Lemma star_loop_splits step g k :
  (forall prev inp cs k' y,
     step prev inp cs k' = Some y ->
     exists p s i c, inp = s ++ i /\ k' p s i c = Some y) ->
  forall n prev acc inp cs y,
    star_loop step g k n prev acc inp cs = Some y ->
    exists p s i c, inp = s ++ i /\ k p (acc ++ s) i c = Some y.
Proof.
  intros Hstep n.
  induction n as [|n IH]; intros prev acc inp cs y H.
  - exists prev, [], inp, cs. by rewrite app_nil_r.
  - rewrite star_loop_S in H. cbv zeta in H.
    assert (Hhere : k prev acc inp cs = Some y ->
              exists p s i c, inp = s ++ i /\ k p (acc ++ s) i c = Some y).
    { intros Hk. exists prev, [], inp, cs. by rewrite app_nil_r. }
    assert (Hmore : step prev inp cs (fun p1 s1 i1 c1 =>
                match s1 with
                | [] => None
                | _ :: _ => star_loop step g k n p1 (acc ++ s1) i1 c1
                end) = Some y ->
              exists p s i c, inp = s ++ i /\ k p (acc ++ s) i c = Some y).
    { intros Hs. apply Hstep in Hs as (p1 & s1 & i1 & c1 & -> & Hs).
      destruct s1 as [|x s1]; [done|].
      apply IH in Hs as (p & s & i & c & -> & Hs).
      exists p, ((x :: s1) ++ s), i, c.
      split; [by rewrite app_assoc | by rewrite app_assoc]. }
    destruct g.
    + destruct (step prev inp cs _) eqn:Hs; [|by apply Hhere].
      injection H as ->. by apply Hmore.
    + destruct (k prev acc inp cs) eqn:Hk; [|by apply Hmore].
      injection H as ->. by apply Hhere.
Qed.

Lemma m_splits r : forall prev inp cs k y,
  m ml r prev inp cs k = Some y ->
  exists p s i c, inp = s ++ i /\ k p s i c = Some y.
Proof.
  induction r as [|c|a IHa b IHb|a IHa b IHb|g a IHa|i a IHa| | |c|c];
    intros prev inp cs k y H.
  - by exists prev, [], inp, cs.
  - destruct inp as [|x inp]; [done|]. rewrite m_Chr_cons in H.
    destruct (in_cls c x); [|done]. by exists (Some x), [x], inp, cs.
  - rewrite m_Seq in H.
    apply IHa in H as (p1 & s1 & i1 & c1 & -> & H).
    apply IHb in H as (p2 & s2 & i2 & c2 & -> & H).
    exists p2, (s1 ++ s2), i2, c2. split; [apply app_assoc | done].
  - rewrite m_Alt in H.
    destruct (m ml a prev inp cs k) eqn:Ha.
    + injection H as ->. by apply IHa in Ha.
    + by apply IHb in H.
  - rewrite m_Star in H.
    by apply (star_loop_splits _ _ _ IHa) in H.
  - rewrite m_Grp in H.
    apply IHa in H as (p1 & s1 & i1 & c1 & -> & H).
    by exists p1, s1, i1, ((i, s1) :: c1).
  - rewrite m_Bol in H. destruct (at_bol ml prev); [|done].
    by exists prev, [], inp, cs.
  - rewrite m_Eol in H. destruct (at_eol ml inp); [|done].
    by exists prev, [], inp, cs.
  - cbn in H. destruct prev as [x|].
    + destruct (in_cls c x); [done|]. by exists (Some x), [], inp, cs.
    + by exists None, [], inp, cs.
  - cbn in H. destruct inp as [|x inp].
    + by exists prev, [], [], cs.
    + destruct (in_cls c x); [done|]. by exists prev, [], (x :: inp), cs.
Qed.

End Engine.

(** A match at the current position splits the input into the text
    matched and the text after it. *)
Lemma match_here_splits ml r prev inp f :
  match_here ml r prev inp = Some f ->
  f_pre f = [] /\ inp = f_text f ++ f_post f.
Proof.
  unfold match_here. intros H.
  apply m_splits in H as (p & s & i & c & -> & [= <-]). done.
Qed.

Lemma search_splits ml r : forall inp prev f,
  search ml r prev inp = Some f ->
  inp = f_pre f ++ f_text f ++ f_post f.
Proof.
  induction inp as [|x inp IH]; intros prev f H; cbn [search] in H.
  - destruct (match_here ml r prev []) eqn:Hm; [|done].
    injection H as ->. apply match_here_splits in Hm as [Hp Hi].
    by rewrite Hp.
  - destruct (match_here ml r prev (x :: inp)) eqn:Hm.
    + injection H as ->. apply match_here_splits in Hm as [Hp Hi].
      by rewrite Hp.
    + destruct (search ml r (Some x) inp) eqn:Hs; [|done].
      injection H as <-. cbn. f_equal. by apply IH in Hs.
Qed.

(** Continuations that reject a class of first characters. *)
Lemma rejects_then {R} p r (k : JsString.t -> cont (R := R)) ml :
  starts_outside p r ->
  rejects p (fun p1 s1 i1 c1 => m ml r p1 i1 c1 (k s1)).
Proof. intros Hr prev acc x inp cs Hx. by apply Hr. Qed.

Lemma rejects_grp {R} p i (k : cont (R := R)) :
  rejects p k -> rejects p (fun p1 s1 i1 c1 => k p1 s1 i1 ((i, s1) :: c1)).
Proof. intros Hk prev acc x inp cs Hx. by apply Hk. Qed.

Lemma starts_outside_Chr p c :
  (forall x, p x = true -> in_cls c x = false) -> starts_outside p (Chr c).
Proof. intros H ml R prev x inp cs k Hx. cbn. by rewrite (H x Hx). Qed.

Lemma starts_outside_Lit p c s :
  (forall x, p x = true -> N.eqb x c = false) ->
  starts_outside p (Lit (c :: s)).
Proof. intros H ml R prev x inp cs k Hx. cbn. by rewrite (H x Hx). Qed.

Lemma starts_outside_Seq p a b :
  starts_outside p a -> starts_outside p (Seq a b).
Proof. intros H ml R prev x inp cs k Hx. rewrite m_Seq. by apply H. Qed.

(** The leftmost match is the one at the current position, if any. *)
Lemma search_here ml r prev inp f :
  match_here ml r prev inp = Some f -> search ml r prev inp = Some f.
Proof. intros H. destruct inp; cbn; by rewrite H. Qed.

Lemma search_skip ml r prev c inp :
  match_here ml r prev (c :: inp) = None ->
  search ml r prev (c :: inp) = option_map (shift c) (search ml r (Some c) inp).
Proof. intros H. cbn. by rewrite H. Qed.

(** Without the [m] flag a pattern that starts with [^] matches at the
    start of the text only. *)
Lemma search_after_start r c inp :
  search false (Seq Bol r) (Some c) inp = None.
Proof.
  revert c. induction inp as [|x inp IH]; intros c; cbn; [done|].
  by rewrite IH.
Qed.

Lemma exec_anchored r s :
  exec false (Seq Bol r) s = match_here false (Seq Bol r) None s.
Proof.
  unfold exec. destruct s as [|c s]; cbn [search].
  - by destruct (match_here false (Seq Bol r) None []).
  - destruct (match_here false (Seq Bol r) None (c :: s)); [done|].
    by rewrite search_after_start.
Qed.

(** A replacement string without a dollar sign stands for itself. *)
Lemma get_substitution_plain n x tpl :
  forallb (fun c => negb (N.eqb c 36)) tpl = true ->
  get_substitution n x tpl = tpl.
Proof.
  induction tpl as [|c tpl IH]; cbn; [done|].
  intros H. apply andb_prop in H as [-> H]. by rewrite IH.
Qed.

(** The leftmost occurrence of a character. *)
Lemma search_chr_none ml c inp : forall prev,
  forallb (fun x => negb (N.eqb x c)) inp = true ->
  search ml (Chr (CIs c)) prev inp = None.
Proof.
  induction inp as [|x inp IH]; intros prev H; cbn in *; [done|].
  apply andb_prop in H as [Hx H].
  destruct (N.eqb x c); [done|]. cbn. by rewrite IH.
Qed.

Lemma search_chr_first ml c pre post : forall prev,
  forallb (fun x => negb (N.eqb x c)) pre = true ->
  search ml (Chr (CIs c)) prev (pre ++ c :: post)
  = Some (Found pre [c] post [] (Some c)).
Proof.
  induction pre as [|x pre IH]; intros prev H; cbn in *.
  - by rewrite N.eqb_refl.
  - apply andb_prop in H as [Hx H].
    destruct (N.eqb x c); [done|]. cbn. by rewrite IH.
Qed.

Lemma split_at_first (c : N) inp :
  forallb (fun x => negb (N.eqb x c)) inp = true
  \/ exists pre post,
       inp = pre ++ c :: post
       /\ forallb (fun x => negb (N.eqb x c)) pre = true.
Proof.
  induction inp as [|x inp IH]; [by left|].
  destruct (N.eqb_spec x c) as [->|Hne].
  - right. by exists [], inp.
  - destruct IH as [H | (pre & post & -> & H)].
    + left. cbn. rewrite H. by destruct (N.eqb_spec x c).
    + right. exists (x :: pre), post. split; [done|].
      cbn. rewrite H. by destruct (N.eqb_spec x c).
Qed.

Lemma flat_map_untouched (c : N) out inp :
  forallb (fun x => negb (N.eqb x c)) inp = true ->
  flat_map (fun x => if N.eqb x c then out else [x]) inp = inp.
Proof.
  induction inp as [|x inp IH]; cbn; [done|].
  intros H. apply andb_prop in H as [Hx H].
  destruct (N.eqb x c); [done|]. cbn. by rewrite IH.
Qed.

(** A global replacement of one character by a fixed text rewrites the
    text character by character. *)
Lemma replace_chr ml c out (f : found -> JsString.t) :
  (forall x, f x = out) ->
  forall fuel inp prev,
    length inp < fuel ->
    replace_from fuel ml (Chr (CIs c)) (fun (_ : unit) x => (f x, tt)) tt
      prev inp
    = (flat_map (fun x => if N.eqb x c then out else [x]) inp, tt).
Proof.
  intros Hf fuel.
  induction fuel as [|fuel IH]; intros inp prev Hlen; [lia|].
  destruct (split_at_first c inp) as [Hno | (pre & post & -> & Hpre)].
  - cbn. rewrite search_chr_none by done. by rewrite flat_map_untouched.
  - cbn [replace_from]. rewrite search_chr_first by done. cbn.
    rewrite IH by (rewrite length_app in Hlen; cbn in Hlen; lia).
    rewrite flat_map_app. cbn. rewrite N.eqb_refl, Hf.
    by rewrite (flat_map_untouched c out pre Hpre).
Qed.

Lemma replace_all_tpl_chr ml c tpl s :
  forallb (fun c => negb (N.eqb c 36)) tpl = true ->
  replace_all_tpl ml (Chr (CIs c)) tpl s
  = flat_map (fun x => if N.eqb x c then tpl else [x]) s.
Proof.
  intros H. unfold replace_all_tpl, replace_all, replace_all_st.
  rewrite (replace_chr ml c tpl); [done | | lia].
  intros x. by apply get_substitution_plain.
Qed.

End RegexFacts.

(** ** The fetch cache *)

Module CacheFacts.
Import RB_STATE.

Section Facts.
Context {V : Type}.
Implicit Types (st : state V) (key : JsString.t) (f : outcome V) (now : Z).

(** A call that finds no entry, or an expired one, invokes the
    producer. *)
Lemma getCached_miss key f now st :
  (forall e, cache st !! key = Some e -> (cacheExpiry <= now - timestamp e)%Z) ->
  calls (snd (getCached key f now st)) = S (calls st).
Proof.
  intros Hexp. unfold getCached.
  destruct (cache st !! key) as [e|] eqn:He.
  - specialize (Hexp e eq_refl).
    destruct (Z.ltb_spec (now - timestamp e) cacheExpiry); [lia|].
    destruct f; reflexivity.
  - destruct f; reflexivity.
Qed.

(** A call that returns leaves its value in the cache. *)
Lemma getCached_stored key f now st v st' :
  getCached key f now st = (Resolved v, st') -> stored st' key = Some v.
Proof.
  unfold getCached, stored.
  destruct (cache st !! key) as [e|] eqn:He.
  - destruct (now - timestamp e <? cacheExpiry)%Z.
    + intros [= <- <-]. by rewrite He.
    + destruct f; intros [= <- <-]; cbn. by rewrite lookup_insert_eq.
  - destruct f; intros [= <- <-]; cbn. by rewrite lookup_insert_eq.
Qed.

(** A call invokes the producer at most once, and when it does and
    returns, the entry it leaves carries the time of the call. *)
Lemma getCached_calls key f now st r st' :
  getCached key f now st = (r, st') ->
  st' = st \/
  (calls st' = S (calls st) /\
   forall v, r = Resolved v -> cache st' !! key = Some (Entry v now)).
Proof.
  unfold getCached.
  assert (Hmiss : forall r st',
    match f with
    | Resolved d =>
        (Resolved d, State (<[key:=Entry d now]> (cache st)) (S (calls st)))
    | Rejected e => (Rejected e, State (cache st) (S (calls st)))
    end = (r, st') ->
    calls st' = S (calls st) /\
    forall v, r = Resolved v -> cache st' !! key = Some (Entry v now)).
  { intros r0 st0. destruct f; intros [= <- <-]; cbn; split; try done.
    intros v [= <-]. by rewrite lookup_insert_eq. }
  destruct (cache st !! key) as [e|].
  - destruct (now - timestamp e <? cacheExpiry)%Z.
    + intros [= <- <-]. by left.
    + intros H. right. by apply Hmiss.
  - intros H. right. by apply Hmiss.
Qed.
End Facts.

(** What a call does, by the test of the cache. *)
Lemma getCached_fresh {V : Type} (key : JsString.t) (f : outcome V) (now : Z)
    (st : state V) :
  fresh st key now = true ->
  exists e, cache st !! key = Some e
            /\ getCached key f now st = (Resolved (data e), st).
Proof.
  unfold fresh, getCached. destruct (cache st !! key) as [e|]; [|done].
  intros ->. by exists e.
Qed.

Lemma getCached_not_fresh {V : Type} (key : JsString.t) (v : V) (now : Z)
    (st : state V) :
  fresh st key now = false ->
  getCached key (Resolved v) now st
  = (Resolved v, State (<[key := Entry v now]> (cache st)) (S (calls st))).
Proof.
  unfold fresh, getCached. destruct (cache st !! key) as [e|]; [|done].
  by intros ->.
Qed.

Lemma fresh_after_store {V : Type} (key : JsString.t) (v : V) (t now : Z)
    (c : gmap JsString.t (entry V)) (n : nat) :
  fresh (State (<[key := Entry v t]> c) n) key now
  = (now - t <? cacheExpiry)%Z.
Proof. unfold fresh. cbn. by rewrite lookup_insert_eq. Qed.

(** A call run without interruption is its two steps, one after the
    other. *)
Lemma getCached_steps {V : Type} (key : JsString.t) (f : outcome V) (now : Z)
    (st : state V) :
  getCached key f now st
  = match begin key now st with
    | (Some d, st') => (Resolved d, st')
    | (None, st') => finish key f now st'
    end.
Proof.
  unfold getCached, begin, finish.
  destruct (cache st !! key) as [e|].
  - destruct (now - timestamp e <? cacheExpiry)%Z; [done|]. by destruct f.
  - by destruct f.
Qed.

(** C3, as amended.  Two calls of [getCached] with the same key, the
    second one made after the first has returned, nothing clearing the
    cache in between, and producers that do not fail.  When the second
    call is made less than 60 seconds after the first, the producer is
    invoked at most once in all, and each call returns the value the
    cache then stores under the key; if the first call found no entry
    younger than 60 seconds it invoked the producer (exactly once),
    stored what it got, and the second call returns that same value
    without any invocation.  When the second call is made 60 seconds or
    more after a first call that found no such entry, the producer is
    invoked a second time and the second call returns the new value;
    and whenever it is made 60 seconds or more after the first and the
    cache held no entry from the future, the second call invokes the
    producer, returns the new value and stores it. *)
Theorem getCached_twice {V : Type} (key : JsString.t) (v1 v2 : V)
    (now1 now2 : Z) (st : state V) :
  let c1 := getCached key (Resolved v1) now1 st in
  let c2 := getCached key (Resolved v2) now2 (snd c1) in
  ((now2 - now1 < cacheExpiry)%Z ->
     calls (snd c2) <= S (calls st)
     /\ (exists x, fst c1 = Resolved x /\ stored (snd c1) key = Some x)
     /\ (exists x, fst c2 = Resolved x /\ stored (snd c2) key = Some x)
     /\ (fresh st key now1 = true -> snd c1 = st)
     /\ (fresh st key now1 = false ->
         c1 = (Resolved v1,
               State (<[key := Entry v1 now1]> (cache st)) (S (calls st)))
         /\ c2 = (Resolved v1, snd c1)))
  /\ ((cacheExpiry <= now2 - now1)%Z ->
      fresh st key now1 = false ->
      calls (snd c1) = S (calls st)
      /\ fst c2 = Resolved v2
      /\ calls (snd c2) = S (S (calls st)))
  /\ ((cacheExpiry <= now2 - now1)%Z ->
      (forall e, cache st !! key = Some e -> (timestamp e <= now1)%Z) ->
      c2 = (Resolved v2,
            State (<[key := Entry v2 now2]> (cache (snd c1)))
                  (S (calls (snd c1))))).
Proof.
  intros c1 c2.
  assert (Hstored : forall (v : V) now s,
            exists x, fst (getCached key (Resolved v) now s) = Resolved x
                      /\ stored (snd (getCached key (Resolved v) now s)) key
                         = Some x).
  { intros v now s. destruct (fresh s key now) eqn:Hf.
    - destruct (getCached_fresh key (Resolved v) now s Hf) as (e & He & ->).
      exists (data e). unfold stored. cbn. by rewrite He.
    - rewrite (getCached_not_fresh key v now s Hf). exists v.
      unfold stored. cbn. by rewrite lookup_insert_eq. }
  destruct (fresh st key now1) eqn:Hf1.
  - (* the first call is answered from the cache *)
    destruct (getCached_fresh key (Resolved v1) now1 st Hf1) as (e & He & H1).
    split; [|split; [done|]].
    { intros Hin.
      split; [|split; [apply Hstored|split; [apply Hstored|]]].
      + subst c2 c1. rewrite H1. cbn [snd].
        destruct (fresh st key now2) eqn:Hf2.
        * destruct (getCached_fresh key (Resolved v2) now2 st Hf2)
            as (e2 & _ & ->). cbn. lia.
        * rewrite (getCached_not_fresh key v2 now2 st Hf2). cbn. lia.
      + split; [|done]. intros _. subst c1. by rewrite H1. }
    intros Hout Hpast. specialize (Hpast e He).
    assert (Hf2 : fresh (snd c1) key now2 = false).
    { subst c1. rewrite H1. cbn [snd]. unfold fresh. rewrite He.
      apply Z.ltb_ge. lia. }
    exact (getCached_not_fresh key v2 now2 (snd c1) Hf2).
  - (* the first call invokes the producer and stores its value *)
    pose proof (getCached_not_fresh key v1 now1 st Hf1) as H1.
    assert (Hf2 : fresh (snd c1) key now2 = (now2 - now1 <? cacheExpiry)%Z).
    { subst c1. rewrite H1. cbn [snd]. apply fresh_after_store. }
    split; [|split].
    + intros Hin. apply Z.ltb_lt in Hin. rewrite Hin in Hf2.
      destruct (getCached_fresh key (Resolved v2) now2 (snd c1) Hf2)
        as (e2 & He2 & H2).
      assert (He : e2 = Entry v1 now1).
      { subst c1. rewrite H1 in He2. cbn in He2.
        rewrite lookup_insert_eq in He2. by injection He2. }
      subst e2. cbn [data] in H2.
      split; [|split; [apply Hstored|split; [apply Hstored|]]].
      * subst c2. rewrite H2. subst c1. rewrite H1. cbn. lia.
      * split; [done|]. intros _. split; [exact H1 | exact H2].
    + intros Hout _. apply Z.ltb_ge in Hout. rewrite Hout in Hf2.
      pose proof (getCached_not_fresh key v2 now2 (snd c1) Hf2) as H2.
      subst c2. rewrite H2. subst c1. rewrite H1. by cbn.
    + intros Hout _. apply Z.ltb_ge in Hout. rewrite Hout in Hf2.
      exact (getCached_not_fresh key v2 now2 (snd c1) Hf2).
Qed.

(** The claim at work: a fresh cache, a producer that yields 7, a call
    at time 1000 and one at time 2000 whose producer would yield 8. *)
Lemma getCached_twice_witness :
  let st := State (V := Z) ∅ 0 in
  let c1 := getCached (str "stats") (Resolved 7%Z) 1000 st in
  let c2 := getCached (str "stats") (Resolved 8%Z) 2000 (snd c1) in
  calls (snd c2) <= 1 /\ fst c1 = Resolved 7%Z /\ c2 = (Resolved 7%Z, snd c1).
Proof.
  intros st c1 c2.
  destruct (getCached_twice (str "stats") 7%Z 8%Z 1000 2000 st) as [Hin _].
  assert (Hlt : (2000 - 1000 < cacheExpiry)%Z) by reflexivity.
  destruct (Hin Hlt) as (Hc & _ & _ & _ & Hmiss).
  destruct (Hmiss eq_refl) as [H1 H2].
  split; [exact Hc|]. split; [|exact H2].
  change c1 with (getCached (str "stats") (Resolved 7%Z) 1000 st).
  by rewrite H1.
Defined.

(** C3 as stated fails.  A first call whose producer fails stores
    nothing, so a second call one second later invokes the producer
    again: two invocations, and the first call returned no value.  And
    of two calls that overlap, the second starting while the first
    waits for its producer, each invokes the producer. *)
Lemma getCached_twice_not_once :
  let st := State (V := Z) ∅ 0 in
  let c1 := getCached (str "stats") (Rejected (str "HTTP 500")) 1000 st in
  let c2 := getCached (str "stats") (Resolved 7%Z) 2000 (snd c1) in
  (2000 - 1000 < cacheExpiry)%Z
  /\ fst c1 = Rejected (str "HTTP 500")
  /\ calls (snd c2) = 2
  /\ calls (overlapped (str "stats") (Resolved 7%Z) (Resolved 8%Z)
              1000 1001 st) = 2.
Proof.
  intros st c1 c2.
  split; [reflexivity | split; [reflexivity | split; reflexivity]].
Qed.

End CacheFacts.

(** ** Comment threads *)

Module ThreadFacts.
Import RB_RENDER Vocabulary.

Lemma svz_eq a b : same_value_zero a b = true -> a = b.
Proof.
  destruct a, b; cbn; try discriminate; try reflexivity.
  - intros H. apply Bool.eqb_prop in H. by subst.
  - intros H. apply Z.eqb_eq in H. by subst.
  - unfold JsString.eqb. intros H. apply bool_decide_eq_true in H. by subst.
Qed.

Lemma svz_trans a b c :
  same_value_zero a b = true -> same_value_zero c a = same_value_zero c b.
Proof. intros H. apply svz_eq in H. by subst. Qed.

Lemma svz_truthy a b :
  same_value_zero a b = true -> Js.truthy a = Js.truthy b.
Proof. intros H. apply svz_eq in H. by subst. Qed.

(** What [byId.get] gives after a [byId.set]. *)
Lemma map_get_set m k o k' :
  map_get (map_set m k o) k'
  = if same_value_zero k' k then Some o else map_get m k'.
Proof.
  induction m as [|[k2 o2] m IH]; cbn; [done|].
  destruct (same_value_zero k k2) eqn:Hk; cbn.
  - rewrite (svz_trans _ _ k' Hk).
    by destruct (same_value_zero k' k2).
  - rewrite IH.
    destruct (same_value_zero k' k2) eqn:Hk2; [|done].
    destruct (same_value_zero k' k) eqn:Hk1; [|done].
    apply svz_eq in Hk1. subst k'. congruence.
Qed.

(** The first loop leaves alone a key no comment carries. *)
Lemma index_get_other comments : forall i m k,
  (forall j X, comments !! j = Some X -> Js.truthy (c_id X) = true ->
               same_value_zero k (c_id X) = false) ->
  map_get (index_comments i comments m) k = map_get m k.
Proof.
  induction comments as [|c rest IH]; intros i m k Hno; cbn; [done|].
  rewrite IH.
  - destruct (Js.truthy (c_id c)) eqn:Ht; [|done].
    rewrite map_get_set. by rewrite (Hno 0 c eq_refl Ht).
  - intros j X Hj. apply (Hno (S j) X Hj).
Qed.

(** The first loop maps the identifier of a comment to that comment,
    when no other comment carries it. *)
Lemma index_get_unique comments : forall i m j A k,
  comments !! j = Some A ->
  Js.truthy (c_id A) = true ->
  same_value_zero k (c_id A) = true ->
  (forall j' X, comments !! j' = Some X ->
                same_value_zero (c_id X) (c_id A) = true -> j' = j) ->
  map_get (index_comments i comments m) k = Some (i + j).
Proof.
  induction comments as [|c rest IH]; intros i m j A k Hj Ht Hk Huniq;
    [done|].
  destruct j as [|j]; cbn in *.
  - injection Hj as ->. rewrite Ht.
    rewrite index_get_other.
    + rewrite map_get_set, Hk. f_equal. lia.
    + intros j X HX _.
      destruct (same_value_zero k (c_id X)) eqn:HkX; [|done].
      pose proof (svz_eq _ _ Hk) as ->.
      pose proof (svz_eq _ _ HkX) as Heq.
      assert (same_value_zero (c_id X) (c_id A) = true) as Hx
        by (rewrite <- Heq; exact Hk).
      by specialize (Huniq (S j) X HX Hx).
  - rewrite (IH (S i) _ j A k Hj Ht Hk).
    + f_equal. lia.
    + intros j' X HX Hs. specialize (Huniq (S j') X HX Hs). lia.
Qed.

(** The roots after the second loop. *)
Lemma attach_roots byId comments : forall i t x,
  In x (roots (attach_comments byId i comments t)) <->
  In x (roots t) \/
  exists j c, comments !! j = Some c /\ x = i + j /\ parent_of byId c = None.
Proof.
  induction comments as [|c rest IH]; intros i t x; cbn.
  - split; [by left | intros [H | (j & c & H & _)]; [done | by destruct j]].
  - rewrite IH. split.
    + intros [Hin | (j & c' & Hj & -> & Hp)].
      * destruct (parent_of byId c) eqn:Hp; cbn in Hin; [by left|].
        apply in_app_or in Hin as [Hin | [<- | []]]; [by left|].
        right. exists 0, c. repeat split; [lia | done].
      * right. exists (S j), c'. repeat split; [done | lia | done].
    + intros [Hin | (j & c' & Hj & -> & Hp)].
      * left. destruct (parent_of byId c); cbn; [done|].
        apply in_or_app. by left.
      * destruct j as [|j]; cbn in Hj.
        -- injection Hj as ->. left. rewrite Hp. cbn.
           apply in_or_app. right. left. lia.
        -- right. exists j, c'. repeat split; [done | lia | done].
Qed.

Lemma attach_replies_length byId comments : forall i t,
  length (replies (attach_comments byId i comments t)) = length (replies t).
Proof.
  induction comments as [|c rest IH]; intros i t; cbn; [done|].
  rewrite IH. destruct (parent_of byId c); cbn; [|done].
  apply length_alter.
Qed.

(** The second loop only ever adds to a [replies] array. *)
Lemma attach_replies_keep byId comments : forall i t p x,
  In x (replies_of t p) ->
  In x (replies_of (attach_comments byId i comments t) p).
Proof.
  induction comments as [|c rest IH]; intros i t p x Hin; cbn; [done|].
  apply IH. destruct (parent_of byId c) as [q|]; [|done].
  unfold replies_of in *. cbn [replies].
  destruct (decide (q = p)) as [->|Hne].
  - rewrite list_lookup_alter_eq.
    destruct (replies t !! p) as [r|]; [|done].
    apply in_or_app. by left.
  - by rewrite list_lookup_alter_ne.
Qed.

(** A comment whose parent is indexed ends in the parent's [replies]. *)
Lemma attach_replies_child byId comments : forall i t j c p,
  comments !! j = Some c ->
  parent_of byId c = Some p ->
  p < length (replies t) ->
  In (i + j) (replies_of (attach_comments byId i comments t) p).
Proof.
  induction comments as [|c0 rest IH]; intros i t j c p Hj Hp Hlt; [done|].
  destruct j as [|j]; cbn in *.
  - injection Hj as ->. rewrite Hp.
    apply attach_replies_keep. unfold replies_of. cbn [replies].
    rewrite list_lookup_alter_eq.
    destruct (lookup_lt_is_Some_2 _ _ Hlt) as [r ->].
    apply in_or_app. right. left. lia.
  - replace (i + S j) with (S i + j) by lia.
    apply (IH _ _ _ c); [done | done |].
    destruct (parent_of byId c0); cbn; [|done].
    by rewrite length_alter.
Qed.

Section Claim.
Variable comments : list comment.

Lemma dangling_is_root x :
  absent_or_dangling comments (c_parentId x) ->
  parent_of (index_comments 0 comments []) x = None.
Proof.
  unfold parent_of. intros [-> | Hno]; [done|].
  destruct (Js.truthy (c_parentId x)); [|done].
  by rewrite index_get_other.
Qed.

(** C6, as amended.  Take any list of comments, in any order, holding
    a comment A whose identifier is set and carried by no other
    comment, a comment B whose parent reference is A's identifier, and
    a comment C; let the parent references of A and of C be absent or
    name no comment of the list.  Then A and C are roots, B is not,
    and B is among the replies of A: the forest rendered has a tree
    for A with the tree of B among its children, and a tree for C. *)
Theorem comment_tree_roots_and_child (a b c : nat) (A B C : comment) :
  comments !! a = Some A ->
  comments !! b = Some B ->
  comments !! c = Some C ->
  Js.truthy (c_id A) = true ->
  same_value_zero (c_parentId B) (c_id A) = true ->
  (forall j X, comments !! j = Some X ->
               same_value_zero (c_id X) (c_id A) = true -> j = a) ->
  absent_or_dangling comments (c_parentId A) ->
  absent_or_dangling comments (c_parentId C) ->
  let t := build_threads comments in
  In a (roots t) /\ In c (roots t) /\ ~ In b (roots t)
  /\ In b (replies_of t a)
  /\ exists ka kb kc,
       In (Node a ka) (comment_forest comments)
       /\ In (Node b kb) ka
       /\ In (Node c kc) (comment_forest comments).
Proof.
  intros Ha Hb Hc HtA HBA Huniq HrootA HrootC t.
  set (byId := index_comments 0 comments []).
  assert (HpB : parent_of byId B = Some a).
  { unfold parent_of. rewrite (svz_truthy _ _ HBA), HtA.
    unfold byId. by rewrite (index_get_unique comments 0 [] a A). }
  assert (Hra : In a (roots t)).
  { apply attach_roots. right. exists a, A.
    repeat split; [done | by apply dangling_is_root]. }
  assert (Hrc : In c (roots t)).
  { apply attach_roots. right. exists c, C.
    repeat split; [done | by apply dangling_is_root]. }
  assert (Hnb : ~ In b (roots t)).
  { intros Hin. apply attach_roots in Hin as [[] | (j & X & Hj & Hbj & Hp)].
    cbn in Hbj. subst j. rewrite Hb in Hj. injection Hj as <-.
    fold byId in Hp. congruence. }
  assert (Hba : In b (replies_of t a)).
  { apply (attach_replies_child byId comments 0 _ b B a Hb HpB).
    cbn. rewrite length_map. by apply lookup_lt_is_Some_1. }
  repeat split; try done.
  assert (Hlen : exists n, length comments = S n).
  { destruct comments; [done | eauto]. }
  destruct Hlen as [n Hn].
  exists (List.map (tree_of n t) (replies_of t a)).
  destruct (tree_of n t b) as [b' kb] eqn:Hkb.
  assert (b' = b) as -> by (destruct n; cbn in Hkb; congruence).
  exists kb, (List.map (tree_of n t) (replies_of t c)).
  unfold comment_forest. fold t. rewrite Hn. repeat split.
  - apply (in_map (tree_of (S n) t)) in Hra. exact Hra.
  - rewrite <- Hkb. by apply in_map.
  - apply (in_map (tree_of (S n) t)) in Hrc. exact Hrc.
Qed.
End Claim.

(** The amended claim on the list C, B, A: the reply comes before its
    parent. *)
Lemma comment_tree_roots_and_child_witness :
  let A := plain_comment (Js.VNum 1) Js.VNull in
  let B := plain_comment (Js.VNum 2) (Js.VNum 1) in
  let C := plain_comment (Js.VNum 3) (Js.VNum 9) in
  let t := build_threads [C; B; A] in
  In 2 (roots t) /\ In 0 (roots t) /\ ~ In 1 (roots t) /\ In 1 (replies_of t 2).
Proof.
  intros A B C t.
  assert (H : forall j X, [C; B; A] !! j = Some X ->
                same_value_zero (c_id X) (c_id A) = true -> j = 2).
  { intros [|[|[|j]]] X [= <-]; cbn; done. }
  assert (HA : absent_or_dangling [C; B; A] (c_parentId A)) by (by left).
  assert (HC : absent_or_dangling [C; B; A] (c_parentId C)).
  { right. intros [|[|[|j]]] X [= <-]; cbn; done. }
  destruct (comment_tree_roots_and_child [C; B; A] 2 1 0 A B C
              eq_refl eq_refl eq_refl eq_refl eq_refl H HA HC)
    as (H1 & H2 & H3 & H4 & _).
  repeat split; assumption.
Defined.

(** C6 as stated fails: B's parent is A and C has no parent, yet A is
    not a root, because A itself replies to C. *)
Lemma comment_tree_parented_root :
  let A := plain_comment (Js.VNum 1) (Js.VNum 3) in
  let B := plain_comment (Js.VNum 2) (Js.VNum 1) in
  let C := plain_comment (Js.VNum 3) Js.VNull in
  same_value_zero (c_parentId B) (c_id A) = true
  /\ Js.truthy (c_parentId C) = false
  /\ ~ In 0 (roots (build_threads [A; B; C]))
  /\ roots (build_threads [A; B; C]) = [2].
Proof.
  cbn. repeat split; try reflexivity. intros [H | []]. discriminate.
Qed.

End ThreadFacts.

(** ** The gateway and the page handlers *)

Module GatewayFacts.
Import RB_DISCUSSIONS RB_ROUTER Vocabulary.

Lemma failure_not_ok r : failure_status r -> Net.ok r = false.
Proof.
  unfold failure_status, Net.ok. intros [H | H].
  - destruct (Z.leb_spec 200 (Net.status r)); [lia | done].
  - destruct (Z.leb_spec (Net.status r) 299); [lia|]. by rewrite andb_false_r.
Qed.

Lemma fetch_got w r resp :
  server w r = Net.Got resp ->
  fetch r w = (Resolved resp, with_requests w (requests w ++ [r])).
Proof. unfold fetch. by intros ->. Qed.

Lemma fetch_requests r w :
  requests (snd (fetch r w)) = requests w ++ [r].
Proof. unfold fetch. by destruct (server w r). Qed.

(** A [try]/[catch] whose handler returns never throws. *)
Lemma try_catch_returns {A} (c : io A) (a : A) w :
  exists r w', try_catch c (fun _ => ret a) w = (Resolved r, w').
Proof.
  unfold try_catch, ret. destruct (c w) as [[x | e] w']; eauto.
Qed.

Lemma fetchDiscussion_returns number w :
  exists r w', fetchDiscussion number w = (Resolved r, w').
Proof. unfold fetchDiscussion, bind, read. apply try_catch_returns. Qed.

Lemma fetchComments_returns number w :
  exists r w', fetchComments number w = (Resolved r, w').
Proof. unfold fetchComments, bind, read. apply try_catch_returns. Qed.

Lemma keeps_ret {A} (a : A) : keeps_world (ret a).
Proof. done. Qed.

Lemma keeps_throw {A} e : keeps_world (throw (A := A) e).
Proof. done. Qed.

Lemma keeps_lift {A} (o : option A) e : keeps_world (lift o e).
Proof. by destruct o. Qed.

Lemma keeps_bind {A B} (c : io A) (k : A -> io B) :
  keeps_world c -> (forall a, keeps_world (k a)) -> keeps_world (bind c k).
Proof.
  intros Hc Hk w. unfold bind. specialize (Hc w).
  destruct (c w) as [[a | e] w']; cbn in *; subst; [apply Hk | done].
Qed.

Lemma keeps_map_io {A B} (f : A -> io B) l :
  (forall a, keeps_world (f a)) -> keeps_world (map_io f l).
Proof.
  intros Hf. induction l as [|a l IH]; cbn; [done|].
  apply keeps_bind; [apply Hf | intros b].
  apply keeps_bind; [apply IH | intros bs]. done.
Qed.

Ltac keeps :=
  repeat first
    [ apply keeps_ret | apply keeps_throw | apply keeps_lift
    | apply keeps_bind; [| intros ?] ].

Lemma keeps_normalize_discussion d : keeps_world (normalize_discussion d).
Proof. unfold normalize_discussion, get_or_throw. keeps. Qed.

Lemma keeps_normalize_comment c : keeps_world (normalize_comment c).
Proof. unfold normalize_comment, get_or_throw. keeps. Qed.

Lemma keeps_normalize_logged p : keeps_world (normalize_logged p).
Proof. unfold normalize_logged, get_or_throw. keeps. Qed.

(** Each of the two read calls issues exactly its own request and
    changes nothing else. *)
Lemma fetchDiscussion_world number w :
  snd (fetchDiscussion number w)
  = with_requests w (requests w ++ [discussion_request (cfg w) number]).
Proof.
  unfold fetchDiscussion, bind, read, try_catch, fetch.
  destruct (server w _) as [e | resp]; cbn; [done|].
  destruct (Net.ok resp); cbn; [|done].
  unfold response_json, lift.
  destruct (Net.json resp) as [d|]; cbn; [|done].
  pose proof (keeps_normalize_discussion d
    (with_requests w (requests w ++ [discussion_request (cfg w) number])))
    as Hk.
  destruct (normalize_discussion d _) as [[x | e] w']; cbn in *; by subst.
Qed.

Lemma fetchComments_world number w :
  snd (fetchComments number w)
  = with_requests w (requests w ++ [comments_request (cfg w) number]).
Proof.
  unfold fetchComments, bind, read, try_catch, fetch.
  destruct (server w _) as [e | resp]; cbn; [done|].
  destruct (Net.ok resp); cbn; [|done].
  unfold response_json, lift.
  destruct (Net.json resp) as [d|]; cbn; [|done].
  assert (keeps_world (map_array normalize_comment d)) as Hk.
  { destruct d; cbn; try apply keeps_throw.
    apply keeps_map_io, keeps_normalize_comment. }
  specialize (Hk
    (with_requests w (requests w ++ [comments_request (cfg w) number]))).
  destruct (map_array normalize_comment d _) as [[x | e] w']; cbn in *;
    by subst.
Qed.

Lemma fetchDiscussion_failure number w resp :
  server w (discussion_request (cfg w) number) = Net.Got resp ->
  Net.ok resp = false ->
  fetchDiscussion number w
  = (Resolved None,
     with_requests w (requests w ++ [discussion_request (cfg w) number])).
Proof.
  intros Hs Hok. unfold fetchDiscussion, bind, read, try_catch.
  rewrite (fetch_got _ _ _ Hs), Hok. reflexivity.
Qed.

Lemma fetchComments_failure number w resp :
  server w (comments_request (cfg w) number) = Net.Got resp ->
  Net.ok resp = false ->
  fetchComments number w
  = (Resolved [],
     with_requests w (requests w ++ [comments_request (cfg w) number])).
Proof.
  intros Hs Hok. unfold fetchComments, bind, read, try_catch.
  rewrite (fetch_got _ _ _ Hs), Hok. reflexivity.
Qed.

(** C10. Whatever the failure status of the response (404, 500, any
    status outside 200-299), [fetchDiscussion] returns [null] and
    [fetchComments] returns the empty list; neither ever throws.  The
    caller is given the same answer for a failed transport as for a
    missing discussion. *)
Theorem read_failure_is_not_found (number : JsString.t) (w : world)
    (resp : Net.response) :
  failure_status resp ->
  (server w (discussion_request (cfg w) number) = Net.Got resp ->
   fst (fetchDiscussion number w) = Resolved None)
  /\ (server w (comments_request (cfg w) number) = Net.Got resp ->
      fst (fetchComments number w) = Resolved [])
  /\ (forall e, fst (fetchDiscussion number w) <> Rejected e)
  /\ (forall e, fst (fetchComments number w) <> Rejected e).
Proof.
  intros Hfail. apply failure_not_ok in Hfail.
  repeat split.
  - intros Hs. by rewrite (fetchDiscussion_failure _ _ _ Hs Hfail).
  - intros Hs. by rewrite (fetchComments_failure _ _ _ Hs Hfail).
  - intros e. destruct (fetchDiscussion_returns number w) as (r & w' & ->).
    discriminate.
  - intros e. destruct (fetchComments_returns number w) as (r & w' & ->).
    discriminate.
Qed.

(** A server error: every request is answered with status 500. *)
Lemma read_failure_is_not_found_witness :
  let w := world_answering (Net.Got (Net.Response 500 None)) None 20 in
  fst (fetchDiscussion (str "42") w) = Resolved None
  /\ fst (fetchComments (str "42") w) = Resolved [].
Proof.
  intros w.
  assert (Hf : failure_status (Net.Response 500 None))
    by (unfold failure_status; cbn; lia).
  destruct (read_failure_is_not_found (str "42") w _ Hf) as (H1 & H2 & _).
  split; [apply H1 | apply H2]; reflexivity.
Defined.

(** C4, as amended.  When the discussion request is answered with a
    failure status, [handleDiscussion] shows the message "Discussion not
    found" and attaches no handler; the comments of that discussion have
    been requested all the same, right after the discussion itself, and
    what came back is dropped. *)
Theorem missing_discussion_page (number : JsString.t) (w : world)
    (resp : Net.response) :
  server w (discussion_request (cfg w) number) = Net.Got resp ->
  failure_status resp ->
  let w' := snd (handleDiscussion number w) in
  fst (handleDiscussion number w) = Resolved tt
  /\ app w' = ViewError (str "Discussion not found") []
  /\ requests w'
     = requests w ++ [discussion_request (cfg w) number;
                      comments_request (cfg w) number]
  /\ handlers w' = handlers w.
Proof.
  intros Hs Hfail. apply failure_not_ok in Hfail.
  unfold handleDiscussion, try_catch, bind, promise_all2.
  rewrite (fetchDiscussion_failure _ _ _ Hs Hfail).
  pose proof (fetchComments_world number
    (with_requests w (requests w ++ [discussion_request (cfg w) number])))
    as Hw.
  destruct (fetchComments_returns number
    (with_requests w (requests w ++ [discussion_request (cfg w) number])))
    as (cs & w2 & Hc).
  rewrite Hc in *. cbn in Hw. subst w2. cbn.
  repeat split. by rewrite <- app_assoc.
Qed.

Lemma missing_discussion_page_witness :
  let w := world_answering (Net.Got (Net.Response 404 None)) None 20 in
  let w' := snd (handleDiscussion (str "999999") w) in
  app w' = ViewError (str "Discussion not found") []
  /\ requests w' = [discussion_request (cfg w) (str "999999");
                    comments_request (cfg w) (str "999999")].
Proof.
  intros w w'.
  assert (Hf : failure_status (Net.Response 404 None))
    by (unfold failure_status; cbn; lia).
  destruct (missing_discussion_page (str "999999") w _ eq_refl Hf)
    as (_ & H1 & H2 & _).
  split; [exact H1 | exact H2].
Defined.

(** C4 as stated fails: discussion 999999 does not exist (status 404),
    and its comments are requested nevertheless. *)
Lemma comments_requested_for_missing_discussion :
  let w := world_answering (Net.Got (Net.Response 404 None)) None 20 in
  fst (fetchDiscussion (str "999999") w) = Resolved None
  /\ In (comments_request (cfg w) (str "999999"))
        (requests (snd (handleDiscussion (str "999999") w))).
Proof.
  intros w. split; [reflexivity|].
  vm_compute. right. left. reflexivity.
Qed.

Lemma graphql_unauthenticated op vars w :
  unauthenticated w ->
  graphql op vars w = (Rejected (str "Not authenticated"), w).
Proof.
  unfold graphql, bind, RB_AUTH.getToken, read. by intros [-> | ->].
Qed.

Lemma fetchRepoId_unauthenticated w :
  unauthenticated w ->
  fetchRepoId w = (Rejected (str "Not authenticated"), w)
  \/ exists info, fetchRepoId w = (Resolved info, w).
Proof.
  intros Hw. unfold fetchRepoId, bind, read.
  destruct (repoInfo w) as [info|]; [right; by exists info|].
  left. by rewrite graphql_unauthenticated.
Qed.

(** C9. With no bearer credential stored, each mutating operation
    fails with the error "Not authenticated" and leaves the world as it
    was: no request is issued.  A click on a vote control sends the
    window to the authorization page and issues no request either. *)
Theorem mutations_need_credential (w : world)
    (subjectId content commentId body categoryId title parentId : Js.value)
    (number redirect_uri : JsString.t) (btn : vote_button) :
  unauthenticated w ->
  let denied := (Rejected (str "Not authenticated"), w) in
  addReaction subjectId content w = denied
  /\ removeReaction subjectId content w = denied
  /\ postComment number body w = denied
  /\ updateComment commentId body w = denied
  /\ deleteComment commentId w = denied
  /\ createDiscussion categoryId title body w = denied
  /\ postReply number body parentId w = denied
  /\ vote_click redirect_uri (Some btn) w
     = (Resolved (Some btn),
        with_location w (Some (RB_AUTH.authorize_url redirect_uri)))
  /\ requests (snd (vote_click redirect_uri (Some btn) w)) = requests w.
Proof.
  intros Hw denied. subst denied.
  assert (Hvote : vote_click redirect_uri (Some btn) w
     = (Resolved (Some btn),
        with_location w (Some (RB_AUTH.authorize_url redirect_uri)))).
  { unfold vote_click, RB_AUTH.isAuthenticated, RB_AUTH.getToken, bind, read.
    cbn beta. by destruct Hw as [-> | ->]. }
  repeat split.
  - by apply graphql_unauthenticated.
  - by apply graphql_unauthenticated.
  - unfold postComment, bind, RB_AUTH.getToken, read. by destruct Hw as [-> | ->].
  - by apply graphql_unauthenticated.
  - by apply graphql_unauthenticated.
  - unfold createDiscussion, bind.
    destruct (fetchRepoId_unauthenticated w Hw) as [-> | [info ->]]; [done|].
    by rewrite graphql_unauthenticated.
  - unfold postReply, bind, RB_AUTH.getToken, read. by destruct Hw as [-> | ->].
  - exact Hvote.
  - by rewrite Hvote.
Qed.

Lemma mutations_need_credential_witness :
  let w := world_answering (Net.Got (Net.Response 200 None)) None 20 in
  addReaction (Js.VStr (str "D_1")) (Js.VStr (str "THUMBS_UP")) w
  = (Rejected (str "Not authenticated"), w)
  /\ requests
       (snd (vote_click (str "https%3A%2F%2Fexample.org%2F")
               (Some (VoteButton (str "D_1") false 3)) w)) = [].
Proof.
  intros w.
  assert (Hw : unauthenticated w) by (by left).
  destruct (mutations_need_credential w (Js.VStr (str "D_1"))
              (Js.VStr (str "THUMBS_UP")) Js.VNull Js.VNull Js.VNull Js.VNull
              Js.VNull (str "1") (str "https%3A%2F%2Fexample.org%2F")
              (VoteButton (str "D_1") false 3) Hw)
    as (H1 & _ & _ & _ & _ & _ & _ & _ & H9).
  split; [exact H1 | exact H9].
Defined.

End GatewayFacts.

(** ** Pagination of the home feed *)

Module FeedFacts.
Import RB_DISCUSSIONS RB_ROUTER Vocabulary GatewayFacts.

Lemma normalize_logged_object fields w :
  normalize_logged (Js.VObj fields) w = (Resolved (logged_post fields), w).
Proof. reflexivity. Qed.

Lemma map_normalize_logged entries w :
  map_io normalize_logged (List.map Js.VObj entries) w
  = (Resolved (List.map logged_post entries), w).
Proof.
  induction entries as [|e entries IH]; [done|].
  cbn [List.map map_io]. unfold bind at 1.
  rewrite normalize_logged_object. unfold bind at 1. by rewrite IH.
Qed.

(** [fetchRecent(null, limit)] when the posted log is served: the
    [limit] newest entries, newest first. *)
Lemma fetchRecent_log limit w resp log entries :
  server w (json_request (cfg w) (clock w) (str "state/posted_log.json"))
  = Net.Got resp ->
  Net.ok resp = true ->
  Net.json resp = Some log ->
  Js.get log (str "posts") = Some (Js.VArr (List.map Js.VObj entries)) ->
  fetchRecent None limit w
  = (Resolved (firstn limit (List.map logged_post (rev entries))),
     with_requests w
       (requests w
        ++ [json_request (cfg w) (clock w) (str "state/posted_log.json")])).
Proof.
  intros Hs Hok Hjson Hposts.
  unfold fetchRecent, try_catch, bind at 1.
  unfold fetchJSON, bind, read. rewrite (fetch_got _ _ _ Hs), Hok.
  unfold response_json, get_or_throw, lift. rewrite Hjson. cbn [negb].
  unfold ret at 1. rewrite Hposts. unfold ret at 1.
  cbn [Js.or_else Js.truthy filter_channel]. unfold ret at 1 2.
  rewrite <- map_rev, !firstn_map, map_normalize_logged. done.
Qed.

Lemma keeps_normalize_listed d : keeps_world (normalize_listed d).
Proof.
  unfold normalize_listed, get_or_throw. keeps.
Qed.

(** [fetchDiscussionsREST] never throws, and issues exactly its own
    request, whatever comes back. *)
Lemma fetchDiscussionsREST_requests channelSlug limit w :
  exists posts w',
    fetchDiscussionsREST channelSlug limit w = (Resolved posts, w')
    /\ requests w' = requests w ++ [listing_request (cfg w) limit]
    /\ homePostsLoaded w' = homePostsLoaded w.
Proof.
  unfold fetchDiscussionsREST, bind at 1, read, try_catch, bind at 1, fetch.
  change (rest_request (discussions_url (cfg w) ++ str "?per_page="
                        ++ of_nat limit))
    with (listing_request (cfg w) limit).
  destruct (server w _) as [e | resp]; [by eexists _, _|].
  destruct (Net.ok resp); cbn [negb]; [|by eexists _, _].
  unfold bind at 1, response_json, lift.
  destruct (Net.json resp) as [d|]; [|by eexists _, _].
  unfold ret at 1, bind at 1.
  assert (keeps_world (map_array normalize_listed d)) as Hk.
  { destruct d; cbn; try apply keeps_throw.
    apply keeps_map_io, keeps_normalize_listed. }
  specialize (Hk (with_requests w (requests w ++ [listing_request (cfg w) limit]))).
  destruct (map_array normalize_listed d _) as [[x | e] w'];
    cbn in Hk; subst w'; by eexists _, _.
Qed.

(** When the posted log is refused, [fetchRecent] asks the listing for
    as many items as it was asked for. *)
Lemma fetchRecent_refused channelSlug limit w resp :
  server w (log_request w) = Net.Got resp ->
  Net.ok resp = false ->
  exists posts w',
    fetchRecent channelSlug limit w = (Resolved posts, w')
    /\ requests w'
       = requests w ++ [log_request w; listing_request (cfg w) limit]
    /\ homePostsLoaded w' = homePostsLoaded w.
Proof.
  intros Hs Hok.
  destruct (fetchDiscussionsREST_requests channelSlug limit
              (after_request w (log_request w)))
    as (posts & w' & Hrest & Hreq & Hloaded).
  exists posts, w'. split; [|split; [|exact Hloaded]].
  - unfold fetchRecent, try_catch, bind at 1.
    unfold fetchJSON, bind, read. unfold log_request in Hs.
    by rewrite (fetch_got _ _ _ Hs), Hok.
  - rewrite Hreq. cbn. by rewrite <- app_assoc.
Qed.

Section Home.
Variable load_panels : io unit.
Variable card_body : post -> RB_RENDER.post_type -> outcome unit.
Variables render_stats render_side : outcome unit.

Local Abbreviation home :=
  (handleHome load_panels card_body render_stats render_side).
Local Abbreviation renders :=
  (renderHome card_body render_stats render_side).

(** What [handleHome] leaves once the panels and the feed are loaded:
    the page with the posts and the button, or the error message when
    the rendering throws. *)
Lemma handleHome_run (w w1 w2 : world) (posts : list post) :
  load_panels w = (Resolved tt, w1) ->
  fetchRecent None (homeBatchSize w1 + 1) w1 = (Resolved posts, w2) ->
  let shown := firstn (homeBatchSize w1) posts in
  requests (snd (home w)) = requests w2
  /\ homePostsLoaded (snd (home w)) = length shown
  /\ match renders shown with
     | Resolved _ =>
         app (snd (home w)) = ViewHome shown
         /\ load_more (snd (home w)) = (homeBatchSize w1 <? length posts)%nat
     | Rejected e =>
         app (snd (home w)) = ViewError (str "Failed to load home page") e
         /\ load_more (snd (home w)) = false
         /\ handlers (snd (home w)) = handlers w2
     end.
Proof.
  intros Hp Hr shown. unfold handleHome, try_catch, bind. rewrite Hp.
  unfold read. rewrite Hr. unfold modify at 1. unfold settled.
  fold shown. destruct (renders shown) as [[]|e]; [|done].
  unfold set_app, modify, attach, modify, ret.
  by destruct (homeBatchSize w1 <? length posts)%nat.
Qed.

(** C5, as amended.  Let the side panels load, and let [N] be the page
    size.  When the posted log is served with [M] entries and the home
    page renders with the [N] newest of them (no post among them has a
    title that is neither a string nor falsy, and nothing else on the
    page throws), [handleHome] shows these posts: when [M > N + 1]
    exactly [N] posts are shown and the "load more" button is put after
    the feed; when [M <= N] all [M] posts are shown and there is no
    button.  The feed is asked for [N + 1] items: when the posted log
    is refused, the request that follows is the listing with
    [per_page=N+1]. *)
Theorem home_feed_pagination (w w1 : world) :
  load_panels w = (Resolved tt, w1) ->
  let N := homeBatchSize w1 in
  let w' := snd (home w) in
  (forall resp log entries,
     server w1 (log_request w1) = Net.Got resp ->
     Net.ok resp = true ->
     Net.json resp = Some log ->
     Js.get log (str "posts") = Some (Js.VArr (List.map Js.VObj entries)) ->
     let M := length entries in
     let feed := List.map logged_post (rev entries) in
     renders (firstn N feed) = Resolved tt ->
     app w' = ViewHome (firstn N feed)
     /\ load_more w' = (N <? M)%nat
     /\ homePostsLoaded w' = Nat.min N M
     /\ (N + 1 < M -> length (firstn N feed) = N /\ load_more w' = true)
     /\ (M <= N -> firstn N feed = feed /\ length feed = M
                   /\ load_more w' = false))
  /\ (forall resp,
        server w1 (log_request w1) = Net.Got resp ->
        Net.ok resp = false ->
        requests w'
        = requests w1 ++ [log_request w1; listing_request (cfg w1) (N + 1)]).
Proof.
  intros Hp N w'. split.
  - intros resp log entries Hs Hok Hjson Hposts M feed Hrender.
    pose proof (fetchRecent_log (N + 1) w1 resp log entries Hs Hok Hjson
                  Hposts) as Hrecent.
    assert (Hlen : length feed = M).
    { unfold feed, M. by rewrite length_map, length_rev. }
    assert (Hmore : (N <? length (firstn (N + 1) feed))%nat = (N <? M)%nat).
    { rewrite length_firstn, Hlen.
      destruct (Nat.ltb_spec N M), (Nat.ltb_spec N (Nat.min (N + 1) M));
        try done; lia. }
    assert (Hshow : firstn N (firstn (N + 1) feed) = firstn N feed).
    { rewrite firstn_firstn. f_equal. lia. }
    destruct (handleHome_run w w1 _ _ Hp Hrecent) as (_ & Hloaded & Hrun).
    fold N feed in Hrun, Hloaded. rewrite Hshow in Hrun, Hloaded.
    rewrite Hrender, Hmore in Hrun. destruct Hrun as [Happ Hload].
    fold w' in Happ, Hload, Hloaded.
    split; [exact Happ|]. split; [exact Hload|]. split; [|split].
    + rewrite Hloaded, length_firstn, Hlen. reflexivity.
    + intros Hlt. split.
      * rewrite length_firstn, Hlen. lia.
      * rewrite Hload. apply Nat.ltb_lt. lia.
    + intros Hle. repeat split.
      * apply firstn_all2. lia.
      * exact Hlen.
      * rewrite Hload. apply Nat.ltb_ge. lia.
  - intros resp Hs Hok.
    destruct (fetchRecent_refused None (N + 1) w1 resp Hs Hok)
      as (posts & w2 & Hrecent & Hreq & _).
    destruct (handleHome_run w w1 _ _ Hp Hrecent) as (Hrequests & _).
    fold w' in Hrequests. by rewrite Hrequests.
Qed.
End Home.

(** Three posts in the log and a page of one: the newest post is shown
    and the button is there. *)
Lemma home_feed_pagination_witness :
  let log := Js.VObj [(str "posts",
                       Js.VArr (List.map Js.VObj [log_entry 1; log_entry 2; log_entry 3]))] in
  let w := world_answering (Net.Got (Net.Response 200 (Some log))) None 1 in
  let w' := snd (handleHome (ret tt) (fun _ _ => Resolved tt)
                   (Resolved tt) (Resolved tt) w) in
  app w' = ViewHome [logged_post (log_entry 3)] /\ load_more w' = true.
Proof.
  intros log w w'.
  destruct (home_feed_pagination (ret tt) (fun _ _ => Resolved tt)
              (Resolved tt) (Resolved tt) w w eq_refl) as [H _].
  destruct (H (Net.Response 200 (Some log)) log
              [log_entry 1; log_entry 2; log_entry 3]
              eq_refl eq_refl eq_refl eq_refl eq_refl) as (H1 & H2 & _).
  split; [exact H1 | exact H2].
Defined.

(** C5 as stated fails.  A feed of one post whose title is the number
    5, a page size of one, and nothing else on the page that throws:
    the feed holds no more items than the page size, yet the post is
    not displayed.  Rendering its card throws and the page shows the
    error message. *)
Lemma home_feed_post_not_displayed :
  let entry := [(str "title", Js.VNum 5); (str "number", Js.VNum 1)] in
  let log := Js.VObj [(str "posts", Js.VArr [Js.VObj entry])] in
  let w := world_answering (Net.Got (Net.Response 200 (Some log))) None 1 in
  let w' := snd (handleHome (ret tt) (fun _ _ => Resolved tt)
                   (Resolved tt) (Resolved tt) w) in
  fst (fetchRecent None 2 w) = Resolved [logged_post entry]
  /\ app w' = ViewError (str "Failed to load home page") type_error
  /\ load_more w' = false.
Proof. repeat split. Qed.

End FeedFacts.

(** ** The markdown renderer: escaping *)

Module EscapeFacts.
Import RB_MARKDOWN Vocabulary RegexFacts.

(** The four replacements of [escapeHtml] rewrite the text character by
    character: the entity a replacement inserts holds no character a
    later replacement looks for. *)
Lemma escapeHtml_chars text : escapeHtml text = flat_map escape_char text.
Proof.
  unfold escapeHtml. rewrite !replace_all_tpl_chr by reflexivity.
  induction text as [|x text IH]; [done|].
  cbn [flat_map]. rewrite !flat_map_app, IH. f_equal.
  unfold escape_char.
  destruct (N.eqb_spec x amp) as [->|Ha]; [reflexivity|].
  cbn [flat_map List.app]. rewrite !app_nil_r.
  destruct (N.eqb_spec x lt) as [->|Hl]; [reflexivity|].
  cbn [flat_map List.app]. rewrite !app_nil_r.
  destruct (N.eqb_spec x gt) as [->|Hg]; [reflexivity|].
  cbn [flat_map List.app]. rewrite !app_nil_r.
  destruct (N.eqb_spec x dquote) as [->|Hq]; reflexivity.
Qed.

Lemma escape_char_safe x :
  Forall (fun c => c <> lt /\ c <> gt /\ c <> dquote) (escape_char x).
Proof.
  unfold escape_char.
  destruct (N.eqb_spec x amp); [by repeat constructor|].
  destruct (N.eqb_spec x lt); [by repeat constructor|].
  destruct (N.eqb_spec x gt); [by repeat constructor|].
  destruct (N.eqb_spec x dquote); [by repeat constructor|].
  by repeat constructor.
Qed.

(** C1 as stated fails: the single quote is one of the five characters
    and it reaches the output as it is. *)
Lemma single_quote_not_escaped :
  escapeHtml [squote] = [squote]
  /\ render (str "it's") = str "<p>it's</p>".
Proof. split; reflexivity. Qed.

End EscapeFacts.

(** ** The renderer: what its output is made of *)

Module OutputFacts.
Import RB_MARKDOWN Vocabulary RegexFacts EscapeFacts.

(** *** The matcher finds matches *)

Section Sound.
Variable ml : bool.
Context {R : Type}.

Lemma star_loop_sound (g : bool) (a : re) (k : cont (R := R)) :
  (forall prev inp cs (k' : cont (R := R)) y,
     m ml a prev inp cs k' = Some y ->
     exists s rest c,
       inp = s ++ rest /\ matches ml a prev s rest cs c
       /\ k' (last_of prev s) s rest c = Some y) ->
  forall n prev acc inp cs y,
    star_loop (m ml a) g k n prev acc inp cs = Some y ->
    exists s rest c,
      inp = s ++ rest /\ matches ml (Star g a) prev s rest cs c
      /\ k (last_of prev s) (acc ++ s) rest c = Some y.
Proof.
  intros Hstep n.
  induction n as [|n IH]; intros prev acc inp cs y H.
  - exists [], inp, cs. rewrite app_nil_r. split; [done|].
    split; [constructor | exact H].
  - rewrite star_loop_S in H. cbv zeta in H.
    assert (Hhere : k prev acc inp cs = Some y ->
              exists s rest c,
                inp = s ++ rest /\ matches ml (Star g a) prev s rest cs c
                /\ k (last_of prev s) (acc ++ s) rest c = Some y).
    { intros Hk. exists [], inp, cs. rewrite app_nil_r.
      split; [done|]. split; [constructor | exact Hk]. }
    assert (Hmore : m ml a prev inp cs (fun p1 s1 i1 c1 =>
                match s1 with
                | [] => None
                | _ :: _ => star_loop (m ml a) g k n p1 (acc ++ s1) i1 c1
                end) = Some y ->
              exists s rest c,
                inp = s ++ rest /\ matches ml (Star g a) prev s rest cs c
                /\ k (last_of prev s) (acc ++ s) rest c = Some y).
    { intros Hs. apply Hstep in Hs as (s1 & i1 & c1 & -> & Hm1 & Hs).
      destruct s1 as [|x s1]; [done|].
      apply IH in Hs as (s & rest & c & -> & Hm & Hs).
      exists ((x :: s1) ++ s), rest, c.
      split; [by rewrite app_assoc|]. split.
      - by apply matches_Star_more with (c1 := c1).
      - by rewrite last_of_app, app_assoc. }
    destruct g.
    + destruct (m ml a prev inp cs _) eqn:Hs; [|by apply Hhere].
      injection H as ->. by apply Hmore.
    + destruct (k prev acc inp cs) eqn:Hk; [|by apply Hmore].
      injection H as ->. by apply Hhere.
Qed.

Lemma m_sound r : forall prev inp cs (k : cont (R := R)) y,
  m ml r prev inp cs k = Some y ->
  exists s rest c,
    inp = s ++ rest /\ matches ml r prev s rest cs c
    /\ k (last_of prev s) s rest c = Some y.
Proof.
  induction r as [|c|a IHa b IHb|a IHa b IHb|g a IHa|i a IHa| | |c|c];
    intros prev inp cs k y H.
  - exists [], inp, cs. split; [done|]. split; [constructor | exact H].
  - destruct inp as [|x inp]; [done|]. rewrite m_Chr_cons in H.
    destruct (in_cls c x) eqn:Hx; [|done].
    exists [x], inp, cs. split; [done|]. split; [by constructor | exact H].
  - rewrite m_Seq in H.
    apply IHa in H as (s1 & i1 & c1 & -> & Ha & H).
    apply IHb in H as (s2 & i2 & c2 & -> & Hb & H).
    exists (s1 ++ s2), i2, c2. split; [apply app_assoc|].
    split; [by apply matches_Seq with (c1 := c1)|].
    by rewrite last_of_app.
  - rewrite m_Alt in H.
    destruct (m ml a prev inp cs k) eqn:Ha.
    + injection H as ->. apply IHa in Ha as (s & rest & c & -> & Hm & Hk).
      exists s, rest, c. split; [done|]. split; [by apply matches_Alt_l | done].
    + apply IHb in H as (s & rest & c & -> & Hm & Hk).
      exists s, rest, c. split; [done|]. split; [by apply matches_Alt_r | done].
  - rewrite m_Star in H.
    by apply (star_loop_sound _ _ _ IHa) in H.
  - rewrite m_Grp in H.
    apply IHa in H as (s & rest & c & -> & Hm & Hk).
    exists s, rest, ((i, s) :: c). split; [done|].
    split; [by constructor | done].
  - rewrite m_Bol in H. destruct (at_bol ml prev) eqn:Hb; [|done].
    exists [], inp, cs. split; [done|]. split; [by constructor | done].
  - rewrite m_Eol in H. destruct (at_eol ml inp) eqn:He; [|done].
    exists [], inp, cs. split; [done|]. split; [by constructor | done].
  - cbn in H. exists [], inp, cs. split; [done|].
    destruct prev as [x|].
    + destruct (in_cls c x) eqn:Hx; [done|]. split; [by constructor | done].
    + split; [by constructor | done].
  - cbn in H. exists [], inp, cs. split; [done|].
    destruct inp as [|x inp].
    + split; [by constructor | done].
    + destruct (in_cls c x) eqn:Hx; [done|]. split; [by constructor | done].
Qed.
End Sound.

(** What [search] finds is a match of the pattern, between the text
    skipped and the text left. *)
Lemma search_sound ml r : forall inp prev x,
  search ml r prev inp = Some x ->
  inp = f_pre x ++ f_text x ++ f_post x
  /\ matches ml r (last_of prev (f_pre x)) (f_text x) (f_post x) []
       (f_caps x).
Proof.
  induction inp as [|c inp IH]; intros prev x H; cbn [search] in H.
  - unfold match_here in H.
    destruct (m ml r prev [] [] _) eqn:Hm.
    + injection H as <-.
      apply m_sound in Hm as (s & rest & cs & E & Hmatch & Hk).
      injection Hk as <-. cbn. by split.
    + done.
  - unfold match_here in H.
    destruct (m ml r prev (c :: inp) [] _) eqn:Hm.
    + injection H as <-.
      apply m_sound in Hm as (s & rest & cs & E & Hmatch & Hk).
      injection Hk as <-. cbn. by split.
    + destruct (search ml r (Some c) inp) as [x'|] eqn:Hs; [|done].
      injection H as <-. apply IH in Hs as [E Hmatch]. cbn.
      split; [by rewrite <- E | exact Hmatch].
Qed.

(** A pattern without groups leaves the captures as they are. *)
Lemma matches_no_group ml r prev s rest cs c :
  matches ml r prev s rest cs c -> ngroups r = 0 -> c = cs.
Proof.
  induction 1; cbn [ngroups]; intros Hn; try done.
  - rewrite IHmatches2, IHmatches1 by lia. done.
  - apply IHmatches. lia.
  - apply IHmatches. lia.
  - rewrite IHmatches2, IHmatches1 by (cbn; lia). done.
Qed.

Lemma ngroups_Lit l : ngroups (Lit l) = 0.
Proof. induction l as [|c l IH]; cbn; [done | exact IH]. Qed.

Lemma matches_Lit ml l : forall prev s rest cs c,
  matches ml (Lit l) prev s rest cs c -> s = l /\ c = cs.
Proof.
  induction l as [|x l IH]; intros prev s rest cs c H; cbn [Lit] in H.
  - by inversion H.
  - inversion H as [| |a b p s1 s2 r0 cs0 c1 c2 H1 H2| | | | | | | | |]; subst.
    inversion H1; subst. apply IH in H2 as [-> ->].
    cbn [in_cls] in *. by match goal with
    | Hx : N.eqb _ _ = true |- _ => apply N.eqb_eq in Hx; subst
    end.
Qed.

Lemma matches_Seq_inv ml a b prev s rest cs c :
  matches ml (Seq a b) prev s rest cs c ->
  exists s1 s2 c1,
    s = s1 ++ s2 /\ matches ml a prev s1 (s2 ++ rest) cs c1
    /\ matches ml b (last_of prev s1) s2 rest c1 c.
Proof. inversion 1; subst. eauto 8. Qed.

Lemma matches_Grp_inv ml i a prev s rest cs c :
  matches ml (Grp i a) prev s rest cs c ->
  exists c1, c = (i, s) :: c1 /\ matches ml a prev s rest cs c1.
Proof. inversion 1; subst. eauto. Qed.

Lemma matches_Chr_inv ml k prev s rest cs c :
  matches ml (Chr k) prev s rest cs c ->
  exists x, s = [x] /\ in_cls k x = true /\ c = cs.
Proof. inversion 1; subst. eauto. Qed.

Lemma matches_Eol_inv ml prev s rest cs c :
  matches ml Eol prev s rest cs c ->
  s = [] /\ c = cs /\ at_eol ml rest = true.
Proof. inversion 1; subst. eauto. Qed.

Lemma matches_empty_inv ml r prev s rest cs c :
  matches ml r prev s rest cs c ->
  match r with
  | Bol | NotBehind _ | NotAhead _ | Eps => s = [] /\ c = cs
  | _ => True
  end.
Proof. by inversion 1. Qed.


(** *** Texts made of pieces *)

Section Pieces.
Variable W : list JsString.t.
Hypothesis Hstart : starts_html W = true.
Hypothesis Hfree : prefix_free W = true.

Lemma markup_app a b : markup W a -> markup W b -> markup W (a ++ b).
Proof using Type.
  induction 1; intros Hb; cbn [List.app]; [done | by constructor; auto |].
  rewrite <- app_assoc. constructor; auto.
Qed.

Lemma markup_plain s :
  forallb (fun c => negb (html_char c)) s = true -> markup W s.
Proof using Type.
  induction s as [|c s IH]; cbn [forallb]; intros H; [constructor|].
  apply andb_prop in H as [Hc Hs]. apply negb_true_iff in Hc.
  constructor; auto.
Qed.

Lemma markup_of_piece p : In p W -> markup W p.
Proof using Type.
  intros Hp. rewrite <- (app_nil_r p). constructor; [done | constructor].
Qed.

Lemma piece_head p :
  In p W -> exists c p', p = c :: p' /\ html_char c = true.
Proof using Hstart.
  intros Hp. unfold starts_html in Hstart.
  rewrite forallb_forall in Hstart. specialize (Hstart p Hp).
  destruct p as [|c p']; [done|]. eauto.
Qed.

Lemma markup_uncons c s :
  html_char c = false -> markup W (c :: s) -> markup W s.
Proof using Hstart.
  intros Hc H. inversion H as [|c' s' Hc' Hs|p s' Hp Hs E]; subst; [done|].
  destruct (piece_head p Hp) as (x & p' & -> & Hx).
  cbn in E. injection E as -> _. congruence.
Qed.

Lemma markup_strip s rest :
  forallb (fun c => negb (html_char c)) s = true ->
  markup W (s ++ rest) -> markup W rest.
Proof using Hstart.
  induction s as [|c s IH]; cbn [forallb List.app]; intros H Hm; [done|].
  apply andb_prop in H as [Hc Hs]. apply negb_true_iff in Hc.
  apply IH; [done|]. by apply (markup_uncons c).
Qed.

(** A text can be cut where no piece lies across the cut. *)
Lemma markup_cut : forall s, markup W s -> forall a b,
  s = a ++ b ->
  (forall p v u s', In p W -> p = v ++ u -> v <> [] -> u <> [] ->
                    b <> u ++ s') ->
  markup W a /\ markup W b.
Proof using Type.
  induction 1 as [|c s Hc Hs IH|p s Hp Hs IH]; intros a b E Hb.
  - symmetry in E. apply app_eq_nil in E as [-> ->]. split; constructor.
  - destruct a as [|x a]; cbn in E.
    + subst b. split; [constructor | by constructor].
    + injection E as <- ->. destruct (IH a b eq_refl Hb) as [Ha Hb'].
      split; [by constructor | done].
  - symmetry in E. apply app_eq_app in E as [l [[-> ->] | [-> ->]]].
    + destruct (IH l b eq_refl Hb) as [Hl Hb'].
      split; [by constructor | done].
    + (* the cut is inside the piece, or at one of its ends *)
      destruct a as [|x a].
      * split; [constructor|]. cbn. by constructor.
      * destruct l as [|y l].
        -- rewrite app_nil_r in *. split; [by apply markup_of_piece | done].
        -- exfalso. by apply (Hb _ (x :: a) (y :: l) s Hp).
Qed.

Lemma markup_cut_head a c b :
  inside W c = false ->
  markup W (a ++ c :: b) -> markup W a /\ markup W (c :: b).
Proof using Type.
  intros Hc H. apply (markup_cut _ H a (c :: b) eq_refl).
  intros p v u s' Hp -> Hv Hu E.
  destruct u as [|x u]; [done|]. cbn in E. injection E as <- _.
  destruct v as [|y v]; [done|].
  unfold inside in Hc.
  assert (existsb (fun p => existsb (N.eqb c) (tl p)) W = true); [|congruence].
  apply existsb_exists. exists ((y :: v) ++ c :: u). split; [done|].
  cbn [tl List.app]. apply existsb_exists. exists c.
  split; [apply in_or_app; right; by left | apply N.eqb_refl].
Qed.

(** A run of characters that are none of the four and stand inside no
    piece separates two texts. *)
Lemma markup_separated a d b :
  d <> [] -> forallb (separator_char W) d = true ->
  markup W (a ++ d ++ b) -> markup W a /\ markup W b.
Proof using Hstart.
  intros Hne Hd H. destruct d as [|c d]; [done|].
  cbn [forallb] in Hd. apply andb_prop in Hd as [Hc Hd].
  unfold separator_char in Hc. apply andb_prop in Hc as [Hc1 Hc2].
  apply negb_true_iff in Hc1, Hc2.
  cbn [List.app] in H. apply markup_cut_head in H as [Ha Hb]; [|done].
  split; [done|]. apply (markup_uncons c) in Hb; [|done].
  apply (markup_strip d); [|done].
  apply forallb_forall. intros x Hx.
  rewrite forallb_forall in Hd. specialize (Hd x Hx).
  unfold separator_char in Hd. by apply andb_prop in Hd as [-> _].
Qed.

Lemma markup_unpiece p s : In p W -> markup W (p ++ s) -> markup W s.
Proof using Hstart Hfree.
  intros Hp H.
  destruct (piece_head p Hp) as (c & p' & -> & Hc).
  inversion H as [|c' s' Hc' Hs|q s' Hq Hs E]; subst; [congruence|].
  change (q ++ s' = (c :: p') ++ s) in E.
  assert (Hpre : is_prefix q (c :: p') = true \/ is_prefix (c :: p') q = true).
  { apply app_eq_app in E as [l [[-> _] | [-> _]]].
    - right. apply is_prefix_app.
    - left. apply is_prefix_app. }
  unfold prefix_free in Hfree. rewrite forallb_forall in Hfree.
  assert (Heq : q = c :: p').
  { destruct Hpre as [Hpre | Hpre].
    - pose proof (Hfree q Hq) as Hf. rewrite forallb_forall in Hf.
      specialize (Hf _ Hp). rewrite Hpre in Hf. cbn in Hf.
      unfold JsString.eqb in Hf. by apply bool_decide_eq_true in Hf.
    - pose proof (Hfree _ Hp) as Hf. rewrite forallb_forall in Hf.
      specialize (Hf _ Hq). rewrite Hpre in Hf. cbn in Hf.
      unfold JsString.eqb in Hf. by apply bool_decide_eq_true in Hf. }
  subst q. by apply app_inv_head in E as ->.
Qed.

(** Cutting at the end of a line, and trimming. *)
Hypothesis Hlines :
  forallb (fun c => negb (inside W c)) [10; 13; 8232; 8233]%N = true.
Hypothesis Hends :
  forallb (fun p => negb (is_space (List.last p 0%N))) W = true.

Lemma line_terminator_outside c :
  is_line_terminator c = true -> inside W c = false.
Proof using Hlines.
  unfold is_line_terminator. intros H.
  cbn [forallb] in Hlines.
  repeat (apply andb_prop in Hlines as [? Hlines]).
  repeat (apply orb_prop in H as [H | H]);
    apply N.eqb_eq in H; subst c; by apply negb_true_iff.
Qed.

Lemma markup_cut_eol ml a b :
  at_eol ml b = true -> markup W (a ++ b) -> markup W a /\ markup W b.
Proof using Hlines.
  intros He H. destruct b as [|c b].
  - rewrite app_nil_r in H. split; [done | constructor].
  - cbn in He. apply andb_prop in He as [_ He].
    apply markup_cut_head; [by apply line_terminator_outside | done].
Qed.

Lemma space_not_html c : is_space c = true -> html_char c = false.
Proof using Type.
  intros Hs. unfold html_char.
  destruct (N.eqb_spec c amp) as [->|]; [done|].
  destruct (N.eqb_spec c lt) as [->|]; [done|].
  destruct (N.eqb_spec c gt) as [->|]; [done|].
  destruct (N.eqb_spec c dquote) as [->|]; [done|]. done.
Qed.

Lemma markup_drop_spaces s : markup W s -> markup W (drop_while is_space s).
Proof using Hstart.
  induction s as [|c s IH]; cbn [drop_while]; intros H; [done|].
  destruct (is_space c) eqn:Hc; [|done].
  apply IH. apply (markup_uncons c); [by apply space_not_html | done].
Qed.

Lemma markup_cut_space a c :
  is_space c = true -> markup W (a ++ [c]) -> markup W a.
Proof using Hends.
  intros Hc H. apply (markup_cut _ H a [c] eq_refl).
  intros p v u s' Hp -> Hv Hu E.
  destruct u as [|x u]; [done|]. cbn in E. injection E as <- E.
  symmetry in E. apply app_eq_nil in E as [-> ->].
  rewrite forallb_forall in Hends. specialize (Hends _ Hp).
  rewrite List.last_last in Hends. by rewrite Hc in Hends.
Qed.

Lemma markup_drop_spaces_end s :
  markup W s -> markup W (rev (drop_while is_space (rev s))).
Proof using Hends.
  induction s as [|c s IH] using rev_ind; intros H; [done|].
  rewrite rev_app_distr. cbn [rev List.app drop_while].
  destruct (is_space c) eqn:Hc.
  - apply IH. by apply (markup_cut_space s c).
  - cbn [rev]. by rewrite rev_involutive.
Qed.

Lemma markup_trim s : markup W s -> markup W (trim s).
Proof using Hstart Hends.
  intros H. unfold trim. by apply markup_drop_spaces_end, markup_drop_spaces.
Qed.

Lemma markup_join sep parts :
  markup W sep -> Forall (markup W) parts -> markup W (join sep parts).
Proof using Type.
  intros Hsep. induction 1 as [|p parts Hp Hparts IH]; [constructor|].
  destruct parts as [|q parts]; [done|].
  change (join sep (p :: q :: parts)) with (p ++ sep ++ join sep (q :: parts)).
  by repeat apply markup_app.
Qed.
End Pieces.

Lemma markup_more W W' s :
  (forall p, In p W -> In p W') -> markup W s -> markup W' s.
Proof.
  intros Hin. induction 1; [constructor | by constructor |].
  constructor; auto.
Qed.


(** *** Replacing and splitting keep a property of texts *)

Section Steps.
Variable P : JsString.t -> Prop.
Hypothesis P_app : forall a b, P a -> P b -> P (a ++ b).

(** A global replacement whose matches are not empty. *)
Lemma replace_from_keeps {St : Type} (Q : St -> Prop) ml r
    (f : St -> found -> JsString.t * St) :
  (forall prev inp x st,
     search ml r prev inp = Some x -> P inp -> Q st ->
     f_text x <> [] /\ P (f_pre x) /\ P (f_post x)
     /\ P (fst (f st x)) /\ Q (snd (f st x))) ->
  forall fuel st prev inp,
    P inp -> Q st ->
    P (fst (replace_from fuel ml r f st prev inp))
    /\ Q (snd (replace_from fuel ml r f st prev inp)).
Proof using P_app.
  intros Hstep fuel.
  induction fuel as [|fuel IH]; intros st prev inp Hinp Hst; [done|].
  cbn [replace_from].
  destruct (search ml r prev inp) as [x|] eqn:Hs; [|done].
  destruct (Hstep _ _ _ _ Hs Hinp Hst) as (Hne & Hpre & Hpost & Hout & Hst1).
  destruct (f st x) as [out st1]. cbn [fst snd] in *.
  destruct (f_text x) as [|c text]; [done|].
  destruct (IH st1 (f_prev x) (f_post x) Hpost Hst1) as [Htail Hst2].
  destruct (replace_from fuel ml r f st1 (f_prev x) (f_post x))
    as [tail st2]. cbn [fst snd] in *.
  split; [|done]. by repeat apply P_app.
Qed.

Lemma replace_all_keeps ml r (f : found -> JsString.t) s :
  (forall prev inp x,
     search ml r prev inp = Some x -> P inp ->
     f_text x <> [] /\ P (f_pre x) /\ P (f_post x) /\ P (f x)) ->
  P s -> P (replace_all ml r f s).
Proof using P_app.
  intros Hstep Hs. unfold replace_all, replace_all_st.
  apply (replace_from_keeps (fun _ => True)); [|done..].
  intros prev inp x st Hx Hinp _.
  destruct (Hstep _ _ _ Hx Hinp) as (? & ? & ? & ?). by cbn.
Qed.

(** A replacement of the first match. *)
Lemma replace1_keeps ml r (f : found -> JsString.t) s :
  (forall x, exec ml r s = Some x ->
             P (f_pre x) /\ P (f_post x) /\ P (f x)) ->
  P s -> P (replace1 ml r f s).
Proof using P_app.
  intros Hstep Hs. unfold replace1.
  destruct (exec ml r s) as [x|] eqn:Hx; [|done].
  destruct (Hstep x eq_refl) as (? & ? & ?). by repeat apply P_app.
Qed.

(** The pieces of a split. *)
Lemma split_from_keeps ml r :
  (forall piece prev inp x,
     match_here ml r prev inp = Some x -> P (piece ++ inp) ->
     P piece /\ P (f_post x)) ->
  forall fuel prev piece inp,
    P (piece ++ inp) ->
    Forall P (split_from fuel ml r prev piece inp).
Proof using Type.
  intros Hstep fuel.
  induction fuel as [|fuel IH]; intros prev piece inp H; cbn [split_from].
  - by repeat constructor.
  - destruct inp as [|c inp].
    + rewrite app_nil_r in H. by repeat constructor.
    + destruct (match_here ml r prev (c :: inp)) as [x|] eqn:Hx.
      * destruct (Hstep _ _ _ _ Hx H) as [Hpiece Hpost].
        destruct piece as [|p piece].
        -- destruct (f_text x).
           ++ apply IH. exact H.
           ++ constructor; [done|]. by apply IH.
        -- constructor; [done|]. by apply IH.
      * apply IH. by rewrite <- app_assoc.
Qed.

Lemma split_keeps ml r s :
  (forall piece prev inp x,
     match_here ml r prev inp = Some x -> P (piece ++ inp) ->
     P piece /\ P (f_post x)) ->
  P [] -> P s -> Forall P (split ml r s).
Proof using Type.
  intros Hstep Hnil Hs. unfold split. destruct s as [|c s].
  - destruct (match_here ml r None []); by repeat constructor.
  - by apply split_from_keeps.
Qed.
End Steps.

Lemma find_sub_splits pat : forall s pre post,
  find_sub pat s = Some (pre, post) -> s = pre ++ pat ++ post.
Proof.
  induction s as [|c s IH]; intros pre post H; cbn [find_sub] in H.
  - destruct (is_prefix pat []) eqn:Hp; [|done].
    injection H as <- <-. apply is_prefix_split in Hp. exact Hp.
  - destruct (is_prefix pat (c :: s)) eqn:Hp.
    + injection H as <- <-. apply is_prefix_split in Hp. exact Hp.
    + destruct (find_sub pat s) as [[pre' post']|] eqn:Hf; [|done].
      injection H as <- <-. cbn. f_equal. by apply IH.
Qed.


(** *** The shape of the matches of the renderer's patterns *)

Ltac matches_inv :=
  repeat match goal with
  | H : matches _ (Seq _ _) _ _ _ _ _ |- _ =>
      apply matches_Seq_inv in H as (? & ? & ? & -> & ? & ?)
  | H : matches _ (Grp _ _) _ _ _ _ _ |- _ =>
      apply matches_Grp_inv in H as (? & -> & ?)
  | H : matches _ (Lit _) _ _ _ _ _ |- _ =>
      apply matches_Lit in H as [-> ->]
  | H : matches _ (Chr _) _ _ _ _ _ |- _ =>
      apply matches_Chr_inv in H as (? & -> & ? & ->)
  | H : matches _ Eol _ _ _ _ _ |- _ =>
      apply matches_Eol_inv in H as (-> & -> & ?)
  | H : matches _ Bol _ _ _ _ _ |- _ =>
      apply matches_empty_inv in H as [-> ->]
  | H : matches _ (NotBehind _) _ _ _ _ _ |- _ =>
      apply matches_empty_inv in H as [-> ->]
  | H : matches _ (NotAhead _) _ _ _ _ _ |- _ =>
      apply matches_empty_inv in H as [-> ->]
  | H : matches _ (Plus _ (Chr _)) _ _ _ _ _ |- _ =>
      apply matches_no_group in H as ->; [|reflexivity]
  | H : matches _ (Star _ (Chr _)) _ _ _ _ _ |- _ =>
      apply matches_no_group in H as ->; [|reflexivity]
  | H : matches _ (Opt (Chr _)) _ _ _ _ _ |- _ =>
      apply matches_no_group in H as ->; [|reflexivity]
  end.

Lemma fence_shape prev text post caps :
  matches false re_fence prev text post [] caps ->
  exists lang code,
    text = str "```" ++ lang ++ newline :: code ++ str "```"
    /\ caps = [(2, code); (1, lang)].
Proof.
  unfold re_fence. cbn [seqs]. intros H. matches_inv.
  eexists _, _. split; [|reflexivity].
  cbn [in_cls] in *. by match goal with
  | Hx : N.eqb _ _ = true |- _ => apply N.eqb_eq in Hx; subst
  end.
Qed.

Lemma inline_code_shape prev text post caps :
  matches false re_inline_code prev text post [] caps ->
  exists code,
    text = backtick :: code ++ [backtick] /\ caps = [(1, code)].
Proof.
  unfold re_inline_code. cbn [seqs]. intros H. matches_inv.
  eexists. split; [|reflexivity].
  cbn [in_cls] in *.
  repeat match goal with
  | Hx : N.eqb _ _ = true |- _ => apply N.eqb_eq in Hx; subst
  end. reflexivity.
Qed.

Lemma header_shape marks prev text post caps :
  matches true (re_header marks) prev text post [] caps ->
  exists title,
    text = marks ++ title /\ caps = [(1, title)] /\ at_eol true post = true.
Proof.
  unfold re_header. cbn [seqs]. intros H. matches_inv.
  eexists. split; [|split; [reflexivity | done]].
  cbn [List.app]. by rewrite app_nil_r.
Qed.

Lemma bold_shape prev text post caps :
  matches false re_bold prev text post [] caps ->
  exists inner,
    text = str "**" ++ inner ++ str "**" /\ caps = [(1, inner)].
Proof.
  unfold re_bold. cbn [seqs]. intros H. matches_inv. by eexists.
Qed.

Lemma italic_shape prev text post caps :
  matches false re_italic prev text post [] caps ->
  exists inner,
    text = star :: inner ++ [star] /\ caps = [(1, inner)].
Proof.
  unfold re_italic. cbn [seqs]. intros H. matches_inv.
  eexists. split; [|reflexivity].
  cbn [in_cls] in *.
  repeat match goal with
  | Hx : N.eqb _ _ = true |- _ => apply N.eqb_eq in Hx; subst
  end. reflexivity.
Qed.

Lemma link_shape prev text post caps :
  matches false re_link prev text post [] caps ->
  exists label url,
    text = 91%N :: label ++ str "](" ++ url ++ [41%N]
    /\ caps = [(2, url); (1, label)].
Proof.
  unfold re_link. cbn [seqs]. intros H. matches_inv.
  eexists _, _. split; [|reflexivity].
  cbn [in_cls] in *.
  repeat match goal with
  | Hx : N.eqb _ _ = true |- _ => apply N.eqb_eq in Hx; subst
  end. reflexivity.
Qed.

Lemma paragraph_shape prev text post caps :
  matches false re_paragraph prev text post [] caps ->
  exists content,
    text = str "<p>" ++ content ++ str "</p>" /\ caps = [(1, content)].
Proof.
  unfold re_paragraph. cbn [seqs]. intros H. matches_inv. by eexists.
Qed.

(** The items of a list: every one ends at the end of a line. *)
Lemma list_items_end a b prev s rest cs c :
  matches true (Star true (Grp 2 (Seq a (Seq b Eol)))) prev s rest cs c ->
  at_eol true (s ++ rest) = true -> at_eol true rest = true.
Proof.
  remember (Star true (Grp 2 (Seq a (Seq b Eol)))) as r eqn:Er.
  induction 1; try discriminate Er; [done|].
  injection Er as -> ->. intros _. apply IHmatches2; [done|].
  by matches_inv.
Qed.

Lemma list_shape prev text post caps :
  matches true re_list prev text post [] caps ->
  exists rest, text = str "- " ++ rest /\ at_eol true post = true.
Proof.
  unfold re_list. cbn [seqs]. intros H.
  apply matches_Grp_inv in H as (c1 & -> & H).
  apply matches_Seq_inv in H as (s1 & s2 & c2 & -> & H1 & H).
  apply matches_empty_inv in H1 as [-> ->].
  apply matches_Seq_inv in H as (s3 & s4 & c3 & -> & H3 & H).
  apply matches_Lit in H3 as [-> ->].
  apply matches_Seq_inv in H as (s5 & s6 & c4 & -> & H5 & H).
  apply matches_Seq_inv in H as (s7 & s8 & c5 & -> & H7 & H).
  apply matches_Eol_inv in H7 as (-> & -> & He).
  eexists. split; [reflexivity|].
  exact (list_items_end _ _ _ _ _ _ _ H He).
Qed.


(** *** The steps of the renderer *)

Local Abbreviation inline_text := (markup written_inline).
Local Abbreviation output_text := (markup written).

Lemma inline_is_output s : inline_text s -> output_text s.
Proof.
  apply markup_more. intros p Hp. unfold written. apply in_or_app. by left.
Qed.

Ltac listed :=
  unfold written, written_inline, entities, inline_tags, block_tags;
  cbn [In List.app]; repeat first [left; reflexivity | right].

(** Cutting a text of the renderer at a run of separators, before the
    pieces of a code block are in it. *)
Lemma inline_separated a d b :
  d <> [] -> forallb (separator_char written_inline) d = true ->
  inline_text (a ++ d ++ b) -> inline_text a /\ inline_text b.
Proof. exact (markup_separated written_inline eq_refl a d b). Qed.

Lemma inline_cut_eol ml a b :
  at_eol ml b = true ->
  inline_text (a ++ b) -> inline_text a /\ inline_text b.
Proof. exact (markup_cut_eol written_inline eq_refl ml a b). Qed.

Lemma inline_app a b : inline_text a -> inline_text b -> inline_text (a ++ b).
Proof. apply markup_app. Qed.

Lemma inline_piece p : In p written_inline -> inline_text p.
Proof. apply markup_of_piece. Qed.

(** The match found in a text, taken apart. *)
Lemma search_parts ml r prev inp x :
  search ml r prev inp = Some x ->
  exists pre text post caps p,
    x = Found pre text post caps p
    /\ inp = pre ++ text ++ post
    /\ matches ml r (last_of prev pre) text post [] caps.
Proof.
  intros H. apply search_sound in H as [E Hm].
  destruct x as [pre text post caps p]. by exists pre, text, post, caps, p.
Qed.

Ltac found_parts H :=
  let pre := fresh "pre" in
  let text := fresh "text" in
  let post := fresh "post" in
  let caps := fresh "caps" in
  let p := fresh "p" in
  let Hm := fresh "Hm" in
  apply search_parts in H as (pre & text & post & caps & p & -> & -> & Hm);
  cbn [f_pre f_text f_post f_caps f_prev].

(** The escaping. *)
Lemma escape_char_markup c : markup entities (escape_char c).
Proof.
  unfold escape_char.
  destruct (N.eqb_spec c amp); [apply markup_of_piece; listed|].
  destruct (N.eqb_spec c lt); [apply markup_of_piece; listed|].
  destruct (N.eqb_spec c gt); [apply markup_of_piece; listed|].
  destruct (N.eqb_spec c dquote); [apply markup_of_piece; listed|].
  constructor; [|constructor]. unfold html_char.
  by repeat match goal with
  | H : c <> _ |- _ => apply N.eqb_neq in H; rewrite H; clear H
  end.
Qed.

Lemma escapeHtml_entities text : markup entities (escapeHtml text).
Proof.
  rewrite escapeHtml_chars.
  induction text as [|c text IH]; cbn [flat_map]; [constructor|].
  apply markup_app; [apply escape_char_markup | exact IH].
Qed.

Lemma escapeHtml_markup text : inline_text (escapeHtml text).
Proof.
  eapply markup_more; [|apply escapeHtml_entities].
  intros p Hp. unfold written_inline. apply in_or_app. by left.
Qed.

(** The placeholders. *)
Lemma digits_plain u :
  forallb (fun c => negb (html_char c)) (str (DecimalString.NilEmpty.string_of_uint u))
  = true.
Proof. induction u; cbn; auto. Qed.

Lemma of_nat_plain n :
  forallb (fun c => negb (html_char c)) (of_nat n) = true.
Proof.
  unfold of_nat, DecimalString.NilZero.string_of_uint.
  destruct (Nat.to_uint n); try apply digits_plain. reflexivity.
Qed.

Lemma placeholder_plain i :
  forallb (fun c => negb (html_char c)) (placeholder i) = true.
Proof.
  unfold placeholder. rewrite !forallb_app, of_nat_plain. reflexivity.
Qed.

(** The extraction of the code blocks. *)
Lemma strip_newline_markup code :
  inline_text code ->
  inline_text (replace1 false re_trailing_newline (fun _ => []) code).
Proof.
  intros Hcode. apply replace1_keeps; [apply inline_app | | done].
  intros x Hx. unfold exec in Hx. found_parts Hx.
  unfold re_trailing_newline in Hm. matches_inv.
  cbn [in_cls] in *.
  match goal with
  | Hc : N.eqb _ _ = true |- _ => apply N.eqb_eq in Hc; subst
  end.
  rewrite app_nil_r in Hcode.
  apply (inline_separated _ [newline] _) in Hcode as [? ?]; [|done|reflexivity].
  repeat split; [done | done | constructor].
Qed.

Lemma block_markup lang code :
  inline_text lang -> inline_text code ->
  output_text (str "<pre><code" ++ class_attr lang ++ str ">"
               ++ replace1 false re_trailing_newline (fun _ => []) code
               ++ str "</code></pre>").
Proof.
  intros Hlang Hcode.
  apply strip_newline_markup, inline_is_output in Hcode.
  apply inline_is_output in Hlang.
  set (body := replace1 false re_trailing_newline (fun _ => []) code) in *.
  assert (Hend : output_text (body ++ str "</code></pre>")).
  { apply markup_app; [done|].
    apply (markup_piece written (str "</code>")); [listed|].
    apply markup_of_piece. listed. }
  destruct lang as [|c lang].
  - apply (markup_piece written (str "<pre>")); [listed|].
    apply (markup_piece written (str "<code>")); [listed|]. exact Hend.
  - apply (markup_piece written (str "<pre>")); [listed|].
    unfold class_attr. rewrite <- !app_assoc.
    apply (markup_piece written (str "<code class=" ++ dquote :: str "language-")
             ((c :: lang) ++ [dquote] ++ str ">" ++ body ++ str "</code></pre>"));
      [listed|].
    apply markup_app; [done|].
    apply (markup_piece written (dquote :: str ">")
             (body ++ str "</code></pre>")); [listed|].
    exact Hend.
Qed.

Lemma extract_markup html :
  inline_text html ->
  inline_text (fst (extract_code_blocks html))
  /\ Forall output_text (snd (extract_code_blocks html)).
Proof.
  intros Hhtml. unfold extract_code_blocks, replace_all_st.
  apply (replace_from_keeps inline_text inline_app (Forall output_text));
    [|done|constructor].
  intros prev inp x blocks Hx Hinp Hblocks. found_parts Hx.
  apply fence_shape in Hm as (lang & code & -> & ->).
  rewrite <- !app_assoc in Hinp.
  apply (inline_separated _ (str "```")) in Hinp as [Hpre Hinp];
    [|done|reflexivity].
  change (newline :: code ++ str "```") with ([newline] ++ code ++ str "```")
    in Hinp. rewrite <- !app_assoc in Hinp.
  apply (inline_separated _ [newline]) in Hinp as [Hlang Hinp];
    [|done|reflexivity].
  apply (inline_separated _ (str "```")) in Hinp as [Hcode Hpost];
    [|done|reflexivity].
  split; [done|]. split; [done|]. split; [done|].
  unfold fence_callback. cbn [fst snd cap_str cap f_caps Nat.eqb].
  split; [apply markup_plain, placeholder_plain|].
  apply Forall_app. split; [done|]. constructor; [|constructor].
  by apply block_markup.
Qed.


(** The inline code. *)
Lemma inline_code_markup html : inline_text html -> inline_text (inline_code html).
Proof.
  intros Hhtml. unfold inline_code.
  apply replace_all_keeps; [apply inline_app | | done].
  intros prev inp x Hx Hinp. found_parts Hx.
  apply inline_code_shape in Hm as (code & -> & ->).
  change (backtick :: code ++ [backtick]) with ([backtick] ++ code ++ [backtick])
    in *.
  rewrite <- !app_assoc in Hinp.
  apply (inline_separated _ [backtick]) in Hinp as [Hpre Hinp];
    [|done|reflexivity].
  apply (inline_separated _ [backtick]) in Hinp as [Hcode Hpost];
    [|done|reflexivity].
  split; [done|]. split; [done|]. split; [done|].
  cbn [cap_str cap Nat.eqb].
  apply (markup_piece _ (str "<code>")); [listed|].
  apply inline_app; [done|]. apply inline_piece. listed.
Qed.

(** The headers. *)
Lemma header_markup hashes open close marks tpl html :
  marks = hashes ++ str " " ->
  tpl = open ++ str "$1" ++ close ->
  hashes <> [] ->
  forallb (separator_char written_inline) hashes = true ->
  In open written_inline -> In close written_inline ->
  (forall x title,
     f_caps x = [(1, title)] ->
     get_substitution 1 x tpl = open ++ title ++ close) ->
  inline_text html ->
  inline_text (replace_all_tpl true (re_header marks) tpl html).
Proof.
  intros -> Etpl Hne Hsep Hopen Hclose Htpl Hhtml. unfold replace_all_tpl.
  apply replace_all_keeps; [apply inline_app | | done].
  intros prev inp x Hx Hinp.
  replace (ngroups (re_header (hashes ++ str " "))) with 1
    by (unfold re_header; cbn [seqs ngroups]; by rewrite ngroups_Lit).
  rewrite (Htpl x (cap_str 1 (f_caps x))).
  2: { found_parts Hx. by apply header_shape in Hm as (title & -> & -> & _). }
  found_parts Hx.
  apply header_shape in Hm as (title & -> & -> & Heol).
  rewrite <- !app_assoc in Hinp.
  apply (inline_separated _ hashes) in Hinp as [Hpre Hinp]; [|done..].
  apply (markup_uncons written_inline eq_refl) in Hinp; [|reflexivity].
  apply (inline_cut_eol true) in Hinp as [Htitle Hpost]; [|done].
  split; [by destruct hashes|]. split; [done|]. split; [done|].
  cbn [cap_str cap Nat.eqb].
  apply markup_piece; [done|]. apply inline_app; [done|]. by apply inline_piece.
Qed.

Ltac expand_template :=
  intros [pre text post caps p] title; cbn [f_caps]; intros ->;
  vm_compute; reflexivity.

Ltac expanded_to u :=
  match goal with
  | |- markup _ ?t => replace t with u by (vm_compute; reflexivity)
  end.

Lemma headers_markup html : inline_text html -> inline_text (headers html).
Proof.
  intros Hhtml. unfold headers.
  apply (header_markup (str "#") (str "<h1>") (str "</h1>") _ _ _
           eq_refl eq_refl);
    [discriminate | reflexivity | listed | listed
     | expand_template |].
  apply (header_markup (str "##") (str "<h2>") (str "</h2>") _ _ _
           eq_refl eq_refl);
    [discriminate | reflexivity | listed | listed
     | expand_template |].
  apply (header_markup (str "###") (str "<h3>") (str "</h3>") _ _ _
           eq_refl eq_refl);
    [discriminate | reflexivity | listed | listed
     | expand_template |].
  done.
Qed.

(** The emphasis. *)
Lemma bold_markup html : inline_text html -> inline_text (bold html).
Proof.
  intros Hhtml. unfold bold, replace_all_tpl.
  apply replace_all_keeps; [apply inline_app | | done].
  intros prev inp x Hx Hinp. found_parts Hx.
  apply bold_shape in Hm as (inner & -> & ->).
  rewrite <- !app_assoc in Hinp.
  apply (inline_separated _ (str "**")) in Hinp as [Hpre Hinp];
    [|done|reflexivity].
  apply (inline_separated _ (str "**")) in Hinp as [Hinner Hpost];
    [|done|reflexivity].
  split; [done|]. split; [done|]. split; [done|].
  expanded_to (str "<strong>" ++ inner ++ str "</strong>").
  apply markup_piece; [listed|].
  apply inline_app; [done|]. apply inline_piece. listed.
Qed.

Lemma italic_markup html : inline_text html -> inline_text (italic html).
Proof.
  intros Hhtml. unfold italic, replace_all_tpl.
  apply replace_all_keeps; [apply inline_app | | done].
  intros prev inp x Hx Hinp. found_parts Hx.
  apply italic_shape in Hm as (inner & -> & ->).
  change (star :: inner ++ [star]) with ([star] ++ inner ++ [star]) in *.
  rewrite <- !app_assoc in Hinp.
  apply (inline_separated _ [star]) in Hinp as [Hpre Hinp];
    [|done|reflexivity].
  apply (inline_separated _ [star]) in Hinp as [Hinner Hpost];
    [|done|reflexivity].
  split; [done|]. split; [done|]. split; [done|].
  expanded_to (str "<em>" ++ inner ++ str "</em>").
  apply markup_piece; [listed|].
  apply inline_app; [done|]. apply inline_piece. listed.
Qed.

(** The links. *)
Lemma links_markup html : inline_text html -> inline_text (links html).
Proof.
  intros Hhtml. unfold links, replace_all_tpl.
  apply replace_all_keeps; [apply inline_app | | done].
  intros prev inp x Hx Hinp. found_parts Hx.
  apply link_shape in Hm as (label & url & -> & ->).
  change (91%N :: label ++ str "](" ++ url ++ [41%N])
    with ([91%N] ++ label ++ str "](" ++ url ++ [41%N]) in *.
  rewrite <- !app_assoc in Hinp.
  apply (inline_separated _ [91%N]) in Hinp as [Hpre Hinp];
    [|done|reflexivity].
  apply (inline_separated _ (str "](")) in Hinp as [Hlabel Hinp];
    [|done|reflexivity].
  apply (inline_separated _ [41%N]) in Hinp as [Hurl Hpost];
    [|done|reflexivity].
  split; [done|]. split; [done|]. split; [done|].
  expanded_to ((str "<a href=" ++ [dquote]) ++ url
               ++ (dquote :: str " target=" ++ dquote :: str "_blank"
                   ++ dquote :: str " rel=" ++ dquote :: str "noopener"
                   ++ dquote :: str ">")
               ++ label ++ str "</a>").
  apply markup_piece; [listed|].
  apply inline_app; [done|].
  apply markup_piece; [listed|].
  apply inline_app; [done|]. apply inline_piece. listed.
Qed.

(** The lists. *)
Lemma split_lines_markup s : forall line,
  inline_text (line ++ s) -> Forall inline_text (split_lines_from line s).
Proof.
  induction s as [|c s IH]; intros line H; cbn [split_lines_from].
  - rewrite app_nil_r in H. by repeat constructor.
  - destruct (N.eqb_spec c newline) as [->|Hc].
    + apply (inline_separated _ [newline]) in H as [Hline Hs];
        [|done|reflexivity].
      constructor; [done|]. by apply IH.
    + apply IH. by rewrite <- app_assoc.
Qed.

Lemma item_markup line :
  inline_text line ->
  inline_text (str "<li>" ++ replace1 false re_item_mark (fun _ => []) line
               ++ str "</li>").
Proof.
  intros Hline. apply markup_piece; [listed|].
  apply inline_app; [|apply inline_piece; listed].
  apply replace1_keeps; [apply inline_app | | done].
  intros x Hx. unfold exec in Hx. found_parts Hx.
  unfold re_item_mark in Hm. matches_inv.
  change ([] ++ str "- ") with (str "-" ++ str " ") in Hline.
  rewrite <- !app_assoc in Hline.
  apply (inline_separated _ (str "-")) in Hline as [Hpre Hpost];
    [|done|reflexivity].
  apply (markup_uncons written_inline eq_refl) in Hpost; [|reflexivity].
  repeat split; [done | done | constructor].
Qed.

Lemma lists_markup html : inline_text html -> inline_text (lists html).
Proof.
  intros Hhtml. unfold lists.
  apply replace_all_keeps; [apply inline_app | | done].
  intros prev inp x Hx Hinp. found_parts Hx.
  apply list_shape in Hm as (rest & -> & Heol).
  change (str "- " ++ rest) with (str "-" ++ 32%N :: rest) in *.
  rewrite <- !app_assoc in Hinp.
  apply (inline_separated _ (str "-")) in Hinp as [Hpre Hinp];
    [|done|reflexivity].
  apply (markup_uncons written_inline eq_refl) in Hinp; [|reflexivity].
  apply (inline_cut_eol true) in Hinp as [Hrest Hpost]; [|done].
  split; [done|]. split; [done|]. split; [done|].
  unfold list_callback. cbn [f_text].
  apply markup_piece; [listed|].
  apply inline_app; [|apply inline_piece; listed].
  apply (markup_join written_inline); [constructor|].
  apply Forall_map.
  apply (List.Forall_impl _ item_markup).
  apply (split_lines_markup _ []). cbn [List.app].
  constructor; [done|]. by constructor.
Qed.

(** The paragraphs. *)
Lemma match_here_found ml r prev inp x :
  match_here ml r prev inp = Some x ->
  exists text post caps p,
    x = Found [] text post caps p
    /\ inp = text ++ post /\ matches ml r prev text post [] caps.
Proof.
  unfold match_here. intros H.
  apply m_sound in H as (s & rest & c & -> & Hm & Hk).
  injection Hk as <-. by eexists _, _, _, _.
Qed.

Lemma star_chars ml g k prev s rest cs c :
  matches ml (Star g (Chr k)) prev s rest cs c ->
  List.Forall (fun x => in_cls k x = true) s.
Proof.
  remember (Star g (Chr k)) as r eqn:Er.
  induction 1; try discriminate Er; [constructor|].
  injection Er as -> ->.
  match goal with
  | H : matches _ (Chr _) _ _ _ _ _ |- _ =>
      apply matches_Chr_inv in H as (y & -> & Hy & ->)
  end.
  cbn [List.app]. constructor; [done|]. by apply IHmatches2.
Qed.

Lemma blank_lines_shape prev text post caps :
  matches false re_blank_lines prev text post [] caps ->
  text <> [] /\ List.Forall (fun c => c = newline) text.
Proof.
  unfold re_blank_lines, Plus. intros H.
  apply matches_Seq_inv in H as (s1 & s2 & c1 & -> & H1 & H).
  apply matches_Chr_inv in H1 as (y & -> & Hy & ->).
  apply matches_Seq_inv in H as (s3 & s4 & c2 & -> & H3 & H).
  apply matches_Chr_inv in H3 as (z & -> & Hz & ->).
  apply star_chars in H. cbn [in_cls] in *.
  split; [done|]. cbn [List.app].
  apply N.eqb_eq in Hy as ->. apply N.eqb_eq in Hz as ->.
  constructor; [done|]. constructor; [done|].
  eapply List.Forall_impl; [|exact H]. intros a Ha. by apply N.eqb_eq in Ha.
Qed.

Lemma wrap_block_markup block : inline_text block -> inline_text (wrap_block block).
Proof.
  intros H. apply (markup_trim written_inline eq_refl eq_refl) in H.
  unfold wrap_block. destruct (trim block) as [|c s] eqn:E; [constructor|].
  destruct (test false re_block_level (c :: s)); [done|].
  apply markup_piece; [listed|].
  apply inline_app; [done|]. apply inline_piece. listed.
Qed.

Lemma paragraphs_markup html : inline_text html -> inline_text (paragraphs html).
Proof.
  intros Hhtml. unfold paragraphs.
  apply (markup_join written_inline); [by repeat constructor|].
  apply Forall_map.
  apply (List.Forall_impl _ wrap_block_markup).
  apply split_keeps; [|constructor|done].
  intros piece prev inp x Hx Hinp.
  apply match_here_found in Hx as (text & post & caps & p & -> & -> & Hm).
  apply blank_lines_shape in Hm as [Hne Hnl].
  apply (inline_separated _ text) in Hinp; [done|done|].
  apply forallb_forall. intros a Ha.
  rewrite List.Forall_forall in Hnl. by rewrite (Hnl a Ha).
Qed.

(** The line breaks. *)
Lemma breaks_markup content :
  inline_text content ->
  inline_text (replace_all_tpl false (Chr (CIs newline)) (str "<br>") content).
Proof.
  intros H. unfold replace_all_tpl.
  apply replace_all_keeps; [apply inline_app | | done].
  intros prev inp x Hx Hinp. found_parts Hx.
  apply matches_Chr_inv in Hm as (y & -> & Hy & ->).
  cbn [in_cls] in Hy. apply N.eqb_eq in Hy as ->.
  apply (inline_separated _ [newline]) in Hinp as [Hpre Hpost];
    [|done|reflexivity].
  split; [done|]. split; [done|]. split; [done|].
  apply inline_piece. listed.
Qed.

Lemma line_breaks_markup html : inline_text html -> inline_text (line_breaks html).
Proof.
  intros Hhtml. unfold line_breaks.
  apply replace_all_keeps; [apply inline_app | | done].
  intros prev inp x Hx Hinp. found_parts Hx.
  apply paragraph_shape in Hm as (content & -> & ->).
  rewrite <- !app_assoc in Hinp.
  apply (markup_cut_head written_inline pre lt) in Hinp
    as [Hpre Hinp]; [|reflexivity].
  apply (markup_unpiece written_inline eq_refl eq_refl (str "<p>")) in Hinp;
    [|listed].
  apply (markup_cut_head written_inline content lt) in Hinp
    as [Hcontent Hpost]; [|reflexivity].
  apply (markup_unpiece written_inline eq_refl eq_refl (str "</p>")) in Hpost;
    [|listed].
  split; [done|]. split; [done|]. split; [done|].
  cbn [cap_str cap Nat.eqb f_caps].
  apply markup_piece; [listed|].
  apply inline_app; [by apply breaks_markup|]. apply inline_piece. listed.
Qed.

Lemma inline_and_blocks_markup html :
  inline_text html -> inline_text (inline_and_blocks html).
Proof.
  intros H. unfold inline_and_blocks.
  by apply line_breaks_markup, paragraphs_markup, lists_markup, links_markup,
    italic_markup, bold_markup, headers_markup, inline_code_markup.
Qed.


(** The restoration of the code blocks. *)
Lemma no_group n : (1 <=? n) && (n <=? 0) = false.
Proof. by destruct n. Qed.

Lemma expand_plain_prefix x q : forall s,
  existsb (N.eqb 36) q = false ->
  get_substitution 0 x (q ++ s) = q ++ get_substitution 0 x s.
Proof.
  induction q as [|c q IH]; intros s H; [done|].
  cbn [existsb] in H. apply orb_false_iff in H as [Hc Hq].
  cbn [List.app get_substitution]. rewrite N.eqb_sym, Hc. cbn [negb].
  by rewrite IH.
Qed.

Section Expand.
Variable W : list JsString.t.
Hypothesis Hstart : starts_html W = true.
Hypothesis Hdollar : dollar_free W = true.
Hypothesis Htails : entity_tails_plain W = true.

Lemma markup_head_piece c s :
  html_char c = true -> markup W (c :: s) ->
  exists p' s0, In (c :: p') W /\ s = p' ++ s0 /\ markup W s0.
Proof using Hstart.
  intros Hc H. inversion H as [|c' s' Hc' Hs|p s0 Hp Hs0 E]; subst.
  - by rewrite Hc in Hc'.
  - destruct (piece_head W Hstart p Hp) as (c0 & p' & -> & _).
    injection E as -> <-. by exists p', s0.
Qed.

Lemma piece_dollar_free p : In p W -> existsb (N.eqb 36) p = false.
Proof using Hdollar.
  intros Hp. unfold dollar_free in Hdollar.
  rewrite forallb_forall in Hdollar. apply Hdollar in Hp.
  by destruct (existsb (N.eqb 36) p).
Qed.

Lemma expand_markup x :
  markup W (f_pre x) -> markup W (f_text x) -> markup W (f_post x) ->
  forall n tpl, length tpl <= n ->
    markup W tpl -> markup W (get_substitution 0 x tpl).
Proof using Hstart Hdollar Htails.
  intros Hpre Htext Hpost.
  induction n as [|n IH]; intros tpl Hlen Htpl.
  { destruct tpl; [constructor | cbn in Hlen; lia]. }
  destruct tpl as [|c tpl1]; [constructor|].
  cbn [length] in Hlen. cbn [get_substitution].
  destruct (N.eqb_spec c 36) as [->|Hc]; cbn [negb].
  - apply (markup_uncons W Hstart) in Htpl; [|reflexivity].
    destruct tpl1 as [|d1 tpl2]; [by repeat constructor|].
    cbn [length] in Hlen.
    destruct (N.eqb_spec d1 36) as [->|H36].
    { apply (markup_uncons W Hstart) in Htpl; [|reflexivity].
      constructor; [reflexivity|]. apply IH; [lia | done]. }
    destruct (N.eqb_spec d1 38) as [->|H38].
    { apply markup_app; [done|].
      apply markup_head_piece in Htpl as (p' & s0 & Hp & -> & Hs0);
        [|reflexivity].
      pose proof (piece_dollar_free _ Hp) as Hd.
      cbn [existsb] in Hd. apply orb_false_iff in Hd as [_ Hd].
      rewrite expand_plain_prefix by done.
      unfold entity_tails_plain in Htails.
      rewrite forallb_forall in Htails. apply Htails in Hp.
      cbn [negb orb] in Hp. change (N.eqb 38 amp) with true in Hp.
      cbn [negb orb] in Hp.
      apply markup_app; [by apply markup_plain|].
      apply IH; [|done]. rewrite length_app in Hlen. lia. }
    destruct (N.eqb_spec d1 96) as [->|H96].
    { apply (markup_uncons W Hstart) in Htpl; [|reflexivity].
      apply markup_app; [done|]. apply IH; [lia | done]. }
    destruct (N.eqb_spec d1 39) as [->|H39].
    { apply (markup_uncons W Hstart) in Htpl; [|reflexivity].
      apply markup_app; [done|]. apply IH; [lia | done]. }
    assert (Hkeep : markup W (36%N :: get_substitution 0 x (d1 :: tpl2))).
    { constructor; [reflexivity|]. apply IH; [cbn [length]; lia | done]. }
    destruct (digit d1) as [n1|]; [|exact Hkeep].
    cbv zeta. rewrite no_group.
    destruct tpl2 as [|d2 tpl3]; [exact Hkeep|].
    destruct (digit d2) as [n2|]; [|exact Hkeep].
    by rewrite no_group.
  - destruct (html_char c) eqn:Hh.
    + apply markup_head_piece in Htpl as (p' & s0 & Hp & -> & Hs0); [|done].
      pose proof (piece_dollar_free _ Hp) as Hd.
      cbn [existsb] in Hd. apply orb_false_iff in Hd as [_ Hd].
      rewrite expand_plain_prefix by done.
      apply (markup_piece W (c :: p')); [done|].
      apply IH; [|done]. rewrite length_app in Hlen. lia.
    + pose proof Htpl as Htail.
      apply (markup_uncons W Hstart) in Htail; [|done].
      constructor; [done|]. apply IH; [lia | done].
Qed.
End Expand.

Lemma replace_str_markup i block html :
  output_text block -> output_text html ->
  output_text (replace_str (placeholder i) block html).
Proof.
  intros Hblock Hhtml. unfold replace_str.
  destruct (find_sub (placeholder i) html) as [[pre post]|] eqn:Hf; [|done].
  apply find_sub_splits in Hf as ->.
  assert (Hparts : output_text pre /\ output_text post).
  { change (placeholder i)
      with (str "%" ++ str "%CODEBLOCK_" ++ of_nat i ++ str "%%") in Hhtml.
    rewrite <- !app_assoc in Hhtml.
    apply (markup_separated written eq_refl _ (str "%")) in Hhtml
      as [Hpre Hrest]; [|done|reflexivity].
    split; [done|].
    apply (markup_strip written eq_refl (str "%CODEBLOCK_" ++ of_nat i ++ str "%%"));
      [|by rewrite <- !app_assoc].
    by rewrite !forallb_app, of_nat_plain. }
  destruct Hparts as [Hpre Hpost].
  apply markup_app; [done|]. apply markup_app; [|done].
  apply (expand_markup written eq_refl eq_refl eq_refl
           (Found pre (placeholder i) post [] None) Hpre
           (markup_plain written _ (placeholder_plain i)) Hpost
           (length block) block (Nat.le_refl _) Hblock).
Qed.

Lemma restore_markup blocks : forall i html,
  Forall output_text blocks -> output_text html ->
  output_text (restore_from i blocks html).
Proof.
  induction blocks as [|block blocks IH]; intros i html Hblocks Hhtml;
    cbn [restore_from]; [done|].
  apply Forall_cons in Hblocks as [Hblock Hblocks].
  apply IH; [done|]. by apply replace_str_markup.
Qed.

Lemma render_escaped_markup html :
  inline_text html -> output_text (render_escaped html).
Proof.
  intros Hhtml. unfold render_escaped.
  destruct (extract_markup html Hhtml) as [Hrest Hblocks].
  destruct (extract_code_blocks html) as [html1 codeBlocks].
  cbn [fst snd] in *. unfold restore_code_blocks.
  apply restore_markup; [done|].
  by apply inline_is_output, inline_and_blocks_markup.
Qed.

Lemma render_markup text : output_text (render text).
Proof.
  unfold render. destruct text as [|c text]; [constructor|].
  apply render_escaped_markup, escapeHtml_markup.
Qed.


(** In a text made of pieces, each of the four characters stands
    inside a piece. *)
Lemma markup_html_char W s :
  markup W s ->
  forall a c b, s = a ++ c :: b -> html_char c = true ->
    exists a' p b',
      In p W /\ s = a' ++ p ++ b'
      /\ length a' <= length a < length a' + length p.
Proof.
  induction 1 as [|c0 s Hc0 Hs IH|p s Hp Hs IH]; intros a c b E Hc.
  - by destruct a.
  - destruct a as [|x a]; cbn [List.app] in E; injection E as -> E.
    { by rewrite Hc in Hc0. }
    destruct (IH a c b E Hc) as (a' & q & b' & Hq & -> & Hlen).
    exists (x :: a'), q, b'. split; [done|]. split; [done|].
    cbn [length]. lia.
  - apply app_eq_app in E as [l [[-> E]|[-> E]]].
    + destruct l as [|x l]; cbn [List.app] in E.
      * symmetry in E.
        destruct (IH [] c b E Hc) as (a' & q & b' & Hq & -> & Hlen).
        exists ((a ++ []) ++ a'), q, b'. split; [done|].
        split; [by rewrite <- !app_assoc|].
        rewrite !length_app. cbn [length] in *. lia.
      * exists [], (a ++ x :: l), s. split; [done|]. split; [done|].
        rewrite !length_app. cbn [length]. lia.
    + destruct (IH l c b E Hc) as (a' & q & b' & Hq & -> & Hlen).
      exists (p ++ a'), q, b'. split; [done|].
      split; [by rewrite <- app_assoc|]. rewrite !length_app. lia.
Qed.

(** The pieces admit no tag of another kind: a script tag is not made
    of them. *)
Lemma script_tag_not_markup : ~ markup written (str "<script>").
Proof.
  intros H.
  apply (markup_head_piece written eq_refl) in H as (p' & s0 & Hp & E & _);
    [|reflexivity].
  unfold written, written_inline, entities, inline_tags, block_tags in Hp.
  cbn [In List.app] in Hp.
  repeat (destruct Hp as [Hp|Hp];
          [try discriminate Hp; injection Hp as <-; discriminate E|]).
  done.
Qed.

(** C1, as amended.  [render] escapes its input before anything else:
    every later step works on the escaped text only.  The escaping
    rewrites each character on its own, for every input: the four
    characters ampersand, less-than, greater-than and double quote
    become their entities and every other character, the single quote
    among them, is kept; so the escaped text holds no less-than,
    greater-than or double quote at all, and an ampersand only at the
    head of one of the four entities.  None of the four characters of
    the input survives into the rendered output: the output of
    [render], for every input, is made of the tags and entities the
    renderer itself writes ([written]) and of characters other than
    the four, so that each of the four characters in the output stands
    inside one of these tags or entities. *)
Theorem render_escapes_first (text : JsString.t) :
  render text = match text with
                | [] => []
                | _ :: _ => render_escaped (escapeHtml text)
                end
  /\ escapeHtml text = flat_map escape_char text
  /\ Forall (fun c => c <> lt /\ c <> gt /\ c <> dquote) (escapeHtml text)
  /\ escape_char amp = str "&amp;" /\ escape_char lt = str "&lt;"
  /\ escape_char gt = str "&gt;" /\ escape_char dquote = str "&quot;"
  /\ escape_char squote = [squote]
  /\ markup entities (escapeHtml text)
  /\ markup written (render text)
  /\ (forall a c b,
        render text = a ++ c :: b -> html_char c = true ->
        exists a' p b',
          In p written /\ render text = a' ++ p ++ b'
          /\ length a' <= length a < length a' + length p).
Proof.
  split; [reflexivity|]. split; [apply escapeHtml_chars|].
  split.
  { rewrite escapeHtml_chars.
    induction text as [|x text IH]; cbn [flat_map]; [constructor|].
    apply Forall_app. split; [apply escape_char_safe | exact IH]. }
  do 5 (split; [reflexivity|]).
  split; [apply escapeHtml_entities|].
  split; [apply render_markup|].
  apply markup_html_char, render_markup.
Qed.

End OutputFacts.

(** ** The markdown renderer: fenced code blocks *)

Module FenceFacts.
Import RB_MARKDOWN Vocabulary RegexFacts EscapeFacts.

Lemma escapeHtml_app a b : escapeHtml (a ++ b) = escapeHtml a ++ escapeHtml b.
Proof. rewrite !escapeHtml_chars. apply flat_map_app. Qed.

Lemma escape_char_word c : is_word c = true -> escape_char c = [c].
Proof.
  intros H. unfold escape_char.
  destruct (N.eqb_spec c amp) as [->|]; [done|].
  destruct (N.eqb_spec c lt) as [->|]; [done|].
  destruct (N.eqb_spec c gt) as [->|]; [done|].
  destruct (N.eqb_spec c dquote) as [->|]; done.
Qed.

Lemma escapeHtml_word lang :
  forallb is_word lang = true -> escapeHtml lang = lang.
Proof.
  rewrite escapeHtml_chars. induction lang as [|c lang IH]; [done|].
  cbn [forallb flat_map]. intros H. apply andb_prop in H as [Hc H].
  by rewrite (escape_char_word c Hc), IH.
Qed.

(** Escaping brings in no backtick and no dollar sign. *)
Lemma escape_char_plain c :
  plain_code_char c = true -> forallb plain_code_char (escape_char c) = true.
Proof.
  intros H. unfold escape_char.
  destruct (N.eqb c amp); [done|]. destruct (N.eqb c lt); [done|].
  destruct (N.eqb c gt); [done|]. destruct (N.eqb c dquote); [done|].
  cbn. by rewrite H.
Qed.

Lemma escapeHtml_plain code :
  forallb plain_code_char code = true ->
  forallb plain_code_char (escapeHtml code) = true.
Proof.
  rewrite escapeHtml_chars. induction code as [|c code IH]; [done|].
  cbn [forallb flat_map]. intros H. apply andb_prop in H as [Hc H].
  rewrite forallb_app, (escape_char_plain c Hc). by apply IH.
Qed.

Lemma plain_no_backtick s :
  forallb plain_code_char s = true ->
  forallb (fun c => negb (N.eqb c backtick)) s = true.
Proof.
  induction s as [|c s IH]; [done|]. cbn [forallb]. intros H.
  apply andb_prop in H as [Hc H]. rewrite (IH H), andb_true_r.
  unfold plain_code_char in Hc. by apply andb_prop in Hc as [-> _].
Qed.

Lemma plain_no_dollar s :
  forallb plain_code_char s = true ->
  forallb (fun c => negb (N.eqb c 36)) s = true.
Proof.
  induction s as [|c s IH]; [done|]. cbn [forallb]. intros H.
  apply andb_prop in H as [Hc H]. rewrite (IH H), andb_true_r.
  unfold plain_code_char in Hc. by apply andb_prop in Hc as [_ ->].
Qed.

(** The fence pattern on a fenced block: the language tag and the code
    are captured. *)
Lemma match_fence prev lang body post :
  forallb is_word lang = true ->
  forallb (fun c => negb (N.eqb c backtick)) body = true ->
  match_here false re_fence prev
    (str "```" ++ lang ++ newline :: body ++ str "```" ++ post)
  = Some (Found [] (str "```" ++ lang ++ newline :: body ++ str "```") post
            [(2, body); (1, lang)] (Some backtick)).
Proof.
  intros Hl Hb. unfold match_here, re_fence. cbn [seqs].
  rewrite m_Seq, m_Lit_prefix, m_Seq, m_Grp, m_Star.
  rewrite star_greedy_rejects; [| |done].
  2:{ intros p a y i c Hy. rewrite m_Seq, m_Chr_cons. cbn [in_cls] in *.
      destruct (N.eqb_spec y newline) as [->|]; [done | done]. }
  destruct (take_while_app (in_cls CWord) lang
              (newline :: body ++ str "```" ++ post) Hl eq_refl) as [-> ->].
  rewrite m_Seq, m_Chr_cons.
  change (in_cls (CIs newline) newline) with true. cbv iota.
  rewrite m_Seq, m_Grp, m_Star.
  rewrite (star_lazy_skip false (R := found) CAny _
             (fun c => negb (N.eqb c backtick))); [| |done|done|].
  2:{ intros p a y i c Hy. rewrite m_Lit.
      cbn [is_prefix str List.map list_ascii_of_string].
      change (N_of_ascii "`") with backtick.
      rewrite N.eqb_sym. by destruct (N.eqb y backtick). }
  2:{ clear. induction body; cbn; done. }
  rewrite (star_lazy_here _ _ _ _ _ _ _
             (Found [] (str "```" ++ lang ++ newline :: body ++ str "```")
                post [(2, body); (1, lang)] (Some backtick))); [done|].
  rewrite m_Lit_prefix. cbn [List.app]. repeat f_equal.
Qed.

(** The pattern that strips the newline before the closing fence. *)
Lemma search_trailing_newline s : forall prev,
  search false re_trailing_newline prev (s ++ [newline])
  = Some (Found s [newline] [] [] (Some newline)).
Proof.
  induction s as [|c s IH]; intros prev; [done|].
  rewrite <- app_comm_cons, search_skip, IH; [done|].
  unfold match_here, re_trailing_newline. rewrite m_Seq, m_Chr_cons.
  destruct (in_cls (CIs newline) c); [|done].
  rewrite m_Eol. by destruct s.
Qed.

Lemma strip_trailing_newline s :
  replace1 false re_trailing_newline (fun _ => []) (s ++ [newline]) = s.
Proof.
  unfold replace1, exec. rewrite search_trailing_newline.
  cbn [f_pre f_post]. by rewrite !app_nil_r.
Qed.

Lemma replace_from_end {St : Type} fuel r (f : St -> found -> t * St) st prev :
  match_here false r prev [] = None ->
  replace_from fuel false r f st prev [] = ([], st).
Proof. intros H. destruct fuel; cbn [replace_from search]; by rewrite ?H. Qed.

(** The extraction step on an escaped fenced block. *)
Lemma extract_fenced lang body :
  forallb is_word lang = true ->
  forallb (fun c => negb (N.eqb c backtick)) body = true ->
  extract_code_blocks (str "```" ++ lang ++ newline :: body ++ newline :: str "```")
  = (placeholder 0,
     [str "<pre><code" ++ class_attr lang ++ str ">" ++ body
        ++ str "</code></pre>"]).
Proof.
  intros Hl Hb. unfold extract_code_blocks, replace_all_st.
  cbn [replace_from].
  assert (Hb' : forallb (fun c => negb (N.eqb c backtick)) (body ++ [newline])
                = true) by (by rewrite forallb_app, Hb).
  assert (Hm := match_fence None lang (body ++ [newline]) [] Hl Hb').
  rewrite app_nil_r, <- !app_assoc in Hm.
  change ([newline] ++ str "```") with (newline :: str "```") in Hm.
  rewrite (search_here _ _ _ _ _ Hm).
  unfold fence_callback. cbn [f_caps f_text f_post f_pre f_prev length].
  change (cap_str 1 [(2, body ++ [newline]); (1, lang)]) with lang.
  change (cap_str 2 [(2, body ++ [newline]); (1, lang)])
    with (body ++ [newline]).
  rewrite strip_trailing_newline.
  set (n := length _). clearbody n.
  change (str "```" ++ lang ++ newline :: body ++ newline :: str "```")
    with (backtick :: str "``" ++ lang ++ newline :: body
            ++ newline :: str "```").
  cbv iota. rewrite replace_from_end; [|done].
  cbn [List.app]. by rewrite app_nil_r.
Qed.

(** What is left of the text, the placeholder alone, becomes one
    paragraph. *)
Lemma placeholder_paragraph :
  inline_and_blocks (placeholder 0) = str "<p>%%CODEBLOCK_0%%</p>".
Proof. vm_compute. reflexivity. Qed.

(** The restoration step puts back a block that has no dollar sign. *)
Lemma restore_plain block :
  forallb (fun c => negb (N.eqb c 36)) block = true ->
  restore_code_blocks [block] (str "<p>%%CODEBLOCK_0%%</p>")
  = str "<p>" ++ block ++ str "</p>".
Proof.
  intros H. unfold restore_code_blocks. cbn [restore_from].
  unfold replace_str.
  change (find_sub (placeholder 0) (str "<p>%%CODEBLOCK_0%%</p>"))
    with (Some (str "<p>", str "</p>")).
  cbv iota. by rewrite get_substitution_plain.
Qed.

Lemma class_attr_plain lang :
  forallb is_word lang = true ->
  forallb (fun c => negb (N.eqb c 36)) (class_attr lang) = true.
Proof.
  intros H. destruct lang as [|c lang]; [done|].
  unfold class_attr. rewrite !forallb_app.
  assert (Hw : forallb (fun c => negb (N.eqb c 36)) (c :: lang) = true).
  { revert H. generalize (c :: lang). clear. intros l.
    induction l as [|x l IH]; [done|]. cbn [forallb]. intros H.
    apply andb_prop in H as [Hx H]. rewrite (IH H), andb_true_r.
    destruct (N.eqb_spec x 36) as [->|]; done. }
  by rewrite Hw.
Qed.

(** A fenced block of plain code: the code element holds the escaped
    text of the block and nothing else has touched it. *)
Lemma render_fenced lang code :
  forallb is_word lang = true ->
  forallb plain_code_char code = true ->
  render (fenced lang code)
  = str "<p><pre><code" ++ class_attr lang ++ str ">" ++ escapeHtml code
    ++ str "</code></pre></p>".
Proof.
  intros Hl Hc. unfold fenced.
  change (render (str "```" ++ lang ++ newline :: code ++ newline :: str "```"))
    with (render_escaped
            (escapeHtml (str "```" ++ lang ++ [newline] ++ code
                         ++ str (String (ascii_of_N 10) "```")))).
  rewrite !escapeHtml_app, (escapeHtml_word lang Hl).
  change (escapeHtml (str "```")) with (str "```").
  change (escapeHtml [newline]) with [newline].
  change (escapeHtml (str (String (ascii_of_N 10) "```")))
    with (newline :: str "```").
  pose proof (escapeHtml_plain code Hc) as He.
  unfold render_escaped.
  change ([newline] ++ escapeHtml code ++ newline :: str "```")
    with (newline :: escapeHtml code ++ newline :: str "```").
  rewrite (extract_fenced lang (escapeHtml code) Hl (plain_no_backtick _ He)).
  rewrite placeholder_paragraph, restore_plain.
  - rewrite <- !app_assoc. reflexivity.
  - rewrite !forallb_app, (class_attr_plain lang Hl),
      (plain_no_dollar _ He). done.
Qed.

(** Markers and special characters of a fenced block with a language
    tag: the bold markers stay as they are, inside the code element,
    and the special characters are escaped. *)
Example fenced_markers_literal :
  render (fenced (str "js") (str "**not bold** <>&" ++ [dquote]))
  = str "<p><pre><code class=" ++ [dquote] ++ str "language-js" ++ [dquote]
    ++ str ">**not bold** &lt;&gt;&amp;&quot;</code></pre></p>".
Proof. by rewrite render_fenced. Qed.

(** C8: fenced blocks are put aside before the other transforms and
    brought back last, their contents shown as they are, special
    characters escaped.  The code does this for blocks without a dollar
    sign ([render_fenced]); it brings a block back as the replacement
    string of [String.prototype.replace], though, where a dollar sign
    followed by an ampersand stands for the matched placeholder.  The
    block whose only line is that pair comes back as the placeholder
    followed by the rest of the entity, and the escaped ampersand of
    the block is nowhere in the output. *)
Theorem fenced_dollar_not_restored :
  escapeHtml (str "$&") = str "$&amp;"
  /\ render (fenced [] (str "$&"))
     = str "<p><pre><code>%%CODEBLOCK_0%%amp;</code></pre></p>"
  /\ includes (render (fenced [] (str "$&"))) (str "&amp;") = false
  /\ render (fenced [] (str "$&"))
     <> str "<p><pre><code>" ++ escapeHtml (str "$&") ++ str "</code></pre></p>".
Proof. vm_compute. repeat split; done. Qed.

End FenceFacts.

(** ** Bylines *)

Module BylineFacts.
Import RB_DISCUSSIONS Vocabulary RegexFacts.

Lemma not_star_first x : in_cls (CNot [star]) x = true -> N.eqb x 42 = false.
Proof. cbn. unfold star. by destruct (N.eqb x 42). Qed.

Lemma m_byline ml {R} opening prev inp cs (k : cont (R := R)) :
  m ml (re_byline opening) prev inp cs k
  = if at_bol ml prev then
      if is_prefix opening inp then
        match skipn (length opening) inp with
        | [] => None
        | x :: rest =>
            if in_cls (CNot [star]) x then
              let name := x :: take_while (in_cls (CNot [star])) rest in
              let after := drop_while (in_cls (CNot [star])) rest in
              if is_prefix (str "***") after then
                k (Some star) (opening ++ name ++ str "***") (skipn 3 after)
                  ((1, name) :: cs)
              else None
            else None
        end
      else None
    else None.
Proof.
  unfold re_byline. cbn [seqs].
  rewrite m_Seq, m_Bol. destruct (at_bol ml prev); [|done].
  rewrite m_Seq, m_Lit. destruct (is_prefix opening inp); [|done].
  rewrite m_Seq, m_Grp, m_plus_rejects.
  2:{ intros p a y i c0 Hy.
      by apply (starts_outside_Lit (in_cls (CNot [star])) 42 (str "**")
                  not_star_first). }
  destruct (skipn (length opening) inp) as [|x rest]; [done|].
  destruct (in_cls (CNot [star]) x); [|done].
  rewrite m_Lit. cbv zeta.
  destruct (is_prefix (str "***") _); [|done].
  reflexivity.
Qed.

(** The conditions of [m_byline], and a byline in front of the text. *)
Lemma byline_at_intro opening inp x rest :
  is_prefix opening inp = true ->
  skipn (length opening) inp = x :: rest ->
  in_cls (CNot [star]) x = true ->
  is_prefix (str "***") (drop_while (in_cls (CNot [star])) rest) = true ->
  byline_at opening inp.
Proof.
  intros Ho Hs Hx Hd.
  exists (x :: take_while (in_cls (CNot [star])) rest),
         (skipn 3 (drop_while (in_cls (CNot [star])) rest)).
  split; [done|]. split.
  - cbn [forallb]. unfold not_star at 1. rewrite Hx.
    apply (take_while_all (in_cls (CNot [star]))).
  - rewrite (is_prefix_split _ _ Ho), Hs. f_equal.
    rewrite <- app_comm_cons. f_equal.
    pose proof (is_prefix_split _ _ Hd) as E.
    change (length (str "***")) with 3 in E. rewrite <- E.
    by rewrite take_drop_while.
Qed.

Lemma byline_at_elim opening inp :
  byline_at opening inp ->
  is_prefix opening inp = true
  /\ exists x name rest,
       skipn (length opening) inp = x :: name ++ str "***" ++ rest
       /\ in_cls (CNot [star]) x = true
       /\ take_while (in_cls (CNot [star])) (name ++ str "***" ++ rest) = name
       /\ drop_while (in_cls (CNot [star])) (name ++ str "***" ++ rest)
          = str "***" ++ rest.
Proof.
  intros (name & rest & Hne & Hns & ->).
  split; [apply is_prefix_app|].
  destruct name as [|x name]; [done|]. cbn in Hns.
  apply andb_prop in Hns as [Hx Hns].
  exists x, name, rest. rewrite skipn_app, skipn_all, Nat.sub_diag.
  split; [done|]. split; [done|].
  by apply take_while_app.
Qed.

(** A match of the byline pattern is at the start of a line, on a
    byline. *)
Lemma match_byline_sound ml opening prev inp f :
  match_here ml (re_byline opening) prev inp = Some f ->
  at_bol ml prev = true /\ byline_at opening inp.
Proof.
  unfold match_here. rewrite m_byline.
  destruct (at_bol ml prev); [|done].
  destruct (is_prefix opening inp) eqn:Ho; [|done].
  destruct (skipn (length opening) inp) as [|x rest] eqn:Hs; [done|].
  destruct (in_cls (CNot [star]) x) eqn:Hx; [|done]. cbv zeta.
  destruct (is_prefix (str "***") _) eqn:Hd; [|done].
  intros _. split; [done|]. by eapply byline_at_intro.
Qed.

(** The byline pattern finds nothing in a text none of whose lines
    starts with a byline. *)
Lemma search_byline_none opening : forall inp prev,
  (forall before line,
     inp = before ++ line ->
     at_bol true (last_of prev before) = true ->
     ~ byline_at opening line) ->
  search true (re_byline opening) prev inp = None.
Proof.
  induction inp as [|x inp IH]; intros prev Hno; cbn [search].
  - destruct (match_here true (re_byline opening) prev []) eqn:Hm; [|done].
    apply match_byline_sound in Hm as [Hb Hat].
    by destruct (Hno [] [] eq_refl Hb).
  - destruct (match_here true (re_byline opening) prev (x :: inp)) eqn:Hm.
    + apply match_byline_sound in Hm as [Hb Hat].
      by destruct (Hno [] (x :: inp) eq_refl Hb).
    + rewrite IH; [done|].
      intros before line -> Hb. by apply (Hno (x :: before) line).
Qed.

Lemma line_start_at_bol before :
  at_bol true (last_of None before) = line_start before.
Proof. unfold line_start, at_bol. by destruct (last_of None before). Qed.

Lemma exec_byline_none opening body :
  no_byline_line opening body -> exec true (re_byline opening) body = None.
Proof.
  intros Hno. apply search_byline_none.
  intros before line Hb Hs. rewrite line_start_at_bol in Hs.
  by apply (Hno before line).
Qed.

(** The opening of the two stripping patterns: a byline at the very
    start, then the rest of the pattern. *)
Lemma m_strip_head ml {R} opening tail prev inp cs (k : cont (R := R)) :
  m ml (seqs (Bol :: Lit opening :: Plus true (Chr (CNot [star]))
              :: Lit (str "***") :: tail :: [])) prev inp cs k
  = if at_bol ml prev then
      if is_prefix opening inp then
        match skipn (length opening) inp with
        | [] => None
        | x :: rest =>
            if in_cls (CNot [star]) x then
              let name := x :: take_while (in_cls (CNot [star])) rest in
              let after := drop_while (in_cls (CNot [star])) rest in
              if is_prefix (str "***") after then
                m ml tail (Some star) (skipn 3 after) cs
                  (fun p s i c => k p (opening ++ name ++ str "***" ++ s) i c)
              else None
            else None
        end
      else None
    else None.
Proof.
  cbn [seqs].
  rewrite m_Seq, m_Bol. destruct (at_bol ml prev); [|done].
  rewrite m_Seq, m_Lit. destruct (is_prefix opening inp); [|done].
  rewrite m_Seq, m_plus_rejects.
  2:{ intros p a y i c0 Hy.
      apply (starts_outside_Seq (in_cls (CNot [star])) _ _
               (starts_outside_Lit _ 42 (str "**") not_star_first)
               ml R p y i c0 _ Hy). }
  destruct (skipn (length opening) inp) as [|x rest]; [done|].
  destruct (in_cls (CNot [star]) x); [|done].
  rewrite m_Seq, m_Lit. cbv zeta.
  destruct (is_prefix (str "***") _); [|done].
  reflexivity.
Qed.

Lemma strip_head_sound ml opening tail prev inp f :
  match_here ml (seqs (Bol :: Lit opening :: Plus true (Chr (CNot [star]))
                       :: Lit (str "***") :: tail :: [])) prev inp = Some f ->
  byline_at opening inp.
Proof.
  unfold match_here. rewrite m_strip_head.
  destruct (at_bol ml prev); [|done].
  destruct (is_prefix opening inp) eqn:Ho; [|done].
  destruct (skipn (length opening) inp) as [|x rest] eqn:Hs; [done|].
  destruct (in_cls (CNot [star]) x) eqn:Hx; [|done]. cbv zeta.
  destruct (is_prefix (str "***") _) eqn:Hd; [|done].
  intros _. by eapply byline_at_intro.
Qed.

(** A replacement anchored at the start leaves a suffix of the text. *)
Lemma replace1_anchored_suffix r s :
  exists dropped, s = dropped ++ replace1 false (Seq Bol r) (fun _ => []) s.
Proof.
  unfold replace1. rewrite exec_anchored.
  destruct (match_here false (Seq Bol r) None s) as [f|] eqn:Hm.
  - apply match_here_splits in Hm as [Hp Hs].
    exists (f_text f). by rewrite Hp.
  - by exists [].
Qed.


Lemma not_newline_after_spaces s c rest :
  drop_while is_space s = c :: rest -> N.eqb c 10 = false.
Proof.
  intros H. apply drop_while_head in H.
  destruct (N.eqb_spec c 10) as [->|]; [done | done].
Qed.

(** The end of the post pattern on the separator line: the line and the
    white space after it are read. *)
Lemma m_post_tail ml {R} prev content cs (k : cont (R := R)) y :
  k (last_of (Some newline) (take_while is_space content))
    (separator ++ take_while is_space content)
    (drop_while is_space content) cs = Some y ->
  m ml (seqs [Star true (Chr CSpace); Chr (CIs newline); Lit (str "---");
              Star true (Chr CSpace); Opt (Chr (CIs newline))])
    prev (separator ++ content) cs k = Some y.
Proof.
  intros Hk. cbn [seqs].
  rewrite m_Seq, m_Star, star_greedy_backtrack by done.
  change (take_while (in_cls CSpace) (separator ++ content)) with [newline].
  change (drop_while (in_cls CSpace) (separator ++ content))
    with (str "---" ++ newline :: content).
  cbn [backtrack]. rewrite m_Seq.
  change (str "---" ++ newline :: content)
    with (45%N :: str "--" ++ newline :: content) at 1.
  rewrite m_Chr_cons.
  change (in_cls (CIs newline) 45) with false. cbv iota.
  change ([newline] ++ str "---" ++ newline :: content)
    with (newline :: str "---" ++ newline :: content).
  rewrite m_Seq, m_Chr_cons.
  change (in_cls (CIs newline) newline) with true. cbv iota.
  rewrite m_Seq, m_Lit_prefix, m_Seq, m_Star.
  apply star_greedy_longest; [done|].
  change (take_while (in_cls CSpace) (newline :: content))
    with (newline :: take_while is_space content).
  change (drop_while (in_cls CSpace) (newline :: content))
    with (drop_while is_space content).
  unfold Opt. rewrite m_Alt.
  destruct (drop_while is_space content) as [|c rest] eqn:Hd.
  - rewrite m_Chr_nil, m_Eps, app_nil_r. exact Hk.
  - rewrite m_Chr_cons.
    change (in_cls (CIs newline) c) with (N.eqb c 10).
    rewrite (not_newline_after_spaces _ _ _ Hd), m_Eps, app_nil_r.
    exact Hk.
Qed.

(** [extractAuthor] and [stripByline] on the example of the
    specification. *)
Lemma extractAuthor_example content :
  extractAuthor (example_byline ++ separator ++ content)
  = Some (str "Example Agent").
Proof. reflexivity. Qed.

Lemma re_strip_post_eq : re_strip_post = strip_pattern post_opening post_tail.
Proof. reflexivity. Qed.

Lemma re_strip_comment_eq :
  re_strip_comment = strip_pattern comment_opening comment_tail.
Proof. reflexivity. Qed.

Lemma exec_strip opening tail s :
  exec false (strip_pattern opening tail) s
  = match_here false (strip_pattern opening tail) None s.
Proof. exact (exec_anchored _ s). Qed.

Lemma strip_post_example content :
  replace1 false re_strip_post (fun _ => [])
    (example_byline ++ separator ++ content)
  = drop_while is_space content.
Proof.
  unfold replace1. rewrite re_strip_post_eq, exec_strip.
  unfold match_here, strip_pattern. rewrite m_strip_head.
  change (at_bol false None) with true. cbv iota.
  change (is_prefix post_opening (example_byline ++ separator ++ content))
    with true. cbv iota.
  change (skipn (length post_opening) (example_byline ++ separator ++ content))
    with (69%N :: str "xample Agent***" ++ separator ++ content).
  cbv iota.
  change (in_cls (CNot [star]) 69) with true. cbv iota zeta.
  change (drop_while (in_cls (CNot [star]))
            (str "xample Agent***" ++ separator ++ content))
    with (str "***" ++ separator ++ content).
  change (is_prefix (str "***") (str "***" ++ separator ++ content)) with true.
  cbv iota.
  change (skipn 3 (str "***" ++ separator ++ content))
    with (separator ++ content).
  erewrite m_post_tail; [|reflexivity]. reflexivity.
Qed.

(** A text without a byline at its start is left as it is by the
    stripping patterns. *)
Lemma strip_no_byline opening tail body :
  ~ byline_at opening body ->
  replace1 false (strip_pattern opening tail) (fun _ => []) body = body.
Proof.
  intros Hno. unfold replace1. rewrite exec_strip.
  destruct (match_here false (strip_pattern opening tail) None body) eqn:Hm;
    [|done].
  by apply strip_head_sound in Hm.
Qed.

(** C7, as amended.  On every body made of the byline
    [*Posted by **Example Agent***], the separator line and any content,
    [extractAuthor] returns [Example Agent], which is the author shown
    whatever the platform account, and [stripByline] returns a suffix of
    the content: byline and separator are gone.  On every body none of
    whose lines starts with a byline (post or reply form)
    [extractAuthor] returns no author and the author shown is the
    fallback, the login of the platform account (["unknown"] when the
    payload names no account); and on every body that does not itself
    start with a byline [stripByline] returns the body as it is. *)
Theorem byline_extraction :
  (forall content user,
     let body := example_byline ++ separator ++ content in
     extractAuthor body = Some (str "Example Agent")
     /\ (forall realAuthor,
           extractAuthor_value (Js.VStr body) = Some realAuthor ->
           author_of realAuthor user = Js.VStr (str "Example Agent"))
     /\ exists dropped, content = dropped ++ stripByline body)
  /\ (forall body user,
        no_byline_line post_opening body ->
        no_byline_line comment_opening body ->
        extractAuthor body = None
        /\ forall realAuthor,
             extractAuthor_value (Js.VStr body) = Some realAuthor ->
             author_of realAuthor user
             = Js.get_if user (str "login") unknown)
  /\ (forall body,
        ~ byline_at post_opening body ->
        ~ byline_at comment_opening body ->
        stripByline body = body).
Proof.
  split; [|split].
  - intros content user body. split; [apply extractAuthor_example|].
    split.
    { intros realAuthor. unfold extractAuthor_value, body.
      rewrite extractAuthor_example. by intros [= <-]. }
    assert (Hs : stripByline body
                 = replace1 false re_strip_comment (fun _ => [])
                     (drop_while is_space content)).
    { unfold body, stripByline.
      change (example_byline ++ separator ++ content)
        with (42%N :: str "Posted by **Example Agent***" ++ separator
                     ++ content) at 1.
      cbv iota. by rewrite strip_post_example. }
    rewrite Hs.
    destruct (replace1_anchored_suffix
                (seqs (Lit comment_opening :: Plus true (Chr (CNot [star]))
                       :: Lit (str "***") :: comment_tail :: []))
                (drop_while is_space content)) as [d Hd].
    exists (take_while is_space content ++ d).
    rewrite <- app_assoc.
    change (replace1 false re_strip_comment (fun _ => [])
              (drop_while is_space content))
      with (replace1 false
              (Seq Bol (seqs (Lit comment_opening
                              :: Plus true (Chr (CNot [star]))
                              :: Lit (str "***") :: comment_tail :: [])))
              (fun _ => []) (drop_while is_space content)).
    rewrite <- Hd. by rewrite take_drop_while.
  - intros body user Hp Hc.
    assert (Hnone : extractAuthor body = None).
    { unfold extractAuthor. destruct body as [|c body]; [done|].
      by rewrite (exec_byline_none _ _ Hp), (exec_byline_none _ _ Hc). }
    split; [exact Hnone|].
    intros realAuthor. unfold extractAuthor_value. rewrite Hnone.
    by intros [= <-].
  - intros body Hp Hc. unfold stripByline.
    destruct body as [|c body]; [done|].
    rewrite re_strip_post_eq, re_strip_comment_eq.
    rewrite (strip_no_byline _ _ _ Hp). by rewrite (strip_no_byline _ _ _ Hc).
Qed.

Lemma no_byline_line_Hi opening c :
  head opening = Some c -> c <> 72%N -> c <> 105%N ->
  no_byline_line opening [72%N; 105%N].
Proof.
  intros Hh H72 H105 before line Heq _ (name & rest & _ & _ & ->).
  destruct opening as [|c' opening]; [done|]. cbn in Hh. injection Hh as ->.
  destruct before as [|a [|b [|d before]]]; cbn in Heq.
  - injection Heq as E _. congruence.
  - injection Heq as _ E _. congruence.
  - injection Heq as _ _ E. discriminate E.
  - injection Heq as _ _ E. discriminate E.
Qed.

Lemma no_byline_at_Hi opening c :
  head opening = Some c -> c <> 72%N ->
  ~ byline_at opening [72%N; 105%N].
Proof.
  intros Hh H72 (name & rest & _ & _ & Heq).
  destruct opening as [|c' opening]; [done|]. cbn in Hh. injection Hh as ->.
  cbn in Heq. injection Heq as E _. congruence.
Qed.

(** A two-letter body has no byline: the author shown is the login of
    the account that posted it. *)
Lemma byline_extraction_witness :
  let user := Js.VObj [(str "login", Js.VStr (str "octocat"))] in
  extractAuthor (str "Hi") = None
  /\ author_of Js.VNull user = Js.VStr (str "octocat")
  /\ stripByline (str "Hi") = str "Hi"
  /\ extractAuthor (example_byline ++ separator ++ str "Hi")
     = Some (str "Example Agent").
Proof.
  intros user.
  destruct byline_extraction as (H1 & H2 & H3).
  destruct (H2 (str "Hi") user) as [Hnone Hfallback];
    [apply (no_byline_line_Hi _ 42%N); done
    |apply (no_byline_line_Hi _ 42%N); done|].
  split; [exact Hnone|]. split; [|split].
  - exact (Hfallback Js.VNull eq_refl).
  - apply H3; apply (no_byline_at_Hi _ 42%N); done.
  - apply (H1 (str "Hi") user).
Defined.

(** C7 as stated fails: the first line of this body carries no byline,
    the body is returned as it is, and yet an author is extracted from
    its second line. *)
Lemma byline_on_later_line :
  let body := str "Hello
*Posted by **X***" in
  is_prefix post_opening body = false
  /\ is_prefix comment_opening body = false
  /\ stripByline body = body
  /\ extractAuthor body = Some (str "X").
Proof. repeat split. Qed.

End BylineFacts.


(** ** The router *)

Module RouterFacts.
Import RB_ROUTER Vocabulary RegexFacts.

Lemma not_slash_spec c : not_slash c = negb (N.eqb c slash).
Proof. unfold not_slash. cbn. by rewrite orb_false_r. Qed.

Lemma components_nonempty s : components s <> [].
Proof.
  destruct s as [|c s]; cbn; [done|].
  destruct (N.eqb c slash); [done|]. by destruct (components s).
Qed.

(** The first component of a path is what comes before its first slash;
    the other components are those of what comes after it. *)
Lemma components_unfold inp :
  components inp
  = match drop_while not_slash inp with
    | [] => [take_while not_slash inp]
    | _ :: inp' => take_while not_slash inp :: components inp'
    end.
Proof.
  induction inp as [|c inp IH]; [done|].
  cbn [components take_while drop_while]. rewrite not_slash_spec.
  destruct (N.eqb c slash); cbn [negb]; [done|].
  rewrite IH. by destruct (drop_while not_slash inp).
Qed.

Lemma components_plain s :
  forallb not_slash s = true -> components s = [s].
Proof.
  intros H. rewrite components_unfold.
  destruct (take_while_app not_slash s [] H I) as [Ht Hd].
  rewrite app_nil_r in Ht, Hd. by rewrite Ht, Hd.
Qed.

Lemma components_no_slash s :
  Forall (fun c => forallb not_slash c = true) (components s).
Proof.
  induction s as [|c s IH]; [by repeat constructor|].
  cbn [components]. destruct (N.eqb c slash) eqn:Hc; [by constructor|].
  destruct (components s) as [|h t].
  - repeat constructor. cbn [forallb]. by rewrite not_slash_spec, Hc.
  - apply Forall_cons_iff in IH as [Hh Ht].
    constructor; [|done]. cbn [forallb]. by rewrite not_slash_spec, Hc.
Qed.

Lemma segments_static_ok pattern :
  forallb static_ok (segments pattern) = true.
Proof.
  unfold segments. pose proof (components_no_slash pattern) as H.
  induction H as [|c cs Hc _ IH]; [done|].
  cbn [List.map forallb]. rewrite IH, andb_true_r.
  unfold segment_of. destruct c as [|a [|b c]]; [done | done |].
  destruct (N.eqb a colon); [done | exact Hc].
Qed.

Lemma take_while_prefix p s rest :
  forallb p s = true ->
  take_while p (s ++ rest) = s ++ take_while p rest
  /\ drop_while p (s ++ rest) = drop_while p rest.
Proof.
  intros H. induction s as [|c s IH]; [done|]. cbn in *.
  apply andb_prop in H as [-> H]. destruct (IH H) as [-> ->]. done.
Qed.

Lemma eqb_refl (s : JsString.t) : JsString.eqb s s = true.
Proof. unfold JsString.eqb. by apply bool_decide_eq_true. Qed.

Lemma eqb_longer (s l : JsString.t) x : JsString.eqb s (s ++ x :: l) = false.
Proof.
  unfold JsString.eqb. apply bool_decide_eq_false. intros H.
  apply (f_equal length) in H. rewrite length_app in H. cbn in H. lia.
Qed.

(** A static component against the components of a token. *)
Lemma static_component s segs inp :
  forallb not_slash s = true ->
  match_components (Static s :: segs) (components inp)
  = if is_prefix s inp then
      match skipn (length s) inp with
      | [] => match_components segs []
      | x :: inp' =>
          if N.eqb x slash then match_components segs (components inp')
          else None
      end
    else None.
Proof.
  intros Hs. rewrite components_unfold.
  destruct (is_prefix s inp) eqn:Hp.
  - pose proof (is_prefix_split _ _ Hp) as E.
    set (rest := skipn (length s) inp) in *. clearbody rest. subst inp.
    destruct (take_while_prefix not_slash s rest Hs) as [-> ->].
    destruct rest as [|x inp'].
    + cbn [take_while drop_while match_components].
      by rewrite app_nil_r, eqb_refl.
    + cbn [take_while drop_while]. rewrite not_slash_spec.
      destruct (N.eqb x slash); cbn [negb].
      * cbn [match_components]. by rewrite app_nil_r, eqb_refl.
      * destruct (drop_while not_slash inp'); cbn [match_components];
          by rewrite eqb_longer.
  - assert (JsString.eqb s (take_while not_slash inp) = false) as He.
    { unfold JsString.eqb. apply bool_decide_eq_false. intros ->.
      rewrite <- (take_drop_while not_slash inp) in Hp at 2.
      by rewrite is_prefix_app in Hp. }
    destruct (drop_while not_slash inp); cbn [match_components];
      by rewrite He.
Qed.

(** A parameter against the components of a token. *)
Lemma param_component name segs inp :
  match_components (Param name :: segs) (components inp)
  = match inp with
    | [] => None
    | x :: rest =>
        if not_slash x then
          option_map (cons (x :: take_while not_slash rest))
            match drop_while not_slash rest with
            | [] => match_components segs []
            | _ :: inp' => match_components segs (components inp')
            end
        else None
    end.
Proof.
  rewrite components_unfold. destruct inp as [|x rest]; [done|].
  cbn [take_while drop_while]. destruct (not_slash x); [|done].
  destruct (drop_while not_slash rest); cbn [match_components];
    by destruct (match_components segs _).
Qed.

Lemma match_components_end seg segs : match_components (seg :: segs) [] = None.
Proof. by destruct seg. Qed.

Lemma match_components_more inp :
  match_components [] (components inp) = None.
Proof.
  pose proof (components_nonempty inp). by destruct (components inp).
Qed.

Section Engine.
Context {R : Type}.
Implicit Types (k : cont (R := R)).

Lemma m_lit_then ml s r prev inp cs k :
  m ml (lit_then s r) prev inp cs k
  = if is_prefix s inp then
      m ml r (last_of prev s) (skipn (length s) inp) cs
        (fun p s2 i c => k p (s ++ s2) i c)
    else None.
Proof.
  revert prev inp k. induction s as [|c s IH]; intros prev inp k.
  - reflexivity.
  - cbn [lit_then is_prefix]. rewrite m_Seq.
    destruct inp as [|x inp]; [done|]. rewrite m_Chr_cons.
    cbn [in_cls]. rewrite N.eqb_sym.
    destruct (N.eqb_spec c x) as [->|]; [|done].
    cbn [andb]. rewrite IH. reflexivity.
Qed.

(** The regular expression of a list of segments matches a token when
    the segments match its components, and then it captures the values
    of the parameters. *)
Lemma m_segments segs : forall g inp prev cs k,
  segs <> [] ->
  forallb static_ok segs = true ->
  m false (regex_of_segments g segs) prev inp cs k
  = match match_components segs (components inp) with
    | Some vals => k (last_of prev inp) inp [] (push_caps g vals cs)
    | None => None
    end.
Proof.
  induction segs as [|seg segs IH]; intros g inp prev cs k Hne Hok; [done|].
  cbn [forallb] in Hok. apply andb_prop in Hok as [Hseg Hok].
  destruct seg as [s | name].
  - (* a static component *)
    cbn [static_ok] in Hseg. rewrite (static_component _ _ _ Hseg).
    cbn [regex_of_segments]. rewrite m_lit_then.
    destruct (is_prefix s inp) eqn:Hp; [|done].
    pose proof (is_prefix_split _ _ Hp) as E.
    set (rest := skipn (length s) inp) in *. clearbody rest. subst inp.
    destruct segs as [|seg2 segs].
    + rewrite m_Eol.
      destruct rest as [|x inp'].
      * cbn [at_eol match_components push_caps].
        by rewrite app_nil_r.
      * cbn [at_eol andb].
        destruct (N.eqb x slash); [by rewrite match_components_more | done].
    + rewrite m_Seq.
      destruct rest as [|x inp'].
      * by rewrite m_Chr_nil, match_components_end.
      * rewrite m_Chr_cons. cbn [in_cls].
        destruct (N.eqb_spec x slash) as [->|]; [|done].
        rewrite IH by done.
        destruct (match_components (seg2 :: segs) (components inp'));
          [|done].
        by rewrite last_of_app, last_of_cons.
  - (* a parameter *)
    rewrite param_component. cbn [regex_of_segments].
    rewrite m_Seq, m_Grp. unfold one_component.
    destruct segs as [|seg2 segs].
    + rewrite m_plus_rejects.
      2:{ intros p a y i c Hy. by rewrite m_Eol. }
      destruct inp as [|x rest]; [done|].
      fold not_slash. destruct (not_slash x); [|done].
      rewrite m_Eol.
      pose proof (take_drop_while not_slash rest) as Hrest.
      destruct (drop_while not_slash rest) as [|y inp'].
      * cbn [at_eol match_components option_map push_caps].
        rewrite app_nil_r in Hrest. rewrite Hrest.
        by rewrite app_nil_r, last_of_cons.
      * cbn [at_eol andb]. by rewrite match_components_more.
    + rewrite m_plus_rejects.
      2:{ intros p a y i c Hy. rewrite m_Seq, m_Chr_cons. cbn [in_cls].
          unfold not_slash in *. cbn in Hy.
          by destruct (N.eqb y slash). }
      destruct inp as [|x rest]; [done|].
      fold not_slash. destruct (not_slash x); [|done].
      rewrite m_Seq.
      pose proof (take_drop_while not_slash rest) as Hrest.
      set (tw := take_while not_slash rest) in *.
      destruct (drop_while not_slash rest) as [|y inp'] eqn:Hd.
      * by rewrite m_Chr_nil, match_components_end.
      * rewrite m_Chr_cons. cbn [in_cls].
        apply drop_while_head in Hd. rewrite not_slash_spec in Hd.
        destruct (N.eqb_spec y slash) as [->|]; [|done].
        rewrite IH by done.
        destruct (match_components (seg2 :: segs) (components inp'));
          [|done].
        cbn [option_map push_caps]. clearbody tw. subst rest.
        rewrite last_of_cons, last_of_app, last_of_cons. reflexivity.
Qed.

End Engine.

Lemma cap_push_caps vals : forall g cs j,
  cap j (push_caps g vals cs)
  = if (g <=? j)%nat && (j <? g + length vals)%nat
    then nth_error vals (j - g)
    else cap j cs.
Proof.
  induction vals as [|v vals IH]; intros g cs j; cbn [push_caps length].
  - destruct (Nat.leb_spec g j), (Nat.ltb_spec j (g + 0)); cbn; done || lia.
  - rewrite IH. cbn [cap].
    repeat match goal with
           | |- context [Nat.leb ?a ?b] => destruct (Nat.leb_spec a b)
           | |- context [Nat.ltb ?a ?b] => destruct (Nat.ltb_spec a b)
           | |- context [Nat.eqb ?a ?b] => destruct (Nat.eqb_spec a b)
           end; cbn [andb]; try lia; try reflexivity.
    + replace (j - g) with (S (j - S g)) by lia. done.
    + subst j. by rewrite Nat.sub_diag.
Qed.

(** The names are bound to the captures in order. *)
Lemma bind_params_push names : forall taken todo ps,
  length names = length todo ->
  bind_params names (length taken) (push_caps 1 (taken ++ todo) []) ps
  = bind_values names todo ps.
Proof.
  induction names as [|n names IH]; intros taken todo ps Hlen; [done|].
  destruct todo as [|v todo]; [done|]. cbn in Hlen.
  cbn [bind_params bind_values].
  assert (cap_str (S (length taken)) (push_caps 1 (taken ++ v :: todo) [])
          = v) as ->.
  { unfold cap_str. rewrite cap_push_caps, length_app. cbn [length].
    destruct (Nat.leb_spec 1 (S (length taken))); [|lia].
    destruct (Nat.ltb_spec (S (length taken))
                (1 + (length taken + S (length todo)))); [|lia].
    cbn [andb]. replace (S (length taken) - 1) with (length taken) by lia.
    by rewrite nth_error_app2, Nat.sub_diag by lia. }
  replace (taken ++ v :: todo) with ((taken ++ [v]) ++ todo)
    by (by rewrite <- app_assoc).
  replace (S (length taken)) with (length (taken ++ [v]))
    by (rewrite length_app; cbn; lia).
  apply IH. lia.
Qed.

Lemma match_components_length segs : forall comps vals,
  match_components segs comps = Some vals ->
  length (names_of segs) = length vals.
Proof.
  induction segs as [|seg segs IH]; intros comps vals H.
  - destruct comps; [|done]. by injection H as <-.
  - destruct seg as [s | name], comps as [|c comps]; try done;
      cbn [match_components names_of] in *.
    + destruct (JsString.eqb s c); [|done]. by apply IH in H.
    + destruct c; [done|].
      destruct (match_components segs comps) as [vs|] eqn:Hm; [|done].
      injection H as <-. cbn. f_equal. by apply (IH comps).
Qed.

(** What the code finds for one route is what the specification says
    of its pattern. *)
Lemma exec_route pattern token :
  compiles_to_segments pattern = true ->
  match exec false (route_regex pattern) token with
  | Some x => Some (bind_params (param_names pattern) 0 (f_caps x) [])
  | None => None
  end = spec_match pattern token.
Proof.
  unfold compiles_to_segments. intros H.
  apply andb_prop in H as [H Hn]. apply andb_prop in H as [_ Hr].
  apply bool_decide_eq_true in Hr, Hn. rewrite Hr, Hn.
  rewrite exec_anchored. unfold match_here. rewrite m_Seq, m_Bol.
  cbn [at_bol]. rewrite m_segments.
  - unfold spec_match.
    destruct (match_components (segments pattern) (components token))
      as [vals|] eqn:Hm; [|done].
    cbn [f_caps]. f_equal.
    apply (bind_params_push _ [] vals []).
    by apply match_components_length in Hm.
  - unfold segments. pose proof (components_nonempty pattern).
    by destruct (components pattern).
  - apply segments_static_ok.
Qed.

Lemma matchRoute_spec table token :
  forallb (fun route => compiles_to_segments (fst route)) table = true ->
  matchRoute_in table token = spec_resolve table token.
Proof.
  induction table as [|[pattern handler] table IH]; intros H; [done|].
  cbn [forallb fst] in H. apply andb_prop in H as [Hp H].
  cbn [matchRoute_in spec_resolve].
  rewrite <- (exec_route pattern token Hp).
  destruct (exec false (route_regex pattern) token); [done|]. by apply IH.
Qed.

(** The first match of the specification, spelled out. *)
Lemma spec_resolve_first table token :
  match spec_resolve table token with
  | Some (handler, ps) =>
      exists i pattern,
        table !! i = Some (pattern, handler)
        /\ spec_match pattern token = Some ps
        /\ forall j p h, j < i -> table !! j = Some (p, h) ->
                         spec_match p token = None
  | None =>
      forall p h, In (p, h) table -> spec_match p token = None
  end.
Proof.
  induction table as [|[pattern handler] table IH]; cbn [spec_resolve].
  - by intros p h [].
  - destruct (spec_match pattern token) as [ps|] eqn:Hm.
    + exists 0, pattern. repeat split; [done|]. intros j p h Hj. lia.
    + destruct (spec_resolve table token) as [[h ps]|].
      * destruct IH as (i & p & Hi & Hp & Hlt).
        exists (S i), p. repeat split; [done | done |].
        intros [|j] p' h' Hj Hl; cbn in Hl.
        -- by injection Hl as -> ->.
        -- apply (Hlt j p' h'); [lia | done].
      * intros p h [[= <- <-] | Hin]; [done | by apply (IH p h)].
Qed.

(** C2. Over a table of routes on which the code and the path
    components agree, [matchRoute] returns the handler of the first
    pattern, in declaration order, that matches the token component by
    component, whatever the later patterns are; each parameter is bound,
    under its name, to the one component it stands for, as it is
    written in the token; a token that no pattern matches gets
    [null]. *)
Theorem matchRoute_first_match (table : list (JsString.t * JsString.t))
    (token : JsString.t) :
  forallb (fun route => compiles_to_segments (fst route)) table = true ->
  match matchRoute_in table token with
  | Some (handler, ps) =>
      exists i pattern vals,
        table !! i = Some (pattern, handler)
        /\ match_components (segments pattern) (components token) = Some vals
        /\ ps = bind_values (names_of (segments pattern)) vals []
        /\ forall j p h, j < i -> table !! j = Some (p, h) ->
                         spec_match p token = None
  | None =>
      forall p h, In (p, h) table -> spec_match p token = None
  end.
Proof.
  intros H. rewrite (matchRoute_spec _ _ H).
  pose proof (spec_resolve_first table token) as Hf.
  destruct (spec_resolve table token) as [[handler ps]|]; [|done].
  destruct Hf as (i & pattern & Hi & Hm & Hlt).
  unfold spec_match in Hm.
  destruct (match_components (segments pattern) (components token))
    as [vals|] eqn:Hc; [|done].
  injection Hm as <-. by exists i, pattern, vals.
Qed.

(** The declared routes are such a table. *)
Lemma routes_compile :
  forallb (fun route => compiles_to_segments (fst route)) routes = true.
Proof. vm_compute. reflexivity. Qed.

Lemma matchRoute_routes token : matchRoute token = spec_resolve routes token.
Proof. apply matchRoute_spec, routes_compile. Qed.

(** A general pattern declared before a specific one wins. *)
Lemma matchRoute_first_match_witness :
  let table := [(str "/agents/:id", str "handleAgent");
                (str "/agents/me", str "handleMe")] in
  matchRoute_in table (str "/agents/me")
  = Some (str "handleAgent", [(str "id", str "me")])
  /\ spec_match (str "/agents/me") (str "/agents/me") = Some []
  /\ matchRoute_in table (str "/agents") = None.
Proof.
  intros table.
  assert (H : forallb (fun route => compiles_to_segments (fst route)) table
              = true) by (vm_compute; reflexivity).
  pose proof (matchRoute_first_match table (str "/agents") H) as H2.
  split; [reflexivity|]. split; [reflexivity|].
  destruct (matchRoute_in table (str "/agents")) as [[h ps]|] eqn:E;
    [|reflexivity].
  destruct H2 as (i & p & vals & Hi & Hm & _).
  destruct i as [|[|i]]; cbn in Hi; [| |done];
    injection Hi as <- <-; vm_compute in Hm; discriminate.
Defined.

End RouterFacts.

(* ================================================================== *)
(** * Further properties of the code *)
(* ================================================================== *)

(** ** The fetch cache: what a call leaves behind *)

Module CacheLaws.
Import RB_STATE.

(** X1: a producer that fails stores nothing.  The cache is left as it
    was, stale entry included; the call yields the failure, unless an
    entry younger than [cacheExpiry] answered it, in which case the
    producer was not invoked at all. *)
Theorem getCached_failure_not_stored {V : Type} (key : JsString.t)
    (e : JsString.t) (now : Z) (st : state V) :
  let r := getCached key (Rejected e) now st in
  cache (snd r) = cache st
  /\ (r = (Rejected e, State (cache st) (S (calls st)))
      \/ exists x, cache st !! key = Some x
                   /\ (now - timestamp x < cacheExpiry)%Z
                   /\ r = (Resolved (data x), st)).
Proof.
  cbv zeta. unfold getCached.
  destruct (cache st !! key) as [x|] eqn:Hx.
  - destruct (Z.ltb_spec (now - timestamp x) cacheExpiry) as [Hlt | Hge].
    + split; [done|]. right. by exists x.
    + split; [done|]. by left.
  - split; [done|]. by left.
Qed.

(** X2: a call touches the entry of its own key only: whatever it does,
    every other key maps to what it mapped to before. *)
Theorem getCached_other_keys {V : Type} (key other : JsString.t)
    (f : outcome V) (now : Z) (st : state V) :
  other <> key ->
  cache (snd (getCached key f now st)) !! other = cache st !! other.
Proof.
  intros Hne. unfold getCached.
  destruct (cache st !! key) as [x|].
  - destruct (now - timestamp x <? cacheExpiry)%Z; [done|].
    destruct f; cbn; [by rewrite lookup_insert_ne | done].
  - destruct f; cbn; [by rewrite lookup_insert_ne | done].
Qed.

Lemma getCached_other_keys_witness :
  let st := State (V := Z) {[ str "stats" := Entry 7%Z 1000 ]} 1 in
  cache (snd (getCached (str "pokes") (Resolved 3%Z) 2000 st)) !! str "stats"
  = Some (Entry 7%Z 1000).
Proof.
  intros st.
  assert (Hne : str "stats" <> str "pokes") by discriminate.
  rewrite (getCached_other_keys (str "pokes") (str "stats") (Resolved 3%Z)
             2000 st Hne).
  reflexivity.
Defined.

(** X3: the poll tick empties the cache ([RB_STATE.cache = {}]), so the
    call that follows it invokes the producer whatever was cached and
    however recently: it yields the producer's outcome, and a value it
    yields is the only entry of the cache afterwards. *)
Theorem getCached_after_clear {V : Type} (key : JsString.t) (f : outcome V)
    (now : Z) (st : state V) :
  let r := getCached key f now (clear st) in
  fst r = f
  /\ calls (snd r) = S (calls st)
  /\ cache (snd r)
     = match f with
       | Resolved d => {[ key := Entry d now ]}
       | Rejected _ => ∅
       end.
Proof.
  cbv zeta. unfold getCached, clear. cbn [cache calls].
  rewrite lookup_empty. destruct f; cbn; repeat split; done.
Qed.

End CacheLaws.

(** ** The gateway: bounds, fallbacks and failure modes *)

Module GatewayLaws.
Import RB_DISCUSSIONS RB_ROUTER Vocabulary GatewayFacts.

Lemma bind_resolved {A B} (c : io A) (k : A -> io B) w b w' :
  bind c k w = (Resolved b, w') ->
  exists a w1, c w = (Resolved a, w1) /\ k a w1 = (Resolved b, w').
Proof.
  unfold bind. destruct (c w) as [[a | e] w1]; [eauto | done].
Qed.

Lemma map_io_length {A B} (f : A -> io B) l : forall w r w',
  map_io f l w = (Resolved r, w') -> length r = length l.
Proof.
  induction l as [|a l IH]; intros w r w' H; cbn in H.
  - by injection H as <- _.
  - apply bind_resolved in H as (b & w1 & _ & H).
    apply bind_resolved in H as (bs & w2 & Hbs & H).
    injection H as <- _. cbn. f_equal. by eapply IH.
Qed.

Lemma fetchDiscussionsREST_bounded channelSlug limit w :
  exists posts w',
    fetchDiscussionsREST channelSlug limit w = (Resolved posts, w')
    /\ length posts <= limit.
Proof.
  unfold fetchDiscussionsREST, bind at 1, read, try_catch.
  match goal with
  | |- context [match ?c w with _ => _ end] => destruct (c w) as [[ps | e] w1] eqn:H
  end.
  - exists ps, w1. split; [done|].
    apply bind_resolved in H as (resp & w2 & _ & H).
    destruct (negb (Net.ok resp)); [done|].
    apply bind_resolved in H as (ds & w3 & _ & H).
    apply bind_resolved in H as (rs & w4 & _ & H).
    injection H as <- _. rewrite length_firstn. lia.
  - exists [], w1. split; [done | cbn; lia].
Qed.

(** X4: [fetchRecent] never throws and never returns more than [limit]
    posts, whatever the servers answer: the log is cut to [limit]
    entries, the fallback listing too, and a failure of both paths is
    the empty list. *)
Theorem fetchRecent_bounded (channelSlug : option JsString.t) (limit : nat)
    (w : world) :
  exists posts w',
    fetchRecent channelSlug limit w = (Resolved posts, w')
    /\ length posts <= limit.
Proof.
  unfold fetchRecent, try_catch.
  match goal with
  | |- context [match ?c w with _ => _ end] => destruct (c w) as [[ps | e] w1] eqn:H
  end.
  - exists ps, w1. split; [done|].
    apply bind_resolved in H as (log & w2 & _ & H).
    apply bind_resolved in H as (logged & w3 & _ & H).
    apply bind_resolved in H as (posts & w4 & _ & H).
    apply bind_resolved in H as (posts' & w5 & _ & H).
    apply map_io_length in H. rewrite H, length_firstn. lia.
  - apply fetchDiscussionsREST_bounded.
Qed.

(** X5: the listing of the REST interface is the fallback of
    [fetchRecent].  A failure status or a failed transport on the
    request for the posted log hands the call over to
    [fetchDiscussionsREST], with the same channel and limit; a log
    that was served as an object without a [posts] property is an
    empty feed, with no second request. *)
Theorem fetchRecent_fallback (channelSlug : option JsString.t) (limit : nat)
    (w : world) :
  let w1 := after_request w (log_request w) in
  (forall resp,
     server w (log_request w) = Net.Got resp -> Net.ok resp = false ->
     fetchRecent channelSlug limit w
     = fetchDiscussionsREST channelSlug limit w1)
  /\ (forall e,
        server w (log_request w) = Net.NetworkError e ->
        fetchRecent channelSlug limit w
        = fetchDiscussionsREST channelSlug limit w1)
  /\ (forall resp fields,
        server w (log_request w) = Net.Got resp -> Net.ok resp = true ->
        Net.json resp = Some (Js.VObj fields) ->
        Js.truthy (Js.lookup_field (str "posts") fields) = false ->
        fetchRecent channelSlug limit w = (Resolved [], w1)).
Proof.
  intros w1. unfold fetchRecent, try_catch, fetchJSON, log_request in *.
  repeat split.
  - intros resp Hs Hok. unfold bind, read.
    rewrite (fetch_got _ _ _ Hs), Hok. reflexivity.
  - intros e Hs. unfold bind, read, fetch. rewrite Hs. reflexivity.
  - intros resp fields Hs Hok Hjson Hposts. unfold bind, read.
    rewrite (fetch_got _ _ _ Hs), Hok. cbn [negb].
    unfold response_json, lift. rewrite Hjson.
    unfold ret at 1, get_or_throw, lift. cbn [Js.get].
    unfold ret at 1. unfold Js.or_else. rewrite Hposts.
    unfold ret at 1. cbn [rev].
    destruct channelSlug as [[|c slug]|]; by destruct limit.
Qed.

(** The log is not there (status 404): the feed is what the listing
    gives, here nothing, and the listing was asked after the log. *)
Lemma fetchRecent_fallback_witness :
  let w := world_answering (Net.Got (Net.Response 404 None)) None 20 in
  fetchRecent None 3 w
  = fetchDiscussionsREST None 3 (after_request w (log_request w)).
Proof.
  intros w.
  destruct (fetchRecent_fallback None 3 w) as [H _].
  exact (H (Net.Response 404 None) eq_refl eq_refl).
Defined.

Lemma graphql_sends t op vars w :
  authenticated w t ->
  graphql op vars w
  = bind (fetch (graphql_request t op vars))
      (fun response =>
         if negb (Net.ok response) then
           throw (str "GraphQL request failed: "
                  ++ of_nat (Z.to_nat (Net.status response)))
         else
           let* json := response_json response in
           let* errors := get_or_throw json (str "errors") in
           if Js.truthy errors then
             let* messages :=
               map_array (fun e => get_or_throw e (str "message")) errors in
             throw_text (Js.join_values (str ", ") messages)
           else get_or_throw json (str "data")) w.
Proof.
  intros [Ht Hne]. unfold graphql, bind at 1, RB_AUTH.getToken, read.
  rewrite Ht. destruct t as [|c t]; [done | reflexivity].
Qed.

(** The answer to a well-formed query: the payload under [data]. *)
Lemma graphql_data t op vars w resp fields :
  authenticated w t ->
  server w (graphql_request t op vars) = Net.Got resp ->
  Net.ok resp = true ->
  Net.json resp = Some (Js.VObj fields) ->
  Js.truthy (Js.lookup_field (str "errors") fields) = false ->
  graphql op vars w
  = (Resolved (Js.lookup_field (str "data") fields),
     after_request w (graphql_request t op vars)).
Proof.
  intros Ha Hs Hok Hjson Herr. rewrite (graphql_sends t) by done.
  unfold bind at 1. rewrite (fetch_got _ _ _ Hs), Hok. cbn [negb].
  unfold response_json, lift. rewrite Hjson.
  unfold bind at 1, ret at 1, get_or_throw, lift. cbn [Js.get].
  unfold bind at 1, ret at 1. by rewrite Herr.
Qed.




Lemma lift_resolved {A} (o : option A) e w a w' :
  lift o e w = (Resolved a, w') -> o = Some a /\ w' = w.
Proof. destruct o; cbn; [by intros [= <- <-] | done]. Qed.

(** X7: the repository information is fetched once.  After a call of
    [fetchRepoId] that returned, the next call returns the same
    information and leaves the world as it is: it issues no request,
    whatever the server would answer by then. *)
Theorem fetchRepoId_cached (w w1 : world) (info : Js.value * Js.value) :
  fetchRepoId w = (Resolved info, w1) ->
  repoInfo w1 = Some info /\ fetchRepoId w1 = (Resolved info, w1).
Proof.
  intros H.
  assert (Hinfo : repoInfo w1 = Some info).
  { unfold fetchRepoId in H. unfold bind at 1, read at 1 in H.
    destruct (repoInfo w) as [cached|] eqn:Hc.
    - injection H as <- <-. exact Hc.
    - unfold bind at 1, read at 1 in H.
      apply bind_resolved in H as (data & w2 & _ & H).
      apply bind_resolved in H as (repository & w3 & _ & H).
      apply bind_resolved in H as (id & w4 & _ & H).
      apply bind_resolved in H as (cats & w5 & _ & H).
      apply bind_resolved in H as (nodes & w6 & _ & H).
      apply bind_resolved in H as ([] & w7 & Hm & H).
      injection Hm as <-. by injection H as <- <-. }
  split; [exact Hinfo|].
  unfold fetchRepoId, bind at 1, read at 1. by rewrite Hinfo.
Qed.

Lemma fetchRepoId_cached_witness :
  let nodes := Js.VObj [(str "nodes", Js.VArr [])] in
  let repository :=
    Js.VObj [(str "id", Js.VStr (str "R_1"));
             (str "discussionCategories", nodes)] in
  let w := world_answering
             (Net.Got (graphql_answer (Js.VObj [(str "repository", repository)])))
             (Some (str "tok")) 20 in
  let w1 := snd (fetchRepoId w) in
  length (requests w1) = 1 /\ requests (snd (fetchRepoId w1)) = requests w1.
Proof.
  intros nodes repository w w1. split; [reflexivity|].
  destruct (fetchRepoId_cached w w1 (Js.VStr (str "R_1"), Js.VArr []) eq_refl)
    as [_ H].
  by rewrite H.
Defined.

(** X8: a reply needs the node of its discussion.  When the discussion
    cannot be fetched, or was fetched without a node identifier,
    [postReply] fails with "Discussion not found" after the one request
    for the discussion: the mutation is never sent. *)
Theorem postReply_needs_discussion (t number : JsString.t)
    (body parentCommentId : Js.value) (w w1 : world) (d : option discussion) :
  authenticated w t ->
  fetchDiscussion number w = (Resolved d, w1) ->
  match d with
  | None => True
  | Some x => Js.truthy (d_nodeId x) = false
  end ->
  postReply number body parentCommentId w
  = (Rejected (str "Discussion not found"), w1)
  /\ requests w1 = requests w ++ [discussion_request (cfg w) number].
Proof.
  intros [Ht Hne] Hd Hmissing. split.
  - unfold postReply, bind at 1, RB_AUTH.getToken, read. rewrite Ht.
    destruct t as [|c t]; [done|]. unfold bind. rewrite Hd.
    destruct d as [x|]; [|done]. by rewrite Hmissing.
  - pose proof (fetchDiscussion_world number w) as Hw.
    rewrite Hd in Hw. cbn in Hw. by subst w1.
Qed.

Lemma postReply_needs_discussion_witness :
  let w := world_answering (Net.Got (Net.Response 404 None))
             (Some (str "tok")) 20 in
  postReply (str "7") (Js.VStr (str "hi")) (Js.VStr (str "C_1")) w
  = (Rejected (str "Discussion not found"),
     after_request w (discussion_request (cfg w) (str "7"))).
Proof.
  intros w.
  assert (Ha : authenticated w (str "tok")) by (split; done).
  destruct (postReply_needs_discussion (str "tok") (str "7")
              (Js.VStr (str "hi")) (Js.VStr (str "C_1")) w
              (after_request w (discussion_request (cfg w) (str "7")))
              None Ha eq_refl I) as [H _].
  exact H.
Defined.



Lemma authenticated_isAuthenticated t w :
  authenticated w t -> RB_AUTH.isAuthenticated w = (Resolved true, w).
Proof.
  intros [Ht Hne]. unfold RB_AUTH.isAuthenticated, RB_AUTH.getToken, bind, read.
  rewrite Ht. by destruct t.
Qed.

Section Votes.
Variables (t redirect_uri : JsString.t) (id : JsString.t).
Hypothesis Hid : id <> [].

(** One run of the listener on a control that is not voted, and one on
    a control that is. *)
Lemma vote_click_add (n : Z) (w : world) (added : Js.value) :
  authenticated w t ->
  server w (vote_request t Net.MAddReaction id)
  = Net.Got (graphql_answer added) ->
  vote_click redirect_uri (Some (VoteButton id false n)) w
  = (Resolved (Some (VoteButton id true (n + 1))),
     after_request w (vote_request t Net.MAddReaction id)).
Proof using Hid.
  intros Ha Hadd. destruct id as [|c id']; [done|].
  unfold vote_click, bind at 1.
  rewrite (authenticated_isAuthenticated t w Ha).
  cbn [negb nodeId voted count]. unfold try_catch, bind, addReaction.
  unfold vote_request in *.
  by rewrite (graphql_data t _ _ w (graphql_answer added)
                [(str "data", added)] Ha Hadd eq_refl eq_refl eq_refl).
Qed.

Lemma vote_click_remove (n : Z) (w : world) (removed : Js.value) :
  authenticated w t ->
  server w (vote_request t Net.MRemoveReaction id)
  = Net.Got (graphql_answer removed) ->
  vote_click redirect_uri (Some (VoteButton id true n)) w
  = (Resolved (Some (VoteButton id false (Z.max 0 (n - 1)))),
     after_request w (vote_request t Net.MRemoveReaction id)).
Proof using Hid.
  intros Ha Hremove. destruct id as [|c id']; [done|].
  unfold vote_click, bind at 1.
  rewrite (authenticated_isAuthenticated t w Ha).
  cbn [negb nodeId voted count]. unfold try_catch, bind, removeReaction.
  unfold vote_request in *.
  by rewrite (graphql_data t _ _ w (graphql_answer removed)
                [(str "data", removed)] Ha Hremove eq_refl eq_refl eq_refl).
Qed.

(** The runs of one click: when a run sends a request and leaves the
    control in a state that do not depend on the requests sent before,
    every run sends that request and the control ends in that state. *)
Lemma vote_click_runs_same (btn after : vote_button) (req : Net.request)
    (answer : Net.fetched) :
  voted after = negb (voted btn) ->
  (forall w, authenticated w t -> server w req = answer ->
             vote_click redirect_uri (Some btn) w
             = (Resolved (Some after), after_request w req)) ->
  forall n last w,
    authenticated w t -> server w req = answer ->
    vote_click_runs redirect_uri n (Some btn) last w
    = (Resolved match n with O => last | S _ => Some after end,
       with_requests w (requests w ++ repeat req n)).
Proof using Type.
  intros Hflip Hrun n. induction n as [|n IH]; intros last w Ha Hs.
  - cbn. unfold ret. rewrite app_nil_r. by destruct w.
  - cbn [vote_click_runs]. unfold bind. rewrite (Hrun w Ha Hs).
    replace (wrote (Some btn) (Some after)) with true
      by (unfold wrote; rewrite Hflip; by destruct (voted btn)).
    rewrite (IH _ (after_request w req) Ha Hs).
    f_equal; [by destruct n|].
    unfold after_request, with_requests. cbn. by rewrite <- app_assoc.
Qed.
End Votes.

(** X10: voting and taking the vote back.  With a credential stored
    and both mutations answered without errors, a click on a control
    that is not voted marks the control and adds one to its counter,
    and the next click brings the control back to what it was.  Each
    click sends its mutation ([addReaction], then [removeReaction])
    once for every vote listener attached to the page, and
    [handleDiscussion] attaches one more each time it draws a
    discussion: with [n] listeners, [n] requests for each click. *)
Theorem vote_then_unvote (t redirect_uri : JsString.t) (b : vote_button)
    (w : world) (added removed : Js.value) :
  authenticated w t ->
  nodeId b <> [] ->
  voted b = false ->
  (0 <= count b)%Z ->
  0 < vote_listeners w ->
  let add := vote_request t Net.MAddReaction (nodeId b) in
  let remove := vote_request t Net.MRemoveReaction (nodeId b) in
  server w add = Net.Got (graphql_answer added) ->
  server w remove = Net.Got (graphql_answer removed) ->
  let n := vote_listeners w in
  let w1 := with_requests w (requests w ++ repeat add n) in
  let w2 := with_requests w (requests w ++ repeat add n ++ repeat remove n) in
  vote_click_event redirect_uri (Some b) w
  = (Resolved (Some (VoteButton (nodeId b) true (count b + 1))), w1)
  /\ vote_click_event redirect_uri
       (Some (VoteButton (nodeId b) true (count b + 1))) w1
     = (Resolved (Some b), w2).
Proof.
  intros Ha Hid Hv Hc Hn add remove Hadd Hremove n w1 w2.
  assert (Ha1 : authenticated w1 t) by exact Ha.
  assert (Hevent : forall btn w0,
            vote_listeners w0 = n ->
            vote_click_event redirect_uri btn w0
            = vote_click_runs redirect_uri n btn btn w0).
  { intros btn w0 <-. reflexivity. }
  rewrite (Hevent _ w eq_refl), (Hevent _ w1 eq_refl).
  fold n in Hn. clearbody n. clear Hevent.
  destruct b as [id v c]. cbn in Hid, Hv, Hc. subst v.
  cbn [nodeId count] in *.
  destruct n as [|n]; [lia|].
  split.
  - rewrite (vote_click_runs_same t redirect_uri (VoteButton id false c)
               (VoteButton id true (c + 1)) add
               (Net.Got (graphql_answer added)));
      [done|done|..|exact Ha|exact Hadd].
    intros w0 Ha0 Hs0.
    exact (vote_click_add t redirect_uri id Hid c w0 added Ha0 Hs0).
  - rewrite (vote_click_runs_same t redirect_uri (VoteButton id true (c + 1))
               (VoteButton id false c) remove
               (Net.Got (graphql_answer removed)));
      [|done|..|exact Ha1|exact Hremove].
    + f_equal. subst w2 w1. unfold with_requests. cbn [requests].
      by rewrite <- app_assoc.
    + intros w0 Ha0 Hs0.
      rewrite (vote_click_remove t redirect_uri id Hid (c + 1) w0 removed
                 Ha0 Hs0).
      do 4 f_equal. lia.
Qed.

(** Two discussions were drawn since the page was loaded, so two vote
    listeners are attached: a click on a control with three votes
    leaves it voted with four, and sends [addReaction] twice. *)
Lemma vote_then_unvote_witness :
  let b := VoteButton (str "D_1") false 3 in
  let w0 := world_answering (Net.Got (graphql_answer Js.VNull))
              (Some (str "tok")) 20 in
  let w := with_handlers w0 [str "attachVoteHandlers";
                             str "attachCommentActionHandlers";
                             str "attachVoteHandlers"] in
  let add := vote_request (str "tok") Net.MAddReaction (str "D_1") in
  fst (vote_click_event (str "uri") (Some b) w)
  = Resolved (Some (VoteButton (str "D_1") true 4))
  /\ requests (snd (vote_click_event (str "uri") (Some b) w)) = [add; add].
Proof.
  intros b w0 w add.
  assert (Ha : authenticated w (str "tok")) by (split; done).
  assert (Hid : nodeId b <> []) by done.
  assert (Hc : (0 <= count b)%Z) by (cbn; lia).
  assert (Hn : 0 < vote_listeners w) by (apply Nat.ltb_lt; reflexivity).
  destruct (vote_then_unvote (str "tok") (str "uri") b w Js.VNull Js.VNull
              Ha Hid eq_refl Hc Hn eq_refl eq_refl) as (H1 & _).
  rewrite H1. split; reflexivity.
Defined.

End GatewayLaws.

(** ** The feed, page after page *)

Module FeedLaws.
Import RB_DISCUSSIONS RB_ROUTER Vocabulary GatewayFacts FeedFacts.

Section Click.
Variable card_body : post -> RB_RENDER.post_type -> outcome unit.

Local Abbreviation click := (load_more_click card_body None).

(** X11: "load more" continues where the feed stopped.  Let the home
    page show the [k] newest posts of the posted log, [k] being the
    count of posts loaded ([_homePostsLoaded]), and let the log be
    served unchanged at the click.  The click fetches the log and
    takes the next posts of it, a page at most.  When their cards
    render they are put after the posts shown, so the page shows the
    [k + N] newest posts, none twice and none skipped; when rendering
    them throws the page stays as it is.  Either way the count of
    posts loaded advances by the number of posts taken, the button
    goes exactly when the log holds no more than [k + N] posts and the
    cards rendered, and one request was issued, for the log. *)
Theorem load_more_continues (w : world) (resp : Net.response)
    (log : Js.value) (entries : list (list (JsString.t * Js.value))) :
  server w (log_request w) = Net.Got resp ->
  Net.ok resp = true ->
  Net.json resp = Some log ->
  Js.get log (str "posts") = Some (Js.VArr (List.map Js.VObj entries)) ->
  let N := homeBatchSize w in
  let k := homePostsLoaded w in
  let feed := List.map logged_post (rev entries) in
  let taken := firstn N (skipn k feed) in
  app w = ViewHome (firstn k feed) ->
  let w' := snd (click w) in
  homePostsLoaded w' = k + length taken
  /\ requests w' = requests w ++ [log_request w]
  /\ match RB_RENDER.renderPostList card_body taken with
     | Resolved _ =>
         app w' = ViewHome (firstn (k + N) feed)
         /\ load_more w' = (load_more w && (k + N <? length entries)%nat)
     | Rejected _ => app w' = app w /\ load_more w' = load_more w
     end.
Proof.
  intros Hs Hok Hjson Hposts N k feed taken Hpage w'.
  pose proof (fetchRecent_log (k + N + 1) w resp log entries Hs Hok Hjson
                Hposts) as Hrecent.
  fold feed in Hrecent.
  assert (Hlen : length feed = length entries).
  { unfold feed. by rewrite length_map, length_rev. }
  assert (Hnew : firstn N (skipn k (firstn (k + N + 1) feed)) = taken).
  { unfold taken. rewrite skipn_firstn_comm, firstn_firstn.
    f_equal. lia. }
  assert (Hmore : (k + N <? length (firstn (k + N + 1) feed))%nat
                  = (k + N <? length entries)%nat).
  { rewrite length_firstn, Hlen.
    destruct (Nat.ltb_spec (k + N) (length entries)),
      (Nat.ltb_spec (k + N) (Nat.min (k + N + 1) (length entries)));
      try done; lia. }
  assert (Hall : firstn k feed ++ taken = firstn (k + N) feed).
  { unfold taken.
    rewrite <- (firstn_skipn k (firstn (k + N) feed)).
    rewrite firstn_firstn, skipn_firstn_comm. do 2 f_equal; lia. }
  set (more := (k + N <? length entries)%nat) in *.
  set (w1 := with_homePostsLoaded (after_request w (log_request w))
               (k + length taken)).
  assert (Hrun : click w
    = (Resolved tt,
       match taken, RB_RENDER.renderPostList card_body taken with
       | [], _ => if more then w1 else with_load_more w1 false
       | _ :: _, Resolved _ =>
           let w2 := with_app w1 (ViewHome (firstn k feed ++ taken)) in
           if more then w2 else with_load_more w2 false
       | _ :: _, Rejected _ => w1
       end)).
  { unfold load_more_click, try_catch, bind at 1, read.
    unfold bind at 1. unfold bind at 1.
    change (homePostsLoaded w + homeBatchSize w + 1) with (k + N + 1).
    rewrite Hrecent. cbv zeta. fold N k. rewrite Hnew, Hmore.
    unfold bind at 1, modify at 1. unfold bind at 1.
    cbn [app after_request with_requests with_homePostsLoaded].
    fold (log_request w). rewrite Hpage.
    fold (after_request w (log_request w)). fold w1.
    destruct taken as [|p taken'].
    - unfold bind, ret, modify. by destruct more.
    - unfold bind at 1, settled.
      destruct (RB_RENDER.renderPostList card_body (p :: taken')) as [[]|e];
        [|done].
      unfold bind, modify, ret. by destruct more. }
  subst w'. rewrite Hrun. cbn [snd].
  destruct taken as [|p taken'] eqn:Htaken.
  - rewrite app_nil_r in Hall. rewrite <- Hall.
    cbn [RB_RENDER.renderPostList].
    destruct more; cbn; rewrite ?andb_true_r, ?andb_false_r, ?Hpage; done.
  - destruct (RB_RENDER.renderPostList card_body (p :: taken')) as [[]|e].
    + cbv zeta. rewrite Hall.
      destruct more; cbn; rewrite ?andb_true_r, ?andb_false_r; done.
    + by cbn.
Qed.
End Click.

(** One post shown of three in the log, a page of one: the click puts
    the second newest post after it and the button stays. *)
Lemma load_more_continues_witness :
  let log := Js.VObj [(str "posts",
                       Js.VArr (List.map Js.VObj [log_entry 1; log_entry 2; log_entry 3]))] in
  let w0 := world_answering (Net.Got (Net.Response 200 (Some log))) None 1 in
  let w := with_homePostsLoaded
             (with_load_more
                (with_app w0 (ViewHome [logged_post (log_entry 3)])) true) 1 in
  let w' := snd (load_more_click (fun _ _ => Resolved tt) None w) in
  app w' = ViewHome [logged_post (log_entry 3); logged_post (log_entry 2)]
  /\ homePostsLoaded w' = 2
  /\ load_more w' = true.
Proof.
  intros log w0 w w'.
  destruct (load_more_continues (fun _ _ => Resolved tt) w
              (Net.Response 200 (Some log)) log
              [log_entry 1; log_entry 2; log_entry 3] eq_refl eq_refl eq_refl
              eq_refl eq_refl) as (H1 & _ & H2 & H3).
  split; [exact H2 | split; [exact H1 | exact H3]].
Defined.

End FeedLaws.

(** ** Comment threads: where every comment goes *)

Module ThreadLaws.
Import RB_RENDER Vocabulary ThreadFacts.

Section Loop.
Variable comments : list comment.
Let byId := index_comments 0 comments [].

Lemma parent_index_at pre c rest :
  comments = pre ++ c :: rest ->
  parent_index comments (length pre) = parent_of byId c.
Proof.
  intros ->. unfold parent_index.
  by rewrite lookup_app_r, Nat.sub_diag by lia.
Qed.

(** The roots collected by the second loop over the comments that
    follow [pre]. *)
Lemma attach_roots_filter : forall rest pre t,
  comments = pre ++ rest ->
  roots (attach_comments byId (length pre) rest t)
  = roots t
    ++ List.filter (fun i => bool_decide (parent_index comments i = None))
         (seq (length pre) (length rest)).
Proof.
  induction rest as [|c rest IH]; intros pre t Hc; cbn [attach_comments].
  - cbn. by rewrite app_nil_r.
  - assert (Hc' : comments = (pre ++ [c]) ++ rest) by by rewrite <- app_assoc.
    specialize (IH (pre ++ [c])).
    rewrite length_app, Nat.add_1_r in IH. rewrite IH by done.
    cbn [length seq List.filter].
    rewrite (parent_index_at pre c rest Hc).
    destruct (parent_of byId c) as [p|]; cbn [roots].
    + by rewrite bool_decide_eq_false_2.
    + rewrite bool_decide_eq_true_2 by done. by rewrite <- app_assoc.
Qed.

(** The replies collected for the comment at position [p]. *)
Lemma attach_replies_filter p : forall rest pre t,
  comments = pre ++ rest ->
  p < length (replies t) ->
  replies_of (attach_comments byId (length pre) rest t) p
  = replies_of t p
    ++ List.filter (fun i => bool_decide (parent_index comments i = Some p))
         (seq (length pre) (length rest)).
Proof.
  induction rest as [|c rest IH]; intros pre t Hc Hp; cbn [attach_comments].
  - cbn. by rewrite app_nil_r.
  - assert (Hc' : comments = (pre ++ [c]) ++ rest) by by rewrite <- app_assoc.
    specialize (IH (pre ++ [c])).
    rewrite length_app, Nat.add_1_r in IH. rewrite IH; [|done|].
    2:{ destruct (parent_of byId c); cbn [replies]; [|done].
        by rewrite length_alter. }
    cbn [length seq List.filter].
    rewrite (parent_index_at pre c rest Hc).
    destruct (parent_of byId c) as [q|]; unfold replies_of; cbn [replies].
    + destruct (decide (q = p)) as [->|Hne].
      * rewrite list_lookup_alter_eq.
        destruct (lookup_lt_is_Some_2 _ _ Hp) as [r ->]. cbn.
        rewrite bool_decide_eq_true_2 by done. by rewrite <- app_assoc.
      * rewrite list_lookup_alter_ne by done.
        rewrite bool_decide_eq_false_2; [done | congruence].
    + by rewrite bool_decide_eq_false_2.
Qed.
End Loop.

Lemma roots_filter (comments : list comment) :
  roots (build_threads comments)
  = List.filter (fun i => bool_decide (parent_index comments i = None))
      (positions comments).
Proof.
  unfold build_threads, positions.
  by rewrite (attach_roots_filter comments comments [] _ eq_refl).
Qed.

Lemma replies_filter (comments : list comment) (p : nat) :
  p < length comments ->
  replies_of (build_threads comments) p
  = List.filter (fun i => bool_decide (parent_index comments i = Some p))
      (positions comments).
Proof.
  intros Hp. unfold build_threads, positions.
  rewrite (attach_replies_filter comments p comments [] _ eq_refl).
  - unfold replies_of. cbn [replies].
    rewrite list_lookup_fmap.
    destruct (lookup_lt_is_Some_2 comments p Hp) as [c ->]. done.
  - cbn. by rewrite length_map.
Qed.

(** X12: the two loops of [renderCommentTree] file every comment once.
    The roots are the comments without an indexed parent, in the order
    of the list; the replies of a comment are the comments whose parent
    it is, in the order of the list.  No comment is lost, none is filed
    twice, and a reply may come before its parent in the list. *)
Theorem threads_by_parent (comments : list comment) :
  let t := build_threads comments in
  roots t
  = List.filter (fun i => bool_decide (parent_index comments i = None))
      (positions comments)
  /\ forall p, p < length comments ->
       replies_of t p
       = List.filter (fun i => bool_decide (parent_index comments i = Some p))
           (positions comments).
Proof.
  cbv zeta. split; [apply roots_filter | apply replies_filter].
Qed.

Section Shown.
Variable comments : list comment.
Let t := build_threads comments.

Lemma parent_index_lt i p :
  parent_index comments i = Some p -> i < length comments.
Proof.
  unfold parent_index. destruct (comments !! i) eqn:Hi; [|done].
  intros _. by apply lookup_lt_is_Some_1.
Qed.

Lemma replies_of_outside p : length comments <= p -> replies_of t p = [].
Proof.
  intros Hp. unfold replies_of, t, build_threads.
  rewrite lookup_ge_None_2; [done|].
  by rewrite attach_replies_length; cbn; rewrite length_map.
Qed.

(** The replies of a comment are the comments whose parent it is. *)
Lemma in_replies_of c p :
  In c (replies_of t p) <-> p < length comments /\ parent_index comments c = Some p.
Proof.
  destruct (Nat.lt_ge_cases p (length comments)) as [Hp | Hp].
  - unfold t.
    rewrite (replies_filter comments p Hp), filter_In, bool_decide_eq_true.
    split.
    + intros [_ H]. done.
    + intros [_ H]. split; [|done]. apply in_seq.
      apply parent_index_lt in H. lia.
  - rewrite (replies_of_outside p Hp). split; [done | lia].
Qed.

Lemma in_roots r :
  In r (roots t) <-> r < length comments /\ parent_index comments r = None.
Proof.
  unfold t.
  rewrite roots_filter, filter_In, bool_decide_eq_true. unfold positions.
  rewrite in_seq. split; intros [H1 H2]; (split; [lia | done]).
Qed.

Lemma ancestor_last k : forall x o,
  ancestor comments (S k) x = Some o <->
  exists c, ancestor comments k x = Some c /\ parent_index comments c = Some o.
Proof.
  induction k as [|k IH]; intros x o.
  - cbn. split.
    + intros H. exists x. destruct (parent_index comments x); by simplify_eq.
    + intros (c & [= <-] & ->). done.
  - change (ancestor comments (S (S k)) x)
      with (match parent_index comments x with
            | Some p => ancestor comments (S k) p
            | None => None
            end).
    cbn [ancestor]. destruct (parent_index comments x) as [p|].
    + apply IH.
    + split; [done | by intros (c & H & _)].
Qed.

(** Every comment of a tree descends from the comment at its top. *)
Lemma nodes_descend fuel : forall o x,
  In x (nodes (tree_of fuel t o)) -> exists k, ancestor comments k x = Some o.
Proof.
  induction fuel as [|fuel IH]; intros o x; cbn [tree_of nodes].
  - intros [<- | []]. by exists 0.
  - intros [<- | Hin]; [by exists 0|].
    apply in_flat_map in Hin as (child & Hchild & Hx).
    apply in_map_iff in Hchild as (c & <- & Hc).
    destruct (IH c x Hx) as [k Hk]. exists (S k).
    apply ancestor_last. exists c. split; [done|].
    by apply in_replies_of in Hc as [_ Hc].
Qed.

(** A comment that descends from the top of a tree in no more steps
    than the tree is deep is in the tree. *)
Lemma descend_nodes k : forall fuel o x,
  k <= fuel -> o < length comments ->
  ancestor comments k x = Some o -> In x (nodes (tree_of fuel t o)).
Proof.
  induction k as [|k IH]; intros fuel o x Hk Ho.
  - intros [= <-]. destruct fuel; cbn; by left.
  - intros Hx. apply ancestor_last in Hx as (c & Hc & Hp).
    destruct fuel as [|fuel]; [lia|]. cbn [tree_of nodes]. right.
    apply in_flat_map. exists (tree_of fuel t c). split.
    + apply in_map. apply in_replies_of. done.
    + apply IH; [lia | by apply parent_index_lt in Hp | done].
Qed.
End Shown.

(** X13: which comments the page shows.  A comment is shown only if
    following the parent references from it leads to a root; and it is
    shown whenever that takes no more steps than there are comments.
    A reply whose chain of parents never reaches a root (it runs in a
    circle) is in nobody's view. *)
Theorem shown_descend_from_roots (comments : list comment) (i : nat) :
  let t := build_threads comments in
  (In i (shown comments) ->
   exists k r, ancestor comments k i = Some r /\ In r (roots t))
  /\ (forall k r,
        k <= length comments ->
        ancestor comments k i = Some r -> In r (roots t) ->
        In i (shown comments)).
Proof.
  cbv zeta. unfold shown, comment_forest. split.
  - intros Hin. apply in_flat_map in Hin as (tr & Htr & Hi).
    apply in_map_iff in Htr as (r & <- & Hr).
    destruct (nodes_descend comments _ r i Hi) as [k Hk]. by exists k, r.
  - intros k r Hk Ha Hr. apply in_flat_map.
    exists (tree_of (length comments) (build_threads comments) r). split.
    + by apply in_map.
    + apply (descend_nodes comments k); [done | | done].
      by apply in_roots in Hr as [Hr _].
Qed.

(** A reply listed before its parent is shown: one step leads from it
    to a root. *)
Lemma shown_descend_from_roots_witness :
  let comments := [plain_comment (Js.VNum 2) (Js.VNum 1);
                   plain_comment (Js.VNum 1) Js.VNull] in
  In 0 (shown comments).
Proof.
  intros comments.
  destruct (shown_descend_from_roots comments 0) as [_ H].
  apply (H 1 1); [cbn; lia | reflexivity | cbn; tauto].
Defined.

Lemma ancestor_self comments i :
  parent_index comments i = Some i ->
  forall k, ancestor comments k i = Some i.
Proof. intros H. induction k as [|k IH]; cbn; [done|]. by rewrite H. Qed.

(** X14: a comment that replies to itself is not shown at all.  When
    the parent reference of a comment is the identifier it carries
    itself, and no other comment of the list carries that identifier,
    the comment is filed under itself and under nothing else: it is in
    nobody's view. *)
Theorem self_reply_not_shown (comments : list comment) (i : nat)
    (c : comment) :
  comments !! i = Some c ->
  Js.truthy (c_id c) = true ->
  same_value_zero (c_parentId c) (c_id c) = true ->
  (forall j x, comments !! j = Some x ->
               same_value_zero (c_id x) (c_id c) = true -> j = i) ->
  ~ In i (shown comments).
Proof.
  intros Hc Hid Hparent Hunique Hin.
  assert (Hself : parent_index comments i = Some i).
  { unfold parent_index, parent_of. rewrite Hc.
    rewrite (svz_truthy _ _ Hparent), Hid.
    by rewrite (index_get_unique comments 0 [] i c _ Hc Hid Hparent Hunique). }
  unfold shown, comment_forest in Hin.
  apply in_flat_map in Hin as (tr & Htr & Hi).
  apply in_map_iff in Htr as (r & <- & Hr).
  destruct (nodes_descend comments _ r i Hi) as [k Hk].
  rewrite (ancestor_self comments i Hself) in Hk. injection Hk as <-.
  apply in_roots in Hr as [_ Hr]. congruence.
Qed.

(** Two comments, the second one a reply to itself: the first alone is
    shown. *)
Lemma self_reply_not_shown_witness :
  let comments := [plain_comment (Js.VNum 1) Js.VNull;
                   plain_comment (Js.VNum 2) (Js.VNum 2)] in
  shown comments = [0] /\ ~ In 1 (shown comments).
Proof.
  intros comments. split; [reflexivity|].
  apply (self_reply_not_shown comments 1 (plain_comment (Js.VNum 2) (Js.VNum 2)));
    [reflexivity | reflexivity | reflexivity |].
  intros [|[|j]] x Hx Hsame; [|reflexivity|done].
  injection Hx as <-. discriminate Hsame.
Defined.

End ThreadLaws.

(** ** The router: the declared table *)

Module RouterLaws.
Import RB_ROUTER Vocabulary RegexFacts RouterFacts.

Lemma spec_resolve_components table token :
  spec_resolve table token = resolve_components table (components token).
Proof.
  induction table as [|[pattern handler] table IH]; [done|].
  cbn [spec_resolve resolve_components]. unfold spec_match.
  destruct (match_components (segments pattern) (components token)); [done|].
  apply IH.
Qed.

Lemma matchRoute_components token :
  matchRoute token = resolve_components routes (components token).
Proof. by rewrite matchRoute_routes, spec_resolve_components. Qed.

(** The components of a path that ends with one more component. *)
Lemma components_snoc prefix v :
  forallb not_slash v = true ->
  components (prefix ++ slash :: v) = components prefix ++ [v].
Proof.
  intros Hv. induction prefix as [|c prefix IH].
  - cbn. by rewrite (components_plain v Hv).
  - rewrite <- app_comm_cons. cbn [components]. rewrite IH.
    destruct (N.eqb c slash); [done|].
    pose proof (components_nonempty prefix).
    by destruct (components prefix).
Qed.

(** X15: the addresses the pages link to come back as they were
    written.  For every value that is one non-empty component, the
    address of a channel, of an agent, of an agent's soul file, of a
    discussion and of a search resolves to its handler with the value
    bound under the parameter's name: no earlier route takes it, and
    the value arrives unchanged. *)
Theorem parameter_routes (v : JsString.t) :
  component_value v ->
  matchRoute (str "/channels/" ++ v)
  = Some (str "handleChannel", [(str "slug", v)])
  /\ matchRoute (str "/agents/" ++ v)
     = Some (str "handleAgent", [(str "id", v)])
  /\ matchRoute (str "/agents/" ++ v ++ str "/soul")
     = Some (str "handleSoul", [(str "id", v)])
  /\ matchRoute (str "/discussions/" ++ v)
     = Some (str "handleDiscussion", [(str "number", v)])
  /\ matchRoute (str "/search/" ++ v)
     = Some (str "handleSearch", [(str "query", v)]).
Proof.
  intros [Hne Hv].
  assert (H1 : forall name,
    forallb not_slash name = true ->
    components (slash :: name ++ slash :: v) = [[]; name; v]).
  { intros name Hn. cbn [components]. rewrite N.eqb_refl.
    by rewrite components_snoc, (components_plain name Hn). }
  assert (H2 : components (str "/agents/" ++ v ++ str "/soul")
               = [[]; str "agents"; v; str "soul"]).
  { change (str "/agents/" ++ v ++ str "/soul")
      with (slash :: (str "agents" ++ slash :: v) ++ slash :: str "soul").
    cbn [components]. rewrite N.eqb_refl.
    rewrite components_snoc by done. rewrite components_snoc by done.
    by rewrite components_plain. }
  destruct v as [|x v]; [done|].
  rewrite !matchRoute_components.
  change (str "/channels/" ++ x :: v)
    with (slash :: str "channels" ++ slash :: x :: v).
  change (str "/agents/" ++ x :: v)
    with (slash :: str "agents" ++ slash :: x :: v).
  change (str "/discussions/" ++ x :: v)
    with (slash :: str "discussions" ++ slash :: x :: v).
  change (str "/search/" ++ x :: v)
    with (slash :: str "search" ++ slash :: x :: v).
  rewrite !H1, H2 by done.
  repeat split; vm_compute; reflexivity.
Qed.

Lemma parameter_routes_witness :
  matchRoute (str "/discussions/42")
  = Some (str "handleDiscussion", [(str "number", str "42")]).
Proof.
  assert (H : component_value (str "42")) by (split; done).
  destruct (parameter_routes (str "42") H) as (_ & _ & _ & H4 & _).
  exact H4.
Defined.

Lemma match_components_values segs : forall comps vals,
  match_components segs comps = Some vals ->
  Forall (fun v => v <> [] /\ In v comps) vals.
Proof.
  induction segs as [|seg segs IH]; intros comps vals H.
  - destruct comps; [|done]. injection H as <-. constructor.
  - destruct seg as [s | name], comps as [|c comps]; try done;
      cbn [match_components] in H.
    + destruct (JsString.eqb s c); [|done].
      apply IH in H. eapply Forall_impl; [exact H|].
      intros v [Hv Hin]. split; [done | by right].
    + destruct c as [|x c]; [done|].
      destruct (match_components segs comps) as [vs|] eqn:Hm; [|done].
      injection H as <-. constructor; [split; [done | by left]|].
      apply IH in Hm. eapply Forall_impl; [exact Hm|].
      intros v [Hv Hin]. split; [done | by right].
Qed.

Lemma set_param_values ps : forall name x n v,
  In (n, v) (set_param ps name x) -> In (n, v) ps \/ v = x.
Proof.
  induction ps as [|[n0 v0] ps IH]; intros name x n v; cbn.
  - intros [[= _ <-] | []]. by right.
  - destruct (JsString.eqb n0 name).
    + intros [[= _ <-] | Hin]; [by right | left; by right].
    + intros [[= <- <-] | Hin]; [left; by left|].
      destruct (IH _ _ _ _ Hin) as [H | H]; [left; by right | by right].
Qed.

Lemma bind_values_values names : forall vals ps n v,
  In (n, v) (bind_values names vals ps) -> In (n, v) ps \/ In v vals.
Proof.
  induction names as [|name names IH]; intros vals ps n v; cbn; [by left|].
  destruct vals as [|x vals]; [by left|].
  intros Hin. destruct (IH _ _ _ _ Hin) as [H | H]; [|right; by right].
  destruct (set_param_values _ _ _ _ _ H) as [H' | ->]; [by left|].
  right. by left.
Qed.

Lemma resolve_components_found table comps handler ps :
  resolve_components table comps = Some (handler, ps) ->
  exists pattern vals,
    In (pattern, handler) table
    /\ match_components (segments pattern) comps = Some vals
    /\ ps = bind_values (names_of (segments pattern)) vals [].
Proof.
  induction table as [|[pattern h] table IH]; [done|].
  cbn [resolve_components].
  destruct (match_components (segments pattern) comps) as [vals|] eqn:Hm.
  - intros [= <- <-]. exists pattern, vals. repeat split; [by left | done].
  - intros H. destruct (IH H) as (p & vals & Hin & Hp & Hps).
    exists p, vals. repeat split; [by right | done | done].
Qed.

(** X16: what a handler is given.  Every value bound in the
    parameters of a resolved address is one component of the address:
    it is not empty and it holds no slash. *)
Theorem parameters_are_components (token handler : JsString.t) (ps : params)
    (name v : JsString.t) :
  matchRoute token = Some (handler, ps) ->
  In (name, v) ps ->
  component_value v /\ In v (components token).
Proof.
  rewrite matchRoute_components. intros Hm Hin.
  apply resolve_components_found in Hm as (pattern & vals & _ & Hm & ->).
  apply bind_values_values in Hin as [[] | Hin].
  apply match_components_values in Hm.
  rewrite List.Forall_forall in Hm. destruct (Hm v Hin) as [Hne Hc].
  repeat split; [done | | done].
  pose proof (components_no_slash token) as Hs.
  rewrite List.Forall_forall in Hs. by apply Hs.
Qed.

Lemma parameters_are_components_witness :
  component_value (str "alpha")
  /\ In (str "alpha") (components (str "/agents/alpha/soul")).
Proof.
  apply (parameters_are_components (str "/agents/alpha/soul")
           (str "handleSoul") [(str "id", str "alpha")] (str "id")).
  - reflexivity.
  - by left.
Defined.

(** A slash at the end of a path is one more component, empty. *)
Lemma components_slash_end t :
  components (t ++ [slash]) = components t ++ [[]].
Proof. by apply (components_snoc t []). Qed.

Lemma match_components_end_empty segs : forall comps vals,
  match_components segs (comps ++ [[]]) = Some vals ->
  exists segs', segs = segs' ++ [Static []]
                /\ match_components segs' comps = Some vals.
Proof.
  induction segs as [|seg segs IH]; intros comps vals H.
  - by destruct comps.
  - destruct comps as [|c comps]; cbn [List.app match_components] in H.
    + destruct seg as [s | name]; [|done].
      destruct (JsString.eqb s []) eqn:Hs; [|done].
      apply bool_decide_eq_true in Hs. subst s.
      destruct segs; [|by rewrite match_components_end in H].
      injection H as <-. by exists [].
    + destruct seg as [s | name]; cbn [match_components].
      * destruct (JsString.eqb s c) eqn:E; [|done].
        destruct (IH _ _ H) as (segs' & -> & Hm).
        exists (Static s :: segs'). split; [done|]. cbn. by rewrite E.
      * destruct c as [|x c]; [done|].
        destruct (match_components segs (comps ++ [[]])) as [vs|] eqn:Hm;
          [|done].
        injection H as <-.
        destruct (IH _ _ Hm) as (segs' & -> & Hm').
        exists (Param name :: segs'). split; [done|]. cbn. by rewrite Hm'.
Qed.

(** X17: what the router never resolves.  An address it resolves
    starts with a slash, and it ends with a slash only when it is the
    root address itself: a route followed by a slash is not found. *)
Theorem resolved_addresses (token handler : JsString.t) (ps : params) :
  matchRoute token = Some (handler, ps) ->
  (exists rest, token = slash :: rest)
  /\ (forall t, token = t ++ [slash] -> t = []).
Proof.
  rewrite matchRoute_components. intros Hm.
  apply resolve_components_found in Hm as (pattern & vals & Hin & Hm & _).
  assert (Hshape :
    forallb (fun route =>
               match segments (fst route) with
               | Static [] :: _ :: _ => true
               | _ => false
               end) routes = true) by (vm_compute; reflexivity).
  assert (Hlast :
    forallb (fun route =>
               match rev (segments (fst route)) with
               | Static [] :: rest =>
                   match rest with [Static []] => true | _ => false end
               | _ => true
               end) routes = true) by (vm_compute; reflexivity).
  rewrite forallb_forall in Hshape, Hlast.
  specialize (Hshape _ Hin). specialize (Hlast _ Hin). cbn [fst] in *.
  split.
  - destruct (segments pattern) as [|[[|? ?]|?] [|seg segs]]; try done.
    destruct token as [|c token].
    { cbn in Hm. destruct (eqb [] []), seg; done. }
    cbn [components] in Hm.
    destruct (N.eqb_spec c slash) as [->|Hc]; [by exists token|].
    destruct (components token); cbn in Hm; done.
  - intros t ->. rewrite components_slash_end in Hm.
    apply match_components_end_empty in Hm as (segs' & Hs & Hm).
    rewrite Hs, rev_app_distr in Hlast. cbn in Hlast.
    assert (Hsegs : rev segs' = [Static []]).
    { destruct (rev segs') as [|[[|? ?]|?] [|? ?]]; done. }
    apply (f_equal (@rev segment)) in Hsegs. rewrite rev_involutive in Hsegs.
    cbn in Hsegs. subst segs'.
    destruct (components t) as [|c [|c' comps]] eqn:Hc; [done | |];
      cbn in Hm; (destruct (JsString.eqb [] c) eqn:E; [|done]); [|done].
    apply bool_decide_eq_true in E. subst c.
    destruct t as [|x t]; [done|]. cbn [components] in Hc.
    destruct (N.eqb x slash).
    + injection Hc as Hc. by destruct (components_nonempty t).
    + destruct (components t); simplify_eq.
Qed.

Lemma resolved_addresses_witness :
  (exists rest, str "/channels" = slash :: rest)
  /\ matchRoute (str "/channels/") = None.
Proof.
  destruct (resolved_addresses (str "/channels") (str "handleChannels") []
              eq_refl) as [H _].
  split; [exact H | reflexivity].
Defined.

End RouterLaws.

(** ** Bylines: any agent name *)

Module BylineLaws.
Import RB_DISCUSSIONS Vocabulary RegexFacts BylineFacts.

(** Where a search finds its match: at the start of some suffix of the
    text. *)
Lemma search_found ml r : forall inp prev f,
  search ml r prev inp = Some f ->
  exists before line f0,
    inp = before ++ line
    /\ match_here ml r (last_of prev before) line = Some f0
    /\ f_caps f = f_caps f0.
Proof.
  induction inp as [|x inp IH]; intros prev f H; cbn [search] in H.
  - destruct (match_here ml r prev []) as [f0|] eqn:Hm; [|done].
    injection H as <-. by exists [], [], f0.
  - destruct (match_here ml r prev (x :: inp)) as [f0|] eqn:Hm.
    + injection H as <-. by exists [], (x :: inp), f0.
    + destruct (search ml r (Some x) inp) as [f1|] eqn:Hs; [|done].
      injection H as <-.
      destruct (IH _ _ Hs) as (before & line & f0 & -> & Hl & Hc).
      by exists (x :: before), line, f0.
Qed.

(** A match of the byline pattern, with what it captures. *)
Lemma match_byline_name ml opening prev inp f :
  match_here ml (re_byline opening) prev inp = Some f ->
  at_bol ml prev = true
  /\ exists name rest,
       inp = opening ++ name ++ str "***" ++ rest
       /\ name <> [] /\ forallb not_star name = true
       /\ cap_str 1 (f_caps f) = name.
Proof.
  unfold match_here. rewrite m_byline.
  destruct (at_bol ml prev); [|done].
  destruct (is_prefix opening inp) eqn:Ho; [|done].
  destruct (skipn (length opening) inp) as [|x rest] eqn:Hs; [done|].
  destruct (in_cls (CNot [star]) x) eqn:Hx; [|done]. cbv zeta.
  destruct (is_prefix (str "***") _) eqn:Hd; [|done].
  intros [= <-]. split; [done|].
  exists (x :: take_while (in_cls (CNot [star])) rest),
         (skipn 3 (drop_while (in_cls (CNot [star])) rest)).
  split; [|split; [done|split; [|done]]].
  - rewrite (is_prefix_split _ _ Ho) at 1. rewrite Hs. f_equal.
    rewrite <- app_comm_cons. f_equal.
    pose proof (is_prefix_split _ _ Hd) as E.
    change (length (str "***")) with 3 in E. rewrite <- E.
    by rewrite take_drop_while.
  - cbn [forallb]. unfold not_star at 1. rewrite Hx.
    apply (take_while_all (in_cls (CNot [star]))).
Qed.

Lemma exec_byline_name opening body x :
  exec true (re_byline opening) body = Some x ->
  exists before rest,
    body = before ++ opening ++ cap_str 1 (f_caps x) ++ str "***" ++ rest
    /\ line_start before = true
    /\ cap_str 1 (f_caps x) <> []
    /\ forallb not_star (cap_str 1 (f_caps x)) = true.
Proof.
  intros H. apply search_found in H as (before & line & f0 & -> & Hm & Hc).
  apply match_byline_name in Hm as (Hb & name & rest & -> & Hne & Hns & Hn).
  rewrite line_start_at_bol in Hb. rewrite Hc, Hn.
  by exists before, rest.
Qed.

(** X18: an author is never made up.  Whatever the body, a name that
    [extractAuthor] returns stands in the body between the opening of a
    byline (of a post or of a reply) and three stars, at the start of a
    line; it is not empty and holds no star. *)
Theorem extracted_author_in_body (body name : JsString.t) :
  extractAuthor body = Some name ->
  exists opening before rest,
    (opening = post_opening \/ opening = comment_opening)
    /\ body = before ++ opening ++ name ++ str "***" ++ rest
    /\ line_start before = true
    /\ name <> [] /\ forallb not_star name = true.
Proof.
  unfold extractAuthor. destruct body as [|c body]; [done|].
  destruct (exec true (re_byline post_opening) (c :: body)) as [x|] eqn:Hp.
  - intros [= <-].
    destruct (exec_byline_name _ _ _ Hp) as (before & rest & H).
    exists post_opening, before, rest. split; [by left | exact H].
  - destruct (exec true (re_byline comment_opening) (c :: body)) as [x|] eqn:Hc;
      [|done].
    intros [= <-].
    destruct (exec_byline_name _ _ _ Hc) as (before & rest & H).
    exists comment_opening, before, rest. split; [by right | exact H].
Qed.

Lemma extracted_author_in_body_witness :
  exists opening before rest,
    (opening = post_opening \/ opening = comment_opening)
    /\ str "Hello
*Posted by **X***" = before ++ opening ++ str "X" ++ str "***" ++ rest
    /\ line_start before = true
    /\ str "X" <> [] /\ forallb not_star (str "X") = true.
Proof.
  apply extracted_author_in_body. reflexivity.
Defined.

(** The byline pattern on a byline. *)
Lemma match_byline_here opening name rest :
  name <> [] -> forallb not_star name = true ->
  exists f,
    match_here true (re_byline opening) None
      (opening ++ name ++ str "***" ++ rest) = Some f
    /\ cap_str 1 (f_caps f) = name.
Proof.
  intros Hne Hns. destruct name as [|x name]; [done|].
  cbn [forallb] in Hns. apply andb_prop in Hns as [Hx Hns].
  unfold match_here. rewrite m_byline. cbn [at_bol].
  rewrite is_prefix_app, skipn_app, skipn_all, Nat.sub_diag.
  cbn [skipn List.app]. unfold not_star in Hx. rewrite Hx. cbv zeta.
  destruct (take_while_app (in_cls (CNot [star])) name (str "***" ++ rest)
              Hns eq_refl) as [-> ->].
  rewrite is_prefix_app. eexists. split; [reflexivity | reflexivity].
Qed.

(** The stripping pattern of posts on a byline, its separator line and
    the content. *)
Lemma strip_post_any name content :
  name <> [] -> forallb not_star name = true ->
  replace1 false re_strip_post (fun _ => [])
    (post_opening ++ name ++ str "***" ++ separator ++ content)
  = drop_while is_space content.
Proof.
  intros Hne Hns. destruct name as [|x name]; [done|].
  cbn [forallb] in Hns. apply andb_prop in Hns as [Hx Hns].
  unfold replace1. rewrite re_strip_post_eq, exec_strip.
  unfold match_here, strip_pattern. rewrite m_strip_head.
  cbn [at_bol].
  rewrite is_prefix_app, skipn_app, skipn_all, Nat.sub_diag.
  cbn [skipn List.app]. unfold not_star in Hx. rewrite Hx. cbv zeta.
  destruct (take_while_app (in_cls (CNot [star])) name
              (str "***" ++ separator ++ content) Hns eq_refl) as [-> ->].
  rewrite is_prefix_app.
  change (skipn 3 (str "***" ++ separator ++ content))
    with (separator ++ content).
  erewrite m_post_tail; [|reflexivity]. reflexivity.
Qed.

(** X19: the byline of a post, for every agent name.  Let the body be
    the byline of a name (not empty, no star), the separator line and
    the content.  [extractAuthor] returns the name; and when the
    content starts with neither white space nor a reply byline,
    [stripByline] returns the content: byline and separator are gone
    and nothing else is. *)
Theorem post_byline_of_any_name (name content : JsString.t) :
  name <> [] -> forallb not_star name = true ->
  let body := post_opening ++ name ++ str "***" ++ separator ++ content in
  extractAuthor body = Some name
  /\ (drop_while is_space content = content ->
      ~ byline_at comment_opening content ->
      stripByline body = content).
Proof.
  intros Hne Hns body. split.
  - destruct (match_byline_here post_opening name (separator ++ content)
                Hne Hns) as (f & Hf & Hcap).
    unfold extractAuthor, body.
    change (post_opening ++ name ++ str "***" ++ separator ++ content)
      with (42%N :: str "Posted by **" ++ name ++ str "***" ++ separator
                  ++ content) at 1.
    cbv iota. unfold exec. rewrite (search_here _ _ _ _ _ Hf).
    by rewrite Hcap.
  - intros Hspace Hreply. unfold stripByline, body.
    change (post_opening ++ name ++ str "***" ++ separator ++ content)
      with (42%N :: str "Posted by **" ++ name ++ str "***" ++ separator
                  ++ content) at 1.
    cbv iota. rewrite (strip_post_any name content Hne Hns), Hspace.
    rewrite re_strip_comment_eq. by apply strip_no_byline.
Qed.

Lemma post_byline_of_any_name_witness :
  let body := str "*Posted by **zion-coder-10***
---
First line" in
  extractAuthor body = Some (str "zion-coder-10")
  /\ stripByline body = str "First line".
Proof.
  intros body.
  assert (Hne : str "zion-coder-10" <> []) by done.
  destruct (post_byline_of_any_name (str "zion-coder-10") (str "First line")
              Hne eq_refl) as [H1 H2].
  split; [exact H1|]. apply H2; [reflexivity|].
  intros (name & rest & _ & _ & Heq). discriminate Heq.
Defined.

End BylineLaws.

(** ** Escaping: nothing is lost *)

Module EscapeLaws.
Import RB_MARKDOWN RB_RENDER Vocabulary RegexFacts EscapeFacts.

(** A code of characters in which no code is the start of another. *)
Lemma flat_map_injective (f : N -> JsString.t) :
  (forall c, f c <> []) ->
  (forall c d s t, f c ++ s = f d ++ t -> c = d /\ s = t) ->
  forall a b, flat_map f a = flat_map f b -> a = b.
Proof.
  intros Hne Hcode. induction a as [|c a IH]; intros [|d b] H; cbn in H.
  - done.
  - destruct (f d) eqn:E; [by destruct (Hne d) | done].
  - destruct (f c) eqn:E; [by destruct (Hne c) | done].
  - destruct (Hcode _ _ _ _ H) as [-> H']. f_equal. by apply IH.
Qed.

Ltac code_cases f :=
  unfold f;
  repeat match goal with
         | |- context [N.eqb ?x ?y] => destruct (N.eqb_spec x y); subst
         end.

Lemma escape_char_code c d s t :
  escape_char c ++ s = escape_char d ++ t -> c = d /\ s = t.
Proof.
  unfold amp, lt, gt, dquote. code_cases escape_char; cbn; intros H;
    by simplify_eq.
Qed.

Lemma escape_char_nonempty c : escape_char c <> [].
Proof. code_cases escape_char; done. Qed.

(** X20: [escapeHtml] loses nothing: two texts are escaped to the same
    text only if they are the same text, so the text written can be
    read back from what is shown. *)
Theorem escapeHtml_injective (a b : JsString.t) :
  escapeHtml a = escapeHtml b <-> a = b.
Proof.
  split; [|by intros ->]. rewrite !escapeHtml_chars.
  apply (flat_map_injective escape_char escape_char_nonempty
           escape_char_code).
Qed.

(** The five replacements of [escapeAttr] rewrite the text character
    by character. *)
Lemma escapeAttr_chars s : escapeAttr s = flat_map attr_char s.
Proof.
  destruct s as [|c0 s0]; [done|]. unfold escapeAttr.
  generalize (c0 :: s0). clear. intros text.
  rewrite !replace_all_tpl_chr by reflexivity.
  induction text as [|x text IH]; [done|].
  cbn [flat_map]. rewrite !flat_map_app, IH. f_equal.
  unfold attr_char, dquote.
  destruct (N.eqb_spec x 38) as [->|Ha]; [reflexivity|].
  cbn [flat_map List.app]. rewrite !app_nil_r.
  destruct (N.eqb_spec x 34) as [->|Hq]; [reflexivity|].
  cbn [flat_map List.app]. rewrite !app_nil_r.
  destruct (N.eqb_spec x 39) as [->|Hs]; [reflexivity|].
  cbn [flat_map List.app]. rewrite !app_nil_r.
  destruct (N.eqb_spec x 60) as [->|Hl]; [reflexivity|].
  cbn [flat_map List.app]. rewrite !app_nil_r.
  destruct (N.eqb_spec x 62) as [->|Hg]; reflexivity.
Qed.

Lemma attr_char_code c d s t :
  attr_char c ++ s = attr_char d ++ t -> c = d /\ s = t.
Proof. code_cases attr_char; cbn; intros H; by simplify_eq. Qed.

Lemma attr_char_nonempty c : attr_char c <> [].
Proof. code_cases attr_char; done. Qed.

Lemma attr_char_safe c : forallb (fun x => negb (markup_char x)) (attr_char c) = true.
Proof.
  unfold attr_char, markup_char.
  destruct (N.eqb_spec c 38); [done|]. destruct (N.eqb_spec c 34); [done|].
  destruct (N.eqb_spec c 39); [done|]. destruct (N.eqb_spec c 60); [done|].
  destruct (N.eqb_spec c 62); [done|]. cbn.
  destruct (N.eqb_spec c 34); [done|]. destruct (N.eqb_spec c 39); [done|].
  destruct (N.eqb_spec c 60); [done|]. by destruct (N.eqb_spec c 62).
Qed.

(** X21: [escapeAttr] makes a text fit for an attribute value and for
    element content, whatever quotes the attribute is written with: the
    result holds no double quote, no single quote and no angle bracket.
    It is the text with each of the five characters replaced by its
    entity, an ampersand of the text included, so nothing is lost: two
    texts give the same result only if they are the same text. *)
Theorem escapeAttr_safe (s : JsString.t) :
  escapeAttr s = flat_map attr_char s
  /\ forallb (fun x => negb (markup_char x)) (escapeAttr s) = true
  /\ forall s', escapeAttr s = escapeAttr s' <-> s = s'.
Proof.
  split; [apply escapeAttr_chars|]. split.
  - rewrite escapeAttr_chars. induction s as [|c s IH]; [done|].
    cbn [flat_map]. by rewrite forallb_app, attr_char_safe, IH.
  - intros s'. split; [|by intros ->]. rewrite !escapeAttr_chars.
    apply (flat_map_injective attr_char attr_char_nonempty attr_char_code).
Qed.

End EscapeLaws.

(** ** Agent colours and relative times *)

Module ColourLaws.
Import RB_RENDER Vocabulary.
Local Open Scope Z_scope.

Lemma to_int32_range z : - 2 ^ 31 <= to_int32 z < 2 ^ 31.
Proof.
  unfold to_int32.
  pose proof (Z.mod_pos_bound (z + 2 ^ 31) (2 ^ 32) ltac:(lia)). lia.
Qed.

(** The conversion drops a multiple of 2^32. *)
Lemma to_int32_spec z : exists k, to_int32 z = z + k * 2 ^ 32.
Proof.
  unfold to_int32. exists (- ((z + 2 ^ 31) / 2 ^ 32)).
  rewrite (Z.mod_eq (z + 2 ^ 31) (2 ^ 32)) by lia. lia.
Qed.

Lemma to_int32_add_mul z k : to_int32 (z + k * 2 ^ 32) = to_int32 z.
Proof.
  unfold to_int32. f_equal.
  replace (z + k * 2 ^ 32 + 2 ^ 31) with (z + 2 ^ 31 + k * 2 ^ 32) by lia.
  apply Z_mod_plus_full.
Qed.

(** One turn of the loop is one step of the polynomial. *)
Lemma hash_step_poly h c :
  hash_step (to_int32 h) c = to_int32 (31 * h + Z.of_N c).
Proof.
  unfold hash_step. rewrite Z.shiftl_mul_pow2 by lia.
  destruct (to_int32_spec h) as [k1 E1].
  destruct (to_int32_spec (to_int32 h)) as [k0 E0].
  destruct (to_int32_spec (to_int32 (to_int32 h) * 2 ^ 5)) as [k2 E2].
  rewrite E2, E0, E1.
  replace ((h + k1 * 2 ^ 32 + k0 * 2 ^ 32) * 2 ^ 5 + k2 * 2 ^ 32
           - (h + k1 * 2 ^ 32) + Z.of_N c)
    with (31 * h + Z.of_N c + (31 * k1 + 32 * k0 + k2) * 2 ^ 32) by lia.
  apply to_int32_add_mul.
Qed.

Lemma hash_of_poly_from s : forall h,
  fold_left hash_step s (to_int32 h)
  = to_int32 (fold_left (fun h c => 31 * h + Z.of_N c) s h).
Proof.
  induction s as [|c s IH]; intros h; cbn [fold_left]; [done|].
  by rewrite hash_step_poly, IH.
Qed.

(** X22: the colour of an agent.  The hash [agentColor] computes with
    32-bit shifts is the polynomial of the code units of the identifier
    in powers of 31, reduced to a signed 32-bit integer; the hue made
    of it is a number from 0 to 359, for every identifier, the one
    whose hash is the least 32-bit integer included. *)
Theorem agentColor_hue (agentId : JsString.t) :
  hash_of agentId = to_int32 (poly31 agentId)
  /\ exists hue : nat,
       (hue < 360)%nat
       /\ Z.of_nat hue = Z.abs (to_int32 (poly31 agentId)) mod 360
       /\ agentColor agentId
          = match agentId with
            | [] => str "hsl(0, 0%, 50%)"
            | _ :: _ => str "hsl(" ++ of_nat hue ++ str ", 65%, 55%)"
            end.
Proof.
  assert (H : hash_of agentId = to_int32 (poly31 agentId)).
  { unfold hash_of, poly31. by rewrite <- hash_of_poly_from. }
  split; [exact H|].
  pose proof (Z.mod_pos_bound (Z.abs (to_int32 (poly31 agentId))) 360
                ltac:(lia)) as Hb.
  exists (Z.to_nat (Z.abs (to_int32 (poly31 agentId)) mod 360)).
  split; [lia|]. split; [lia|].
  unfold agentColor. destruct agentId; [done|]. by rewrite H.
Qed.

End ColourLaws.

Module TimeLaws.
Import RB_DISCUSSIONS Vocabulary.
Local Open Scope Z_scope.

(** X23: the relative time of [formatTimestamp] never counts zero of
    anything.  From the age in milliseconds: below one minute (a
    timestamp in the future included) it says "just now"; below one
    hour it counts 1 to 59 whole minutes; below one day 1 to 23 whole
    hours; below thirty days 1 to 29 whole days; from thirty days on,
    and for a timestamp that is no date, it prints the date. *)
Theorem formatTimestamp_ranges (age : Z) (localeDate : JsString.t) :
  let shown := formatTimestamp (Some age) localeDate in
  (age < 60000 -> shown = str "just now")
  /\ (60000 <= age < 3600000 ->
      exists n : nat, (1 <= n <= 59)%nat /\ Z.of_nat n = age / 60000
                      /\ shown = of_nat n ++ str "m ago")
  /\ (3600000 <= age < 86400000 ->
      exists n : nat, (1 <= n <= 23)%nat /\ Z.of_nat n = age / 3600000
                      /\ shown = of_nat n ++ str "h ago")
  /\ (86400000 <= age < 2592000000 ->
      exists n : nat, (1 <= n <= 29)%nat /\ Z.of_nat n = age / 86400000
                      /\ shown = of_nat n ++ str "d ago")
  /\ (2592000000 <= age -> shown = localeDate)
  /\ formatTimestamp None localeDate = localeDate.
Proof.
  cbv zeta. unfold formatTimestamp.
  assert (Hu : forall d n, 0 < d -> age / d < n <-> age < d * n).
  { intros d n Hd. split; intros H.
    - destruct (Z.lt_ge_cases age (d * n)) as [|Hge]; [done|].
      apply (Z.div_le_lower_bound _ _ _ Hd) in Hge. lia.
    - by apply Z.div_lt_upper_bound. }
  repeat split.
  - intros Hage.
    destruct (Z.ltb_spec (age / 60000) 1) as [|Hge]; [done|].
    pose proof (proj2 (Hu 60000 1 ltac:(lia)) ltac:(lia)). lia.
  - intros [Hlo Hhi].
    destruct (Z.ltb_spec (age / 60000) 1) as [Hlt|Hge].
    { apply (Hu 60000 1) in Hlt; lia. }
    destruct (Z.ltb_spec (age / 60000) 60) as [Hlt|Hge'].
    + exists (Z.to_nat (age / 60000)). repeat split; lia.
    + pose proof (proj2 (Hu 60000 60 ltac:(lia)) ltac:(lia)). lia.
  - intros [Hlo Hhi].
    destruct (Z.ltb_spec (age / 60000) 1) as [Hlt|Hge].
    { apply (Hu 60000 1) in Hlt; lia. }
    destruct (Z.ltb_spec (age / 60000) 60) as [Hlt|Hge'].
    { apply (Hu 60000 60) in Hlt; lia. }
    assert (1 <= age / 3600000).
    { apply Z.div_le_lower_bound; lia. }
    destruct (Z.ltb_spec (age / 3600000) 24) as [Hlt|Hge''].
    + exists (Z.to_nat (age / 3600000)). repeat split; lia.
    + pose proof (proj2 (Hu 3600000 24 ltac:(lia)) ltac:(lia)). lia.
  - intros [Hlo Hhi].
    destruct (Z.ltb_spec (age / 60000) 1) as [Hlt|Hge].
    { apply (Hu 60000 1) in Hlt; lia. }
    destruct (Z.ltb_spec (age / 60000) 60) as [Hlt|Hge'].
    { apply (Hu 60000 60) in Hlt; lia. }
    destruct (Z.ltb_spec (age / 3600000) 24) as [Hlt|Hge''].
    { apply (Hu 3600000 24) in Hlt; lia. }
    assert (1 <= age / 86400000).
    { apply Z.div_le_lower_bound; lia. }
    destruct (Z.ltb_spec (age / 86400000) 30) as [Hlt|Hge3].
    + exists (Z.to_nat (age / 86400000)). repeat split; lia.
    + pose proof (proj2 (Hu 86400000 30 ltac:(lia)) ltac:(lia)). lia.
  - intros Hlo.
    destruct (Z.ltb_spec (age / 60000) 1) as [Hlt|Hge].
    { apply (Hu 60000 1) in Hlt; lia. }
    destruct (Z.ltb_spec (age / 60000) 60) as [Hlt|Hge'].
    { apply (Hu 60000 60) in Hlt; lia. }
    destruct (Z.ltb_spec (age / 3600000) 24) as [Hlt|Hge''].
    { apply (Hu 3600000 24) in Hlt; lia. }
    destruct (Z.ltb_spec (age / 86400000) 30) as [Hlt|Hge3]; [|done].
    apply (Hu 86400000 30) in Hlt; lia.
Qed.

(** Two hours less one millisecond are one hour. *)
Lemma formatTimestamp_ranges_witness :
  exists n : nat,
    (1 <= n <= 23)%nat
    /\ formatTimestamp (Some 7199999) (str "1/1/2026")
       = of_nat n ++ str "h ago".
Proof.
  destruct (formatTimestamp_ranges 7199999 (str "1/1/2026"))
    as (_ & _ & H & _).
  destruct (H ltac:(lia)) as (n & Hn & _ & Hs).
  exists n. split; [exact Hn | exact Hs].
Defined.

End TimeLaws.

(** ** The markdown renderer: whole texts *)

Module MarkdownLaws.
Import RB_MARKDOWN Vocabulary RegexFacts EscapeFacts FenceFacts.

Lemma without_final_newline_snoc s c :
  without_final_newline (s ++ [c])
  = if N.eqb c newline then s else s ++ [c].
Proof.
  unfold without_final_newline. rewrite rev_app_distr. cbn.
  destruct (N.eqb c newline); [apply rev_involutive | done].
Qed.

Lemma snoc_cases {A} (s : list A) : s = [] \/ exists r c, s = r ++ [c].
Proof.
  destruct (rev s) as [|c r] eqn:E.
  - left. apply (f_equal (@rev A)) in E. by rewrite rev_involutive in E.
  - right. exists (rev r), c. apply (f_equal (@rev A)) in E.
    by rewrite rev_involutive in E.
Qed.

(** The pattern of the final newline finds nothing in a text that does
    not end with a newline. *)
Lemma search_no_final_newline s : forall prev,
  (forall r, s <> r ++ [newline]) ->
  search false re_trailing_newline prev s = None.
Proof.
  induction s as [|x s IH]; intros prev Hno; [done|].
  rewrite search_skip.
  - rewrite IH; [done|]. intros r ->. by apply (Hno (x :: r)).
  - unfold match_here, re_trailing_newline. rewrite m_Seq, m_Chr_cons.
    destruct (in_cls (CIs newline) x) eqn:Hx; [|done].
    rewrite m_Eol. destruct s as [|y s]; [|done].
    apply N.eqb_eq in Hx. subst x. by destruct (Hno []).
Qed.

Lemma strip_final_newline s :
  replace1 false re_trailing_newline (fun _ => []) s = without_final_newline s.
Proof.
  destruct (snoc_cases s) as [-> | (r & c & ->)]; [done|].
  rewrite without_final_newline_snoc.
  destruct (N.eqb_spec c newline) as [-> | Hc].
  - apply strip_trailing_newline.
  - unfold replace1, exec. rewrite search_no_final_newline; [done|].
    intros r' H. apply app_inj_tail in H as [_ H]. done.
Qed.

Lemma without_final_newline_prefix s :
  exists t, s = without_final_newline s ++ t.
Proof.
  destruct (snoc_cases s) as [-> | (r & c & ->)]; [by exists []|].
  rewrite without_final_newline_snoc.
  destruct (N.eqb c newline); [by exists [c] | exists []; by rewrite app_nil_r].
Qed.

Lemma escape_char_last c :
  exists front d, escape_char c = front ++ [d]
                  /\ (N.eqb d newline = N.eqb c newline)
                  /\ (N.eqb c newline = true -> front = []).
Proof.
  unfold escape_char, amp, lt, gt, dquote, newline.
  destruct (N.eqb_spec c 38) as [->|]; [by exists (str "&amp"), 59%N|].
  destruct (N.eqb_spec c 60) as [->|]; [by exists (str "&lt"), 59%N|].
  destruct (N.eqb_spec c 62) as [->|]; [by exists (str "&gt"), 59%N|].
  destruct (N.eqb_spec c 34) as [->|]; [by exists (str "&quot"), 59%N|].
  by exists [], c.
Qed.

(** Escaping and dropping the final newline, in either order. *)
Lemma escapeHtml_without_final_newline s :
  without_final_newline (escapeHtml s) = escapeHtml (without_final_newline s).
Proof.
  destruct (snoc_cases s) as [-> | (r & c & ->)]; [done|].
  rewrite without_final_newline_snoc, escapeHtml_app.
  destruct (escape_char_last c) as (front & d & Hc & Hd & Hfront).
  assert (He : escapeHtml [c] = front ++ [d]).
  { rewrite escapeHtml_chars. cbn. by rewrite app_nil_r. }
  rewrite He, app_assoc, without_final_newline_snoc, Hd.
  destruct (N.eqb c newline) eqn:E.
  - by rewrite (Hfront eq_refl), app_nil_r.
  - by rewrite escapeHtml_app, He, app_assoc.
Qed.

(** The extraction step on an escaped fenced block, whatever the block
    ends with. *)
Lemma extract_fenced_any lang body :
  forallb is_word lang = true ->
  forallb (fun c => negb (N.eqb c backtick)) body = true ->
  extract_code_blocks (str "```" ++ lang ++ newline :: body ++ str "```")
  = (placeholder 0,
     [str "<pre><code" ++ class_attr lang ++ str ">"
        ++ without_final_newline body ++ str "</code></pre>"]).
Proof.
  intros Hl Hb. unfold extract_code_blocks, replace_all_st.
  cbn [replace_from].
  assert (Hm := match_fence None lang body [] Hl Hb).
  rewrite app_nil_r in Hm.
  rewrite (search_here _ _ _ _ _ Hm).
  unfold fence_callback. cbn [f_caps f_text f_post f_pre f_prev length].
  change (cap_str 1 [(2, body); (1, lang)]) with lang.
  change (cap_str 2 [(2, body); (1, lang)]) with body.
  rewrite strip_final_newline.
  set (n := length _). clearbody n.
  change (str "```" ++ lang ++ newline :: body ++ str "```")
    with (backtick :: str "``" ++ lang ++ newline :: body ++ str "```").
  cbv iota. rewrite replace_from_end; [|done].
  cbn [List.app]. by rewrite app_nil_r.
Qed.

(** X24: a fenced block of plain code, from the opening fence to the
    closing one.  With a language tag of word characters (or none) and
    code that holds neither a backtick nor a dollar sign, the input
    renders as one [pre]/[code] element inside a paragraph: the class
    names the language, and the content is the code, escaped and
    otherwise untouched, without the newline that precedes the closing
    fence, if there is one. *)
Theorem fenced_block_rendering (lang body : JsString.t) :
  forallb is_word lang = true ->
  forallb plain_code_char body = true ->
  render (str "```" ++ lang ++ newline :: body ++ str "```")
  = str "<p><pre><code" ++ class_attr lang ++ str ">"
    ++ escapeHtml (without_final_newline body) ++ str "</code></pre></p>".
Proof.
  intros Hl Hc.
  change (render (str "```" ++ lang ++ newline :: body ++ str "```"))
    with (render_escaped
            (escapeHtml (str "```" ++ lang ++ [newline] ++ body ++ str "```"))).
  rewrite !escapeHtml_app, (escapeHtml_word lang Hl).
  change (escapeHtml (str "```")) with (str "```").
  change (escapeHtml [newline]) with [newline].
  pose proof (escapeHtml_plain body Hc) as He.
  unfold render_escaped.
  change ([newline] ++ escapeHtml body ++ str "```")
    with (newline :: escapeHtml body ++ str "```").
  rewrite (extract_fenced_any lang (escapeHtml body) Hl
             (plain_no_backtick _ He)).
  rewrite placeholder_paragraph, restore_plain.
  - rewrite escapeHtml_without_final_newline, <- !app_assoc. reflexivity.
  - rewrite !forallb_app, (class_attr_plain lang Hl).
    destruct (without_final_newline_prefix (escapeHtml body)) as [t Ht].
    apply plain_no_dollar in He. rewrite Ht, forallb_app in He.
    apply andb_prop in He as [-> _]. done.
Qed.

Lemma fenced_block_rendering_witness :
  render (str "```js
a < b
```")
  = str "<p><pre><code class=" ++ [dquote] ++ str "language-js" ++ [dquote]
    ++ str ">a &lt; b</code></pre></p>".
Proof.
  exact (fenced_block_rendering (str "js") (str "a < b
") eq_refl eq_refl).
Defined.

(** *** Texts without markdown *)

(** A pattern finds nothing in a text none of whose characters it can
    start with. *)
Lemma search_outside p r ml :
  starts_outside p r -> fails_on_empty r ->
  forall s prev, forallb p s = true -> search ml r prev s = None.
Proof.
  intros Hr He. induction s as [|x s IH]; intros prev Hs; cbn [search].
  - unfold match_here. by rewrite He.
  - cbn in Hs. apply andb_prop in Hs as [Hx Hs].
    unfold match_here. rewrite (Hr ml _ prev x s [] _ Hx).
    by rewrite IH.
Qed.

Lemma replace_all_st_none {St} ml r (f : St -> found -> t * St) st s :
  search ml r None s = None -> replace_all_st ml r f st s = (s, st).
Proof. intros H. unfold replace_all_st. cbn [replace_from]. by rewrite H. Qed.

Lemma replace_all_none ml r f s :
  search ml r None s = None -> replace_all ml r f s = s.
Proof. intros H. unfold replace_all. by rewrite replace_all_st_none. Qed.

Lemma replace_all_tpl_none ml r tpl s :
  search ml r None s = None -> replace_all_tpl ml r tpl s = s.
Proof. intros H. unfold replace_all_tpl. by apply replace_all_none. Qed.

Lemma starts_outside_Bol p r :
  starts_outside p r -> starts_outside p (Seq Bol r).
Proof.
  intros H ml R prev x inp cs k Hx. rewrite m_Seq, m_Bol.
  destruct (at_bol ml prev); [|done]. by apply H.
Qed.

Lemma starts_outside_NotBehind p c r :
  starts_outside p r -> starts_outside p (Seq (NotBehind c) r).
Proof.
  intros H ml R prev x inp cs k Hx. rewrite m_Seq. cbn [m].
  destruct prev as [y|]; [destruct (in_cls c y); [done|]|]; by apply H.
Qed.

Lemma starts_outside_Grp p i r :
  starts_outside p r -> starts_outside p (Grp i r).
Proof. intros H ml R prev x inp cs k Hx. rewrite m_Grp. by apply H. Qed.

Lemma fails_on_empty_Chr c r : fails_on_empty (Seq (Chr c) r).
Proof. intros ml R prev cs k. by rewrite m_Seq, m_Chr_nil. Qed.

Lemma fails_on_empty_Seq a b : fails_on_empty a -> fails_on_empty (Seq a b).
Proof. intros H ml R prev cs k. rewrite m_Seq. apply H. Qed.

Lemma fails_on_empty_Lit c s : fails_on_empty (Lit (c :: s)).
Proof. apply fails_on_empty_Chr. Qed.

Lemma fails_on_empty_Bol r : fails_on_empty r -> fails_on_empty (Seq Bol r).
Proof.
  intros H ml R prev cs k. rewrite m_Seq, m_Bol.
  destruct (at_bol ml prev); [apply H | done].
Qed.

Lemma fails_on_empty_NotBehind c r :
  fails_on_empty r -> fails_on_empty (Seq (NotBehind c) r).
Proof.
  intros H ml R prev cs k. rewrite m_Seq. cbn [m].
  destruct prev as [y|]; [destruct (in_cls c y); [done|]|]; apply H.
Qed.

Lemma fails_on_empty_Grp i r : fails_on_empty r -> fails_on_empty (Grp i r).
Proof. intros H ml R prev cs k. rewrite m_Grp. apply H. Qed.

(** What an inert character is not. *)
Lemma inert_char_spec x :
  inert_char x = true ->
  N.eqb x 96 = false /\ N.eqb x 35 = false /\ N.eqb x 42 = false
  /\ N.eqb x 91 = false /\ N.eqb x 45 = false /\ N.eqb x 60 = false.
Proof.
  unfold inert_char, plain_text_char, lt. cbn [existsb].
  destruct (N.eqb x 96), (N.eqb x 35), (N.eqb x 42), (N.eqb x 91),
    (N.eqb x 45), (N.eqb x 60); done.
Qed.

Ltac inert x H :=
  destruct (inert_char_spec x H) as (? & ? & ? & ? & ? & ?).

Lemma outside_fence : starts_outside inert_char re_fence /\ fails_on_empty re_fence.
Proof.
  split.
  - apply starts_outside_Seq, (starts_outside_Lit _ 96 (str "``")).
    intros x H. by inert x H.
  - apply fails_on_empty_Seq, (fails_on_empty_Lit 96 (str "``")).
Qed.

Lemma outside_inline_code :
  starts_outside inert_char re_inline_code /\ fails_on_empty re_inline_code.
Proof.
  split.
  - apply starts_outside_Seq, starts_outside_Chr.
    intros x H. by inert x H.
  - apply fails_on_empty_Chr.
Qed.

Lemma outside_header marks :
  starts_outside inert_char (re_header (35%N :: marks))
  /\ fails_on_empty (re_header (35%N :: marks)).
Proof.
  split.
  - apply starts_outside_Bol, starts_outside_Seq,
      (starts_outside_Lit _ 35 marks).
    intros x H. by inert x H.
  - apply fails_on_empty_Bol, fails_on_empty_Seq,
      (fails_on_empty_Lit 35 marks).
Qed.

Lemma outside_bold : starts_outside inert_char re_bold /\ fails_on_empty re_bold.
Proof.
  split.
  - apply starts_outside_Seq, (starts_outside_Lit _ 42 (str "*")).
    intros x H. by inert x H.
  - apply fails_on_empty_Seq, (fails_on_empty_Lit 42 (str "*")).
Qed.

Lemma outside_italic :
  starts_outside inert_char re_italic /\ fails_on_empty re_italic.
Proof.
  split.
  - apply starts_outside_NotBehind, starts_outside_Seq, starts_outside_Chr.
    intros x H. by inert x H.
  - apply fails_on_empty_NotBehind, fails_on_empty_Chr.
Qed.

Lemma outside_link : starts_outside inert_char re_link /\ fails_on_empty re_link.
Proof.
  split.
  - apply starts_outside_Seq, starts_outside_Chr.
    intros x H. by inert x H.
  - apply fails_on_empty_Chr.
Qed.

Lemma outside_list : starts_outside inert_char re_list /\ fails_on_empty re_list.
Proof.
  split.
  - apply starts_outside_Grp, starts_outside_Bol, starts_outside_Seq,
      (starts_outside_Lit _ 45 (str " ")).
    intros x H. by inert x H.
  - apply fails_on_empty_Grp, fails_on_empty_Bol, fails_on_empty_Seq,
      (fails_on_empty_Lit 45 (str " ")).
Qed.

Lemma replace_all_inert ml r f s :
  starts_outside inert_char r /\ fails_on_empty r ->
  forallb inert_char s = true -> replace_all ml r f s = s.
Proof.
  intros [Hr He] Hs. apply replace_all_none.
  by apply (search_outside inert_char).
Qed.

Lemma replace_all_tpl_inert ml r tpl s :
  starts_outside inert_char r /\ fails_on_empty r ->
  forallb inert_char s = true -> replace_all_tpl ml r tpl s = s.
Proof. intros. by apply replace_all_inert. Qed.

(** The transforms before the paragraphs leave inert text alone. *)
Lemma inline_transforms_inert html :
  forallb inert_char html = true ->
  extract_code_blocks html = (html, [])
  /\ lists (links (italic (bold (headers (inline_code html))))) = html.
Proof.
  intros H. split.
  - apply replace_all_st_none.
    by apply (search_outside inert_char); [apply outside_fence..|].
  - unfold inline_code.
    rewrite (replace_all_inert _ _ _ _ outside_inline_code H).
    unfold headers.
    rewrite (replace_all_tpl_inert _ _ _ _ (outside_header (str "## ")) H).
    rewrite (replace_all_tpl_inert _ _ _ _ (outside_header (str "# ")) H).
    rewrite (replace_all_tpl_inert _ _ _ _ (outside_header (str " ")) H).
    unfold bold. rewrite (replace_all_tpl_inert _ _ _ _ outside_bold H).
    unfold italic. rewrite (replace_all_tpl_inert _ _ _ _ outside_italic H).
    unfold links. rewrite (replace_all_tpl_inert _ _ _ _ outside_link H).
    unfold lists. by rewrite (replace_all_inert _ _ _ _ outside_list H).
Qed.

(** The separator of paragraphs needs two newlines. *)
Lemma match_blank_lines_none prev inp :
  is_prefix [newline; newline] inp = false ->
  match_here false re_blank_lines prev inp = None.
Proof.
  intros H. unfold match_here, re_blank_lines, Plus.
  rewrite m_Seq. destruct inp as [|x inp]; [done|]. rewrite m_Chr_cons.
  cbn [in_cls]. cbn [is_prefix] in H. rewrite N.eqb_sym in H.
  destruct (N.eqb x newline); [|done]. cbn [andb] in H.
  rewrite m_Seq. destruct inp as [|y inp]; [done|]. rewrite m_Chr_cons.
  cbn [in_cls]. rewrite N.eqb_sym in H. rewrite andb_true_r in H.
  by rewrite H.
Qed.

(** A text without a blank line is one block. *)
Lemma split_from_one_block : forall inp fuel prev piece,
  length inp < fuel -> no_blank_line inp = true ->
  split_from fuel false re_blank_lines prev piece inp = [piece ++ inp].
Proof.
  induction inp as [|c inp IH]; intros fuel prev piece Hf Hp;
    (destruct fuel as [|fuel]; [cbn in Hf; lia|]); cbn [split_from].
  - by rewrite app_nil_r.
  - cbn in Hf. cbn [no_blank_line] in Hp. apply andb_prop in Hp as [Hc Hp].
    apply negb_true_iff in Hc. rewrite (match_blank_lines_none _ _ Hc).
    rewrite IH by (done || lia). by rewrite <- app_assoc.
Qed.

Lemma split_one_block s :
  no_blank_line s = true -> split false re_blank_lines s = [s].
Proof.
  intros Hp. unfold split. destruct s as [|c s]; [done|].
  by rewrite split_from_one_block by (done || cbn; lia).
Qed.

Lemma forallb_drop_while (p q : N -> bool) s :
  forallb p s = true -> forallb p (drop_while q s) = true.
Proof.
  induction s as [|c s IH]; [done|]. cbn. intros H.
  destruct (q c); [|done]. apply andb_prop in H as [_ H]. by apply IH.
Qed.

Lemma forallb_rev (p : N -> bool) s : forallb p (rev s) = forallb p s.
Proof.
  induction s as [|c s IH]; [done|]. cbn.
  rewrite forallb_app, IH. cbn. rewrite andb_true_r. apply andb_comm.
Qed.

Lemma forallb_trim p s : forallb p s = true -> forallb p (trim s) = true.
Proof.
  intros H. unfold trim. rewrite forallb_rev.
  apply forallb_drop_while. rewrite forallb_rev.
  by apply forallb_drop_while.
Qed.

Lemma outside_block_level :
  starts_outside inert_char re_block_level /\ fails_on_empty re_block_level.
Proof.
  split.
  - apply starts_outside_Bol, starts_outside_Seq, starts_outside_Chr.
    intros x H. by inert x H.
  - apply fails_on_empty_Bol, fails_on_empty_Chr.
Qed.

(** The paragraph step on inert text: one block, trimmed, and wrapped
    unless nothing is left of it. *)
Lemma paragraphs_inert html :
  forallb inert_char html = true ->
  no_blank_line html = true ->
  paragraphs html
  = match trim html with
    | [] => []
    | _ :: _ => str "<p>" ++ trim html ++ str "</p>"
    end.
Proof.
  intros H Hb. unfold paragraphs. rewrite (split_one_block _ Hb).
  cbn [List.map join]. unfold wrap_block.
  destruct (trim html) as [|c t] eqn:Ht; [done|].
  unfold test, exec. destruct outside_block_level as [Hr' He'].
  rewrite (search_outside inert_char _ false Hr' He'); [done|].
  rewrite <- Ht. by apply forallb_trim.
Qed.

(** The paragraph pattern on a paragraph of inert text. *)
Lemma match_paragraph prev content post :
  forallb inert_char content = true ->
  match_here false re_paragraph prev
    (str "<p>" ++ content ++ str "</p>" ++ post)
  = Some (Found [] (str "<p>" ++ content ++ str "</p>") post
            [(1, content)] (Some gt)).
Proof.
  intros Hc. unfold match_here, re_paragraph. cbn [seqs].
  rewrite m_Seq, m_Lit_prefix, m_Seq, m_Grp, m_Star.
  rewrite (star_lazy_skip false (R := found) CAny _
             (fun c => negb (N.eqb c lt))); [| |done| |].
  2:{ intros p a y i c Hy. rewrite m_Lit.
      cbn [is_prefix str List.map list_ascii_of_string].
      change (N_of_ascii "<") with lt.
      rewrite N.eqb_sym. by destruct (N.eqb y lt). }
  2:{ clear -Hc. induction content as [|x content IH]; [done|].
      cbn in *. apply andb_prop in Hc as [Hx Hc]. rewrite (IH Hc).
      inert x Hx. unfold lt. by destruct (N.eqb x 60). }
  2:{ clear. induction content; cbn; done. }
  rewrite (star_lazy_here _ _ _ _ _ _ _
             (Found [] (str "<p>" ++ content ++ str "</p>") post
                [(1, content)] (Some gt))); [done|].
  rewrite m_Lit_prefix. cbn [List.app]. repeat f_equal.
Qed.

Lemma line_breaks_inert content :
  forallb inert_char content = true ->
  line_breaks (str "<p>" ++ content ++ str "</p>")
  = str "<p>" ++ with_line_breaks content ++ str "</p>".
Proof.
  intros Hc. unfold line_breaks, replace_all, replace_all_st.
  cbn [replace_from].
  assert (Hm := match_paragraph None content [] Hc).
  rewrite app_nil_r in Hm. rewrite (search_here _ _ _ _ _ Hm).
  cbn [f_caps f_text f_post f_pre f_prev].
  change (cap_str 1 [(1, content)]) with content.
  rewrite replace_all_tpl_chr by reflexivity.
  fold (with_line_breaks content).
  set (n := length _). clearbody n.
  change (str "<p>" ++ content ++ str "</p>")
    with (lt :: str "p>" ++ content ++ str "</p>") at 1.
  cbv iota. rewrite replace_from_end; [|done].
  cbn [fst List.app]. by rewrite app_nil_r.
Qed.

(** Escaping and trimming, in either order: white space is not
    escaped, and no entity starts or ends with white space. *)
Lemma drop_while_flat_map (f : N -> JsString.t) s :
  (forall c, is_space c = true -> f c = [c]) ->
  (forall c, is_space c = false ->
             exists y l, f c = y :: l /\ is_space y = false) ->
  drop_while is_space (flat_map f s) = flat_map f (drop_while is_space s).
Proof.
  intros Hsp Hns. induction s as [|c s IH]; [done|]. cbn [flat_map drop_while].
  destruct (is_space c) eqn:Hc.
  - rewrite (Hsp c Hc). cbn [List.app drop_while]. by rewrite Hc.
  - destruct (Hns c Hc) as (y & l & E & Hy). cbn [flat_map]. rewrite E.
    cbn [List.app drop_while]. by rewrite Hy.
Qed.

Lemma rev_flat_map (f : N -> JsString.t) s :
  rev (flat_map f s) = flat_map (fun c => rev (f c)) (rev s).
Proof.
  induction s as [|c s IH]; [done|]. cbn.
  by rewrite rev_app_distr, IH, flat_map_app; cbn; rewrite app_nil_r.
Qed.

Lemma escape_char_space c : is_space c = true -> escape_char c = [c].
Proof.
  intros H. unfold escape_char, amp, lt, gt, dquote.
  destruct (N.eqb_spec c 38) as [->|]; [done|].
  destruct (N.eqb_spec c 60) as [->|]; [done|].
  destruct (N.eqb_spec c 62) as [->|]; [done|].
  destruct (N.eqb_spec c 34) as [->|]; done.
Qed.

Lemma escape_char_ends c :
  is_space c = false ->
  (exists y l, escape_char c = y :: l /\ is_space y = false)
  /\ (exists y l, rev (escape_char c) = y :: l /\ is_space y = false).
Proof.
  intros H. unfold escape_char, amp, lt, gt, dquote.
  destruct (N.eqb c 38); [split; by eexists _, _|].
  destruct (N.eqb c 60); [split; by eexists _, _|].
  destruct (N.eqb c 62); [split; by eexists _, _|].
  destruct (N.eqb c 34); [split; by eexists _, _|].
  split; by exists c, [].
Qed.

Lemma trim_escapeHtml s : trim (escapeHtml s) = escapeHtml (trim s).
Proof.
  rewrite !escapeHtml_chars. unfold trim.
  rewrite (drop_while_flat_map escape_char).
  2:{ apply escape_char_space. }
  2:{ intros c Hc. apply (escape_char_ends c Hc). }
  rewrite rev_flat_map.
  rewrite (drop_while_flat_map (fun c => rev (escape_char c))).
  2:{ intros c Hc. by rewrite (escape_char_space c Hc). }
  2:{ intros c Hc. apply (escape_char_ends c Hc). }
  rewrite rev_flat_map. apply flat_map_ext. intros c. apply rev_involutive.
Qed.

(** Escaped plain text is inert. *)
Lemma escape_char_inert c :
  plain_text_char c = true -> forallb inert_char (escape_char c) = true.
Proof.
  intros H. unfold escape_char, amp, lt, gt, dquote.
  destruct (N.eqb_spec c 38); [done|]. destruct (N.eqb_spec c 60); [done|].
  destruct (N.eqb_spec c 62); [done|]. destruct (N.eqb_spec c 34); [done|].
  cbn. unfold inert_char. rewrite H. unfold lt.
  by destruct (N.eqb_spec c 60).
Qed.

Lemma escapeHtml_inert s :
  forallb plain_text_char s = true -> forallb inert_char (escapeHtml s) = true.
Proof.
  rewrite escapeHtml_chars. induction s as [|c s IH]; [done|].
  cbn [forallb flat_map]. intros H. apply andb_prop in H as [Hc H].
  by rewrite forallb_app, (escape_char_inert c Hc), IH.
Qed.

(** Escaping brings in no newline, so it brings in no blank line. *)
Lemma escape_first_newline s :
  is_prefix [newline] (escapeHtml s) = is_prefix [newline] s.
Proof.
  destruct s as [|c s]; [done|]. rewrite escapeHtml_chars. cbn [flat_map].
  unfold escape_char, amp, lt, gt, dquote.
  destruct (N.eqb_spec c 38) as [->|]; [done|].
  destruct (N.eqb_spec c 60) as [->|]; [done|].
  destruct (N.eqb_spec c 62) as [->|]; [done|].
  destruct (N.eqb_spec c 34) as [->|]; done.
Qed.

Lemma no_blank_line_app e rest :
  forallb (fun c => negb (N.eqb c newline)) e = true ->
  no_blank_line rest = true -> no_blank_line (e ++ rest) = true.
Proof.
  intros He Hr. induction e as [|x e IH]; [done|].
  cbn in He. apply andb_prop in He as [Hx He].
  cbn [List.app no_blank_line is_prefix]. rewrite (IH He), andb_true_r.
  rewrite N.eqb_sym. by destruct (N.eqb x newline).
Qed.

Lemma no_blank_line_escapeHtml s :
  no_blank_line s = true -> no_blank_line (escapeHtml s) = true.
Proof.
  induction s as [|c s IH]; [done|]. cbn [no_blank_line]. intros H.
  apply andb_prop in H as [Hc Hs]. specialize (IH Hs).
  change (c :: s) with ([c] ++ s). rewrite escapeHtml_app.
  destruct (N.eqb_spec c newline) as [->|Hne].
  - change (escapeHtml [newline]) with [newline].
    cbn [List.app no_blank_line]. rewrite IH, andb_true_r.
    cbn [is_prefix] in *. rewrite N.eqb_refl in *. cbn [andb] in *.
    pose proof (escape_first_newline s) as E. cbn [is_prefix] in E.
    destruct (escapeHtml s) as [|y l], s as [|x s']; try done;
      by rewrite E.
  - apply no_blank_line_app; [|done].
    rewrite escapeHtml_chars. cbn [flat_map]. rewrite app_nil_r.
    unfold escape_char, amp, lt, gt, dquote.
    destruct (N.eqb c 38); [done|]. destruct (N.eqb c 60); [done|].
    destruct (N.eqb c 62); [done|]. destruct (N.eqb c 34); [done|].
    cbn. by destruct (N.eqb_spec c newline).
Qed.

(** X25: a text without markdown is one paragraph.  A text that holds
    no backtick, hash sign, star, opening bracket or hyphen, and no
    blank line, renders as a single paragraph: the text without the
    white space around it, escaped, each newline turned into a line
    break.  A text that is white space only renders as nothing. *)
Theorem plain_text_paragraph (text : JsString.t) :
  forallb plain_text_char text = true ->
  no_blank_line text = true ->
  render text
  = match trim text with
    | [] => []
    | _ :: _ =>
        str "<p>" ++ with_line_breaks (escapeHtml (trim text)) ++ str "</p>"
    end.
Proof.
  intros Hp Hb. destruct text as [|c0 text0]; [done|].
  unfold render. generalize dependent (c0 :: text0). clear. intros text Hp Hb.
  pose proof (escapeHtml_inert text Hp) as Hi.
  unfold render_escaped, inline_and_blocks.
  destruct (inline_transforms_inert _ Hi) as [-> ->].
  rewrite (paragraphs_inert _ Hi (no_blank_line_escapeHtml _ Hb)).
  rewrite trim_escapeHtml.
  unfold restore_code_blocks. cbn [restore_from].
  assert (Ht : forallb inert_char (escapeHtml (trim text)) = true).
  { rewrite <- trim_escapeHtml. by apply forallb_trim. }
  destruct (trim text) as [|c t] eqn:E; [done|].
  destruct (escapeHtml (c :: t)) as [|y l] eqn:Ey.
  - rewrite escapeHtml_chars in Ey. cbn in Ey.
    apply app_eq_nil in Ey as [Ey _].
    by destruct (EscapeLaws.escape_char_nonempty c).
  - rewrite <- Ey in *. by apply line_breaks_inert.
Qed.

Lemma plain_text_paragraph_witness :
  render (str "  Tom & Jerry
fight ") = str "<p>Tom &amp; Jerry<br>fight</p>".
Proof.
  exact (plain_text_paragraph (str "  Tom & Jerry
fight ") eq_refl eq_refl).
Defined.

End MarkdownLaws.

(** ** Post types *)

Module PostTypeLaws.
Import RB_RENDER Vocabulary RegexFacts BylineFacts.

Section Engine.
Variable ml : bool.
Context {R : Type}.
Implicit Types (k : cont (R := R)) (prev : option N) (cs : captures).

(** A character under the [i] flag. *)
Lemma m_fold_case c prev x inp cs k :
  m ml (fold_case c) prev (x :: inp) cs k
  = if ci_eq c x then k (Some x) [x] inp cs else None.
Proof.
  unfold fold_case, ci_eq.
  destruct (N.leb_spec 65 c), (N.leb_spec c 90); cbn [andb orb];
    try (destruct (N.leb_spec 97 c), (N.leb_spec c 122); cbn [andb orb]);
    try lia;
    rewrite ?m_Alt, ?m_Chr_cons; cbn [in_cls]; rewrite ?orb_false_r;
    try reflexivity.
  - destruct (N.eqb_spec x c) as [->|Hne]; cbn [orb].
    + destruct (N.eqb_spec c (c + 32)); [lia|]. by destruct (k _ _ _ _).
    + reflexivity.
  - destruct (N.eqb_spec x (c - 32)) as [->|Hne].
    + destruct (N.eqb_spec (c - 32) c); [lia|]. cbn [orb].
      by destruct (k _ _ _ _).
    + by rewrite orb_false_r.
Qed.

Lemma m_fold_case_nil c prev cs k : m ml (fold_case c) prev [] cs k = None.
Proof.
  unfold fold_case.
  destruct (N.leb 65 c && N.leb c 90); [done|].
  by destruct (N.leb 97 c && N.leb c 122).
Qed.

(** A literal under the [i] flag reads as many characters as it has,
    letter case apart. *)
Lemma m_LitI s : forall prev inp cs k,
  m ml (LitI s) prev inp cs k
  = if ci_prefix s inp
    then k (last_of prev (firstn (length s) inp)) (firstn (length s) inp)
           (skipn (length s) inp) cs
    else None.
Proof.
  induction s as [|c s IH]; intros prev inp cs k; [done|].
  cbn [LitI]. rewrite m_Seq. destruct inp as [|x inp].
  - by rewrite m_fold_case_nil.
  - rewrite m_fold_case. cbn [ci_prefix]. destruct (ci_eq c x); [|done].
    rewrite IH. cbn [andb length firstn skipn]. by destruct (ci_prefix s inp).
Qed.
End Engine.

(** A tag that is not at the start of the title. *)
Lemma tag_miss s r title :
  ci_prefix s title = false ->
  exec false (Seq Bol (Seq (LitI s) r)) title = None.
Proof.
  intros H. rewrite exec_anchored. unfold match_here.
  by rewrite m_Seq, m_Bol, m_Seq, m_LitI, H.
Qed.

(** A tag in brackets at the start of the title: the tag and the white
    space after it are matched. *)
Lemma tag_hit name title :
  let n := length (91%N :: name ++ [93%N]) in
  ci_prefix (91%N :: name ++ [93%N]) title = true ->
  exists p,
    exec false (bracket_tag name) title
    = Some (Found [] (firstn n title ++ take_while is_space (skipn n title))
              (drop_while is_space (skipn n title)) [] p).
Proof.
  intros n H. unfold bracket_tag. cbn [seqs]. rewrite exec_anchored.
  unfold match_here. rewrite m_Seq, m_Bol. cbn [at_bol].
  rewrite m_Seq, m_LitI, H, m_Star. fold n.
  eexists. apply star_greedy_longest; [done|]. reflexivity.
Qed.

Lemma detect_in_miss tag tags title :
  exec false (tag_pattern tag) title = None ->
  detect_in (tag :: tags) title = detect_in tags title.
Proof. intros H. cbn [detect_in]. by rewrite H. Qed.

Lemma outside_bracket s r :
  starts_outside (fun c => negb (tag_start c))
    (Seq Bol (Seq (LitI (91%N :: s)) r)).
Proof.
  apply MarkdownLaws.starts_outside_Bol, starts_outside_Seq.
  cbn [LitI]. change (fold_case 91) with (Chr (CIs 91)).
  apply starts_outside_Seq, starts_outside_Chr.
  intros x. unfold tag_start. cbn [in_cls]. by destruct (N.eqb x 91).
Qed.

Lemma outside_place r :
  starts_outside (fun c => negb (tag_start c))
    (Seq Bol (Seq (Lit (str "p/")) r)).
Proof.
  apply MarkdownLaws.starts_outside_Bol, starts_outside_Seq,
    (starts_outside_Lit _ 112 (str "/")).
  intros x. unfold tag_start. destruct (N.eqb x 112); [|done].
  by rewrite orb_true_r.
Qed.

(** The entries of [tagMap]: anchored at the start, starting with a
    bracket or the letter p, and none of the default type. *)
Lemma tagMap_shape :
  Forall (fun tag =>
            (exists r, tag_pattern tag = Seq Bol r)
            /\ starts_outside (fun c => negb (tag_start c)) (tag_pattern tag)
            /\ tag_type tag <> str "default")
         tagMap.
Proof.
  unfold tagMap.
  repeat (apply List.Forall_cons;
          [split; [by eexists
                  | split; [first [apply outside_bracket | apply outside_place]
                           | discriminate]]|]).
  apply List.Forall_nil.
Qed.

(** X26: what [detectPostType] can return, whatever the title.  It
    only ever takes a tag off the front: the clean title is what is
    left of the title after a prefix, and it is the title itself when
    the type is the default one.  A post has a label exactly when its
    type is not the default one.  A cipher key comes with the
    private-space type and with no other, and it lies between 1 and
    94.  A title that starts with neither an opening bracket nor the
    letter p is of the default type. *)
Theorem detectPostType_shape (title : JsString.t) :
  let r := detectPostType title in
  (exists removed, title = removed ++ pt_cleanTitle r)
  /\ (pt_type r = str "default" ->
      pt_cleanTitle r = title /\ pt_label r = Js.VNull)
  /\ (pt_type r <> str "default" -> exists l, pt_label r = Js.VStr l)
  /\ match pt_shiftKey r with
     | Js.VNum k => (1 <= k <= 94)%Z /\ pt_type r = str "private-space"
     | Js.VNull => pt_type r <> str "private-space"
     | Js.VUndefined => title = []
     | _ => False
     end
  /\ (forall c rest, title = c :: rest -> tag_start c = false ->
                     pt_type r = str "default").
Proof.
  cbv zeta. unfold detectPostType.
  destruct title as [|c0 title0].
  { repeat split; try done. by exists []. }
  generalize (c0 :: title0). clear. intros title.
  induction tagMap_shape as [|tag tags (Hanchor & Hout & Htype) _ IH].
  { cbn. repeat split; try done. by exists []. }
  cbn [detect_in].
  destruct (exec false (tag_pattern tag) title) as [x|] eqn:Hx; [|exact IH].
  cbn [pt_type pt_cleanTitle pt_label pt_shiftKey].
  split; [|split; [done|split; [by eexists|split]]].
  - destruct Hanchor as [r ->]. apply replace1_anchored_suffix.
  - unfold JsString.eqb.
    destruct (bool_decide_reflect (tag_type tag = str "private-space"));
      [|done].
    split; [lia | done].
  - intros c rest -> Hc. destruct Hanchor as [r Hr].
    rewrite Hr, exec_anchored, <- Hr in Hx. unfold match_here in Hx.
    rewrite Hout in Hx; [done | by rewrite Hc].
Qed.

(** A title that starts with a letter other than p has no tag. *)
Lemma detectPostType_shape_witness :
  pt_type (detectPostType (str "Hello [DEBATE]")) = str "default".
Proof.
  destruct (detectPostType_shape (str "Hello [DEBATE]")) as (_ & _ & _ & _ & H).
  exact (H _ _ eq_refl eq_refl).
Defined.

(** A tag in brackets that is not of the private-space type, at the
    start of the title. *)
Lemma detect_in_bracket name type label tags title :
  ci_prefix (91%N :: name ++ [93%N]) title = true ->
  JsString.eqb type (str "private-space") = false ->
  detect_in (Tag (bracket_tag name) type label :: tags) title
  = PostType type
      (drop_while is_space (skipn (length (91%N :: name ++ [93%N])) title))
      (Js.VStr label) Js.VNull.
Proof.
  intros Hp Ht. destruct (tag_hit name title Hp) as [p Hx].
  cbn [detect_in tag_pattern tag_type tag_label].
  unfold replace1. rewrite Hx, Ht. cbn [f_pre f_post List.app].
  reflexivity.
Qed.

Ltac skip_tags :=
  repeat (rewrite detect_in_miss by (apply tag_miss; reflexivity)).

(** X27: a post made with the compose form is read back as it was
    made.  The form puts the chosen type in front of the trimmed title
    ([typePrefix + titleRaw]); for each of the six types it offers and
    every title that is not empty and starts with no white space,
    [detectPostType] finds the type, its label, no cipher key, and the
    title as it was typed. *)
Theorem composed_titles_read_back (raw : JsString.t) :
  raw <> [] -> drop_while is_space raw = raw ->
  let made type label :=
    PostType (str type) raw (Js.VStr (str label)) Js.VNull in
  List.map (fun prefix => detectPostType (prefix ++ raw)) composePrefixes
  = [made "space" "SPACE"; made "debate" "DEBATE";
     made "prediction" "PREDICTION"; made "proposal" "PROPOSAL";
     made "summon" "SUMMON"; made "cipher" "CIPHER"]%string.
Proof.
  intros Hne Hraw made. subst made. unfold composePrefixes.
  cbn [List.map]. unfold detectPostType.
  repeat match goal with
         | |- context [str ?p ++ raw] =>
             let x := eval cbv in (str p) in
             change (str p ++ raw) with (x ++ raw)
         end.
  cbn [List.app]. unfold tagMap.
  repeat f_equal; skip_tags;
    (rewrite detect_in_bracket by reflexivity);
    cbn [length List.app skipn drop_while str List.map list_ascii_of_string];
    change (is_space 32) with true; cbv iota; by rewrite Hraw.
Qed.

Lemma composed_titles_read_back_witness :
  detectPostType (str "[DEBATE] Tabs or spaces?")
  = PostType (str "debate") (str "Tabs or spaces?") (Js.VStr (str "DEBATE"))
      Js.VNull.
Proof.
  assert (Hne : str "Tabs or spaces?" <> []) by done.
  exact (f_equal (fun l => nth 1 l (PostType [] [] Js.VNull Js.VNull))
           (composed_titles_read_back (str "Tabs or spaces?") Hne eq_refl)).
Defined.

Lemma ci_prefix_app s : forall text rest,
  length text = length s -> ci_prefix s text = true ->
  ci_prefix s (text ++ rest) = true
  /\ firstn (length s) (text ++ rest) = text
  /\ skipn (length s) (text ++ rest) = rest.
Proof.
  induction s as [|c s IH]; intros [|x text] rest Hl H; try done.
  cbn in Hl, H. apply andb_prop in H as [Hx H].
  destruct (IH text rest ltac:(lia) H) as (H1 & H2 & H3).
  cbn. by rewrite Hx, H1, H2, H3.
Qed.

Lemma take_while_none p s : drop_while p s = s -> take_while p s = [].
Proof.
  intros H. pose proof (take_drop_while p s) as E. rewrite H in E.
  apply (f_equal length) in E. rewrite length_app in E.
  destruct (take_while p s); [done | cbn in E; lia].
Qed.

(** The tag of a private space with its key, in any letter case. *)
Lemma exec_private_key tagtext ds rest :
  length tagtext = 15 ->
  ci_prefix (str "[SPACE:PRIVATE:") tagtext = true ->
  ds <> [] -> forallb (in_cls (CRange 48 57)) ds = true ->
  exists text p,
    exec false (seqs [Bol; LitI (str "[SPACE:PRIVATE:");
                      Grp 1 (Plus true (Chr (CRange 48 57))); Chr (CIs 93);
                      Star true (Chr CSpace)])
      (tagtext ++ ds ++ 93%N :: rest)
    = Some (Found [] text (drop_while is_space rest) [(1, ds)] p).
Proof.
  intros Hl Hp Hne Hds.
  destruct (ci_prefix_app (str "[SPACE:PRIVATE:") tagtext
              (ds ++ 93%N :: rest) Hl Hp) as (H1 & H2 & H3).
  cbn [seqs]. rewrite exec_anchored. unfold match_here.
  rewrite m_Seq, m_Bol. cbn [at_bol]. rewrite m_Seq, m_LitI, H1, H2, H3.
  rewrite m_Seq, m_Grp, m_plus_rejects.
  2:{ intros p a y i c Hy. rewrite m_Seq, m_Chr_cons. cbn [in_cls] in *.
      destruct (N.eqb_spec y 93) as [->|]; [done | done]. }
  destruct ds as [|d ds]; [done|]. cbn [forallb] in Hds.
  apply andb_prop in Hds as [Hd Hds]. rewrite <- app_comm_cons, Hd.
  destruct (take_while_app (in_cls (CRange 48 57)) ds (93%N :: rest)
              Hds eq_refl) as [-> ->].
  rewrite m_Seq, m_Chr_cons. change (in_cls (CIs 93) 93) with true.
  cbv iota. rewrite m_Star.
  eexists _, _. apply star_greedy_longest; [done|]. reflexivity.
Qed.

(** X28: the key of a private space.  Every title that starts with
    the tag [SPACE:PRIVATE:] in any letter case, a run of digits and a
    closing bracket is a private space whose cipher key is the number
    written, brought into the range 1 to 94: a key of 0 counts as 1, a
    key above 94 as 94.  The clean title is what follows the bracket,
    without the white space it starts with. *)
Theorem private_space_key (tagtext ds rest : JsString.t) :
  length tagtext = 15 ->
  ci_prefix (str "[SPACE:PRIVATE:") tagtext = true ->
  ds <> [] -> forallb (in_cls (CRange 48 57)) ds = true ->
  detectPostType (tagtext ++ ds ++ str "]" ++ rest)
  = PostType (str "private-space") (drop_while is_space rest)
      (Js.VStr (str "PRIVATE SPACE"))
      (Js.VNum (Z.max 1 (Z.min 94 (parse_digits ds)))).
Proof.
  intros Hl Hp Hne Hds.
  destruct (exec_private_key tagtext ds rest Hl Hp Hne Hds)
    as (text & p & Hx).
  unfold detectPostType.
  destruct tagtext as [|c tagtext]; [done|].
  rewrite <- app_comm_cons. cbv iota. rewrite app_comm_cons. unfold tagMap.
  cbn [detect_in tag_pattern tag_type tag_label]. unfold replace1.
  change (str "]" ++ rest) with (93%N :: rest).
  rewrite Hx. cbn [f_caps f_pre f_post cap Nat.eqb List.app].
  change (JsString.eqb (str "private-space") (str "private-space")) with true.
  cbv iota. by destruct ds.
Qed.

(** A key above the range, in mixed case; and a key of 0 with nothing
    between the bracket and the title. *)
Lemma private_space_key_witness :
  detectPostType (str "[Space:Private:200] Vault")
  = PostType (str "private-space") (str "Vault")
      (Js.VStr (str "PRIVATE SPACE")) (Js.VNum 94)
  /\ detectPostType (str "[SPACE:PRIVATE:0]x")
     = PostType (str "private-space") (str "x")
         (Js.VStr (str "PRIVATE SPACE")) (Js.VNum 1).
Proof.
  assert (Hne : forall d ds, d :: ds <> ([] : JsString.t)) by done.
  split.
  - exact (private_space_key (str "[Space:Private:") (str "200")
             (str " Vault") eq_refl eq_refl (Hne _ _) eq_refl).
  - exact (private_space_key (str "[SPACE:PRIVATE:") (str "0") (str "x")
             eq_refl eq_refl (Hne _ _) eq_refl).
Defined.

End PostTypeLaws.
